(** * The Mezzano image loader of KBoot: a shallow embedding

    The development follows the loader sources:
    - [loader/mezzano.h]: fixnum codec, boot-information page, block-map flags;
    - [loader/mezzano.c]: memory map, page-info accessors, buddy allocator,
      block-map walker, page loader, the [mezzano] command;
    - [arch/arm64/mmu.c] and [arm64/mmu.h]: the arm64 paging writer.

    Unsigned 64-bit quantities are integers in [0, 2^64) with the wrap-around
    written out; arrays are lists read by index. *)

From Stdlib Require Import ZArith Lia Bool List String.
From stdpp Require Import base list gmap strings.

Local Open Scope Z_scope.

(** ** Machine integers *)

Module Word.

Definition wrap64 (z : Z) : Z := z mod 2 ^ 64.

(** Reinterpretation of a [uint64_t] as an [int64_t]. *)
Definition to_int64 (z : Z) : Z :=
  if z mod 2 ^ 64 <? 2 ^ 63 then z mod 2 ^ 64 else z mod 2 ^ 64 - 2 ^ 64.

Definition is_uint64 (z : Z) : Prop := 0 <= z < 2 ^ 64.
Definition is_int64 (z : Z) : Prop := - 2 ^ 63 <= z < 2 ^ 63.

End Word.

Import Word.

(** ** Fixnum codec ([loader/mezzano.h]) *)

(** [static inline uint64_t fixnum(int64_t val) { return val << 1; }] *)
Definition fixnum (val : Z) : Z := wrap64 (Z.shiftl val 1).

(** [static inline int64_t unfixnum(uint64_t fix) { return ((int64_t)fix) >> 1; }] *)
Definition unfixnum (fx : Z) : Z := Z.shiftr (to_int64 fx) 1.

(** ** Boot-information page ([loader/mezzano.h]) *)

Definition log2_4k_page : Z := 12.
Definition PAGE_SIZE : Z := 4096.
Definition mezzano_n_buddy_bins_32_bit : Z := 32 - log2_4k_page.
Definition mezzano_n_buddy_bins_64_bit : Z := 39 - log2_4k_page.
Definition mezzano_max_memory_map_size : Z := 32.

Record mezzano_buddy_bin := BuddyBin {
  first_page : Z;
  count : Z
}.

Record mezzano_memory_map_entry := MapEntry {
  start : Z;
  end_ : Z
}.

(** The fields of [mezzano_boot_information_t] the memory map and the buddy
    allocator work on; the arrays keep their declared sizes. *)
Record mezzano_boot_information := BootInfo {
  buddy_bin_32 : list mezzano_buddy_bin;
  buddy_bin_64 : list mezzano_buddy_bin;
  n_memory_map_entries : Z;
  memory_map : list mezzano_memory_map_entry
}.

Definition zero_entry : mezzano_memory_map_entry := MapEntry 0 0.
Definition zero_bin : mezzano_buddy_bin := BuddyBin 0 0.

(** The boot-information page after [memset(boot_info, 0, PAGE_SIZE)]. *)
Definition zero_boot_info : mezzano_boot_information :=
  BootInfo (replicate 20 zero_bin) (replicate 27 zero_bin)
           0 (replicate 32 zero_entry).

(** ** Memory map ([loader/mezzano.c]) *)

Module MemoryMap.

Definition in_range (start_ end' value : Z) : bool :=
  (start_ <=? value) && (value <=? end').

(** [memory_map[i]] *)
Definition entry_at (bi : mezzano_boot_information) (i : Z) : mezzano_memory_map_entry :=
  nth (Z.to_nat i) (memory_map bi) zero_entry.

Definition set_entry (bi : mezzano_boot_information) (i : Z)
    (e : mezzano_memory_map_entry) : mezzano_boot_information :=
  BootInfo (buddy_bin_32 bi) (buddy_bin_64 bi) (n_memory_map_entries bi)
           (<[Z.to_nat i := e]> (memory_map bi)).

(** The body is empty in the source (a TODO). *)
Definition crunch_memory_map (bi : mezzano_boot_information) : mezzano_boot_information := bi.

(** How the search loop of [mezzano_insert_into_memory_map] is left:
    through the [return] of the merge branch at entry [i], or (by [break]
    or because [i] reached the count) towards the insertion at [i]. *)
Inductive search_exit :=
| MergeAt (i : Z)
| InsertAt (i : Z).

(** The [for] loop; [todo] is the number of entries not yet examined,
    [n_memory_map_entries - i]. *)
Fixpoint search (bi : mezzano_boot_information) (start_ end' : Z)
    (i : Z) (todo : nat) : search_exit :=
  match todo with
  | O => InsertAt i
  | S todo' =>
      let e := entry_at bi i in
      if start e >? end' then InsertAt i
      else if in_range (start e) (end_ e) start_ || in_range (start e) (end_ e) end'
      then MergeAt i
      else search bi start_ end' (i + 1) todo'
  end.

(** [memmove(&a[dst], &a[src], cnt * sizeof a[0])] inside the array. *)
Definition memmove_entries (a : list mezzano_memory_map_entry) (dst src cnt : nat)
    : list mezzano_memory_map_entry :=
  take dst a ++ take cnt (drop src a) ++ drop (dst + cnt) a.

Definition mezzano_insert_into_memory_map (bi : mezzano_boot_information)
    (start_ end' : Z) : mezzano_boot_information :=
  match search bi start_ end' 0 (Z.to_nat (n_memory_map_entries bi)) with
  | MergeAt i =>
      let e := entry_at bi i in
      let s := if start e >? start_ then start_ else start e in
      let e' := if end_ e <? end' then end' else end_ e in
      crunch_memory_map (set_entry bi i (MapEntry s e'))
  | InsertAt i =>
      if n_memory_map_entries bi =? mezzano_max_memory_map_size then bi
      else
        let moved :=
          memmove_entries (memory_map bi) (Z.to_nat (i + 1)) (Z.to_nat i)
                          (Z.to_nat (n_memory_map_entries bi - i)) in
        crunch_memory_map
          (BootInfo (buddy_bin_32 bi) (buddy_bin_64 bi)
                    (wrap64 (n_memory_map_entries bi + 1))
                    (<[Z.to_nat i := MapEntry start_ end']> moved))
  end.

(** A sequence of calls, first to last. *)
Definition insert_all (bi : mezzano_boot_information) (rs : list (Z * Z))
    : mezzano_boot_information :=
  fold_left (fun b r => mezzano_insert_into_memory_map b (fst r) (snd r)) rs bi.

(** The entries the kernel sees: the first [n_memory_map_entries] slots. *)
Definition entries (bi : mezzano_boot_information) : list mezzano_memory_map_entry :=
  take (Z.to_nat (n_memory_map_entries bi)) (memory_map bi).

(** For all [i < j], [memory_map[i].end < memory_map[j].start]. *)
Fixpoint separated (l : list mezzano_memory_map_entry) : bool :=
  match l with
  | [] => true
  | e :: l' => forallb (fun e' => end_ e <? start e') l' && separated l'
  end.

End MemoryMap.

Import MemoryMap.

(** ** Page-info array ([loader/mezzano.h], [loader/mezzano.c]) *)

Definition page_type_other : Z := 0.
Definition page_type_free : Z := 1.
Definition page_type_wired : Z := 2.
Definition page_type_wired_backing : Z := 3.
Definition page_type_active : Z := 4.
Definition page_type_active_writeback : Z := 5.
Definition page_type_inactive_writeback : Z := 6.
Definition page_type_page_table : Z := 7.

Record mezzano_page_info := PageInfo {
  info_flags : Z;
  info_extra : Z;
  info_next : Z;
  info_prev : Z
}.

Definition zero_page_info : mezzano_page_info := PageInfo 0 0 0 0.

(** The info window at [mezzano_physical_info_address], reached in the source
    through [mmu_memcpy_from] and [mmu_memcpy_to] at
    [mezzano_physical_info_address + (page / PAGE_SIZE) * 32 + offsetof(field)].
    Distinct frame numbers give distinct addresses, so the window is kept as a
    finite map from the frame number [page / PAGE_SIZE] to the four fields;
    [mezzano_finalize_memory_map] zeroes the window when it maps it, hence a
    frame that was never written reads as zero. *)
Abbreviation info_array := (gmap Z mezzano_page_info).

Module PageInfo.

Definition info_at (im : info_array) (page : Z) : mezzano_page_info :=
  default zero_page_info (im !! (page / PAGE_SIZE)).

Definition put_info (im : info_array) (page : Z) (pi : mezzano_page_info) : info_array :=
  <[page / PAGE_SIZE := pi]> im.

Definition page_info_flags (im : info_array) (page : Z) : Z :=
  info_flags (info_at im page).

Definition set_page_info_flags (im : info_array) (page value : Z) : info_array :=
  let pi := info_at im page in
  put_info im page (PageInfo value (info_extra pi) (info_next pi) (info_prev pi)).

Definition page_info_type (im : info_array) (page : Z) : Z :=
  Z.land (unfixnum (page_info_flags im page)) 255.

Definition set_page_info_type (im : info_array) (page value : Z) : info_array :=
  let flags := wrap64 (unfixnum (page_info_flags im page)) in
  let flags := Z.land flags (wrap64 (Z.lnot 255)) in
  let flags := Z.lor flags value in
  set_page_info_flags im page (fixnum (to_int64 flags)).

Definition page_info_bin (im : info_array) (page : Z) : Z :=
  Z.land (Z.shiftr (unfixnum (page_info_flags im page)) 8) 255.

(** [value] is a [uint8_t]. *)
Definition set_page_info_bin (im : info_array) (page value : Z) : info_array :=
  let flags := wrap64 (unfixnum (page_info_flags im page)) in
  let flags := Z.land flags (wrap64 (Z.lnot (Z.shiftl 255 8))) in
  let flags := Z.lor flags (Z.shiftl value 8) in
  set_page_info_flags im page (fixnum (to_int64 flags)).

Definition set_page_info_extra (im : info_array) (page value : Z) : info_array :=
  let pi := info_at im page in
  put_info im page (PageInfo (info_flags pi) value (info_next pi) (info_prev pi)).

Definition page_info_next (im : info_array) (page : Z) : Z :=
  info_next (info_at im page).

Definition set_page_info_next (im : info_array) (page value : Z) : info_array :=
  let pi := info_at im page in
  put_info im page (PageInfo (info_flags pi) (info_extra pi) value (info_prev pi)).

Definition page_info_prev (im : info_array) (page : Z) : Z :=
  info_prev (info_at im page).

Definition set_page_info_prev (im : info_array) (page value : Z) : info_array :=
  let pi := info_at im page in
  put_info im page (PageInfo (info_flags pi) (info_extra pi) (info_next pi) value).

End PageInfo.

Import PageInfo.

(** ** Buddy allocator ([loader/mezzano.c]) *)

Module Buddy.

(** Which of the two arrays of the boot-information page [buddies] points to. *)
Inductive bin_array := Bin32 | Bin64.

#[global] Instance bin_array_eq_dec : EqDecision bin_array.
Proof. solve_decision. Defined.

Definition bins (bi : mezzano_boot_information) (w : bin_array) : list mezzano_buddy_bin :=
  match w with Bin32 => buddy_bin_32 bi | Bin64 => buddy_bin_64 bi end.

(** [buddies[k]] *)
Definition bin_at (bi : mezzano_boot_information) (w : bin_array) (k : Z) : mezzano_buddy_bin :=
  nth (Z.to_nat k) (bins bi w) zero_bin.

Definition set_bin (bi : mezzano_boot_information) (w : bin_array) (k : Z)
    (b : mezzano_buddy_bin) : mezzano_boot_information :=
  match w with
  | Bin32 => BootInfo (<[Z.to_nat k := b]> (buddy_bin_32 bi)) (buddy_bin_64 bi)
                      (n_memory_map_entries bi) (memory_map bi)
  | Bin64 => BootInfo (buddy_bin_32 bi) (<[Z.to_nat k := b]> (buddy_bin_64 bi))
                      (n_memory_map_entries bi) (memory_map bi)
  end.

Definition set_first_page bi w k (v : Z) : mezzano_boot_information :=
  set_bin bi w k (BuddyBin v (count (bin_at bi w k))).

Definition set_count bi w k (v : Z) : mezzano_boot_information :=
  set_bin bi w k (BuddyBin (first_page (bin_at bi w k)) v).

(** [x ^ ((phys_ptr_t)1 << (k + log2_4k_page))] *)
Definition buddy (k x : Z) : Z :=
  Z.lxor x (wrap64 (Z.shiftl 1 (k + log2_4k_page))).

Definition page_exists (bi : mezzano_boot_information) (page : Z) : bool :=
  existsb (fun e => (start e <=? page) && (page <? end_ e)) (entries bi).

(** The [if (l < 0x100000000ull)] at the head of [buddy_free_page]:
    the array and the last bin index [m]. *)
Definition select_bins (l : Z) : bin_array * Z :=
  if l <? 4294967296 then (Bin32, mezzano_n_buddy_bins_32_bit - 1)
  else (Bin64, mezzano_n_buddy_bins_64_bit - 1).

(** The condition under which the [while(1)] loop breaks. *)
Definition loop_breaks (bi : mezzano_boot_information) (im : info_array)
    (m k l : Z) : bool :=
  let p := buddy k l in
  (k =? m)
  || negb (page_exists bi p)
  || negb (page_info_type im p =? page_type_free)
  || ((page_info_type im p =? page_type_free) && negb (page_info_bin im p =? k)).

(** "remove buddy from avail[k]": the statements of the loop body up to
    [buddies[k].count -= fixnum(1)]. *)
Definition unlink_buddy (bi : mezzano_boot_information) (im : info_array)
    (nil : Z) (w : bin_array) (k p : Z) : mezzano_boot_information * info_array :=
  let bi1 :=
    if first_page (bin_at bi w k) =? fixnum (to_int64 (p / PAGE_SIZE))
    then set_first_page bi w k (page_info_next im p) else bi in
  let im1 :=
    if negb (page_info_next im p =? nil)
    then set_page_info_prev im (wrap64 (unfixnum (page_info_next im p) * PAGE_SIZE))
                            (page_info_prev im p)
    else im in
  let im2 :=
    if negb (page_info_prev im1 p =? nil)
    then set_page_info_next im1 (wrap64 (unfixnum (page_info_prev im1 p) * PAGE_SIZE))
                            (page_info_next im1 p)
    else im1 in
  let bi2 := set_count bi1 w k (wrap64 (count (bin_at bi1 w k) - fixnum 1)) in
  (bi2, im2).

(** The [while(1)] loop. Every iteration that does not break increments
    [k], and the loop breaks at [k == m]; [fuel] bounds the iterations and
    [None] stands for an exhausted bound. *)
Fixpoint coalesce (fuel : nat) (bi : mezzano_boot_information) (im : info_array)
    (nil : Z) (w : bin_array) (m k l : Z)
    : option (mezzano_boot_information * info_array * Z * Z) :=
  match fuel with
  | O => None
  | S fuel' =>
      let p := buddy k l in
      if loop_breaks bi im m k l then Some (bi, im, k, l)
      else
        let '(bi', im') := unlink_buddy bi im nil w k p in
        coalesce fuel' bi' im' nil w m (k + 1) (if p <? l then p else l)
  end.

(** The statements after the loop. *)
Definition link_free_page (bi : mezzano_boot_information) (im : info_array)
    (nil : Z) (w : bin_array) (k l : Z) : mezzano_boot_information * info_array :=
  let im1 := set_page_info_type im l page_type_free in
  let im2 := set_page_info_bin im1 l (k mod 256) in
  let im3 := set_page_info_next im2 l (first_page (bin_at bi w k)) in
  let im4 := set_page_info_prev im3 l nil in
  let im5 :=
    if negb (first_page (bin_at bi w k) =? nil)
    then set_page_info_prev im4 (wrap64 (unfixnum (first_page (bin_at bi w k)) * PAGE_SIZE))
                            (fixnum (to_int64 (l / PAGE_SIZE)))
    else im4 in
  let bi1 := set_first_page bi w k (fixnum (to_int64 (l / PAGE_SIZE))) in
  let bi2 := set_count bi1 w k (wrap64 (count (bin_at bi1 w k) + fixnum 1)) in
  (bi2, im5).

(** Bound on the iterations of the loop: [k] runs from 0 to at most [m]. *)
Definition coalesce_fuel (m : Z) : nat := S (Z.to_nat m).

Definition buddy_free_page (bi : mezzano_boot_information) (im : info_array)
    (nil l : Z) : option (mezzano_boot_information * info_array) :=
  let '(w, m) := select_bins l in
  match coalesce (coalesce_fuel m) bi im nil w m 0 l with
  | Some (bi', im', k, l') => Some (link_free_page bi' im' nil w k l')
  | None => None
  end.

(** The buddy heads as [mezzano_loader_load] initialises them. *)
Definition init_buddy_bins (bi : mezzano_boot_information) (nil : Z)
    : mezzano_boot_information :=
  BootInfo (replicate (Z.to_nat mezzano_n_buddy_bins_32_bit) (BuddyBin nil (fixnum 0)))
           (replicate (Z.to_nat mezzano_n_buddy_bins_64_bit) (BuddyBin nil (fixnum 0)))
           (n_memory_map_entries bi) (memory_map bi).

End Buddy.

Import Buddy.

(** ** Block-map entries ([loader/mezzano.h]) *)

Definition BLOCK_MAP_PRESENT : Z := 1.
Definition BLOCK_MAP_WRITABLE : Z := 2.
Definition BLOCK_MAP_ZERO_FILL : Z := 4.
Definition BLOCK_MAP_WIRED : Z := 16.
Definition BLOCK_MAP_TRACK_DIRTY : Z := 32.
Definition BLOCK_MAP_TRANSIENT : Z := 64.
Definition BLOCK_MAP_FLAG_MASK : Z := 255.
Definition BLOCK_MAP_ID_SHIFT : Z := 8.

(** [(x & mask) != 0], the truth value of [x & mask] in a condition. *)
Definition has_flag (x mask : Z) : bool := negb (Z.land x mask =? 0).

(** The image as the loader reads it, through [device_read] or [fs_read]:
    4096 bytes at a byte offset, or [None] for a non-zero status. The bytes of
    a block are kept as the 512 little-endian 64-bit words the loader reads
    them as. *)
Definition image := Z -> option (list Z).

(** ** Releasing the final memory map and loading pages
       ([mezzano_loader_load], [load_page] in [loader/mezzano.c]) *)

Module Loader.

(** The types of physical memory ranges the loader tells apart. *)
Inductive memory_type :=
| MEMORY_TYPE_FREE
| MEMORY_TYPE_ALLOCATED
| MEMORY_TYPE_PAGETABLES
| MEMORY_TYPE_INTERNAL.

Definition is_free (t : memory_type) : bool :=
  match t with MEMORY_TYPE_FREE => true | _ => false end.
Definition is_pagetables (t : memory_type) : bool :=
  match t with MEMORY_TYPE_PAGETABLES => true | _ => false end.

(** [memory_range_t]: a range of the boot loader's own memory map. *)
Record memory_range := MemoryRange {
  range_start : Z;
  range_size : Z;
  range_type : memory_type
}.

(** The body of [for(phys_ptr_t i = 0; i < range->size; i += PAGE_SIZE)]
    in [mezzano_loader_load], for the pages [i], [i + PAGE_SIZE], ... of one
    range; [todo] counts the pages left. *)
Fixpoint release_pages (todo : nat) (bi : mezzano_boot_information) (im : info_array)
    (nil : Z) (range : memory_range) (i : Z)
    : option (mezzano_boot_information * info_array) :=
  match todo with
  | O => Some (bi, im)
  | S todo' =>
      if is_free (range_type range)
         && (wrap64 (range_start range + i) >? 1024 * 1024)
      then
        match buddy_free_page bi im nil (wrap64 (range_start range + i)) with
        | Some (bi', im') => release_pages todo' bi' im' nil range (i + PAGE_SIZE)
        | None => None
        end
      else if is_pagetables (range_type range)
      then release_pages todo' bi
             (set_page_info_type im (wrap64 (range_start range + i)) page_type_page_table)
             nil range (i + PAGE_SIZE)
      else release_pages todo' bi im nil range (i + PAGE_SIZE)
  end.

(** Number of iterations of the loop: the least [n] with
    [n * PAGE_SIZE >= size]. *)
Definition range_pages (range : memory_range) : nat :=
  Z.to_nat ((range_size range + PAGE_SIZE - 1) / PAGE_SIZE).

Definition release_range (bi : mezzano_boot_information) (im : info_array)
    (nil : Z) (range : memory_range) : option (mezzano_boot_information * info_array) :=
  release_pages (range_pages range) bi im nil range 0.

(** [list_foreach(&kboot_memory_map, iter)] *)
Fixpoint release_ranges (ranges : list memory_range) (bi : mezzano_boot_information)
    (im : info_array) (nil : Z) : option (mezzano_boot_information * info_array) :=
  match ranges with
  | [] => Some (bi, im)
  | r :: rest =>
      match release_range bi im nil r with
      | Some (bi', im') => release_ranges rest bi' im' nil
      | None => None
      end
  end.

Record page_chunk := PageChunk {
  bootloader_virt : Z;
  phys_addr : Z;
  remaining : Z
}.

Definition PAGE_CHUNK_SIZE : Z := 8 * 1024 * 1024.

(** One [mmu_map] call on the kernel context (the six-argument form). *)
Record mapping := Mapping {
  map_virt : Z;
  map_phys : Z;
  map_size : Z;
  map_writable : bool
}.

(** What [load_page] reads and writes: the loader's counters and flags,
    the info window and the mappings of the kernel context, the next
    address the page allocator hands out, and the contents of the loader's
    pages. *)
Record load_state := LoadState {
  freestanding : bool;
  page_count : Z;
  n_pages_loaded : Z;
  infos : info_array;
  kernel_maps : list mapping;
  next_alloc : Z;
  loader_pages : gmap Z (list Z)
}.

(** Modelled from the spec: the platform page allocator [memory_alloc],
    which is not among the sources. It is a linear pool: a frame handed out
    is never returned, and the loader addresses the frame at its physical
    address. The result is the physical address and the pool afterwards. *)
Definition memory_alloc (next size : Z) : Z * Z := (next, wrap64 (next + size)).

Definition load_page (img : image) (st : load_state) (info virtual : Z)
    (chunk : page_chunk) : option (load_state * page_chunk) :=
  if (Z.land info BLOCK_MAP_PRESENT =? 0) || has_flag info BLOCK_MAP_TRANSIENT
  then Some (st, chunk)
  else
    (* Alloc phys. *)
    let '(chunk1, next1) :=
      if remaining chunk =? 0 then
        let chunk_size :=
          Z.min PAGE_CHUNK_SIZE (wrap64 (wrap64 (page_count st - n_pages_loaded st) * PAGE_SIZE)) in
        let '(phys, next') := memory_alloc (next_alloc st) chunk_size in
        (PageChunk phys phys chunk_size, next')
      else (chunk, next_alloc st) in
    let phys := phys_addr chunk1 in
    let virt := bootloader_virt chunk1 in
    let chunk2 := PageChunk (wrap64 (bootloader_virt chunk1 + PAGE_SIZE))
                            (wrap64 (phys_addr chunk1 + PAGE_SIZE))
                            (wrap64 (remaining chunk1 - PAGE_SIZE)) in
    (* Map, writable only if writable and not doing dirty tracking. *)
    let maps :=
      kernel_maps st ++
      [Mapping virtual phys PAGE_SIZE
               (has_flag info BLOCK_MAP_WRITABLE && negb (has_flag info BLOCK_MAP_TRACK_DIRTY))] in
    (* Write block number to page info struct. *)
    let im1 := set_page_info_extra (infos st) phys
                 (fixnum (to_int64 (Z.shiftr info BLOCK_MAP_ID_SHIFT))) in
    let im2 :=
      if has_flag info BLOCK_MAP_WIRED
      then set_page_info_type im1 phys page_type_wired
      else set_page_info_type im1 phys page_type_active in
    let contents :=
      if has_flag info BLOCK_MAP_ZERO_FILL then Some (replicate 512 0)
      else img (wrap64 (Z.shiftr info BLOCK_MAP_ID_SHIFT * 4096)) in
    match contents with
    | None => None (* boot_error *)
    | Some page =>
        Some (LoadState (freestanding st) (page_count st)
                        (wrap64 (n_pages_loaded st + 1))
                        im2 maps next1 (<[virt := page]> (loader_pages st)),
              chunk2)
    end.

(** The guard in front of [load_page] in the innermost loop of
    [mezzano_read_wired_pages]: in normal mode an entry without the WIRED
    flag is skipped. *)
Definition skipped (st : load_state) (entry : Z) : bool :=
  negb (freestanding st) && (Z.land entry BLOCK_MAP_WIRED =? 0).

(** The innermost loop over the entries of a level-1 table ([bml1]), the
    first of them standing for the virtual address [address]. *)
Fixpoint load_level1 (img : image) (st : load_state) (chunk : page_chunk)
    (bml1 : list Z) (address : Z) : option (load_state * page_chunk) :=
  match bml1 with
  | [] => Some (st, chunk)
  | entry :: rest =>
      if skipped st entry then load_level1 img st chunk rest (address + 4096)
      else
        match load_page img st entry address chunk with
        | Some (st', chunk') => load_level1 img st' chunk' rest (address + 4096)
        | None => None
        end
  end.

End Loader.

Import Loader.

(** ** The [mezzano] command ([config_cmd_mezzano] in [loader/mezzano.c]) *)

Module Command.

(** [mezzano_header_t] *)
Record mezzano_header := Header {
  magic : list Z;
  uuid : list Z;
  protocol_major : Z;
  protocol_minor : Z;
  entry_fref : Z;
  initial_process : Z;
  header_nil : Z;
  architecture : Z;
  initial_stack_pointer : Z;
  bml4 : Z;
  freelist_head : Z
}.

(** ["\x00MezzanineImage\x00"] *)
Definition mezzano_magic : list Z :=
  [0; 77; 101; 122; 122; 97; 110; 105; 110; 101; 73; 109; 97; 103; 101; 0].
Definition mezzano_protocol_major : Z := 0.
Definition mezzano_protocol_minor : Z := 26.

(** A [value_t] of the argument list: a string, or a value of another type. *)
Inductive value :=
| VALUE_STRING (s : string)
| VALUE_OTHER.

(** A device as the command uses it: its name, whether its type is
    [DEVICE_TYPE_DISK], and what [device_read] of the first
    [sizeof(mezzano_header_t)] bytes gives ([None] for a non-zero status). *)
Record device := Device {
  device_name : string;
  device_is_disk : bool;
  device_header : option mezzano_header
}.

(** An open file: what [fs_read] of the header gives. *)
Record fs_handle := FsHandle {
  file_header : option mezzano_header
}.

(** The services of the boot loader the command calls. [uuid_string h] is
    the text [snprintf("%pU", h.uuid)] prints and [strcasecmp_eq] the test
    [strcasecmp(a, b) == 0]; [memory_snapshot] lists the sizes of the ranges
    of the physical memory map. *)
Record environment := Environment {
  device_list : list device;
  device_lookup : string -> option device;
  fs_open : string -> option fs_handle;
  uuid_string : mezzano_header -> string;
  strcasecmp_eq : string -> string -> bool;
  memory_snapshot : list Z
}.

(** [mezzano_loader_t] as the command fills it. *)
Record mezzano_loader := Loader {
  header : mezzano_header;
  disk : option device;
  image_file : option fs_handle;
  loader_device_name : string;
  force_ro : bool;
  is_freestanding : bool;
  video_console : bool;
  no_detect : bool;
  no_smp : bool;
  verbose : bool
}.

(** The [config_error] calls of the command. *)
Inductive config_error :=
| Invalid_arguments
| Invalid_or_unsupported_device
| Unable_to_locate
| Bad_option
| Unsupported_option (s : string)
| Insufficient_memory
| IO_error
| Bad_header
| Unsupported_protocol_major
| Unsupported_protocol_minor.

(** The list scan of [mezzano_locate_image] for a ["uuid:"] path. *)
Fixpoint find_uuid (env : environment) (path_uuid : string) (devs : list device)
    : option device :=
  match devs with
  | [] => None
  | d :: rest =>
      match device_header d with
      | None => find_uuid env path_uuid rest
      | Some h =>
          if negb (bool_decide (magic h = mezzano_magic)) then find_uuid env path_uuid rest
          else if strcasecmp_eq env (uuid_string env h) path_uuid then Some d
          else find_uuid env path_uuid rest
      end
  end.

Definition mezzano_locate_image (env : environment) (path : string)
    : config_error + (option device * option fs_handle) :=
  let found :=
    if String.prefix "uuid:" path
    then find_uuid env (String.substring 5 (String.length path - 5) path) (device_list env)
    else None in
  match found with
  | Some d => inr (Some d, None)
  | None =>
      match device_lookup env path with
      | Some d =>
          if negb (device_is_disk d) then inl Invalid_or_unsupported_device
          else inr (Some d, None)
      | None =>
          match fs_open env path with
          | None => inl Unable_to_locate
          | Some f => inr (None, Some f)
          end
      end
  end.

(** The loop over [args->values[1 ..]]; the boolean is [skip_memory_test]. *)
Fixpoint parse_options (opts : list value) (data : mezzano_loader) (skip : bool)
    : config_error + (mezzano_loader * bool) :=
  match opts with
  | [] => inr (data, skip)
  | VALUE_OTHER :: _ => inl Bad_option
  | VALUE_STRING s :: rest =>
      let h := header data in
      let d := disk data in let f := image_file data in let n := loader_device_name data in
      if String.eqb s "read-only" then
        parse_options rest (Loader h d f n true (is_freestanding data) (video_console data)
                                   (no_detect data) (no_smp data) (verbose data)) skip
      else if String.eqb s "freestanding" then
        parse_options rest (Loader h d f n (force_ro data) true (video_console data)
                                   (no_detect data) (no_smp data) (verbose data)) skip
      else if String.eqb s "video-console" then
        parse_options rest (Loader h d f n (force_ro data) (is_freestanding data) true
                                   (no_detect data) (no_smp data) (verbose data)) skip
      else if String.eqb s "no-detect" then
        parse_options rest (Loader h d f n (force_ro data) (is_freestanding data)
                                   (video_console data) true (no_smp data) (verbose data)) skip
      else if String.eqb s "no-smp" then
        parse_options rest (Loader h d f n (force_ro data) (is_freestanding data)
                                   (video_console data) (no_detect data) true (verbose data)) skip
      else if String.eqb s "i-promise-i-have-enough-memory" then
        parse_options rest data true
      else if String.eqb s "verbose" then
        parse_options rest (Loader h d f n (force_ro data) (is_freestanding data)
                                   (video_console data) (no_detect data) (no_smp data) true) skip
      else inl (Unsupported_option s)
  end.

Definition zero_header : mezzano_header :=
  Header (replicate 16 0) (replicate 16 0) 0 0 0 0 0 0 0 0 0.

(** The command up to and including the read of the header: the loader
    data with the header in place, or the error reported. *)
Definition read_image_header (env : environment) (args : list value)
    : config_error + mezzano_loader :=
  match args with
  | VALUE_STRING path :: opts =>
      match mezzano_locate_image env path with
      | inl e => inl e
      | inr (dev, file) =>
          let data := Loader zero_header dev file path false false false false false false in
          match parse_options opts data false with
          | inl e => inl e
          | inr (data, skip_memory_test) =>
              if negb skip_memory_test
                 && (fold_left (fun acc size => wrap64 (acc + size)) (memory_snapshot env) 0
                     <? 500 * 1024 * 1024)
              then inl Insufficient_memory
              else
                let read :=
                  match disk data, image_file data with
                  | Some d, _ => device_header d
                  | None, Some f => file_header f
                  | None, None => None
                  end in
                match read with
                | None => inl IO_error
                | Some h =>
                    inr (Loader h (disk data) (image_file data) (loader_device_name data)
                                (force_ro data) (is_freestanding data) (video_console data)
                                (no_detect data) (no_smp data) (verbose data))
                end
          end
      end
  | _ => inl Invalid_arguments
  end.

(** The checks on the header that follow the read. *)
Definition check_header (h : mezzano_header) : option config_error :=
  if negb (bool_decide (magic h = mezzano_magic)) then Some Bad_header
  else if negb (protocol_major h =? mezzano_protocol_major) then Some Unsupported_protocol_major
  else if ((protocol_major h =? 0) && negb (protocol_minor h =? mezzano_protocol_minor))
          || (negb (protocol_major h =? 0) && (protocol_minor h >? mezzano_protocol_minor))
  then Some Unsupported_protocol_minor
  else None.

(** The outcome: the error passed to [config_error] (the command returns
    false), or the loader data handed to [environ_set_loader] (it returns
    true). *)
Definition config_cmd_mezzano (env : environment) (args : list value)
    : config_error + mezzano_loader :=
  match read_image_header env args with
  | inl e => inl e
  | inr data =>
      match check_header (header data) with
      | Some e => inl e
      | None => inr data
      end
  end.

Definition returns (r : config_error + mezzano_loader) : bool :=
  match r with inl _ => false | inr _ => true end.

End Command.

(** ** Block-map walker ([read_cached_block], [read_info_for_page]
       in [loader/mezzano.c]) *)

Module BlockMap.

(** [block_cache_entry_t]: the block number and the page the block was
    read into. *)
Record block_cache_entry := CacheEntry {
  block : Z;
  data : list Z
}.

(** The search of the cache list: the entry found and the list without it. *)
Fixpoint cache_find (block_id : Z) (cache : list block_cache_entry)
    : option (block_cache_entry * list block_cache_entry) :=
  match cache with
  | [] => None
  | e :: rest =>
      if block e =? block_id then Some (e, rest)
      else
        match cache_find block_id rest with
        | Some (found, rest') => Some (found, e :: rest')
        | None => None
        end
  end.

(** The block and the cache afterwards; [None] is [boot_error]. *)
Definition read_cached_block (img : image) (cache : list block_cache_entry)
    (block_id : Z) : option (list Z * list block_cache_entry) :=
  match cache_find block_id cache with
  | Some (e, rest) =>
      (* Bring recently used blocks to the front of the list. *)
      Some (data e, e :: rest)
  | None =>
      (* Not present in cache. Read from disk. *)
      match img (wrap64 (block_id * 4096)) with
      | Some d => Some (d, CacheEntry block_id d :: cache)
      | None => None
      end
  end.

(** [table[i]] for a block read as [uint64_t *]. *)
Definition word_at (table : list Z) (i : Z) : Z := nth (Z.to_nat i) table 0.

Definition read_info_for_page (img : image) (root : Z) (cache : list block_cache_entry)
    (virtual : Z) : option (Z * list block_cache_entry) :=
  (* Indices into each level of the block map. *)
  let bml4i := Z.land (Z.shiftr virtual 39) 511 in
  let bml3i := Z.land (Z.shiftr virtual 30) 511 in
  let bml2i := Z.land (Z.shiftr virtual 21) 511 in
  let bml1i := Z.land (Z.shiftr virtual 12) 511 in
  match read_cached_block img cache root with
  | None => None
  | Some (bml4, cache) =>
      if Z.land (word_at bml4 bml4i) BLOCK_MAP_PRESENT =? 0 then Some (0, cache)
      else
        match read_cached_block img cache (Z.shiftr (word_at bml4 bml4i) BLOCK_MAP_ID_SHIFT) with
        | None => None
        | Some (bml3, cache) =>
            if Z.land (word_at bml3 bml3i) BLOCK_MAP_PRESENT =? 0 then Some (0, cache)
            else
              match read_cached_block img cache
                      (Z.shiftr (word_at bml3 bml3i) BLOCK_MAP_ID_SHIFT) with
              | None => None
              | Some (bml2, cache) =>
                  if Z.land (word_at bml2 bml2i) BLOCK_MAP_PRESENT =? 0 then Some (0, cache)
                  else
                    match read_cached_block img cache
                            (Z.shiftr (word_at bml2 bml2i) BLOCK_MAP_ID_SHIFT) with
                    | None => None
                    | Some (bml1, cache) => Some (word_at bml1 bml1i, cache)
                    end
              end
        end
  end.

(** *** The walk as the specification words it *)

(** The 9-bit index of a level: bits [47:39], [38:30], [29:21], [20:12]
    for levels 4, 3, 2, 1. *)
Definition level_index (level virtual : Z) : Z :=
  (virtual / 2 ^ (12 + 9 * (level - 1))) mod 512.

Definition is_present (entry : Z) : bool := Z.testbit entry 0.

(** The block numbered [id] of the image. *)
Definition disk_block (img : image) (id : Z) : option (list Z) :=
  img (wrap64 (id * 4096)).

(** Descend from the table in block [table_id] at [level]: a level above 1
    gives 0 for an entry that is not PRESENT and otherwise descends to the
    block [entry >> 8]; level 1 gives the entry as it is. [None] is a
    failed read. *)
Fixpoint descend (img : image) (levels : nat) (table_id virtual : Z) : option Z :=
  match disk_block img table_id with
  | None => None
  | Some table =>
      let entry := word_at table (level_index (Z.of_nat (S levels)) virtual) in
      match levels with
      | O => Some entry
      | S levels' =>
          if is_present entry then descend img levels' (entry / 2 ^ 8) virtual
          else Some 0
      end
  end.

Definition resolve (img : image) (root virtual : Z) : option Z :=
  descend img 3 root virtual.

(** Every cached block holds what the image holds. *)
Definition coherent (img : image) (cache : list block_cache_entry) : Prop :=
  Forall (fun e => disk_block img (block e) = Some (data e)) cache.

(** *** A synthetic block map with a single PRESENT page *)

(** A table that is zero but for entry [i]. *)
Definition table_with (i entry : Z) : list Z :=
  <[Z.to_nat i := entry]> (replicate 512 0).

(** The image in which the root block [root] leads, through the blocks
    [b3], [b2] and [b1], to the level-1 entry [leaf] of the page of [v0],
    and every other entry of every block is zero. *)
Definition synthetic_image (root b3 b2 b1 v0 leaf : Z) : image :=
  fun offset =>
    if offset =? wrap64 (root * 4096)
    then Some (table_with (level_index 4 v0) (Z.lor (Z.shiftl b3 8) BLOCK_MAP_PRESENT))
    else if offset =? wrap64 (b3 * 4096)
    then Some (table_with (level_index 3 v0) (Z.lor (Z.shiftl b2 8) BLOCK_MAP_PRESENT))
    else if offset =? wrap64 (b2 * 4096)
    then Some (table_with (level_index 2 v0) (Z.lor (Z.shiftl b1 8) BLOCK_MAP_PRESENT))
    else if offset =? wrap64 (b1 * 4096)
    then Some (table_with (level_index 1 v0) leaf)
    else Some (replicate 512 0).

End BlockMap.

(** ** The arm64 paging writer ([arm64/mmu.h], [arch/arm64/mmu.c]) *)

Module Arm64.

Definition ARM64_TTE_PRESENT : Z := 1.
Definition ARM64_TTE_TABLE : Z := 2.
Definition ARM64_TTE_PAGE : Z := 2.
Definition ARM64_TTE_AF : Z := 1024.
Definition ARM64_TTE_AP_P_RW_U_NA : Z := 0.
Definition ARM64_TTE_SH_INNER_SHAREABLE : Z := 768.
Definition ARM64_TTE_ADDR_MASK : Z := 0x00007ffffffff000.
Definition ARM64_TTL1_RANGE : Z := 0x8000000000.
Definition ARM64_TTL2_RANGE : Z := 0x40000000.
Definition ARM64_TTL3_RANGE : Z := 0x200000.
(** Modelled from the spec: [LARGE_PAGE_SIZE] of [arch/page.h], which is not
    among the sources; the specification maps with 2-MiB large pages. *)
Definition LARGE_PAGE_SIZE : Z := 0x200000.

(** [((uint64_t)((int64_t)addr >> 48) + 1) <= 1] *)
Definition is_canonical_addr (addr : Z) : bool :=
  wrap64 (Z.shiftr (to_int64 addr) 48 + 1) <=? 1.

Definition is_canonical_range (start_ size : Z) : bool :=
  let end' := wrap64 (start_ + size - 1) in
  is_canonical_addr start_
  && is_canonical_addr end'
  && (Z.land start_ (Z.shiftl 1 48) =? Z.land end' (Z.shiftl 1 48)).

Record mmu_context := Context {
  ttbr0 : Z;
  ttbr1 : Z;
  phys_type : Z
}.

(** Physical memory, a byte per address; the loader addresses it at the
    physical address ([phys_to_virt] is the identity). *)
Definition memory := Z -> Z.

(** Memory and the page allocator: [pool] is the lowest frame handed out so
    far. *)
Record machine := Machine {
  mem : memory;
  pool : Z
}.

Fixpoint load_le (m : memory) (a : Z) (n : nat) : Z :=
  match n with
  | O => 0
  | S n' => m a mod 256 + 256 * load_le m (a + 1) n'
  end.

(** A little-endian [uint64_t] load and store. *)
Definition read64 (m : memory) (a : Z) : Z := load_le m a 8.

Definition write64 (m : memory) (a v : Z) : memory :=
  fun x => if (a <=? x) && (x <? a + 8) then Z.shiftr v (8 * (x - a)) mod 256 else m x.

(** [table[i]] and [table[i] = v] for a [uint64_t *table]. *)
Definition entry (m : memory) (table i : Z) : Z := read64 m (table + 8 * i).
Definition set_entry (m : memory) (table i v : Z) : memory := write64 m (table + 8 * i) v.

Definition memset (m : memory) (dst c n : Z) : memory :=
  fun x => if (dst <=? x) && (x <? dst + n) then c else m x.

Definition memcpy (m : memory) (dst src n : Z) : memory :=
  fun x => if (dst <=? x) && (x <? dst + n) then m (src + (x - dst)) else m x.

(** Modelled from the spec: the platform page allocator [memory_alloc], which
    is not among the sources. It is a linear pool whose frames are never
    returned; with [MEMORY_ALLOC_HIGH] it hands out the frame below the last
    one. [allocate_structure] zeroes the frame. *)
Definition allocate_structure (mc : machine) (ctx : mmu_context) : Z * machine :=
  let phys := wrap64 (pool mc - PAGE_SIZE) in
  (phys, Machine (memset (mem mc) phys 0 PAGE_SIZE) phys).

(** One level of [get_ttl2]: the table the entry [i] of [table] points to,
    allocated when the entry is not present and [alloc] is set; 0 is [NULL]. *)
Definition next_table (mc : machine) (ctx : mmu_context) (table i : Z) (alloc : bool)
    : Z * machine :=
  if negb (has_flag (entry (mem mc) table i) ARM64_TTE_PRESENT) then
    if negb alloc then (0, mc)
    else
      let '(addr, mc') := allocate_structure mc ctx in
      let m' := set_entry (mem mc') table i
                  (Z.lor (Z.lor addr ARM64_TTE_PRESENT) ARM64_TTE_TABLE) in
      (Z.land (entry m' table i) ARM64_TTE_ADDR_MASK, Machine m' (pool mc'))
  else (Z.land (entry (mem mc) table i) ARM64_TTE_ADDR_MASK, mc).

Definition get_ttl2 (mc : machine) (ctx : mmu_context) (virt : Z) (alloc : bool)
    : Z * machine :=
  let ttl0 := if has_flag virt 0x8000000000000000 then ttbr1 ctx else ttbr0 ctx in
  (* Get the page directory pointer number. *)
  let ttl0e := (virt / ARM64_TTL1_RANGE) mod 512 in
  if negb (has_flag (entry (mem mc) ttl0 ttl0e) ARM64_TTE_PRESENT) && negb alloc then (0, mc)
  else
    let '(ttl1, mc1) := next_table mc ctx ttl0 ttl0e alloc in
    (* Get the page directory number. *)
    let ttl1e := (virt mod ARM64_TTL1_RANGE) / ARM64_TTL2_RANGE in
    if negb (has_flag (entry (mem mc1) ttl1 ttl1e) ARM64_TTE_PRESENT) && negb alloc
    then (0, mc1)
    else next_table mc1 ctx ttl1 ttl1e alloc.

(** [None] is a failed [assert]. *)
Definition map_large (mc : machine) (ctx : mmu_context) (virt phys : Z) : option machine :=
  if negb (virt mod LARGE_PAGE_SIZE =? 0) || negb (phys mod LARGE_PAGE_SIZE =? 0) then None
  else
    let '(ttl2, mc1) := get_ttl2 mc ctx virt true in
    let pde := (virt mod ARM64_TTL2_RANGE) / LARGE_PAGE_SIZE in
    Some (Machine
            (set_entry (mem mc1) ttl2 pde
               (Z.lor (Z.lor (Z.lor (Z.lor phys ARM64_TTE_PRESENT) ARM64_TTE_AF)
                             ARM64_TTE_SH_INNER_SHAREABLE) ARM64_TTE_AP_P_RW_U_NA))
            (pool mc1)).

Definition map_small (mc : machine) (ctx : mmu_context) (virt phys : Z) : option machine :=
  if negb (virt mod PAGE_SIZE =? 0) || negb (phys mod PAGE_SIZE =? 0) then None
  else
    let '(ttl2, mc1) := get_ttl2 mc ctx virt true in
    (* Get the page directory entry number. *)
    let pde := (virt mod ARM64_TTL2_RANGE) / ARM64_TTL3_RANGE in
    (* Get the page table from the page directory. *)
    let '(ttl3, mc2) := next_table mc1 ctx ttl2 pde true in
    (* Map the page. *)
    let pte := (virt mod ARM64_TTL3_RANGE) / PAGE_SIZE in
    Some (Machine
            (set_entry (mem mc2) ttl3 pte
               (Z.lor (Z.lor (Z.lor (Z.lor (Z.lor phys ARM64_TTE_PRESENT) ARM64_TTE_PAGE)
                                    ARM64_TTE_AF)
                             ARM64_TTE_SH_INNER_SHAREABLE) ARM64_TTE_AP_P_RW_U_NA))
            (pool mc2)).

(** The state of the loops of [mmu_map]. *)
Record map_cursor := Cursor {
  cur_machine : machine;
  cur_virt : Z;
  cur_phys : Z;
  cur_size : Z
}.

(** [map_small] or [map_large] followed by the three updates of a loop body. *)
Definition map_step (large : bool) (ctx : mmu_context) (c : map_cursor) : option map_cursor :=
  let step := if large then LARGE_PAGE_SIZE else PAGE_SIZE in
  match (if large then map_large else map_small) (cur_machine c) ctx (cur_virt c) (cur_phys c) with
  | None => None
  | Some mc =>
      Some (Cursor mc (wrap64 (cur_virt c + step)) (wrap64 (cur_phys c + step))
                   (wrap64 (cur_size c - step)))
  end.

(** [while (virt % LARGE_PAGE_SIZE && size)] with small pages. [None] is a
    failed [assert] or an exhausted bound on the iterations. *)
Fixpoint align_loop (fuel : nat) (ctx : mmu_context) (c : map_cursor) : option map_cursor :=
  if negb (cur_virt c mod LARGE_PAGE_SIZE =? 0) && negb (cur_size c =? 0) then
    match fuel with
    | O => None
    | S fuel' =>
        match map_step false ctx c with
        | None => None
        | Some c' => align_loop fuel' ctx c'
        end
    end
  else Some c.

(** [while (size / LARGE_PAGE_SIZE)] with large pages. *)
Fixpoint large_loop (fuel : nat) (ctx : mmu_context) (c : map_cursor) : option map_cursor :=
  if negb (cur_size c / LARGE_PAGE_SIZE =? 0) then
    match fuel with
    | O => None
    | S fuel' =>
        match map_step true ctx c with
        | None => None
        | Some c' => large_loop fuel' ctx c'
        end
    end
  else Some c.

(** [while (size)] with small pages. *)
Fixpoint small_loop (fuel : nat) (ctx : mmu_context) (c : map_cursor) : option map_cursor :=
  if negb (cur_size c =? 0) then
    match fuel with
    | O => None
    | S fuel' =>
        match map_step false ctx c with
        | None => None
        | Some c' => small_loop fuel' ctx c'
        end
    end
  else Some c.

(** Bound on the iterations of the loops: no loop maps more pages than
    [size] holds. *)
Definition map_fuel (size : Z) : nat := Z.to_nat (size / PAGE_SIZE).

(** The return value and the machine afterwards; [None] is a failed
    [assert]. *)
Definition mmu_map (mc : machine) (ctx : mmu_context) (virt phys size : Z)
    : option (bool * machine) :=
  if negb (virt mod PAGE_SIZE =? 0) || negb (phys mod PAGE_SIZE =? 0)
     || negb (size mod PAGE_SIZE =? 0) then None
  else if negb (is_canonical_range virt size) then Some (false, mc)
  else
    let c0 := Cursor mc virt phys size in
    let c1 :=
      if virt mod LARGE_PAGE_SIZE =? phys mod LARGE_PAGE_SIZE then
        match align_loop (map_fuel size) ctx c0 with
        | None => None
        | Some c => large_loop (map_fuel size) ctx c
        end
      else Some c0 in
    (* Map whatever remains. *)
    match c1 with
    | None => None
    | Some c =>
        match small_loop (map_fuel size) ctx c with
        | None => None
        | Some c' => Some (true, cur_machine c')
        end
    end.

(** Memory operation mode. *)
Inductive mem_op := MMU_MEM_SET | MMU_MEM_COPY_TO | MMU_MEM_COPY_FROM.

(** The memory and [*_value] afterwards. *)
Definition do_mem_op (m : memory) (page page_size : Z) (op : mem_op) (value : Z)
    : memory * Z :=
  match op with
  | MMU_MEM_SET => (memset m page (value mod 256) page_size, value)
  | MMU_MEM_COPY_TO => (memcpy m page value page_size, wrap64 (value + page_size))
  | MMU_MEM_COPY_FROM => (memcpy m value page page_size, wrap64 (value + page_size))
  end.

(** The part of the loop body of [mmu_mem_op] that finds [page] and
    [page_size], with the cached [ttl2] and [ttl3] (0 is [NULL]); [None] is
    [return false]. The result is [(page, page_size, ttl2, ttl3)]. *)
Definition find_page (m : memory) (ctx : mmu_context) (addr ttl2 ttl3 : Z)
    : option (Z * Z * Z * Z) :=
  (* If we have crossed a page directory boundary, get new directory. *)
  let ttl2' :=
    if (ttl2 =? 0) || (addr mod ARM64_TTL2_RANGE =? 0)
    then fst (get_ttl2 (Machine m 0) ctx addr false) else ttl2 in
  if ttl2' =? 0 then None
  else
    (* Same for page table. *)
    let walk2 :=
      if (ttl3 =? 0) || (addr mod ARM64_TTL3_RANGE =? 0) then
        let pde := (addr mod ARM64_TTL2_RANGE) / ARM64_TTL3_RANGE in
        if negb (has_flag (entry m ttl2' pde) ARM64_TTE_PRESENT) then None
        else if has_flag (entry m ttl2' pde) ARM64_TTE_TABLE
        then Some (0, 0, Z.land (entry m ttl2' pde) ARM64_TTE_ADDR_MASK)
        else Some (Z.land (entry m ttl2' pde) ARM64_TTE_ADDR_MASK + addr mod LARGE_PAGE_SIZE,
                   LARGE_PAGE_SIZE - addr mod LARGE_PAGE_SIZE, 0)
      else Some (0, 0, ttl3) in
    match walk2 with
    | None => None
    | Some (page, page_size, ttl3') =>
        if negb (ttl3' =? 0) then
          let pte := (addr mod ARM64_TTL3_RANGE) / PAGE_SIZE in
          if negb (has_flag (entry m ttl3' pte) ARM64_TTE_PRESENT) then None
          else Some (Z.land (entry m ttl3' pte) ARM64_TTE_ADDR_MASK + addr mod PAGE_SIZE,
                     PAGE_SIZE - addr mod PAGE_SIZE, ttl2', ttl3')
        else Some (page, page_size, ttl2', ttl3')
    end.

(** The [while (size)] loop of [mmu_mem_op]: the return value and the memory
    afterwards; [None] is an exhausted bound on the iterations. *)
Fixpoint mem_op_loop (fuel : nat) (m : memory) (ctx : mmu_context)
    (addr size : Z) (op : mem_op) (value ttl2 ttl3 : Z) : option (bool * memory) :=
  if size =? 0 then Some (true, m)
  else
    match fuel with
    | O => None
    | S fuel' =>
        match find_page m ctx addr ttl2 ttl3 with
        | None => Some (false, m)
        | Some (page, page_size, ttl2', ttl3') =>
            let page_size := Z.min page_size size in
            let '(m', value') := do_mem_op m page page_size op value in
            mem_op_loop fuel' m' ctx (wrap64 (addr + page_size)) (wrap64 (size - page_size))
                        op value' ttl2' ttl3'
        end
    end.

(** Every iteration that goes on consumes at least one byte of a mapped
    page. *)
Definition mem_op_fuel (size : Z) : nat := Z.to_nat size.

Definition mmu_mem_op (m : memory) (ctx : mmu_context) (addr size : Z) (op : mem_op)
    (value : Z) : option (bool * memory) :=
  if negb (is_canonical_range addr size) then Some (false, m)
  else mem_op_loop (mem_op_fuel size) m ctx addr size op value 0 0.

Definition mmu_memset (m : memory) (ctx : mmu_context) (addr value size : Z)
    : option (bool * memory) :=
  mmu_mem_op m ctx addr size MMU_MEM_SET value.

Definition mmu_memcpy_to (m : memory) (ctx : mmu_context) (dest src size : Z)
    : option (bool * memory) :=
  mmu_mem_op m ctx dest size MMU_MEM_COPY_TO src.

Definition mmu_memcpy_from (m : memory) (ctx : mmu_context) (dest src size : Z)
    : option (bool * memory) :=
  mmu_mem_op m ctx src size MMU_MEM_COPY_FROM dest.

(** [mmu_context_create] *)
Definition mmu_context_create (mc : machine) (phys_type_ : Z) : mmu_context * machine :=
  let ctx0 := Context 0 0 phys_type_ in
  let '(t0, mc1) := allocate_structure mc ctx0 in
  let '(t1, mc2) := allocate_structure mc1 ctx0 in
  (Context t0 t1 phys_type_, mc2).

End Arm64.


(** ** Boot options ([mezzano_loader_load] in [loader/mezzano.c]) *)

Module BootOptions.

Definition BOOT_OPTION_FORCE_READ_ONLY : Z := 0x01.
Definition BOOT_OPTION_FREESTANDING : Z := 0x02.
Definition BOOT_OPTION_VIDEO_CONSOLE : Z := 0x04.
Definition BOOT_OPTION_NO_DETECT : Z := 0x08.
Definition BOOT_OPTION_NO_SMP : Z := 0x10.

(** [boot_info->boot_options] after the five [if] statements that follow
    [memset(boot_info, 0, PAGE_SIZE)]. *)
Definition boot_options (loader : Command.mezzano_loader) : Z :=
  let o := 0 in
  let o := if Command.force_ro loader
           then Z.lor o (fixnum BOOT_OPTION_FORCE_READ_ONLY) else o in
  let o := if Command.is_freestanding loader
           then Z.lor o (fixnum BOOT_OPTION_FREESTANDING) else o in
  let o := if Command.video_console loader
           then Z.lor o (fixnum BOOT_OPTION_VIDEO_CONSOLE) else o in
  let o := if Command.no_detect loader
           then Z.lor o (fixnum BOOT_OPTION_NO_DETECT) else o in
  let o := if Command.no_smp loader
           then Z.lor o (fixnum BOOT_OPTION_NO_SMP) else o in
  o.

End BootOptions.

(** ** The physical-map window ([mezzano_add_physical_memory_range] in
       [loader/mezzano.c], [mezzano_generate_memory_map] of the qemu-virt
       platform) *)

Module PhysicalMap.

Definition mezzano_physical_map_address : Z := 0xFFFF800000000000.
Definition mezzano_physical_info_address : Z := 0xFFFF808000000000.
Definition mezzano_physical_map_size : Z := 0x8000000000.

(** Modelled from the spec: [round_down] and [round_up] of [lib/utility.h],
    which is not among the sources; the specification rounds the start of a
    range down and its end up to a page. *)
Definition round_down (val nearest : Z) : Z := val - val mod nearest.

Definition round_up (val nearest : Z) : Z :=
  if val mod nearest =? 0 then val else wrap64 (val - val mod nearest + nearest).

(** The paging context and the boot information afterwards; [None] is a
    failed [assert] of [mmu_map], whose result the function does not look
    at. This is the form of the function that calls the four-argument
    [mmu_map]. *)
Definition mezzano_add_physical_memory_range (mc : Arm64.machine) (ctx : Arm64.mmu_context)
    (bi : mezzano_boot_information) (orig_start orig_end : Z)
    : option (Arm64.machine * mezzano_boot_information) :=
  (* Map liberally, it doesn't matter if free regions overlap with allocated
     regions. *)
  let start_ := round_down orig_start PAGE_SIZE in
  let end' := round_up orig_end PAGE_SIZE in
  (* Ignore this region if exceeds the map area limit. *)
  if start_ >=? mezzano_physical_map_size then Some (mc, bi)
  else
    (* Trim it if it starts below the limit. *)
    let end' := if end' >? mezzano_physical_map_size then mezzano_physical_map_size else end' in
    if end' <=? start_ then Some (mc, bi)
    else
      (* Map the memory into the physical map region. *)
      match Arm64.mmu_map mc ctx (wrap64 (mezzano_physical_map_address + start_)) start_
                          (wrap64 (end' - start_)) with
      | None => None
      | Some (_, mc') =>
          (* Carefully insert it into the memory map, maintaining the sortedness. *)
          Some (mc', mezzano_insert_into_memory_map bi start_ end')
      end.

(** [mezzano_generate_memory_map] of the qemu-virt platform;
    [total_memory] is what [qemu_virt_total_memory] returns. *)
Definition mezzano_generate_memory_map (mc : Arm64.machine) (ctx : Arm64.mmu_context)
    (bi : mezzano_boot_information) (total_memory : Z)
    : option (Arm64.machine * mezzano_boot_information) :=
  (* 0-1GB contains all the useful MMIO addresses. *)
  match mezzano_add_physical_memory_range mc ctx bi 0x00000000 0x40000000 with
  | None => None
  | Some (mc1, bi1) =>
      (* 1GB upwards is real memory. *)
      mezzano_add_physical_memory_range mc1 ctx bi1 0x40000000
        (wrap64 (0x40000000 + total_memory))
  end.

End PhysicalMap.

(** * Properties *)

(** ** Machine integers and fixnums *)

Lemma wrap64_range z : is_uint64 (wrap64 z).
Proof. unfold is_uint64, wrap64. apply Z.mod_pos_bound. lia. Qed.

Lemma wrap64_small z : is_uint64 z -> wrap64 z = z.
Proof. unfold is_uint64, wrap64. intros. apply Z.mod_small. lia. Qed.

Lemma to_int64_range z : is_int64 (to_int64 z).
Proof.
  unfold is_int64, to_int64.
  pose proof (Z.mod_pos_bound z (2 ^ 64)) as Hb.
  destruct (Z.ltb_spec (z mod 2 ^ 64) (2 ^ 63)); lia.
Qed.

Lemma to_int64_small z : 0 <= z < 2 ^ 63 -> to_int64 z = z.
Proof.
  intros Hz. unfold to_int64. rewrite Z.mod_small by lia.
  destruct (Z.ltb_spec z (2 ^ 63)); lia.
Qed.

Lemma fixnum_double val : fixnum val = (2 * val) mod 2 ^ 64.
Proof. unfold fixnum, wrap64. rewrite Z.shiftl_mul_pow2 by lia. f_equal. lia. Qed.

Lemma unfixnum_half fx : unfixnum fx = to_int64 fx / 2.
Proof. unfold unfixnum. rewrite Z.shiftr_div_pow2 by lia. reflexivity. Qed.

Lemma fixnum_small v : 0 <= v < 2 ^ 63 -> fixnum v = 2 * v.
Proof. intros. rewrite fixnum_double. apply Z.mod_small. lia. Qed.

Lemma unfixnum_fixnum_nonneg v : 0 <= v < 2 ^ 62 -> unfixnum (fixnum v) = v.
Proof.
  intros Hv. rewrite fixnum_small by lia.
  rewrite unfixnum_half, to_int64_small by lia.
  rewrite Z.mul_comm. apply Z.div_mul. lia.
Qed.

Lemma unfixnum_fixnum_neg v : - 2 ^ 62 <= v < 0 -> unfixnum (fixnum v) = v.
Proof.
  intros Hv. rewrite fixnum_double, unfixnum_half.
  assert (Hm : (2 * v) mod 2 ^ 64 = 2 * v + 2 ^ 64).
  { symmetry. apply Z.mod_unique with (q := -1); lia. }
  rewrite Hm. unfold to_int64.
  rewrite (Z.mod_small (2 * v + 2 ^ 64)) by lia.
  destruct (Z.ltb_spec (2 * v + 2 ^ 64) (2 ^ 63)); [lia|].
  replace (2 * v + 2 ^ 64 - 2 ^ 64) with (v * 2) by lia.
  apply Z.div_mul. lia.
Qed.

(** C6: for every [v] in [-2^62, 2^62), decoding the fixnum of [v] gives
    [v] back. *)
Theorem fixnum_roundtrip (v : Z) :
  - 2 ^ 62 <= v < 2 ^ 62 -> unfixnum (fixnum v) = v.
Proof.
  intros Hv. destruct (Z.lt_ge_cases v 0).
  - apply unfixnum_fixnum_neg. lia.
  - apply unfixnum_fixnum_nonneg. lia.
Qed.

Lemma fixnum_roundtrip_witness :
  unfixnum (fixnum (- 2 ^ 62)) = - 2 ^ 62.
Proof. apply (fixnum_roundtrip (- 2 ^ 62)). lia. Defined.

(** C7: from the empty map, inserting (10, 20) then (20, 30) leaves the
    single entry (10, 30), and inserting (10, 20) then (15, 25) leaves the
    single entry (10, 25). *)
Theorem insert_merges_examples :
  entries (insert_all zero_boot_info [(10, 20); (20, 30)]) = [MapEntry 10 30] /\
  entries (insert_all zero_boot_info [(10, 20); (15, 25)]) = [MapEntry 10 25].
Proof. split; vm_compute; reflexivity. Qed.

(** ** Memory map *)

Section MemoryMapFacts.

(** The array keeps its 32 slots and the count stays within them. *)
Definition map_ok (bi : mezzano_boot_information) : Prop :=
  length (memory_map bi) = 32%nat /\ 0 <= n_memory_map_entries bi <= 32.

Lemma search_exit_bounds bi s e todo : forall i,
  match search bi s e i todo with
  | MergeAt j => i <= j < i + Z.of_nat todo
  | InsertAt j => i <= j <= i + Z.of_nat todo
  end.
Proof.
  induction todo as [|todo IH]; intros i; simpl.
  - lia.
  - destruct (start (entry_at bi i) >? e); [lia|].
    destruct (in_range _ _ s || in_range _ _ e); [lia|].
    specialize (IH (i + 1)). destruct (search bi s e (i + 1) todo); lia.
Qed.

Lemma insert_keeps_map_ok bi s e :
  map_ok bi ->
  map_ok (mezzano_insert_into_memory_map bi s e) /\
  (n_memory_map_entries (mezzano_insert_into_memory_map bi s e) = n_memory_map_entries bi \/
   n_memory_map_entries (mezzano_insert_into_memory_map bi s e) = n_memory_map_entries bi + 1).
Proof.
  intros [Hlen Hn]. unfold mezzano_insert_into_memory_map.
  pose proof (search_exit_bounds bi s e (Z.to_nat (n_memory_map_entries bi)) 0) as Hb.
  destruct (search bi s e 0 (Z.to_nat (n_memory_map_entries bi))) as [j|j].
  - unfold crunch_memory_map, set_entry, map_ok; simpl.
    rewrite length_insert. auto.
  - destruct (Z.eqb_spec (n_memory_map_entries bi) mezzano_max_memory_map_size) as [Heq|Hne].
    + unfold map_ok. auto.
    + unfold mezzano_max_memory_map_size in Hne.
      unfold crunch_memory_map, map_ok; simpl.
      rewrite wrap64_small by (unfold is_uint64; lia).
      split; [|right; reflexivity]. split; [|lia].
      rewrite length_insert. unfold memmove_entries.
      rewrite !length_app, !length_take, length_drop, length_drop. lia.
Qed.

Lemma zero_boot_info_ok : map_ok zero_boot_info.
Proof. unfold map_ok; simpl. split; [reflexivity | lia]. Qed.



End MemoryMapFacts.

(** C1: the entries are meant to stay strictly sorted with no two of them
    touching or overlapping, but the merge pass is missing. From the empty
    map, inserting [0x1000, 0x2000), [0x3000, 0x4000) and then
    [0x2000, 0x3000) leaves the two touching entries (0x1000, 0x3000) and
    (0x3000, 0x4000); inserting [0x2000, 0x3000) and then the enclosing
    [0x1000, 0x4000) leaves the entries out of order. *)
Theorem insert_leaves_touching_entries :
  entries (insert_all zero_boot_info [(0x1000, 0x2000); (0x3000, 0x4000); (0x2000, 0x3000)])
    = [MapEntry 0x1000 0x3000; MapEntry 0x3000 0x4000] /\
  separated (entries (insert_all zero_boot_info
               [(0x1000, 0x2000); (0x3000, 0x4000); (0x2000, 0x3000)])) = false /\
  entries (insert_all zero_boot_info [(0x2000, 0x3000); (0x1000, 0x4000)])
    = [MapEntry 0x2000 0x3000; MapEntry 0x1000 0x4000].
Proof. repeat split; vm_compute; reflexivity. Qed.



(** ** The protocol gate of the [mezzano] command *)

Section ProtocolGate.

Import Command.

Lemma check_header_valid_magic h :
  magic h = mezzano_magic ->
  check_header h =
    if negb (protocol_major h =? 0) then Some Unsupported_protocol_major
    else if negb (protocol_minor h =? 26) then Some Unsupported_protocol_minor
    else None.
Proof.
  intros Hm. unfold check_header, mezzano_protocol_major, mezzano_protocol_minor.
  rewrite bool_decide_eq_true_2 by exact Hm. simpl.
  destruct (protocol_major h =? 0); simpl; [|reflexivity].
  rewrite orb_false_r. reflexivity.
Qed.

(** A disk image whose header carries the given protocol version. *)
Definition example_header (major minor : Z) : mezzano_header :=
  Header mezzano_magic (replicate 16 0) major minor 0 0 0 1 0 1 0.

Definition example_environment (major minor : Z) : environment :=
  Environment []
    (fun name => if String.eqb name "hd0"
                 then Some (Device "hd0" true (Some (example_header major minor)))
                 else None)
    (fun _ => None)
    (fun _ => ""%string)
    String.eqb
    [1073741824].

End ProtocolGate.

(** C3 as stated fails: the header with the supported minor plus one and
    major 1 is rejected as well (the loader supports major 0 only). *)
Lemma protocol_major_1_rejected :
  Command.returns
    (Command.config_cmd_mezzano
       (example_environment 1 (Command.mezzano_protocol_minor + 1))
       [Command.VALUE_STRING "hd0"]) = false /\
  Command.returns
    (Command.config_cmd_mezzano
       (example_environment 0 (Command.mezzano_protocol_minor + 1))
       [Command.VALUE_STRING "hd0"]) = false.
Proof. split; vm_compute; reflexivity. Qed.

(** C3, amended: for an image header with valid magic the command is rejected
    (an error is reported and it returns false) iff [protocol_major] is not 0
    or [protocol_minor] differs from the supported minor 26. So with major 0
    it is rejected iff the minor differs from 26; a header with minor 27 and
    major 0 is rejected for its minor, and any header with major 1 is
    rejected for its major. *)
Theorem protocol_gate (env : Command.environment) (args : list Command.value)
    (data : Command.mezzano_loader) :
  Command.read_image_header env args = inr data ->
  Command.magic (Command.header data) = Command.mezzano_magic ->
  let h := Command.header data in
  (Command.returns (Command.config_cmd_mezzano env args) = false <->
     Command.protocol_major h <> 0 \/ Command.protocol_minor h <> 26) /\
  (Command.protocol_major h = 0 ->
     (Command.returns (Command.config_cmd_mezzano env args) = false <->
        Command.protocol_minor h <> 26)) /\
  (Command.protocol_major h = 0 -> Command.protocol_minor h = 27 ->
     Command.config_cmd_mezzano env args = inl Command.Unsupported_protocol_minor) /\
  (Command.protocol_major h = 1 ->
     Command.config_cmd_mezzano env args = inl Command.Unsupported_protocol_major).
Proof.
  intros Hread Hmagic h. unfold Command.config_cmd_mezzano.
  rewrite Hread. fold h. rewrite (check_header_valid_magic h Hmagic).
  destruct (Z.eqb_spec (Command.protocol_major h) 0) as [Hmaj|Hmaj];
    destruct (Z.eqb_spec (Command.protocol_minor h) 26) as [Hmin|Hmin]; simpl.
  all: repeat split; intros; try reflexivity; try discriminate; try lia.
  all: try (left; assumption); try (right; assumption).
Qed.

Lemma protocol_gate_witness :
  Command.returns
    (Command.config_cmd_mezzano (example_environment 0 27) [Command.VALUE_STRING "hd0"]) = false.
Proof.
  pose proof (protocol_gate (example_environment 0 27) [Command.VALUE_STRING "hd0"]
                (Command.Loader (example_header 0 27)
                   (Some (Command.Device "hd0" true (Some (example_header 0 27))))
                   None "hd0" false false false false false false)
                eq_refl eq_refl) as [H _].
  apply H. right. simpl. lia.
Defined.

(** ** Page-info fields *)

Section PageInfoFacts.

Lemma info_at_put im p x q :
  info_at (put_info im p x) q =
  if decide (p / PAGE_SIZE = q / PAGE_SIZE) then x else info_at im q.
Proof.
  unfold info_at, put_info. rewrite lookup_insert.
  destruct (decide (p / PAGE_SIZE = q / PAGE_SIZE)); reflexivity.
Qed.

Lemma info_at_put_same im p x : info_at (put_info im p x) p = x.
Proof. rewrite info_at_put. destruct (decide _); [reflexivity | congruence]. Qed.

Lemma info_at_put_other im p x q :
  p / PAGE_SIZE <> q / PAGE_SIZE -> info_at (put_info im p x) q = info_at im q.
Proof. intros. rewrite info_at_put. destruct (decide _); [congruence | reflexivity]. Qed.

(** The type lives in bits 0..7 and the bin in bits 8..15 of the decoded
    flags word. *)
Definition type_bits (x : Z) : Z := Z.land x 255.
Definition bin_bits (x : Z) : Z := Z.land (Z.shiftr x 8) 255.

Lemma type_bits_mod x : type_bits x = x mod 256.
Proof. unfold type_bits. change 255 with (Z.ones 8). rewrite Z.land_ones by lia. reflexivity. Qed.

Lemma bin_bits_mod x : bin_bits x = (x / 256) mod 256.
Proof.
  unfold bin_bits. change 255 with (Z.ones 8).
  rewrite Z.land_ones, Z.shiftr_div_pow2 by lia. reflexivity.
Qed.

Lemma mod_mod_divide_pow x a b : 0 <= b <= a -> (x mod 2 ^ a) mod 2 ^ b = x mod 2 ^ b.
Proof.
  intros H. apply Z.mod_mod_divide.
  exists (2 ^ (a - b)). rewrite <- Z.pow_add_r by lia. f_equal. lia.
Qed.

Lemma low_bits_agree x y :
  x mod 2 ^ 63 = y mod 2 ^ 63 -> type_bits x = type_bits y /\ bin_bits x = bin_bits y.
Proof.
  intros H. rewrite !type_bits_mod, !bin_bits_mod. split.
  - change 256 with (2 ^ 8).
    rewrite <- (mod_mod_divide_pow x 63 8), <- (mod_mod_divide_pow y 63 8) by lia.
    rewrite H. reflexivity.
  - assert (H16 : x mod 2 ^ 16 = y mod 2 ^ 16).
    { rewrite <- (mod_mod_divide_pow x 63 16), <- (mod_mod_divide_pow y 63 16) by lia.
      rewrite H. reflexivity. }
    assert (Hd : forall z, (z / 256) mod 256 = (z mod 2 ^ 16) / 256).
    { intros z. change (2 ^ 16) with (256 * 256).
      rewrite Z.rem_mul_r by lia.
      rewrite (Z.mul_comm 256 ((z / 256) mod 256)), Z.div_add by lia.
      rewrite (Z.div_small (z mod 256) 256) by (apply Z.mod_pos_bound; lia). lia. }
    rewrite !Hd, H16. reflexivity.
Qed.

Lemma to_int64_mod z : to_int64 z mod 2 ^ 64 = z mod 2 ^ 64.
Proof.
  unfold to_int64. destruct (z mod 2 ^ 64 <? 2 ^ 63).
  - apply Z.mod_mod. lia.
  - replace (z mod 2 ^ 64 - 2 ^ 64) with (z mod 2 ^ 64 + (-1) * 2 ^ 64) by lia.
    rewrite Z.mod_add by lia. apply Z.mod_mod. lia.
Qed.

Lemma fixnum_to_int64 u : fixnum (to_int64 u) = fixnum u.
Proof.
  rewrite !fixnum_double.
  rewrite <- (Z.mul_mod_idemp_r 2 (to_int64 u)) by lia.
  rewrite to_int64_mod, Z.mul_mod_idemp_r by lia. reflexivity.
Qed.

(** Decoding an encoded word gives the word back on its low 63 bits. *)
Lemma unfixnum_fixnum_low u : unfixnum (fixnum u) mod 2 ^ 63 = u mod 2 ^ 63.
Proof.
  rewrite fixnum_double, unfixnum_half.
  assert (He : (2 * u) mod 2 ^ 64 = 2 * (u mod 2 ^ 63)).
  { change (2 ^ 64) with (2 * 2 ^ 63). rewrite Z.mul_mod_distr_l by lia. reflexivity. }
  rewrite He. pose proof (Z.mod_pos_bound u (2 ^ 63)) as Hb.
  unfold to_int64. rewrite (Z.mod_small (2 * (u mod 2 ^ 63))) by lia.
  destruct (2 * (u mod 2 ^ 63) <? 2 ^ 63).
  - rewrite Z.mul_comm, Z.div_mul by lia. apply Z.mod_mod. lia.
  - replace (2 * (u mod 2 ^ 63) - 2 ^ 64) with ((u mod 2 ^ 63 - 2 ^ 63) * 2) by lia.
    rewrite Z.div_mul by lia.
    replace (u mod 2 ^ 63 - 2 ^ 63) with (u mod 2 ^ 63 + (-1) * 2 ^ 63) by lia.
    rewrite Z.mod_add by lia. apply Z.mod_mod. lia.
Qed.

Lemma wrap64_low x : wrap64 x mod 2 ^ 63 = x mod 2 ^ 63.
Proof. unfold wrap64. apply mod_mod_divide_pow. lia. Qed.

(** What is read back from a flags word written by [set_page_info_type] or
    [set_page_info_bin]: the decoded word agrees with the word before
    encoding on the type and bin bits. *)
Lemma stored_flags_bits f :
  type_bits (unfixnum (fixnum (to_int64 f))) = type_bits f /\
  bin_bits (unfixnum (fixnum (to_int64 f))) = bin_bits f.
Proof. apply low_bits_agree. rewrite fixnum_to_int64. apply unfixnum_fixnum_low. Qed.

Lemma wrap64_bits x :
  type_bits (wrap64 x) = type_bits x /\ bin_bits (wrap64 x) = bin_bits x.
Proof. apply low_bits_agree. apply wrap64_low. Qed.

Lemma type_bits_set_type f v :
  0 <= v < 256 -> type_bits (Z.lor (Z.land f (wrap64 (Z.lnot 255))) v) = v.
Proof.
  intros Hv. unfold type_bits.
  rewrite Z.land_lor_distr_l, <- Z.land_assoc.
  change (Z.land (wrap64 (Z.lnot 255)) 255) with 0.
  rewrite Z.land_0_r, Z.lor_0_l.
  change 255 with (Z.ones 8). rewrite Z.land_ones by lia. apply Z.mod_small. lia.
Qed.

Lemma bin_bits_set_type f v :
  0 <= v < 256 -> bin_bits (Z.lor (Z.land f (wrap64 (Z.lnot 255))) v) = bin_bits f.
Proof.
  intros Hv. unfold bin_bits.
  rewrite Z.shiftr_lor, Z.shiftr_land.
  rewrite (Z.shiftr_div_pow2 v) by lia. rewrite (Z.div_small v) by lia.
  rewrite Z.lor_0_r, <- Z.land_assoc. reflexivity.
Qed.

Lemma type_bits_set_bin f b :
  0 <= b < 256 ->
  type_bits (Z.lor (Z.land f (wrap64 (Z.lnot (Z.shiftl 255 8)))) (Z.shiftl b 8)) = type_bits f.
Proof.
  intros Hb. unfold type_bits.
  rewrite Z.land_lor_distr_l, <- Z.land_assoc.
  change (Z.land (wrap64 (Z.lnot (Z.shiftl 255 8))) 255) with 255.
  assert (H0 : Z.land (Z.shiftl b 8) 255 = 0).
  { change 255 with (Z.ones 8). rewrite Z.land_ones, Z.shiftl_mul_pow2 by lia.
    apply Z.mod_mul. lia. }
  rewrite H0, Z.lor_0_r. reflexivity.
Qed.

Lemma bin_bits_set_bin f b :
  0 <= b < 256 ->
  bin_bits (Z.lor (Z.land f (wrap64 (Z.lnot (Z.shiftl 255 8)))) (Z.shiftl b 8)) = b.
Proof.
  intros Hb. unfold bin_bits.
  rewrite Z.shiftr_lor, Z.shiftr_land, Z.shiftr_shiftl_l by lia.
  rewrite Z.sub_diag, Z.shiftl_0_r.
  rewrite Z.land_lor_distr_l, <- Z.land_assoc.
  change (Z.land (Z.shiftr (wrap64 (Z.lnot (Z.shiftl 255 8))) 8) 255) with 0.
  rewrite Z.land_0_r, Z.lor_0_l.
  change 255 with (Z.ones 8). rewrite Z.land_ones by lia. apply Z.mod_small. lia.
Qed.

End PageInfoFacts.

Section PageInfoAccessors.

Lemma info_at_frame im p q : p / PAGE_SIZE = q / PAGE_SIZE -> info_at im p = info_at im q.
Proof. intros H. unfold info_at. rewrite H. reflexivity. Qed.

Ltac info_cases p q :=
  unfold set_page_info_type, set_page_info_bin, set_page_info_next, set_page_info_prev,
         set_page_info_extra, set_page_info_flags;
  unfold page_info_type, page_info_bin, page_info_next, page_info_prev, page_info_flags;
  cbv zeta; rewrite ?info_at_put;
  destruct (decide (p / PAGE_SIZE = q / PAGE_SIZE)) as [Hsame|Hother]; simpl;
  try rewrite (info_at_frame _ p q Hsame); try reflexivity.

Lemma read_type_after_store f :
  Z.land (unfixnum (fixnum (to_int64 f))) 255 = Z.land f 255.
Proof. apply (proj1 (stored_flags_bits f)). Qed.

Lemma read_bin_after_store f :
  Z.land (Z.shiftr (unfixnum (fixnum (to_int64 f))) 8) 255 = Z.land (Z.shiftr f 8) 255.
Proof. apply (proj2 (stored_flags_bits f)). Qed.

Lemma type_set_type im p v q :
  0 <= v < 256 ->
  page_info_type (set_page_info_type im p v) q =
  if decide (p / PAGE_SIZE = q / PAGE_SIZE) then v else page_info_type im q.
Proof.
  intros Hv. info_cases p q.
  rewrite read_type_after_store. apply type_bits_set_type. exact Hv.
Qed.

Lemma bin_set_type im p v q :
  0 <= v < 256 -> page_info_bin (set_page_info_type im p v) q = page_info_bin im q.
Proof.
  intros Hv. info_cases p q.
  rewrite read_bin_after_store.
  etransitivity; [apply bin_bits_set_type; exact Hv | apply (proj2 (wrap64_bits _))].
Qed.

Lemma type_set_bin im p b q :
  0 <= b < 256 -> page_info_type (set_page_info_bin im p b) q = page_info_type im q.
Proof.
  intros Hb. info_cases p q.
  rewrite read_type_after_store.
  etransitivity; [apply type_bits_set_bin; exact Hb | apply (proj1 (wrap64_bits _))].
Qed.

Lemma bin_set_bin im p b q :
  0 <= b < 256 ->
  page_info_bin (set_page_info_bin im p b) q =
  if decide (p / PAGE_SIZE = q / PAGE_SIZE) then b else page_info_bin im q.
Proof.
  intros Hb. info_cases p q.
  rewrite read_bin_after_store. apply bin_bits_set_bin. exact Hb.
Qed.

Lemma next_set_type im p v q : page_info_next (set_page_info_type im p v) q = page_info_next im q.
Proof. info_cases p q. Qed.

Lemma prev_set_type im p v q : page_info_prev (set_page_info_type im p v) q = page_info_prev im q.
Proof. info_cases p q. Qed.

Lemma next_set_bin im p v q : page_info_next (set_page_info_bin im p v) q = page_info_next im q.
Proof. info_cases p q. Qed.

Lemma prev_set_bin im p v q : page_info_prev (set_page_info_bin im p v) q = page_info_prev im q.
Proof. info_cases p q. Qed.

Lemma type_set_next im p v q : page_info_type (set_page_info_next im p v) q = page_info_type im q.
Proof. info_cases p q. Qed.

Lemma bin_set_next im p v q : page_info_bin (set_page_info_next im p v) q = page_info_bin im q.
Proof. info_cases p q. Qed.

Lemma next_set_next im p v q :
  page_info_next (set_page_info_next im p v) q =
  if decide (p / PAGE_SIZE = q / PAGE_SIZE) then v else page_info_next im q.
Proof. info_cases p q. Qed.

Lemma prev_set_next im p v q : page_info_prev (set_page_info_next im p v) q = page_info_prev im q.
Proof. info_cases p q. Qed.

Lemma type_set_prev im p v q : page_info_type (set_page_info_prev im p v) q = page_info_type im q.
Proof. info_cases p q. Qed.

Lemma bin_set_prev im p v q : page_info_bin (set_page_info_prev im p v) q = page_info_bin im q.
Proof. info_cases p q. Qed.

Lemma next_set_prev im p v q : page_info_next (set_page_info_prev im p v) q = page_info_next im q.
Proof. info_cases p q. Qed.

Lemma prev_set_prev im p v q :
  page_info_prev (set_page_info_prev im p v) q =
  if decide (p / PAGE_SIZE = q / PAGE_SIZE) then v else page_info_prev im q.
Proof. info_cases p q. Qed.

Lemma type_set_extra im p v q : page_info_type (set_page_info_extra im p v) q = page_info_type im q.
Proof. info_cases p q. Qed.

End PageInfoAccessors.

(** ** The page loader *)

(** The frame [load_page] takes for the page: the next frame of the chunk, or
    the first frame of the chunk it allocates when the chunk is used up. *)
Definition loaded_frame (st : load_state) (chunk : page_chunk) : Z :=
  if remaining chunk =? 0 then next_alloc st else phys_addr chunk.

(** An image whose block 42 can be read. *)
Definition example_image : image :=
  fun offset => if offset =? 42 * 4096 then Some (replicate 512 0) else None.

(** C4 as stated fails: in freestanding mode a PRESENT, non-TRANSIENT entry
    that carries the WIRED flag is loaded with page-info type wired, not
    active. *)
Lemma freestanding_wired_entry_stays_wired :
  let st := LoadState true 1 0 ∅ [] 0x200000 ∅ in
  let entry := Z.lor (Z.shiftl 42 8) (Z.lor BLOCK_MAP_WIRED BLOCK_MAP_PRESENT) in
  exists st' chunk',
    skipped st entry = false /\
    load_page example_image st entry 0x10000000000 (PageChunk 0 0 0) = Some (st', chunk') /\
    page_info_type (infos st') (loaded_frame st (PageChunk 0 0 0)) = page_type_wired /\
    page_info_type (infos st') (loaded_frame st (PageChunk 0 0 0)) <> page_type_active.
Proof.
  eexists _, _. split; [reflexivity|]. split; [vm_compute; reflexivity|].
  split; [vm_compute; reflexivity | vm_compute; discriminate].
Qed.

(** C4, amended: for every PRESENT, non-TRANSIENT level-1 entry that is loaded
    (its contents can be read or it is zero-filled), [load_page] sets the
    page-info type of the allocated frame by the WIRED flag of the entry: wired
    when the flag is set, active otherwise, whatever the freestanding flag.
    Entries without the WIRED flag reach [load_page] in freestanding mode only,
    so outside freestanding mode every loaded page is wired. *)
Theorem load_page_type (img : image) (st : load_state) (info virtual : Z)
    (chunk : page_chunk) :
  Z.land info BLOCK_MAP_PRESENT <> 0 ->
  has_flag info BLOCK_MAP_TRANSIENT = false ->
  has_flag info BLOCK_MAP_ZERO_FILL = true \/
    img (wrap64 (Z.shiftr info BLOCK_MAP_ID_SHIFT * 4096)) <> None ->
  exists st' chunk',
    load_page img st info virtual chunk = Some (st', chunk') /\
    page_info_type (infos st') (loaded_frame st chunk) =
      (if has_flag info BLOCK_MAP_WIRED then page_type_wired else page_type_active) /\
    (skipped st info = false -> freestanding st = false ->
       page_info_type (infos st') (loaded_frame st chunk) = page_type_wired).
Proof.
  intros Hpresent Htransient Hcontents.
  unfold load_page, loaded_frame.
  destruct (Z.eqb_spec (Z.land info BLOCK_MAP_PRESENT) 0) as [|_]; [contradiction|].
  rewrite Htransient. simpl orb. cbv iota.
  set (contents := if has_flag info BLOCK_MAP_ZERO_FILL then Some (replicate 512 0)
                   else img (wrap64 (Z.shiftr info BLOCK_MAP_ID_SHIFT * 4096))).
  assert (Hsome : exists page, contents = Some page).
  { unfold contents. destruct Hcontents as [Hz|Hr].
    - rewrite Hz. eauto.
    - destruct (has_flag info BLOCK_MAP_ZERO_FILL); [eauto|].
      destruct (img _) as [page|]; [eauto | contradiction]. }
  destruct Hsome as [page Hpage].
  unfold memory_alloc.
  destruct (remaining chunk =? 0); simpl; rewrite Hpage; simpl;
    (eexists _, _; split; [reflexivity|]; simpl).
  all: assert (Hty : forall im p, page_info_type
         (if has_flag info BLOCK_MAP_WIRED then set_page_info_type im p page_type_wired
          else set_page_info_type im p page_type_active) p =
         (if has_flag info BLOCK_MAP_WIRED then page_type_wired else page_type_active))
    by (intros im p; destruct (has_flag info BLOCK_MAP_WIRED);
        rewrite type_set_type by (unfold page_type_wired, page_type_active; lia);
        (destruct (decide _); [reflexivity | congruence])).
  all: rewrite Hty; split; [reflexivity|].
  all: unfold skipped, has_flag; intros Hskip Hfree; rewrite Hfree in Hskip; simpl in Hskip;
    rewrite Hskip; reflexivity.
Qed.

Lemma load_page_type_witness :
  exists st' chunk',
    load_page example_image (LoadState true 1 0 ∅ [] 0x200000 ∅)
              (Z.lor (Z.shiftl 42 8) BLOCK_MAP_PRESENT) 0x10000000000 (PageChunk 0 0 0)
      = Some (st', chunk') /\
    page_info_type (infos st') 0x200000 = page_type_active.
Proof.
  destruct (load_page_type example_image (LoadState true 1 0 ∅ [] 0x200000 ∅)
              (Z.lor (Z.shiftl 42 8) BLOCK_MAP_PRESENT) 0x10000000000 (PageChunk 0 0 0))
    as (st' & chunk' & Hload & Htype & _).
  - vm_compute. discriminate.
  - reflexivity.
  - right. vm_compute. discriminate.
  - exists st', chunk'. split; [exact Hload | exact Htype].
Defined.

(** ** The block-map walker *)

Section BlockMapFacts.

Import BlockMap.

Lemma cache_find_spec img id cache e rest :
  coherent img cache ->
  cache_find id cache = Some (e, rest) ->
  block e = id /\ coherent img (e :: rest).
Proof.
  unfold coherent. revert e rest.
  induction cache as [|c cache IH]; intros e rest Hc Hf; simpl in Hf; [discriminate|].
  inversion Hc as [|? ? Hhead Htail]; subst.
  destruct (Z.eqb_spec (block c) id) as [Heq|Hne].
  - inversion Hf; subst. split; [reflexivity | assumption].
  - destruct (cache_find id cache) as [[found rest']|] eqn:Hrec; [|discriminate].
    inversion Hf; subst.
    destruct (IH _ _ Htail eq_refl) as [Hb Hco].
    inversion Hco; subst.
    split; [reflexivity|]. constructor; [assumption|]. constructor; assumption.
Qed.

(** Under a coherent cache a block is read as the image holds it, and the
    cache stays coherent. *)
Lemma read_cached_block_spec img cache id :
  coherent img cache ->
  match read_cached_block img cache id with
  | Some (d, cache') => disk_block img id = Some d /\ coherent img cache'
  | None => disk_block img id = None
  end.
Proof.
  intros Hc. unfold read_cached_block.
  destruct (cache_find id cache) as [[e rest]|] eqn:Hf.
  - destruct (cache_find_spec _ _ _ _ _ Hc Hf) as [Hb Hco].
    split; [|exact Hco]. inversion Hco; subst. assumption.
  - unfold disk_block. destruct (img (wrap64 (id * 4096))) as [d|] eqn:Hr; [|reflexivity].
    split; [reflexivity|]. constructor; [exact Hr | exact Hc].
Qed.

Lemma index_is_level_index level v :
  1 <= level ->
  Z.land (Z.shiftr v (12 + 9 * (level - 1))) 511 = level_index level v.
Proof.
  intros Hl. unfold level_index. change 511 with (Z.ones 9).
  rewrite Z.land_ones, Z.shiftr_div_pow2 by lia. reflexivity.
Qed.

Lemma present_test entry :
  (Z.land entry BLOCK_MAP_PRESENT =? 0) = negb (is_present entry).
Proof.
  unfold is_present, BLOCK_MAP_PRESENT. rewrite Z.bit0_odd.
  change 1 with (Z.ones 1). rewrite Z.land_ones by lia. change (2 ^ 1) with 2.
  rewrite Zmod_odd. destruct (Z.odd entry); reflexivity.
Qed.

Lemma read_info_for_page_refines img root cache v :
  coherent img cache ->
  match read_info_for_page img root cache v with
  | Some (e, cache') => resolve img root v = Some e /\ coherent img cache'
  | None => resolve img root v = None
  end.
Proof.
  intros Hc. unfold read_info_for_page, resolve, BLOCK_MAP_ID_SHIFT.
  change 39 with (12 + 9 * (4 - 1)). change 30 with (12 + 9 * (3 - 1)).
  change 21 with (12 + 9 * (2 - 1)). change (Z.shiftr v 12) with (Z.shiftr v (12 + 9 * (1 - 1))).
  rewrite !index_is_level_index by lia.
  pose proof (read_cached_block_spec img cache root Hc) as H4.
  destruct (read_cached_block img cache root) as [[t4 c4]|];
    simpl; [destruct H4 as [H4 Hc4] | rewrite H4; reflexivity].
  rewrite H4. change (Z.of_nat 4) with 4. rewrite present_test.
  destruct (is_present (word_at t4 (level_index 4 v))); simpl; [|auto].
  rewrite <- Z.shiftr_div_pow2 by lia.
  pose proof (read_cached_block_spec img c4 (Z.shiftr (word_at t4 (level_index 4 v)) 8) Hc4) as H3.
  destruct (read_cached_block img c4 _) as [[t3 c3]|];
    [destruct H3 as [H3 Hc3] | rewrite H3; reflexivity].
  rewrite H3. change (Z.of_nat 3) with 3. rewrite present_test.
  destruct (is_present (word_at t3 (level_index 3 v))); simpl; [|auto].
  rewrite <- Z.shiftr_div_pow2 by lia.
  pose proof (read_cached_block_spec img c3 (Z.shiftr (word_at t3 (level_index 3 v)) 8) Hc3) as H2.
  destruct (read_cached_block img c3 _) as [[t2 c2]|];
    [destruct H2 as [H2 Hc2] | rewrite H2; reflexivity].
  rewrite H2. change (Z.of_nat 2) with 2. rewrite present_test.
  destruct (is_present (word_at t2 (level_index 2 v))); simpl; [|auto].
  rewrite <- Z.shiftr_div_pow2 by lia.
  pose proof (read_cached_block_spec img c2 (Z.shiftr (word_at t2 (level_index 2 v)) 8) Hc2) as H1.
  destruct (read_cached_block img c2 _) as [[t1 c1]|];
    [destruct H1 as [H1 Hc1] | rewrite H1; reflexivity].
  rewrite H1. change (Z.of_nat 1) with 1. auto.
Qed.

End BlockMapFacts.

Section SyntheticBlockMap.

Import BlockMap.

Lemma level_index_range level v : 0 <= level_index level v < 512.
Proof. unfold level_index. apply Z.mod_pos_bound. lia. Qed.

Lemma word_at_replicate j : word_at (replicate 512 0) j = 0.
Proof.
  unfold word_at. rewrite nth_lookup.
  destruct (replicate 512 0 !! Z.to_nat j) as [x|] eqn:Hl; [|reflexivity].
  apply lookup_replicate in Hl. simpl. tauto.
Qed.

Lemma word_at_table_with i e j :
  0 <= i < 512 -> 0 <= j ->
  word_at (table_with i e) j = if j =? i then e else 0.
Proof.
  intros Hi Hj. unfold word_at, table_with. rewrite nth_lookup.
  destruct (Z.eqb_spec j i) as [->|Hne].
  - rewrite list_lookup_insert_eq; [reflexivity|]. rewrite length_replicate. lia.
  - rewrite list_lookup_insert_ne by lia. fold (word_at (replicate 512 0) j).
    rewrite <- nth_lookup. apply word_at_replicate.
Qed.

Lemma pointer_entry b :
  0 <= b ->
  is_present (Z.lor (Z.shiftl b 8) BLOCK_MAP_PRESENT) = true /\
  Z.lor (Z.shiftl b 8) BLOCK_MAP_PRESENT / 2 ^ 8 = b.
Proof.
  intros Hb. unfold is_present, BLOCK_MAP_PRESENT. split.
  - rewrite Z.lor_spec, Z.shiftl_spec_low by lia. reflexivity.
  - rewrite <- Z.shiftr_div_pow2, Z.shiftr_lor, Z.shiftr_shiftl_l by lia.
    rewrite Z.sub_diag, Z.shiftl_0_r. change (Z.shiftr 1 8) with 0. apply Z.lor_0_r.
Qed.

Lemma zero_not_present : is_present 0 = false.
Proof. reflexivity. Qed.

(** Two 48-bit addresses lie in the same page iff their four indices agree. *)
Lemma same_page_iff_indices v v0 :
  0 <= v < 2 ^ 48 -> 0 <= v0 < 2 ^ 48 ->
  v / 4096 = v0 / 4096 <->
  level_index 4 v = level_index 4 v0 /\ level_index 3 v = level_index 3 v0 /\
  level_index 2 v = level_index 2 v0 /\ level_index 1 v = level_index 1 v0.
Proof.
  intros Hv Hv0. unfold level_index.
  change (2 ^ (12 + 9 * (4 - 1))) with (4096 * (512 * (512 * 512))).
  change (2 ^ (12 + 9 * (3 - 1))) with (4096 * (512 * 512)).
  change (2 ^ (12 + 9 * (2 - 1))) with (4096 * 512).
  change (2 ^ (12 + 9 * (1 - 1))) with 4096.
  rewrite <- !Z.div_div by lia.
  assert (Hq : 0 <= v / 4096 < 2 ^ 36)
    by (split; [apply Z.div_pos; lia | apply Z.div_lt_upper_bound; lia]).
  assert (Hq0 : 0 <= v0 / 4096 < 2 ^ 36)
    by (split; [apply Z.div_pos; lia | apply Z.div_lt_upper_bound; lia]).
  generalize dependent (v / 4096). generalize dependent (v0 / 4096).
  intros q0 Hq0 q Hq. change (2 ^ 36) with 68719476736 in *.
  split; [intros ->; tauto|]. intros (H4 & H3 & H2 & H1).
  pose proof (Z.div_mod q 512 ltac:(lia)) as D1.
  pose proof (Z.div_mod (q / 512) 512 ltac:(lia)) as D2.
  pose proof (Z.div_mod (q / 512 / 512) 512 ltac:(lia)) as D3.
  pose proof (Z.div_mod (q / 512 / 512 / 512) 512 ltac:(lia)) as D4.
  pose proof (Z.div_mod q0 512 ltac:(lia)) as E1.
  pose proof (Z.div_mod (q0 / 512) 512 ltac:(lia)) as E2.
  pose proof (Z.div_mod (q0 / 512 / 512) 512 ltac:(lia)) as E3.
  pose proof (Z.div_mod (q0 / 512 / 512 / 512) 512 ltac:(lia)) as E4.
  assert (Z4 : q / 512 / 512 / 512 / 512 = 0).
  { rewrite !Z.div_div by lia. apply Z.div_small. lia. }
  assert (Z04 : q0 / 512 / 512 / 512 / 512 = 0).
  { rewrite !Z.div_div by lia. apply Z.div_small. lia. }
  rewrite Z4 in D4. rewrite Z04 in E4.
  rewrite H4 in D4. rewrite H3 in D3. rewrite H2 in D2. rewrite H1 in D1.
  congruence.
Qed.

Lemma descend_step img levels id v :
  descend img (S levels) id v =
  match disk_block img id with
  | None => None
  | Some table =>
      if is_present (word_at table (level_index (Z.of_nat (S (S levels))) v))
      then descend img levels
             (word_at table (level_index (Z.of_nat (S (S levels))) v) / 2 ^ 8) v
      else Some 0
  end.
Proof. reflexivity. Qed.

Lemma descend_last img id v :
  descend img 0 id v =
  match disk_block img id with
  | None => None
  | Some table => Some (word_at table (level_index 1 v))
  end.
Proof. reflexivity. Qed.

Lemma synthetic_resolve root b3 b2 b1 v0 leaf v :
  0 <= root < 2 ^ 52 -> 0 <= b3 < 2 ^ 52 -> 0 <= b2 < 2 ^ 52 -> 0 <= b1 < 2 ^ 52 ->
  NoDup [root; b3; b2; b1] ->
  0 <= v0 < 2 ^ 48 -> 0 <= v < 2 ^ 48 ->
  resolve (synthetic_image root b3 b2 b1 v0 leaf) root v =
  Some (if v / 4096 =? v0 / 4096 then leaf else 0).
Proof.
  intros Hr H3 H2 H1 Hnd Hv0 Hv.
  assert (Hw : forall b, 0 <= b < 2 ^ 52 -> wrap64 (b * 4096) = b * 4096)
    by (intros b Hb; apply wrap64_small; unfold is_uint64; lia).
  apply NoDup_cons in Hnd as [Hn1 Hnd]. apply NoDup_cons in Hnd as [Hn2 Hnd].
  apply NoDup_cons in Hnd as [Hn3 _].
  apply not_elem_of_cons in Hn1 as [N1 Hn1]. apply not_elem_of_cons in Hn1 as [N2 Hn1].
  apply not_elem_of_cons in Hn1 as [N3 _].
  apply not_elem_of_cons in Hn2 as [N4 Hn2]. apply not_elem_of_cons in Hn2 as [N5 _].
  apply not_elem_of_cons in Hn3 as [N6 _].
  assert (Hroot : disk_block (synthetic_image root b3 b2 b1 v0 leaf) root =
            Some (table_with (level_index 4 v0) (Z.lor (Z.shiftl b3 8) BLOCK_MAP_PRESENT))).
  { unfold disk_block, synthetic_image. rewrite Z.eqb_refl. reflexivity. }
  assert (Hb3 : disk_block (synthetic_image root b3 b2 b1 v0 leaf) b3 =
            Some (table_with (level_index 3 v0) (Z.lor (Z.shiftl b2 8) BLOCK_MAP_PRESENT))).
  { unfold disk_block, synthetic_image. rewrite !Hw by assumption.
    destruct (Z.eqb_spec (b3 * 4096) (root * 4096)); [lia|].
    rewrite Z.eqb_refl. reflexivity. }
  assert (Hb2 : disk_block (synthetic_image root b3 b2 b1 v0 leaf) b2 =
            Some (table_with (level_index 2 v0) (Z.lor (Z.shiftl b1 8) BLOCK_MAP_PRESENT))).
  { unfold disk_block, synthetic_image. rewrite !Hw by assumption.
    destruct (Z.eqb_spec (b2 * 4096) (root * 4096)); [lia|].
    destruct (Z.eqb_spec (b2 * 4096) (b3 * 4096)); [lia|].
    rewrite Z.eqb_refl. reflexivity. }
  assert (Hb1 : disk_block (synthetic_image root b3 b2 b1 v0 leaf) b1 =
            Some (table_with (level_index 1 v0) leaf)).
  { unfold disk_block, synthetic_image. rewrite !Hw by assumption.
    destruct (Z.eqb_spec (b1 * 4096) (root * 4096)); [lia|].
    destruct (Z.eqb_spec (b1 * 4096) (b3 * 4096)); [lia|].
    destruct (Z.eqb_spec (b1 * 4096) (b2 * 4096)); [lia|].
    rewrite Z.eqb_refl. reflexivity. }
  pose proof (same_page_iff_indices v v0 Hv Hv0) as Hsame.
  pose proof (level_index_range 4 v0). pose proof (level_index_range 3 v0).
  pose proof (level_index_range 2 v0). pose proof (level_index_range 1 v0).
  pose proof (level_index_range 4 v). pose proof (level_index_range 3 v).
  pose proof (level_index_range 2 v). pose proof (level_index_range 1 v).
  unfold resolve. rewrite descend_step, Hroot. change (Z.of_nat 4) with 4.
  rewrite word_at_table_with by lia.
  destruct (Z.eqb_spec (level_index 4 v) (level_index 4 v0)) as [E4|E4].
  2:{ rewrite zero_not_present. destruct (Z.eqb_spec (v / 4096) (v0 / 4096)); [tauto | reflexivity]. }
  destruct (pointer_entry b3 ltac:(lia)) as [-> ->].
  rewrite descend_step, Hb3. change (Z.of_nat 3) with 3.
  rewrite word_at_table_with by lia.
  destruct (Z.eqb_spec (level_index 3 v) (level_index 3 v0)) as [E3|E3].
  2:{ rewrite zero_not_present. destruct (Z.eqb_spec (v / 4096) (v0 / 4096)); [tauto | reflexivity]. }
  destruct (pointer_entry b2 ltac:(lia)) as [-> ->].
  rewrite descend_step, Hb2. change (Z.of_nat 2) with 2.
  rewrite word_at_table_with by lia.
  destruct (Z.eqb_spec (level_index 2 v) (level_index 2 v0)) as [E2|E2].
  2:{ rewrite zero_not_present. destruct (Z.eqb_spec (v / 4096) (v0 / 4096)); [tauto | reflexivity]. }
  destruct (pointer_entry b1 ltac:(lia)) as [-> ->].
  rewrite descend_last, Hb1.
  rewrite word_at_table_with by lia.
  destruct (Z.eqb_spec (level_index 1 v) (level_index 1 v0)) as [E1|E1];
    destruct (Z.eqb_spec (v / 4096) (v0 / 4096)); tauto.
Qed.

End SyntheticBlockMap.

(** C8: [read_info_for_page] resolves a virtual address by the four 9-bit
    indices of bits [47:39], [38:30], [29:21], [20:12]: at levels 4, 3 and 2
    it gives 0 for an entry whose PRESENT bit is clear and otherwise descends
    to the block [entry >> 8]; at level 1 it gives the entry as it is (this is
    [resolve]). So in a block map whose only PRESENT page is the page of [v0],
    with a level-1 entry of data-block id 42, every 48-bit address in that page
    gives the entry, of data-block id 42, and every other 48-bit address
    gives 0. *)
Theorem read_info_for_page_resolves :
  (forall img root cache v,
     BlockMap.coherent img cache ->
     match BlockMap.read_info_for_page img root cache v with
     | Some (e, cache') => BlockMap.resolve img root v = Some e /\ BlockMap.coherent img cache'
     | None => BlockMap.resolve img root v = None
     end) /\
  (forall root b3 b2 b1 v0 leaf cache v,
     0 <= root < 2 ^ 52 -> 0 <= b3 < 2 ^ 52 -> 0 <= b2 < 2 ^ 52 -> 0 <= b1 < 2 ^ 52 ->
     NoDup [root; b3; b2; b1] ->
     0 <= v0 < 2 ^ 48 -> 0 <= v < 2 ^ 48 ->
     has_flag leaf BLOCK_MAP_PRESENT = true ->
     Z.shiftr leaf BLOCK_MAP_ID_SHIFT = 42 ->
     BlockMap.coherent (BlockMap.synthetic_image root b3 b2 b1 v0 leaf) cache ->
     exists e cache',
       BlockMap.read_info_for_page (BlockMap.synthetic_image root b3 b2 b1 v0 leaf)
                                   root cache v = Some (e, cache') /\
       (v / 4096 = v0 / 4096 -> e = leaf /\ Z.shiftr e BLOCK_MAP_ID_SHIFT = 42) /\
       (v / 4096 <> v0 / 4096 -> e = 0)).
Proof.
  split.
  - intros img root cache v Hc. apply read_info_for_page_refines. exact Hc.
  - intros root b3 b2 b1 v0 leaf cache v Hr H3 H2 H1 Hnd Hv0 Hv Hp Hid Hc.
    pose proof (read_info_for_page_refines _ root cache v Hc) as Href.
    rewrite (synthetic_resolve root b3 b2 b1 v0 leaf v) in Href by assumption.
    destruct (BlockMap.read_info_for_page _ root cache v) as [[e cache']|]; [|discriminate].
    destruct Href as [He _]. injection He as He.
    exists e, cache'. split; [reflexivity|].
    destruct (Z.eqb_spec (v / 4096) (v0 / 4096)) as [Heq|Hne]; subst e.
    + split; [intros _; split; [reflexivity | exact Hid] | intros Hn; contradiction].
    + split; [intros Hn; contradiction | reflexivity].
Qed.

Lemma read_info_for_page_resolves_witness :
  exists e cache',
    BlockMap.read_info_for_page
      (BlockMap.synthetic_image 1 2 3 4 0xDEADBEEF0000 (Z.lor (Z.shiftl 42 8) BLOCK_MAP_PRESENT))
      1 [] 0xDEADBEEF0123 = Some (e, cache') /\
    Z.shiftr e BLOCK_MAP_ID_SHIFT = 42.
Proof.
  destruct (proj2 read_info_for_page_resolves 1 2 3 4 0xDEADBEEF0000
              (Z.lor (Z.shiftl 42 8) BLOCK_MAP_PRESENT) [] 0xDEADBEEF0123)
    as (e & cache' & Hread & Hsame & _); try lia.
  - apply (bool_decide_unpack _). vm_compute. exact I.
  - reflexivity.
  - reflexivity.
  - constructor.
  - exists e, cache'. split; [exact Hread|]. apply Hsame. reflexivity.
Defined.

(** ** The arm64 paging writer: [mmu_map] *)

Section MmuMapFacts.

Import Arm64.

Lemma wrap64_mod_divide x d : (d | 2 ^ 64) -> wrap64 x mod d = x mod d.
Proof. intros Hd. unfold wrap64. apply Z.mod_mod_divide. exact Hd. Qed.

Lemma page_divides : (PAGE_SIZE | 2 ^ 64).
Proof. exists (2 ^ 52). reflexivity. Qed.

Lemma large_page_divides : (LARGE_PAGE_SIZE | 2 ^ 64).
Proof. exists (2 ^ 43). reflexivity. Qed.

Lemma map_small_total mc ctx virt phys :
  virt mod PAGE_SIZE = 0 -> phys mod PAGE_SIZE = 0 ->
  exists mc', map_small mc ctx virt phys = Some mc'.
Proof.
  intros Hv Hp. unfold map_small. rewrite Hv, Hp. simpl.
  destruct (get_ttl2 mc ctx virt true) as [ttl2 mc1].
  destruct (next_table mc1 ctx ttl2 _ true) as [ttl3 mc2]. eauto.
Qed.

Lemma map_large_total mc ctx virt phys :
  virt mod LARGE_PAGE_SIZE = 0 -> phys mod LARGE_PAGE_SIZE = 0 ->
  exists mc', map_large mc ctx virt phys = Some mc'.
Proof.
  intros Hv Hp. unfold map_large. rewrite Hv, Hp. simpl.
  destruct (get_ttl2 mc ctx virt true) as [ttl2 mc1]. eauto.
Qed.

(** What the loops of [mmu_map] keep: page alignment, a size within 64 bits,
    and the offset between [virt] and [phys] modulo a large page. *)
Definition aligned (c : map_cursor) : Prop :=
  cur_virt c mod PAGE_SIZE = 0 /\ cur_phys c mod PAGE_SIZE = 0 /\
  cur_size c mod PAGE_SIZE = 0 /\ 0 <= cur_size c < 2 ^ 64.

Definition congruent (c : map_cursor) : Prop :=
  cur_virt c mod LARGE_PAGE_SIZE = cur_phys c mod LARGE_PAGE_SIZE.

Lemma shifted_alignment x k d :
  (d | 2 ^ 64) -> 0 < d -> k mod d = 0 -> wrap64 (x + k) mod d = x mod d.
Proof.
  intros Hd Hpos Hk. rewrite wrap64_mod_divide by exact Hd.
  rewrite <- Z.add_mod_idemp_r, Hk, Z.add_0_r by lia. reflexivity.
Qed.

Lemma map_step_small ctx c :
  aligned c -> cur_size c <> 0 ->
  exists c', map_step false ctx c = Some c' /\ aligned c' /\
             cur_size c' = cur_size c - PAGE_SIZE /\
             cur_virt c' mod LARGE_PAGE_SIZE = (cur_virt c + PAGE_SIZE) mod LARGE_PAGE_SIZE /\
             cur_phys c' mod LARGE_PAGE_SIZE = (cur_phys c + PAGE_SIZE) mod LARGE_PAGE_SIZE.
Proof.
  intros (Hv & Hp & Hs & Hr) Hnz. unfold map_step.
  destruct (map_small_total (cur_machine c) ctx _ _ Hv Hp) as [mc' ->].
  assert (Hge : PAGE_SIZE <= cur_size c).
  { unfold PAGE_SIZE in *. pose proof (Z.div_mod (cur_size c) 4096 ltac:(lia)). lia. }
  assert (Hw : wrap64 (cur_size c - PAGE_SIZE) = cur_size c - PAGE_SIZE).
  { apply wrap64_small. unfold is_uint64, PAGE_SIZE in *. lia. }
  eexists. split; [reflexivity|]. unfold aligned; simpl. rewrite Hw.
  repeat split.
  - rewrite shifted_alignment; [exact Hv | apply page_divides | reflexivity | reflexivity].
  - rewrite shifted_alignment; [exact Hp | apply page_divides | reflexivity | reflexivity].
  - unfold PAGE_SIZE in *. rewrite <- Zminus_mod_idemp_l, Hs. reflexivity.
  - unfold PAGE_SIZE in *. lia.
  - unfold PAGE_SIZE in *. lia.
  - apply wrap64_mod_divide, large_page_divides.
  - apply wrap64_mod_divide, large_page_divides.
Qed.

Lemma map_step_large ctx c :
  aligned c -> cur_virt c mod LARGE_PAGE_SIZE = 0 -> cur_phys c mod LARGE_PAGE_SIZE = 0 ->
  cur_size c / LARGE_PAGE_SIZE <> 0 ->
  exists c', map_step true ctx c = Some c' /\ aligned c' /\
             cur_size c' = cur_size c - LARGE_PAGE_SIZE /\
             cur_virt c' mod LARGE_PAGE_SIZE = 0 /\ cur_phys c' mod LARGE_PAGE_SIZE = 0.
Proof.
  intros (Hv & Hp & Hs & Hr) Hlv Hlp Hnz. unfold map_step.
  destruct (map_large_total (cur_machine c) ctx _ _ Hlv Hlp) as [mc' ->].
  assert (Hge : LARGE_PAGE_SIZE <= cur_size c).
  { unfold LARGE_PAGE_SIZE in *.
    destruct (Z.lt_ge_cases (cur_size c) 2097152); [|assumption].
    rewrite Z.div_small in Hnz by lia. congruence. }
  assert (Hw : wrap64 (cur_size c - LARGE_PAGE_SIZE) = cur_size c - LARGE_PAGE_SIZE).
  { apply wrap64_small. unfold is_uint64, LARGE_PAGE_SIZE in *. lia. }
  eexists. split; [reflexivity|]. unfold aligned; simpl. rewrite Hw.
  repeat split.
  - rewrite shifted_alignment; [exact Hv | apply page_divides | reflexivity | reflexivity].
  - rewrite shifted_alignment; [exact Hp | apply page_divides | reflexivity | reflexivity].
  - unfold PAGE_SIZE, LARGE_PAGE_SIZE in *.
    rewrite <- Zminus_mod_idemp_l, Hs. reflexivity.
  - unfold LARGE_PAGE_SIZE in *. lia.
  - unfold LARGE_PAGE_SIZE in *. lia.
  - rewrite shifted_alignment; [exact Hlv | apply large_page_divides | reflexivity | reflexivity].
  - rewrite shifted_alignment; [exact Hlp | apply large_page_divides | reflexivity | reflexivity].
Qed.

Lemma size_pages_step s : 0 <= s -> s mod PAGE_SIZE = 0 -> s <> 0 ->
  Z.to_nat (s / PAGE_SIZE) = S (Z.to_nat ((s - PAGE_SIZE) / PAGE_SIZE)).
Proof.
  unfold PAGE_SIZE. intros H0 Hm Hnz.
  pose proof (Z.div_mod s 4096 ltac:(lia)) as Hd.
  replace (s - 4096) with (s + (-1) * 4096) by lia.
  rewrite Z.div_add by lia.
  assert (1 <= s / 4096) by lia. lia.
Qed.

Lemma no_pages_left c :
  aligned c -> Z.to_nat (cur_size c / PAGE_SIZE) = 0%nat -> cur_size c = 0.
Proof.
  intros (_ & _ & Hs & Hr) Hf. unfold PAGE_SIZE in *.
  pose proof (Z.div_mod (cur_size c) 4096 ltac:(lia)).
  pose proof (Z.div_pos (cur_size c) 4096). lia.
Qed.

Lemma align_loop_total ctx fuel : forall c,
  aligned c -> congruent c -> (Z.to_nat (cur_size c / PAGE_SIZE) <= fuel)%nat ->
  exists c', align_loop fuel ctx c = Some c' /\ aligned c' /\ congruent c' /\
             cur_size c' <= cur_size c /\
             (cur_size c' <> 0 -> cur_virt c' mod LARGE_PAGE_SIZE = 0).
Proof.
  induction fuel as [|fuel IH]; intros c Ha Hc Hf.
  - assert (Hz : cur_size c = 0) by (apply no_pages_left; [exact Ha | lia]).
    exists c. simpl. rewrite Hz. simpl. rewrite andb_false_r.
    split; [reflexivity|]. split; [exact Ha|]. split; [exact Hc|]. split; [lia|].
    intros Hn. contradiction.
  - simpl.
    destruct (Z.eqb_spec (cur_virt c mod LARGE_PAGE_SIZE) 0) as [Hv|Hv]; simpl.
    { exists c. split; [reflexivity|]. split; [exact Ha|]. split; [exact Hc|].
      split; [lia | intros _; exact Hv]. }
    destruct (Z.eqb_spec (cur_size c) 0) as [Hs|Hs]; simpl.
    { exists c. split; [reflexivity|]. split; [exact Ha|]. split; [exact Hc|].
      split; [lia | intros Hn; contradiction]. }
    destruct (map_step_small ctx c Ha Hs) as (c1 & -> & Ha1 & Hs1 & Hv1 & Hp1).
    destruct (IH c1 Ha1) as (c' & Hl & Ha' & Hc' & Hle & Hal).
    + unfold congruent in *. rewrite Hv1, Hp1.
      rewrite <- (Z.add_mod_idemp_l (cur_virt c)), <- (Z.add_mod_idemp_l (cur_phys c)), Hc;
        unfold LARGE_PAGE_SIZE; lia.
    + destruct Ha as (_ & _ & Hm & Hr).
      rewrite (size_pages_step (cur_size c)) in Hf by lia. rewrite Hs1. lia.
    + exists c'. split; [exact Hl|]. split; [exact Ha'|]. split; [exact Hc'|].
      split; [unfold PAGE_SIZE in *; lia | exact Hal].
Qed.

Lemma large_loop_total ctx fuel : forall c,
  aligned c -> congruent c -> (cur_size c <> 0 -> cur_virt c mod LARGE_PAGE_SIZE = 0) ->
  (Z.to_nat (cur_size c / LARGE_PAGE_SIZE) <= fuel)%nat ->
  exists c', large_loop fuel ctx c = Some c' /\ aligned c' /\ cur_size c' <= cur_size c.
Proof.
  induction fuel as [|fuel IH]; intros c Ha Hc Hal Hf.
  - assert (Hz : cur_size c / LARGE_PAGE_SIZE = 0).
    { destruct Ha as (_ & _ & _ & Hr).
      pose proof (Z.div_pos (cur_size c) LARGE_PAGE_SIZE). unfold LARGE_PAGE_SIZE in *. lia. }
    exists c. simpl. rewrite Hz. simpl. split; [reflexivity|]. split; [exact Ha | lia].
  - simpl.
    destruct (Z.eqb_spec (cur_size c / LARGE_PAGE_SIZE) 0) as [Hz|Hz]; simpl.
    { exists c. split; [reflexivity|]. split; [exact Ha | lia]. }
    assert (Hnz : cur_size c <> 0).
    { intros H0. rewrite H0 in Hz. apply Hz. reflexivity. }
    pose proof (Hal Hnz) as Hlv.
    assert (Hlp : cur_phys c mod LARGE_PAGE_SIZE = 0) by (unfold congruent in Hc; congruence).
    destruct (map_step_large ctx c Ha Hlv Hlp Hz) as (c1 & -> & Ha1 & Hs1 & Hv1 & Hp1).
    destruct (IH c1 Ha1) as (c' & Hl & Ha' & Hle).
    + unfold congruent. congruence.
    + intros _. exact Hv1.
    + rewrite Hs1. destruct Ha as (_ & _ & _ & Hr). unfold LARGE_PAGE_SIZE in *.
      replace (cur_size c - 2097152) with (cur_size c + (-1) * 2097152) by lia.
      rewrite Z.div_add by lia.
      assert (0 <= cur_size c / 2097152) by (apply Z.div_pos; lia). lia.
    + exists c'. split; [exact Hl|]. split; [exact Ha'|]. unfold LARGE_PAGE_SIZE in *. lia.
Qed.

Lemma small_loop_total ctx fuel : forall c,
  aligned c -> (Z.to_nat (cur_size c / PAGE_SIZE) <= fuel)%nat ->
  exists c', small_loop fuel ctx c = Some c'.
Proof.
  induction fuel as [|fuel IH]; intros c Ha Hf.
  - assert (Hz : cur_size c = 0) by (apply no_pages_left; [exact Ha | lia]).
    exists c. simpl. rewrite Hz. reflexivity.
  - simpl. destruct (Z.eqb_spec (cur_size c) 0) as [Hs|Hs]; simpl; [eauto|].
    destruct (map_step_small ctx c Ha Hs) as (c1 & -> & Ha1 & Hs1 & _).
    apply IH; [exact Ha1|].
    destruct Ha as (_ & _ & Hm & Hr).
    rewrite (size_pages_step (cur_size c)) in Hf by lia. rewrite Hs1. lia.
Qed.

Lemma pages_monotone a b : 0 <= a <= b -> (Z.to_nat (a / PAGE_SIZE) <= Z.to_nat (b / PAGE_SIZE))%nat.
Proof.
  intros H. apply Z2Nat.inj_le; [apply Z.div_pos; unfold PAGE_SIZE; lia
    | apply Z.div_pos; unfold PAGE_SIZE; lia | apply Z.div_le_mono; unfold PAGE_SIZE; lia].
Qed.

Lemma large_pages_bound a :
  0 <= a -> (Z.to_nat (a / LARGE_PAGE_SIZE) <= Z.to_nat (a / PAGE_SIZE))%nat.
Proof.
  intros H. apply Z2Nat.inj_le; [apply Z.div_pos; unfold LARGE_PAGE_SIZE; lia
    | apply Z.div_pos; unfold PAGE_SIZE; lia |].
  unfold LARGE_PAGE_SIZE, PAGE_SIZE. change 2097152 with (4096 * 512).
  rewrite <- Z.div_div by lia.
  apply Z.div_le_upper_bound; [lia|].
  pose proof (Z.div_pos a 4096 H ltac:(lia)). lia.
Qed.

(** For page-aligned arguments [mmu_map] returns, and what it returns is the
    canonicality of the range. *)
Lemma mmu_map_returns mc ctx virt phys size :
  virt mod PAGE_SIZE = 0 -> phys mod PAGE_SIZE = 0 -> size mod PAGE_SIZE = 0 ->
  0 <= size < 2 ^ 64 ->
  exists mc', mmu_map mc ctx virt phys size = Some (is_canonical_range virt size, mc') /\
              (is_canonical_range virt size = false -> mc' = mc).
Proof.
  intros Hv Hp Hs Hr. unfold mmu_map. rewrite Hv, Hp, Hs.
  change (negb (0 =? 0)) with false. cbv [orb].
  destruct (is_canonical_range virt size); cbv [negb]; [|eauto].
  assert (Ha : aligned (Cursor mc virt phys size)) by (unfold aligned; cbn [cur_virt cur_phys cur_size]; auto).
  assert (Hdone : forall c, aligned c -> cur_size c <= size ->
            exists mc', match small_loop (map_fuel size) ctx c with
                        | Some c' => Some (true, cur_machine c')
                        | None => None
                        end = Some (true, mc') /\ (true = false -> mc' = mc)).
  { intros c Hc Hle.
    destruct (small_loop_total ctx (map_fuel size) c Hc) as [c' ->].
    - apply pages_monotone. destruct Hc as (_ & _ & _ & ?). lia.
    - eexists. split; [reflexivity | discriminate]. }
  destruct (Z.eqb_spec (virt mod LARGE_PAGE_SIZE) (phys mod LARGE_PAGE_SIZE)) as [Hc|Hc].
  - destruct (align_loop_total ctx (map_fuel size) (Cursor mc virt phys size) Ha Hc)
      as (c1 & -> & Ha1 & Hc1 & Hle1 & Hal1); [unfold map_fuel; cbn [cur_size]; lia|].
    cbn [cur_size] in Hle1.
    destruct (large_loop_total ctx (map_fuel size) c1 Ha1 Hc1 Hal1) as (c2 & -> & Ha2 & Hle2).
    + etransitivity; [apply large_pages_bound; destruct Ha1 as (_ & _ & _ & ?); lia|].
      apply pages_monotone. destruct Ha1 as (_ & _ & _ & ?). lia.
    + apply Hdone; [exact Ha2 | lia].
  - apply Hdone; [exact Ha | cbn [cur_size]; lia].
Qed.

End MmuMapFacts.

Section CanonicalRanges.

Import Arm64.

(** Bits 63..48 of a 64-bit address are all zeros or all ones. *)
Definition top16_uniform (a : Z) : Prop := a / 2 ^ 48 = 0 \/ a / 2 ^ 48 = 2 ^ 16 - 1.

(** The canonical form of the specification: the address is the sign extension of
    its bits 47..0. *)
Definition sign_extends_from_47 (a : Z) : bool :=
  (a / 2 ^ 47 =? 0) || (a / 2 ^ 47 =? 2 ^ 17 - 1).

Lemma is_canonical_addr_spec a :
  0 <= a < 2 ^ 64 -> is_canonical_addr a = true <-> top16_uniform a.
Proof.
  intros Ha. unfold is_canonical_addr, top16_uniform, to_int64, wrap64.
  rewrite (Z.mod_small a) by lia. rewrite Z.shiftr_div_pow2 by lia.
  assert (Hq : 0 <= a / 2 ^ 48 < 2 ^ 16).
  { split; [apply Z.div_pos; lia | apply Z.div_lt_upper_bound; lia]. }
  destruct (Z.ltb_spec a (2 ^ 63)) as [Hlo|Hhi].
  - assert (Hq' : a / 2 ^ 48 < 2 ^ 15) by (apply Z.div_lt_upper_bound; lia).
    rewrite Z.mod_small by lia. rewrite Z.leb_le. lia.
  - replace (a - 2 ^ 64) with (a + (- 2 ^ 16) * 2 ^ 48) by lia.
    rewrite Z.div_add by lia.
    assert (Hq' : 2 ^ 15 <= a / 2 ^ 48) by (apply Z.div_le_lower_bound; lia).
    destruct (Z.eq_dec (a / 2 ^ 48) (2 ^ 16 - 1)) as [He|Hne].
    + rewrite He. simpl. split; [intros _; right; reflexivity | reflexivity].
    + replace (a / 2 ^ 48 + - 2 ^ 16 + 1) with (a / 2 ^ 48 - 2 ^ 16 + 1 + 1 * 2 ^ 64 - 2 ^ 64) by lia.
      assert (Hm : (a / 2 ^ 48 + - 2 ^ 16 + 1) mod 2 ^ 64 = a / 2 ^ 48 - 2 ^ 16 + 1 + 2 ^ 64).
      { symmetry. apply Z.mod_unique with (q := -1); lia. }
      replace (a / 2 ^ 48 - 2 ^ 16 + 1 + 1 * 2 ^ 64 - 2 ^ 64) with (a / 2 ^ 48 + - 2 ^ 16 + 1) by lia.
      rewrite Hm, Z.leb_le. lia.
Qed.

Lemma land_bit48 a : Z.land a (Z.shiftl 1 48) = if Z.testbit a 48 then 2 ^ 48 else 0.
Proof.
  change (Z.shiftl 1 48) with (2 ^ 48). apply Z.bits_inj'. intros i Hi.
  rewrite Z.land_spec, Z.pow2_bits_eqb by lia.
  destruct (Z.eqb_spec 48 i) as [<-|Hne].
  - rewrite andb_true_r. destruct (Z.testbit a 48); [|reflexivity].
    rewrite Z.pow2_bits_true; [reflexivity | lia].
  - rewrite andb_false_r. destruct (Z.testbit a 48); [|symmetry; apply Z.bits_0].
    rewrite Z.pow2_bits_false; [reflexivity | lia].
Qed.

Lemma is_canonical_range_spec virt size :
  0 <= virt < 2 ^ 64 ->
  is_canonical_range virt size = true <->
  top16_uniform virt /\ top16_uniform (wrap64 (virt + size - 1)) /\
  Z.testbit virt 48 = Z.testbit (wrap64 (virt + size - 1)) 48.
Proof.
  intros Hv. unfold is_canonical_range.
  pose proof (wrap64_range (virt + size - 1)) as He. unfold is_uint64 in He.
  rewrite !andb_true_iff, !is_canonical_addr_spec by assumption.
  rewrite !land_bit48, Z.eqb_eq.
  destruct (Z.testbit virt 48), (Z.testbit (wrap64 (virt + size - 1)) 48);
    split; intros [[H1 H2] H3] || intros (H1 & H2 & H3);
    repeat split; try assumption; try reflexivity; try discriminate.
Qed.

(** A machine with empty memory and a fresh paging context. *)
Definition example_machine : machine := Machine (fun _ => 0) 0x80000000.
Definition example_context : mmu_context := fst (mmu_context_create example_machine 3).
Definition example_tables : machine := snd (mmu_context_create example_machine 3).

End CanonicalRanges.

(** C9 as stated fails: the one-page range at 0x0000800000000000 is not the
    sign extension of its low 48 bits (bit 47 is set and bits 63..48 are
    clear), yet [mmu_map] maps it and returns true. *)
Lemma mmu_map_accepts_bit47_range :
  fst <$> Arm64.mmu_map example_tables example_context 0x800000000000 0 0x1000 = Some true /\
  sign_extends_from_47 0x800000000000 = false.
Proof. split; vm_compute; reflexivity. Qed.

(** C9, amended: for 4-KiB-aligned [virt], [phys] and [size], [mmu_map]
    returns false iff the virtual range is not canonical in the sense of the
    arm64 code: bits 63..48 of each end ([virt] and [virt + size - 1]) are all
    zeros or all ones, and bit 48 is the same at both ends. When it returns
    false it has created no mapping: memory and allocator are unchanged. *)
Theorem mmu_map_false_iff_not_canonical (mc : Arm64.machine) (ctx : Arm64.mmu_context)
    (virt phys size : Z) :
  0 <= virt < 2 ^ 64 -> 0 <= phys < 2 ^ 64 -> 0 <= size < 2 ^ 64 ->
  virt mod PAGE_SIZE = 0 -> phys mod PAGE_SIZE = 0 -> size mod PAGE_SIZE = 0 ->
  exists (result : bool) (mc' : Arm64.machine),
    Arm64.mmu_map mc ctx virt phys size = Some (result, mc') /\
    (result = false <->
       ~ (top16_uniform virt /\ top16_uniform (wrap64 (virt + size - 1)) /\
          Z.testbit virt 48 = Z.testbit (wrap64 (virt + size - 1)) 48)) /\
    (result = false -> mc' = mc).
Proof.
  intros Hv Hp Hs Hva Hpa Hsa.
  destruct (mmu_map_returns mc ctx virt phys size Hva Hpa Hsa Hs) as (mc' & Hmap & Hsame).
  exists (Arm64.is_canonical_range virt size), mc'.
  split; [exact Hmap|]. split; [|exact Hsame].
  rewrite <- (is_canonical_range_spec virt size Hv).
  destruct (Arm64.is_canonical_range virt size); split; congruence.
Qed.

Lemma mmu_map_false_iff_not_canonical_witness :
  exists (result : bool) (mc' : Arm64.machine),
    Arm64.mmu_map example_tables example_context 0x1000000000000 0 0x1000 = Some (result, mc') /\
    (result = false -> mc' = example_tables).
Proof.
  destruct (mmu_map_false_iff_not_canonical example_tables example_context
              0x1000000000000 0 0x1000) as (result & mc' & Hmap & _ & Hsame);
    try lia; try reflexivity.
  exists result, mc'. split; [exact Hmap | exact Hsame].
Defined.

(** ** The buddy allocator *)

Section BuddyBins.

Lemma bins_set_bin bi w k b w' :
  bins (set_bin bi w k b) w' =
  if decide (w = w') then <[Z.to_nat k := b]> (bins bi w) else bins bi w'.
Proof. destruct w, w'; reflexivity. Qed.

Lemma entries_set_bin bi w k b : entries (set_bin bi w k b) = entries bi.
Proof. destruct w; reflexivity. Qed.

Lemma page_exists_set_bin bi w k b p : page_exists (set_bin bi w k b) p = page_exists bi p.
Proof. unfold page_exists. rewrite entries_set_bin. reflexivity. Qed.

Lemma bin_at_set_bin bi w k b w' i :
  0 <= k -> 0 <= i -> (Z.to_nat k < length (bins bi w))%nat ->
  bin_at (set_bin bi w k b) w' i =
  if decide (w = w' /\ k = i) then b else bin_at bi w' i.
Proof.
  intros Hk Hi Hlen. unfold bin_at. rewrite bins_set_bin.
  destruct (decide (w = w')) as [<-|Hw].
  - destruct (decide (w = w /\ k = i)) as [[_ <-]|Hne].
    + rewrite nth_lookup, list_lookup_insert_eq by exact Hlen. reflexivity.
    + rewrite !nth_lookup, list_lookup_insert_ne; [reflexivity|].
      intros Heq. apply Hne. split; [reflexivity | lia].
  - destruct (decide (w = w' /\ k = i)) as [[Heq _]|_]; [contradiction | reflexivity].
Qed.

Lemma length_bins_set_bin bi w k b w' :
  length (bins (set_bin bi w k b) w') = length (bins bi w').
Proof.
  rewrite bins_set_bin. destruct (decide (w = w')) as [<-|]; [|reflexivity].
  apply length_insert.
Qed.

Lemma set_bin_set_bin bi w k b b' :
  set_bin (set_bin bi w k b) w k b' = set_bin bi w k b'.
Proof. destruct w; unfold set_bin; simpl; rewrite list_insert_insert_eq; reflexivity. Qed.

Lemma set_bin_same bi w k :
  0 <= k -> (Z.to_nat k < length (bins bi w))%nat ->
  set_bin bi w k (bin_at bi w k) = bi.
Proof.
  intros Hk Hlen. unfold bin_at.
  assert (Hl : bins bi w !! Z.to_nat k = Some (nth (Z.to_nat k) (bins bi w) zero_bin)).
  { rewrite nth_lookup. destruct (bins bi w !! Z.to_nat k) eqn:E; [reflexivity|].
    apply lookup_ge_None in E. lia. }
  destruct bi as [b32 b64 n mm]. destruct w; unfold set_bin; simpl in *;
    rewrite list_insert_id by exact Hl; reflexivity.
Qed.

End BuddyBins.

Section BuddyArithmetic.

Lemma land_pow2_clear x e : 0 <= e -> Z.testbit x e = false -> Z.land x (2 ^ e) = 0.
Proof.
  intros He Hb. apply Z.bits_inj'. intros i Hi.
  rewrite Z.land_spec, Z.bits_0, Z.pow2_bits_eqb by lia.
  destruct (Z.eqb_spec e i) as [<-|]; [rewrite Hb|]; [reflexivity | apply andb_false_r].
Qed.

Lemma lxor_pow2_clear x e : 0 <= e -> Z.testbit x e = false -> Z.lxor x (2 ^ e) = x + 2 ^ e.
Proof. intros He Hb. symmetry. apply Z.add_nocarry_lxor, land_pow2_clear; assumption. Qed.

Lemma lxor_pow2_set x e : 0 <= e -> Z.testbit x e = true -> Z.lxor x (2 ^ e) = x - 2 ^ e.
Proof.
  intros He Hb.
  assert (Hd : x - 2 ^ e = Z.ldiff x (2 ^ e)).
  { apply Z.sub_nocarry_ldiff. apply Z.bits_inj'. intros i Hi.
    rewrite Z.ldiff_spec, Z.bits_0, Z.pow2_bits_eqb by lia.
    destruct (Z.eqb_spec e i) as [<-|]; [rewrite Hb|]; reflexivity. }
  assert (Hc : Z.testbit (x - 2 ^ e) e = false).
  { rewrite Hd, Z.ldiff_spec, Z.pow2_bits_eqb, Z.eqb_refl by lia. apply andb_false_r. }
  pose proof (lxor_pow2_clear (x - 2 ^ e) e He Hc) as Hx.
  replace (x - 2 ^ e + 2 ^ e) with x in Hx by lia.
  rewrite <- Hx at 1. rewrite Z.lxor_assoc, Z.lxor_nilpotent, Z.lxor_0_r. reflexivity.
Qed.

(** The bit at position [e] of a multiple of [2^e]. *)
Lemma testbit_aligned x e :
  0 <= e -> x mod 2 ^ e = 0 -> Z.testbit x e = Z.odd (x / 2 ^ e).
Proof.
  intros He _. rewrite <- Z.shiftr_div_pow2, <- Z.bit0_odd, Z.shiftr_spec by lia.
  reflexivity.
Qed.

Lemma buddy_pow2 k x : 0 <= k <= 51 -> buddy k x = Z.lxor x (2 ^ (k + 12)).
Proof.
  intros Hk. unfold buddy, log2_4k_page. rewrite Z.shiftl_1_l.
  rewrite wrap64_small; [reflexivity|]. unfold is_uint64.
  split; [apply Z.pow_nonneg; lia | apply Z.pow_lt_mono_r; lia].
Qed.

(** The buddy of an aligned block: the other half of the enclosing block of
    twice the size. *)
Lemma buddy_of_aligned k x :
  0 <= k <= 51 -> 0 <= x -> x mod 2 ^ (k + 12) = 0 ->
  let a := Z.min x (buddy k x) in
  0 <= buddy k x /\ buddy k x mod 2 ^ (k + 12) = 0 /\
  buddy k (buddy k x) = x /\
  a mod 2 ^ (k + 13) = 0 /\ 0 <= a /\
  ((x = a /\ buddy k x = a + 2 ^ (k + 12)) \/ (buddy k x = a /\ x = a + 2 ^ (k + 12))).
Proof.
  intros Hk Hx Hal a. subst a.
  assert (Hp : 0 < 2 ^ (k + 12)) by (apply Z.pow_pos_nonneg; lia).
  assert (Hp2 : 2 ^ (k + 13) = 2 * 2 ^ (k + 12)).
  { replace (k + 13) with (Z.succ (k + 12)) by lia. apply Z.pow_succ_r. lia. }
  pose proof (Z.div_mod x (2 ^ (k + 12)) ltac:(lia)) as Hdm. rewrite Hal in Hdm.
  assert (Hq : 0 <= x / 2 ^ (k + 12)) by (apply Z.div_pos; lia).
  pose proof (Zdiv2_odd_eqn (x / 2 ^ (k + 12))) as Hodd.
  rewrite !buddy_pow2 by lia.
  pose proof (testbit_aligned x (k + 12) ltac:(lia) Hal) as Hbit.
  destruct (Z.odd (x / 2 ^ (k + 12))) eqn:Ho.
  - rewrite (lxor_pow2_set x) by (assumption || lia).
    assert (Hb' : Z.testbit (x - 2 ^ (k + 12)) (k + 12) = false).
    { assert (Hm : (x - 2 ^ (k + 12)) mod 2 ^ (k + 12) = 0)
        by (rewrite <- Zminus_mod_idemp_r, Z.mod_same, Z.sub_0_r by lia; exact Hal).
      rewrite (testbit_aligned (x - 2 ^ (k + 12)) (k + 12) ltac:(lia) Hm).
      replace (x - 2 ^ (k + 12)) with ((x / 2 ^ (k + 12) - 1) * 2 ^ (k + 12))
        by (transitivity (2 ^ (k + 12) * (x / 2 ^ (k + 12)) + 0 - 2 ^ (k + 12));
            [ring | rewrite <- Hdm; reflexivity]).
      rewrite Z.div_mul, Z.odd_sub, Ho by lia. reflexivity. }
    rewrite (lxor_pow2_clear (x - 2 ^ (k + 12))) by (assumption || lia).
    rewrite Z.min_r by lia.
    assert (Hx2 : x - 2 ^ (k + 12) = 2 ^ (k + 13) * Z.div2 (x / 2 ^ (k + 12))) by nia.
    repeat split; try lia.
    + rewrite <- Zminus_mod_idemp_r, Z.mod_same, Z.sub_0_r by lia. exact Hal.
    + rewrite Hx2, Z.mul_comm. apply Z.mod_mul. lia.
  - rewrite (lxor_pow2_clear x) by (assumption || lia).
    assert (Hb' : Z.testbit (x + 2 ^ (k + 12)) (k + 12) = true).
    { assert (Hm : (x + 2 ^ (k + 12)) mod 2 ^ (k + 12) = 0)
        by (rewrite <- Zplus_mod_idemp_r, Z.mod_same, Z.add_0_r by lia; exact Hal).
      rewrite (testbit_aligned (x + 2 ^ (k + 12)) (k + 12) ltac:(lia) Hm).
      replace (x + 2 ^ (k + 12)) with ((x / 2 ^ (k + 12) + 1) * 2 ^ (k + 12))
        by (transitivity (2 ^ (k + 12) * (x / 2 ^ (k + 12)) + 0 + 2 ^ (k + 12));
            [ring | rewrite <- Hdm; reflexivity]).
      rewrite Z.div_mul, Z.odd_add, Ho by lia. reflexivity. }
    rewrite (lxor_pow2_set (x + 2 ^ (k + 12))) by (assumption || lia).
    rewrite Z.min_l by lia.
    assert (Hx2 : x = 2 ^ (k + 13) * Z.div2 (x / 2 ^ (k + 12))) by nia.
    repeat split; try lia.
    + rewrite <- Zplus_mod_idemp_r, Z.mod_same, Z.add_0_r by lia. exact Hal.
    + rewrite Hx2 at 1. rewrite Z.mul_comm. apply Z.mod_mul. lia.
Qed.

End BuddyArithmetic.

Section BuddyCoalescence.

Variables (nil : Z) (w : bin_array) (m : Z).
Hypothesis m_range : 0 <= m <= 50.

(** A bin as [mezzano_loader_load] initialises it. *)
Definition empty_bin : mezzano_buddy_bin := BuddyBin nil (fixnum 0).

(** The tail of [buddy_free_page]: the loop entered at order [k] with the
    block at [l], then the statements after the loop. *)
Definition free_from (k l : Z) (bi : mezzano_boot_information) (im : info_array)
    : option (mezzano_boot_information * info_array) :=
  match coalesce (S (Z.to_nat (m - k))) bi im nil w m k l with
  | Some (bi', im', k', l') => Some (link_free_page bi' im' nil w k' l')
  | None => None
  end.

(** The page-info writes that link [l] as the only block of bin [k]. *)
Definition linked_info (im : info_array) (k l : Z) : info_array :=
  set_page_info_prev
    (set_page_info_next
       (set_page_info_bin (set_page_info_type im l page_type_free) l k) l nil) l nil.

(** [im'] holds what [im] holds for every page outside [lo, hi). *)
Definition agree_outside (lo hi : Z) (im im' : info_array) : Prop :=
  forall p, ~ (lo <= p < hi) -> info_at im' p = info_at im p.

Lemma buddy_free_page_from bi im l :
  select_bins l = (w, m) -> buddy_free_page bi im nil l = free_from 0 l bi im.
Proof.
  intros Hs. unfold buddy_free_page, free_from, coalesce_fuel. rewrite Hs, Z.sub_0_r.
  reflexivity.
Qed.

Lemma free_from_break bi im k l :
  loop_breaks bi im m k l = true ->
  free_from k l bi im = Some (link_free_page bi im nil w k l).
Proof. intros Hb. unfold free_from. simpl. rewrite Hb. reflexivity. Qed.

Lemma fixnum_0 : fixnum 0 = 0.
Proof. reflexivity. Qed.

Lemma fixnum_1 : fixnum 1 = 2.
Proof. reflexivity. Qed.

(** An iteration of the loop whose buddy is the only block of bin [k]. *)
Lemma free_from_carry bi im k l :
  0 <= k < m -> (Z.to_nat k < length (bins bi w))%nat ->
  loop_breaks bi im m k l = false ->
  bin_at bi w k = BuddyBin (fixnum (buddy k l / PAGE_SIZE)) (fixnum 1) ->
  page_info_next im (buddy k l) = nil ->
  page_info_prev im (buddy k l) = nil ->
  free_from k l bi im = free_from (k + 1) (Z.min l (buddy k l)) (set_bin bi w k empty_bin) im.
Proof.
  intros Hk Hlen Hb Hbin Hnext Hprev. unfold free_from.
  replace (Z.to_nat (m - k)) with (S (Z.to_nat (m - (k + 1)))) by lia.
  remember (S (Z.to_nat (m - (k + 1)))) as fuel.
  cbn [coalesce]. rewrite Hb.
  assert (Hu : unlink_buddy bi im nil w k (buddy k l) = (set_bin bi w k empty_bin, im)).
  { unfold unlink_buddy. rewrite Hbin. cbn [first_page count].
    rewrite fixnum_to_int64, Z.eqb_refl, Hnext, Z.eqb_refl. cbn [negb].
    rewrite Hprev, Z.eqb_refl. cbn [negb].
    unfold set_count, set_first_page.
    rewrite bin_at_set_bin by (assumption || lia).
    destruct (decide (w = w /\ k = k)) as [_|Hn]; [|exfalso; apply Hn; split; reflexivity].
    cbn [first_page count]. rewrite set_bin_set_bin, Hbin. cbn [count].
    rewrite Z.sub_diag. reflexivity. }
  rewrite Hu.
  replace (if buddy k l <? l then buddy k l else l) with (Z.min l (buddy k l)); [reflexivity|].
  destruct (Z.ltb_spec (buddy k l) l); [apply Z.min_r | apply Z.min_l]; lia.
Qed.

(** The statements after the loop when bin [k] is empty. *)
Lemma link_into_empty_bin bi im k l :
  0 <= k <= m -> (Z.to_nat k < length (bins bi w))%nat ->
  bin_at bi w k = empty_bin ->
  link_free_page bi im nil w k l =
  (set_bin bi w k (BuddyBin (fixnum (l / PAGE_SIZE)) (fixnum 1)), linked_info im k l).
Proof.
  intros Hk Hlen Hbin. unfold link_free_page, linked_info.
  rewrite Hbin. cbn [empty_bin first_page]. rewrite Z.eqb_refl. cbn [negb].
  rewrite Z.mod_small by lia.
  unfold set_count, set_first_page.
  rewrite bin_at_set_bin by (assumption || lia).
  destruct (decide (w = w /\ k = k)) as [_|Hn]; [|exfalso; apply Hn; split; reflexivity].
  cbn [first_page count]. rewrite set_bin_set_bin, Hbin. cbn [empty_bin count].
  rewrite fixnum_to_int64. reflexivity.
Qed.

Lemma linked_info_fields im k l :
  0 <= k < 256 ->
  page_info_type (linked_info im k l) l = page_type_free /\
  page_info_bin (linked_info im k l) l = k /\
  page_info_next (linked_info im k l) l = nil /\
  page_info_prev (linked_info im k l) l = nil.
Proof.
  intros Hk. unfold linked_info. repeat split.
  - rewrite type_set_prev, type_set_next, type_set_bin, type_set_type
      by (unfold page_type_free; lia).
    destruct (decide _); [reflexivity | congruence].
  - rewrite bin_set_prev, bin_set_next, bin_set_bin by lia.
    destruct (decide _); [reflexivity | congruence].
  - rewrite next_set_prev, next_set_next.
    destruct (decide _); [reflexivity | congruence].
  - rewrite prev_set_prev. destruct (decide _); [reflexivity | congruence].
Qed.

Lemma linked_info_other im k l p :
  l / PAGE_SIZE <> p / PAGE_SIZE -> info_at (linked_info im k l) p = info_at im p.
Proof.
  intros Hne. unfold linked_info, set_page_info_prev, set_page_info_next,
    set_page_info_bin, set_page_info_type, set_page_info_flags.
  rewrite !info_at_put_other by exact Hne. reflexivity.
Qed.

(** A page outside a page-aligned block lies in another frame than any page
    of the block. *)
Lemma frame_outside lo hi l p :
  lo mod PAGE_SIZE = 0 -> hi mod PAGE_SIZE = 0 ->
  lo <= l < hi -> ~ (lo <= p < hi) -> l / PAGE_SIZE <> p / PAGE_SIZE.
Proof.
  unfold PAGE_SIZE. intros Hlo Hhi Hl Hp Heq.
  pose proof (Z.div_mod lo 4096 ltac:(lia)). pose proof (Z.div_mod hi 4096 ltac:(lia)).
  pose proof (Z.div_mod l 4096 ltac:(lia)). pose proof (Z.div_mod p 4096 ltac:(lia)).
  pose proof (Z.mod_pos_bound l 4096 ltac:(lia)).
  pose proof (Z.mod_pos_bound p 4096 ltac:(lia)).
  lia.
Qed.

Lemma getters_agree im im' p :
  info_at im' p = info_at im p ->
  page_info_type im' p = page_info_type im p /\
  page_info_bin im' p = page_info_bin im p /\
  page_info_next im' p = page_info_next im p /\
  page_info_prev im' p = page_info_prev im p.
Proof.
  intros H. unfold page_info_type, page_info_bin, page_info_next, page_info_prev,
    page_info_flags. rewrite H. auto.
Qed.

Lemma release_pages_app a b bi im range i :
  release_pages (a + b) bi im nil range i =
  match release_pages a bi im nil range i with
  | Some (bi', im') => release_pages b bi' im' nil range (i + Z.of_nat a * PAGE_SIZE)
  | None => None
  end.
Proof.
  revert bi im i. induction a as [|a IH]; intros bi im i.
  - simpl. rewrite Z.add_0_r. reflexivity.
  - change (S a + b)%nat with (S (a + b)). cbn [release_pages].
    replace (i + Z.of_nat (S a) * PAGE_SIZE) with (i + PAGE_SIZE + Z.of_nat a * PAGE_SIZE) by lia.
    destruct (is_free (range_type range) && _).
    + destruct (buddy_free_page bi im nil _) as [[bi' im']|]; [apply IH | reflexivity].
    + destruct (is_pagetables (range_type range)); apply IH.
Qed.

Lemma loop_breaks_not_free bi im k l :
  page_info_type im (buddy k l) <> page_type_free -> loop_breaks bi im m k l = true.
Proof.
  intros Ht. unfold loop_breaks.
  destruct (Z.eqb_spec (page_info_type im (buddy k l)) page_type_free); [contradiction|].
  cbn [negb]. rewrite orb_true_r. reflexivity.
Qed.

Lemma loop_continues bi im k l :
  k <> m -> page_exists bi (buddy k l) = true ->
  page_info_type im (buddy k l) = page_type_free ->
  page_info_bin im (buddy k l) = k ->
  loop_breaks bi im m k l = false.
Proof.
  intros Hk He Ht Hb. unfold loop_breaks. rewrite He, Ht, Hb.
  destruct (Z.eqb_spec k m); [contradiction|]. rewrite !Z.eqb_refl. reflexivity.
Qed.

Lemma block_page_aligned x k :
  0 <= k -> x mod 2 ^ (k + 12) = 0 ->
  x mod PAGE_SIZE = 0 /\ (x + 2 ^ (k + 12)) mod PAGE_SIZE = 0.
Proof.
  intros Hk Hx. unfold PAGE_SIZE. change 4096 with (2 ^ 12).
  assert (Hd : (2 ^ 12 | 2 ^ (k + 12))).
  { exists (2 ^ k). rewrite <- Z.pow_add_r by lia. reflexivity. }
  assert (H1 : x mod 2 ^ 12 = 0).
  { rewrite <- (Z.mod_mod_divide x (2 ^ (k + 12)) (2 ^ 12) Hd), Hx. reflexivity. }
  split; [exact H1|].
  rewrite <- Z.add_mod_idemp_l, H1, Z.add_0_l by lia.
  apply Z.mod_divide in Hd; [exact Hd | lia].
Qed.

(** What releasing an aligned block of [2^k] pages needs of the state: the
    pages are in the memory map and belong to the array [w], none of them is
    free yet, and the bins below [k] are empty. *)
Definition block_ok (bi : mezzano_boot_information) (im : info_array) (base k : Z) : Prop :=
  (forall p, base <= p < base + 2 ^ (k + 12) ->
     page_exists bi p = true /\ select_bins p = (w, m) /\
     page_info_type im p <> page_type_free) /\
  (forall i, 0 <= i < k -> bin_at bi w i = empty_bin) /\
  base mod 2 ^ (k + 12) = 0 /\ 1024 * 1024 < base /\ base + 2 ^ (k + 12) < 2 ^ 63 /\
  0 <= k <= m /\ length (bins bi w) = Z.to_nat (m + 1).

(** Releasing the [2^k] pages of an aligned block one after the other comes
    to entering the loop of [buddy_free_page] at order [k] with the whole
    block, on a state that differs only in page infos inside the block. *)
Definition releases_as_block (k : Z) : Prop :=
  forall range i bi im,
    is_free (range_type range) = true ->
    block_ok bi im (range_start range + i) k ->
    exists im',
      agree_outside (range_start range + i) (range_start range + i + 2 ^ (k + 12)) im im' /\
      release_pages (Z.to_nat (2 ^ k)) bi im nil range i =
      free_from k (range_start range + i) bi im'.

Lemma releases_single_page : releases_as_block 0.
Proof.
  intros range i bi im Hfree (Hpages & _ & _ & Hlow & Hhigh & _ & _).
  exists im. split; [intros p _; reflexivity|].
  change (Z.to_nat (2 ^ 0)) with 1%nat. cbn [release_pages].
  change (2 ^ (0 + 12)) with 4096 in *.
  rewrite wrap64_small by (unfold is_uint64; lia).
  rewrite Hfree.
  destruct (Z.gtb_spec (range_start range + i) (1024 * 1024)) as [_|Hle]; [|lia].
  cbn [andb].
  destruct (Hpages (range_start range + i) ltac:(lia)) as (_ & Hsel & _).
  rewrite (buddy_free_page_from _ _ _ Hsel).
  destruct (free_from 0 _ bi im) as [[bi' im']|]; reflexivity.
Qed.

(** Releasing an aligned block of [2^k] pages and then its buddy comes to
    entering the loop at order [k + 1] with the block the two make up. *)
Lemma releases_two_buddies k :
  releases_as_block k -> k < m ->
  forall rx ix ry iy bi im,
    is_free (range_type rx) = true -> is_free (range_type ry) = true ->
    range_start ry + iy = buddy k (range_start rx + ix) ->
    block_ok bi im (range_start rx + ix) k ->
    block_ok bi im (range_start ry + iy) k ->
    bin_at bi w k = empty_bin ->
    exists im',
      agree_outside (Z.min (range_start rx + ix) (range_start ry + iy))
                    (Z.min (range_start rx + ix) (range_start ry + iy) + 2 ^ (k + 13)) im im' /\
      match release_pages (Z.to_nat (2 ^ k)) bi im nil rx ix with
      | Some (bi1, im1) => release_pages (Z.to_nat (2 ^ k)) bi1 im1 nil ry iy
      | None => None
      end = free_from (k + 1) (Z.min (range_start rx + ix) (range_start ry + iy)) bi im'.
Proof.
  intros HR Hkm rx ix ry iy bi im Hfx Hfy Hy Hokx Hoky Hbin.
  set (x := range_start rx + ix) in *. set (y := range_start ry + iy) in *.
  pose proof Hokx as (Hpx & Hlowx & Halx & Hmbx & Hhix & Hk & Hlen).
  pose proof Hoky as (Hpy & _ & Haly & Hmby & Hhiy & _ & _).
  assert (Hp2 : 2 ^ (k + 13) = 2 * 2 ^ (k + 12)).
  { replace (k + 13) with (Z.succ (k + 12)) by lia. apply Z.pow_succ_r. lia. }
  assert (Hpos : 0 < 2 ^ (k + 12)) by (apply Z.pow_pos_nonneg; lia).
  destruct (buddy_of_aligned k x ltac:(lia) ltac:(lia) Halx)
    as (_ & _ & Hback & _ & _ & Hcases).
  rewrite <- Hy in Hback, Hcases.
  destruct (block_page_aligned x k ltac:(lia) Halx) as [Hxp Hxp'].
  destruct (block_page_aligned y k ltac:(lia) Haly) as [Hyp Hyp'].
  assert (Hyx : ~ (x <= y < x + 2 ^ (k + 12))) by lia.
  assert (Hxy : ~ (y <= x < y + 2 ^ (k + 12))) by lia.
  assert (Hklen : (Z.to_nat k < length (bins bi w))%nat) by lia.
  (* The first block: its buddy is not free, so it is linked into bin [k]. *)
  destruct (HR rx ix bi im Hfx Hokx) as (imx & Hagx & Hrelx). fold x in Hagx, Hrelx.
  rewrite Hrelx.
  assert (Htyy : page_info_type imx (buddy k x) <> page_type_free).
  { rewrite <- Hy. rewrite (proj1 (getters_agree im imx y (Hagx y Hyx))). apply Hpy. lia. }
  rewrite (free_from_break bi imx k x (loop_breaks_not_free bi imx k x Htyy)).
  rewrite (link_into_empty_bin bi imx k x Hk Hklen Hbin).
  set (bi1 := set_bin bi w k (BuddyBin (fixnum (x / PAGE_SIZE)) (fixnum 1))).
  set (im1 := linked_info imx k x).
  assert (Hfields : page_info_type im1 x = page_type_free /\ page_info_bin im1 x = k /\
                    page_info_next im1 x = nil /\ page_info_prev im1 x = nil)
    by (apply linked_info_fields; lia).
  (* The second block is released on the state so reached. *)
  assert (Hok1 : block_ok bi1 im1 y k).
  { split; [|split; [|repeat split; try assumption; try lia]].
    - intros p Hp. destruct (Hpy p Hp) as (He & Hs & Ht).
      split; [unfold bi1; rewrite page_exists_set_bin; exact He|]. split; [exact Hs|].
      assert (Hfr : x / PAGE_SIZE <> p / PAGE_SIZE).
      { apply (frame_outside x (x + 2 ^ (k + 12))); try assumption; lia. }
      unfold im1. rewrite (proj1 (getters_agree _ _ p (linked_info_other imx k x p Hfr))).
      rewrite (proj1 (getters_agree im imx p (Hagx p ltac:(lia)))). exact Ht.
    - intros i Hi. unfold bi1. rewrite bin_at_set_bin by (assumption || lia).
      destruct (decide (w = w /\ k = i)) as [[_ ?]|_]; [lia | apply Hlowx; exact Hi].
    - unfold bi1. rewrite length_bins_set_bin. exact Hlen. }
  destruct (HR ry iy bi1 im1 Hfy Hok1) as (imy & Hagy & Hrely). fold y in Hagy, Hrely.
  rewrite Hrely.
  (* Its buddy is the first block, alone in bin [k]: the two are merged. *)
  destruct (getters_agree im1 imy x (Hagy x Hxy)) as (Gt & Gb & Gn & Gp).
  destruct Hfields as (Ft & Fb & Fn & Fp).
  assert (Hbin1 : bin_at bi1 w k = BuddyBin (fixnum (buddy k y / PAGE_SIZE)) (fixnum 1)).
  { unfold bi1. rewrite bin_at_set_bin by (assumption || lia).
    destruct (decide (w = w /\ k = k)) as [_|Hn]; [|exfalso; apply Hn; split; reflexivity].
    rewrite Hback. reflexivity. }
  rewrite (free_from_carry bi1 imy k y).
  - assert (Hsame : set_bin bi w k empty_bin = bi)
      by (rewrite <- Hbin; apply set_bin_same; [lia | exact Hklen]).
    unfold bi1. rewrite set_bin_set_bin, Hsame, Hback.
    exists imy. split; [|rewrite (Z.min_comm y x); reflexivity].
    intros p Hp.
    assert (Hfr : x / PAGE_SIZE <> p / PAGE_SIZE).
    { apply (frame_outside x (x + 2 ^ (k + 12))); try assumption; lia. }
    rewrite (Hagy p ltac:(lia)). unfold im1. rewrite (linked_info_other imx k x p Hfr).
    apply Hagx. lia.
  - lia.
  - unfold bi1. rewrite length_bins_set_bin. exact Hklen.
  - apply loop_continues; rewrite ?Hback; try lia; try congruence.
    unfold bi1. rewrite page_exists_set_bin. apply Hpx. lia.
  - exact Hbin1.
  - rewrite Hback. congruence.
  - rewrite Hback. congruence.
Qed.

Lemma buddy_of_lower_half k x :
  0 <= k <= 50 -> 0 <= x -> x mod 2 ^ (k + 13) = 0 ->
  x mod 2 ^ (k + 12) = 0 /\ buddy k x = x + 2 ^ (k + 12).
Proof.
  intros Hk Hx Hal.
  assert (Hp2 : 2 ^ (k + 13) = 2 * 2 ^ (k + 12)).
  { replace (k + 13) with (Z.succ (k + 12)) by lia. apply Z.pow_succ_r. lia. }
  assert (Hpos : 0 < 2 ^ (k + 12)) by (apply Z.pow_pos_nonneg; lia).
  assert (Hal' : x mod 2 ^ (k + 12) = 0).
  { rewrite <- (Z.mod_mod_divide x (2 ^ (k + 13)) (2 ^ (k + 12))), Hal; [reflexivity|].
    exists 2. lia. }
  split; [exact Hal'|].
  destruct (buddy_of_aligned k x ltac:(lia) Hx Hal') as (_ & _ & _ & Ha & _ & [[_ Hb]|[_ Hb]]).
  - rewrite Hb. lia.
  - exfalso. rewrite Hb in Hal.
    rewrite <- Z.add_mod_idemp_l, Ha, Z.add_0_l, Z.mod_small in Hal; lia.
Qed.

Lemma releases_any_block (n : nat) : releases_as_block (Z.of_nat n).
Proof.
  induction n as [|n IH]; [exact releases_single_page|].
  replace (Z.of_nat (S n)) with (Z.of_nat n + 1) by lia.
  set (k := Z.of_nat n) in *.
  intros range i bi im Hfree Hok.
  pose proof Hok as (Hp & Hlow & Hal & Hmb & Hhi & Hk & Hlen).
  set (x := range_start range + i) in *.
  replace (k + 1 + 12) with (k + 13) in * by lia.
  assert (Hp2 : 2 ^ (k + 13) = 2 * 2 ^ (k + 12)).
  { replace (k + 13) with (Z.succ (k + 12)) by lia. apply Z.pow_succ_r. lia. }
  assert (Hpos : 0 < 2 ^ (k + 12)) by (apply Z.pow_pos_nonneg; lia).
  assert (Hpk : 0 < 2 ^ k) by (apply Z.pow_pos_nonneg; lia).
  destruct (buddy_of_lower_half k x ltac:(lia) ltac:(lia) Hal) as [Hal' Hbud].
  assert (Hn2 : Z.to_nat (2 ^ (k + 1)) = (Z.to_nat (2 ^ k) + Z.to_nat (2 ^ k))%nat).
  { rewrite Z.pow_add_r by lia. change (2 ^ 1) with 2. lia. }
  assert (Hoff : Z.of_nat (Z.to_nat (2 ^ k)) * PAGE_SIZE = 2 ^ (k + 12)).
  { rewrite Z2Nat.id by lia. rewrite Z.pow_add_r by lia. reflexivity. }
  rewrite Hn2, release_pages_app, Hoff.
  assert (Hy : range_start range + (i + 2 ^ (k + 12)) = buddy k (range_start range + i)).
  { fold x. rewrite Hbud. unfold x. lia. }
  destruct (releases_two_buddies k IH ltac:(lia) range i range (i + 2 ^ (k + 12)) bi im
              Hfree Hfree Hy) as (im' & Hag & Hrel).
  - fold x. split; [|split; [|repeat split; try assumption; try lia]].
    + intros p Hpp. apply Hp. lia.
    + intros j Hj. apply Hlow. lia.
  - replace (range_start range + (i + 2 ^ (k + 12))) with (x + 2 ^ (k + 12)) by (unfold x; lia).
    split; [|split; [|repeat split; try assumption; try lia]].
    + intros p Hpp. apply Hp. lia.
    + intros j Hj. apply Hlow. lia.
    + rewrite <- Z.add_mod_idemp_l, Hal', Z.add_0_l by lia. apply Z.mod_same. lia.
  - apply Hlow. lia.
  - fold x in Hag, Hrel.
    replace (range_start range + (i + 2 ^ (k + 12))) with (x + 2 ^ (k + 12)) in Hag, Hrel
      by (unfold x; lia).
    rewrite Z.min_l in Hag, Hrel by lia.
    exists im'. split; [exact Hag | exact Hrel].
Qed.

Lemma range_pages_block x k t :
  0 <= k -> range_pages (MemoryRange x (2 ^ (k + 12)) t) = Z.to_nat (2 ^ k).
Proof.
  intros Hk. unfold range_pages, PAGE_SIZE. cbn [range_size]. f_equal.
  rewrite Z.pow_add_r by lia. change (2 ^ 12) with 4096.
  assert (Hpk : 0 < 2 ^ k) by (apply Z.pow_pos_nonneg; lia).
  replace (2 ^ k * 4096 + 4096 - 1) with (4095 + 2 ^ k * 4096) by lia.
  rewrite Z.div_add by lia. reflexivity.
Qed.

(** Releasing two buddies of order [k] into bins that are all empty, with no
    page typed free, leaves the block the two make up as the only block of
    bin [k + 1] and every other bin as it was. *)
Lemma two_buddies_coalesce k x bi im :
  0 <= k < m ->
  x mod 2 ^ (k + 12) = 0 ->
  1024 * 1024 < x -> 1024 * 1024 < buddy k x ->
  Z.min x (buddy k x) + 2 ^ (k + 13) < 2 ^ 63 ->
  (forall p, Z.min x (buddy k x) <= p < Z.min x (buddy k x) + 2 ^ (k + 13) ->
     page_exists bi p = true /\ select_bins p = (w, m)) ->
  (forall page, page_info_type im page <> page_type_free) ->
  (forall i, 0 <= i <= m -> bin_at bi w i = empty_bin) ->
  length (bins bi w) = Z.to_nat (m + 1) ->
  exists bi1 im1 im2,
    release_range bi im nil (MemoryRange x (2 ^ (k + 12)) MEMORY_TYPE_FREE) = Some (bi1, im1) /\
    release_range bi1 im1 nil (MemoryRange (buddy k x) (2 ^ (k + 12)) MEMORY_TYPE_FREE) =
      Some (set_bin bi w (k + 1)
              (BuddyBin (fixnum (Z.min x (buddy k x) / PAGE_SIZE)) (fixnum 1)), im2) /\
    page_info_type im2 (Z.min x (buddy k x)) = page_type_free /\
    page_info_bin im2 (Z.min x (buddy k x)) = k + 1 /\
    page_info_next im2 (Z.min x (buddy k x)) = nil /\
    page_info_prev im2 (Z.min x (buddy k x)) = nil.
Proof.
  intros Hk Hal Hmx Hmy Hhi Hpages Hnofree Hbins Hlen.
  assert (Hp2 : 2 ^ (k + 13) = 2 * 2 ^ (k + 12)).
  { replace (k + 13) with (Z.succ (k + 12)) by lia. apply Z.pow_succ_r. lia. }
  assert (Hpos : 0 < 2 ^ (k + 12)) by (apply Z.pow_pos_nonneg; lia).
  destruct (buddy_of_aligned k x ltac:(lia) ltac:(lia) Hal)
    as (Hy0 & Haly & Hback & Haal & Ha0 & Hcases).
  set (y := buddy k x) in *. set (a := Z.min x y) in *.
  unfold release_range. rewrite !range_pages_block by lia.
  set (rx := MemoryRange x (2 ^ (k + 12)) MEMORY_TYPE_FREE).
  set (ry := MemoryRange y (2 ^ (k + 12)) MEMORY_TYPE_FREE).
  assert (Hokx : block_ok bi im (range_start rx + 0) k).
  { cbn [rx range_start]. rewrite Z.add_0_r.
    split; [|split; [|repeat split; try assumption; try lia]].
    - intros p Hp. destruct (Hpages p ltac:(lia)) as [He Hs]. auto.
    - intros i Hi. apply Hbins. lia. }
  assert (Hoky : block_ok bi im (range_start ry + 0) k).
  { cbn [ry range_start]. rewrite Z.add_0_r.
    split; [|split; [|repeat split; try assumption; try lia]].
    - intros p Hp. destruct (Hpages p ltac:(lia)) as [He Hs]. auto.
    - intros i Hi. apply Hbins. lia. }
  assert (HR : releases_as_block k).
  { rewrite <- (Z2Nat.id k) by lia. apply releases_any_block. }
  destruct (releases_two_buddies k HR ltac:(lia) rx 0 ry 0 bi im eq_refl eq_refl)
    as (im' & Hag & Hrel).
  - cbn [rx ry range_start]. rewrite !Z.add_0_r. reflexivity.
  - exact Hokx.
  - exact Hoky.
  - apply Hbins. lia.
  - cbn [rx ry range_start] in Hag, Hrel. rewrite !Z.add_0_r in Hag, Hrel.
    fold a in Hag, Hrel.
    (* At order [k + 1] the loop breaks: the buddy is not free. *)
    assert (Hbreak : loop_breaks bi im' m (k + 1) a = true).
    { apply loop_breaks_not_free.
      destruct (buddy_of_aligned (k + 1) a ltac:(lia) Ha0) as (_ & _ & _ & _ & _ & Hc).
      { replace (k + 1 + 12) with (k + 13) by lia. exact Haal. }
      replace (k + 1 + 12) with (k + 13) in Hc by lia.
      assert (Hout : ~ (a <= buddy (k + 1) a < a + 2 ^ (k + 13))).
      { assert (0 < 2 ^ (k + 13)) by lia. lia. }
      rewrite (proj1 (getters_agree im im' _ (Hag _ Hout))). apply Hnofree. }
    rewrite (free_from_break bi im' (k + 1) a Hbreak) in Hrel.
    rewrite (link_into_empty_bin bi im' (k + 1) a) in Hrel
      by (try lia; apply Hbins; lia).
    destruct (release_pages (Z.to_nat (2 ^ k)) bi im nil rx 0) as [[bi1 im1]|];
      [|discriminate].
    exists bi1, im1, (linked_info im' (k + 1) a).
    split; [reflexivity|]. split; [exact Hrel|].
    apply linked_info_fields. lia.
Qed.

End BuddyCoalescence.

Section BuddyFreePage.

Lemma select_bins_spec l :
  select_bins l = if l <? 2 ^ 32 then (Bin32, 19) else (Bin64, 26).
Proof. reflexivity. Qed.

Lemma select_bins_cases l w m :
  select_bins l = (w, m) ->
  (w = Bin32 /\ m = 19 /\ l < 2 ^ 32) \/ (w = Bin64 /\ m = 26 /\ 2 ^ 32 <= l).
Proof.
  rewrite select_bins_spec. destruct (Z.ltb_spec l (2 ^ 32)); intros Hs; inversion Hs; auto.
Qed.

Lemma loop_breaks_iff bi im m k l :
  loop_breaks bi im m k l = true <->
  k = m \/ page_exists bi (buddy k l) = false \/
  page_info_type im (buddy k l) <> page_type_free \/ page_info_bin im (buddy k l) <> k.
Proof.
  unfold loop_breaks.
  destruct (Z.eqb_spec k m) as [Hk|Hk]; [simpl; tauto|].
  destruct (page_exists bi (buddy k l)); [|simpl; tauto].
  destruct (Z.eqb_spec (page_info_type im (buddy k l)) page_type_free) as [Ht|Ht]; [|simpl; tauto].
  destruct (Z.eqb_spec (page_info_bin im (buddy k l)) k) as [Hb|Hb]; simpl.
  - split; [discriminate|]. intros [?|[?|[?|?]]]; congruence.
  - tauto.
Qed.

Lemma coalesce_step fuel bi im nil w m k l :
  loop_breaks bi im m k l = false ->
  coalesce (S fuel) bi im nil w m k l =
  coalesce fuel (fst (unlink_buddy bi im nil w k (buddy k l)))
           (snd (unlink_buddy bi im nil w k (buddy k l))) nil w m (k + 1)
           (Z.min l (buddy k l)).
Proof.
  intros Hb. cbn [coalesce]. rewrite Hb.
  destruct (unlink_buddy bi im nil w k (buddy k l)) as [bi' im']. cbn [fst snd].
  replace (if buddy k l <? l then buddy k l else l) with (Z.min l (buddy k l)); [reflexivity|].
  destruct (Z.ltb_spec (buddy k l) l); [apply Z.min_r | apply Z.min_l]; lia.
Qed.

(** What "remove buddy from avail[k]" does to the bin and to the neighbours
    of [p] in the list. *)
Lemma unlink_buddy_spec bi im nil w k p :
  0 <= k -> (Z.to_nat k < length (bins bi w))%nat ->
  let bi' := fst (unlink_buddy bi im nil w k p) in
  let im' := snd (unlink_buddy bi im nil w k p) in
  count (bin_at bi' w k) = wrap64 (count (bin_at bi w k) - fixnum 1) /\
  first_page (bin_at bi' w k) =
    (if first_page (bin_at bi w k) =? fixnum (p / PAGE_SIZE)
     then page_info_next im p else first_page (bin_at bi w k)) /\
  (page_info_next im p <> nil ->
     page_info_prev im' (wrap64 (unfixnum (page_info_next im p) * PAGE_SIZE)) =
     page_info_prev im p) /\
  (page_info_prev im p <> nil ->
     page_info_next im' (wrap64 (unfixnum (page_info_prev im p) * PAGE_SIZE)) =
     page_info_next im p).
Proof.
  intros Hk Hlen. unfold unlink_buddy. cbn [fst snd]. rewrite fixnum_to_int64.
  set (bi1 := if first_page (bin_at bi w k) =? fixnum (p / PAGE_SIZE)
              then set_first_page bi w k (page_info_next im p) else bi).
  set (im1 := if negb (page_info_next im p =? nil)
              then set_page_info_prev im (wrap64 (unfixnum (page_info_next im p) * PAGE_SIZE))
                     (page_info_prev im p) else im).
  assert (Hlen1 : (Z.to_nat k < length (bins bi1 w))%nat).
  { unfold bi1. destruct (_ =? _); [|exact Hlen].
    unfold set_first_page. rewrite length_bins_set_bin. exact Hlen. }
  assert (Hprev1 : page_info_prev im1 p = page_info_prev im p).
  { unfold im1. destruct (negb _); [|reflexivity].
    rewrite prev_set_prev. destruct (decide _); reflexivity. }
  assert (Hnext1 : page_info_next im1 p = page_info_next im p).
  { unfold im1. destruct (negb _); [|reflexivity]. apply next_set_prev. }
  assert (Hfirst1 : first_page (bin_at bi1 w k) =
            if first_page (bin_at bi w k) =? fixnum (p / PAGE_SIZE)
            then page_info_next im p else first_page (bin_at bi w k)).
  { unfold bi1. destruct (_ =? _); [|reflexivity].
    unfold set_first_page. rewrite bin_at_set_bin by (assumption || lia).
    destruct (decide (w = w /\ k = k)) as [_|Hn]; [reflexivity|].
    exfalso; apply Hn; split; reflexivity. }
  assert (Hcount1 : count (bin_at bi1 w k) = count (bin_at bi w k)).
  { unfold bi1. destruct (_ =? _); [|reflexivity].
    unfold set_first_page. rewrite bin_at_set_bin by (assumption || lia).
    destruct (decide (w = w /\ k = k)) as [_|Hn]; [reflexivity|].
    exfalso; apply Hn; split; reflexivity. }
  unfold set_count. rewrite bin_at_set_bin by (assumption || lia).
  destruct (decide (w = w /\ k = k)) as [_|Hn]; [|exfalso; apply Hn; split; reflexivity].
  cbn [first_page count]. rewrite Hcount1, Hprev1, Hnext1.
  split; [reflexivity|]. split; [exact Hfirst1|]. split.
  - intros Hn. destruct (negb (page_info_prev im p =? nil)).
    + rewrite prev_set_next. unfold im1.
      destruct (Z.eqb_spec (page_info_next im p) nil); [contradiction|]. cbn [negb].
      rewrite prev_set_prev. destruct (decide _); [reflexivity | congruence].
    + unfold im1. destruct (Z.eqb_spec (page_info_next im p) nil); [contradiction|].
      cbn [negb]. rewrite prev_set_prev. destruct (decide _); [reflexivity | congruence].
  - intros Hp. destruct (Z.eqb_spec (page_info_prev im p) nil); [contradiction|].
    cbn [negb]. rewrite next_set_next. destruct (decide _); [reflexivity | congruence].
Qed.

(** The loop ends, at an order within the bins, where it breaks. *)
Lemma coalesce_total nil w m fuel : forall bi im k l,
  0 <= k <= m -> (Z.to_nat (m - k) < fuel)%nat ->
  exists bi1 im1 k1 l1,
    coalesce fuel bi im nil w m k l = Some (bi1, im1, k1, l1) /\
    k <= k1 <= m /\ loop_breaks bi1 im1 m k1 l1 = true.
Proof.
  induction fuel as [|fuel IH]; intros bi im k l Hk Hf; [lia|].
  destruct (loop_breaks bi im m k l) eqn:Hb.
  - exists bi, im, k, l. split; [cbn [coalesce]; rewrite Hb; reflexivity|]. split; [lia | exact Hb].
  - rewrite (coalesce_step fuel bi im nil w m k l Hb).
    assert (Hne : k <> m).
    { intros ->. unfold loop_breaks in Hb. rewrite Z.eqb_refl in Hb. discriminate. }
    destruct (IH (fst (unlink_buddy bi im nil w k (buddy k l)))
                 (snd (unlink_buddy bi im nil w k (buddy k l)))
                 (k + 1) (Z.min l (buddy k l)) ltac:(lia) ltac:(lia))
      as (bi1 & im1 & k1 & l1 & Hc & Hk1 & Hb1).
    exists bi1, im1, k1, l1. split; [exact Hc|]. split; [lia | exact Hb1].
Qed.

(** The statements after the loop. *)
Lemma link_free_page_spec bi im nil w k l :
  0 <= k < 256 -> (Z.to_nat k < length (bins bi w))%nat ->
  let head := first_page (bin_at bi w k) in
  let bi' := fst (link_free_page bi im nil w k l) in
  let im' := snd (link_free_page bi im nil w k l) in
  page_info_type im' l = page_type_free /\
  page_info_bin im' l = k /\
  page_info_next im' l = head /\
  (head = nil \/ wrap64 (unfixnum head * PAGE_SIZE) / PAGE_SIZE <> l / PAGE_SIZE ->
     page_info_prev im' l = nil) /\
  (head <> nil ->
     page_info_prev im' (wrap64 (unfixnum head * PAGE_SIZE)) = fixnum (l / PAGE_SIZE)) /\
  first_page (bin_at bi' w k) = fixnum (l / PAGE_SIZE) /\
  count (bin_at bi' w k) = wrap64 (count (bin_at bi w k) + fixnum 1).
Proof.
  intros Hk Hlen head. unfold link_free_page. cbn [fst snd]. fold head.
  rewrite fixnum_to_int64, Z.mod_small by lia.
  set (im4 := set_page_info_prev
                (set_page_info_next
                   (set_page_info_bin (set_page_info_type im l page_type_free) l k) l head)
                l nil).
  assert (F4 : page_info_type im4 l = page_type_free /\ page_info_bin im4 l = k /\
               page_info_next im4 l = head /\ page_info_prev im4 l = nil).
  { unfold im4. repeat split.
    - rewrite type_set_prev, type_set_next, type_set_bin, type_set_type
        by (unfold page_type_free; lia).
      destruct (decide _); [reflexivity | congruence].
    - rewrite bin_set_prev, bin_set_next, bin_set_bin by lia.
      destruct (decide _); [reflexivity | congruence].
    - rewrite next_set_prev, next_set_next. destruct (decide _); [reflexivity | congruence].
    - rewrite prev_set_prev. destruct (decide _); [reflexivity | congruence]. }
  destruct F4 as (Ft & Fb & Fn & Fp).
  unfold set_count, set_first_page.
  rewrite !bin_at_set_bin by (rewrite ?length_bins_set_bin; assumption || lia).
  destruct (decide (w = w /\ k = k)) as [_|Hn]; [|exfalso; apply Hn; split; reflexivity].
  cbn [first_page count].
  destruct (Z.eqb_spec head nil) as [Hnil|Hnil]; cbn [negb].
  - repeat split; try assumption; try reflexivity; [intros _; exact Fp | intros Hn; contradiction].
  - rewrite type_set_prev, bin_set_prev, next_set_prev, !prev_set_prev.
    repeat split; try assumption; try reflexivity.
    + intros [?|Hfr]; [contradiction|].
      destruct (decide _); [contradiction | exact Fp].
    + intros _. destruct (decide _); [reflexivity | congruence].
Qed.

Lemma bin_at_init bi0 nil w i :
  0 <= i < (match w with Bin32 => 20 | Bin64 => 27 end) ->
  bin_at (init_buddy_bins bi0 nil) w i = BuddyBin nil (fixnum 0).
Proof.
  intros Hi. unfold bin_at. rewrite nth_lookup.
  destruct w; cbn [bins init_buddy_bins buddy_bin_32 buddy_bin_64].
  - change (Z.to_nat mezzano_n_buddy_bins_32_bit) with 20%nat.
    rewrite lookup_replicate_2 by lia. reflexivity.
  - change (Z.to_nat mezzano_n_buddy_bins_64_bit) with 27%nat.
    rewrite lookup_replicate_2 by lia. reflexivity.
Qed.

Lemma length_bins_init bi0 nil w :
  length (bins (init_buddy_bins bi0 nil) w) =
  Z.to_nat (match w with Bin32 => 20 | Bin64 => 27 end).
Proof. destruct w; cbn [bins init_buddy_bins buddy_bin_32 buddy_bin_64]; apply length_replicate. Qed.

(** A block aligned to its size that starts below 4 GiB ends there at the
    latest. *)
Lemma aligned_block_below e a :
  0 <= e <= 32 -> a mod 2 ^ e = 0 -> 0 <= a < 2 ^ 32 -> a + 2 ^ e <= 2 ^ 32.
Proof.
  intros He Ha Hr.
  assert (Hpos : 0 < 2 ^ e) by (apply Z.pow_pos_nonneg; lia).
  destruct (Z.le_gt_cases (a + 2 ^ e) (2 ^ 32)) as [|Hgt]; [assumption|exfalso].
  assert (Hd : (2 ^ 32 - a) mod 2 ^ e = 0).
  { rewrite Zminus_mod, Ha, Z.sub_0_r, Z.mod_mod by lia.
    apply Z.mod_divide; [lia|]. exists (2 ^ (32 - e)).
    rewrite <- Z.pow_add_r by lia. f_equal. lia. }
  rewrite Z.mod_small in Hd by lia. lia.
Qed.

End BuddyFreePage.

(** C2: [buddy_free_page] selects [bin32] with last index 19 below 4 GiB and
    [bin64] with last index 26 otherwise. Starting at order 0 its loop stops
    exactly when [k] is the last index, or the buddy [p = l XOR 2^(k+12)] is
    outside the memory map, or the type of [p] is not free, or the bin of [p]
    is not [k]; otherwise it unlinks [p] from the list of bin [k] (the head
    and the neighbours of [p] are patched), takes [fixnum(1)] off the count,
    replaces [l] by [min(l, p)], increments [k] and goes on. The loop always
    ends; then [l] gets type free and bin [k], is linked at the head of bin
    [k] with [prev = nil], and the count grows by [fixnum(1)]. So releasing
    two buddies of order [k] (the [2^k] pages of one, then those of the other)
    into an empty allocator leaves exactly one entry, in bin [k + 1]. *)
Theorem buddy_free_page_coalesces :
  (forall l, select_bins l = if l <? 2 ^ 32 then (Bin32, 19) else (Bin64, 26)) /\
  (forall bi im m k l,
     loop_breaks bi im m k l = true <->
     k = m \/ page_exists bi (buddy k l) = false \/
     page_info_type im (buddy k l) <> page_type_free \/
     page_info_bin im (buddy k l) <> k) /\
  (forall fuel bi im nil w m k l,
     loop_breaks bi im m k l = false ->
     0 <= k -> (Z.to_nat k < length (bins bi w))%nat ->
     let p := buddy k l in
     let bi' := fst (unlink_buddy bi im nil w k p) in
     let im' := snd (unlink_buddy bi im nil w k p) in
     coalesce (S fuel) bi im nil w m k l =
       coalesce fuel bi' im' nil w m (k + 1) (Z.min l p) /\
     count (bin_at bi' w k) = wrap64 (count (bin_at bi w k) - fixnum 1) /\
     first_page (bin_at bi' w k) =
       (if first_page (bin_at bi w k) =? fixnum (p / PAGE_SIZE)
        then page_info_next im p else first_page (bin_at bi w k)) /\
     (page_info_next im p <> nil ->
        page_info_prev im' (wrap64 (unfixnum (page_info_next im p) * PAGE_SIZE)) =
        page_info_prev im p) /\
     (page_info_prev im p <> nil ->
        page_info_next im' (wrap64 (unfixnum (page_info_prev im p) * PAGE_SIZE)) =
        page_info_next im p)) /\
  (forall bi im nil l,
     let w := fst (select_bins l) in
     let m := snd (select_bins l) in
     exists bi1 im1 k l1,
       coalesce (coalesce_fuel m) bi im nil w m 0 l = Some (bi1, im1, k, l1) /\
       0 <= k <= m /\ loop_breaks bi1 im1 m k l1 = true /\
       buddy_free_page bi im nil l = Some (link_free_page bi1 im1 nil w k l1)) /\
  (forall bi im nil w k l,
     0 <= k < 256 -> (Z.to_nat k < length (bins bi w))%nat ->
     let head := first_page (bin_at bi w k) in
     let bi' := fst (link_free_page bi im nil w k l) in
     let im' := snd (link_free_page bi im nil w k l) in
     page_info_type im' l = page_type_free /\
     page_info_bin im' l = k /\
     page_info_next im' l = head /\
     (head = nil \/ wrap64 (unfixnum head * PAGE_SIZE) / PAGE_SIZE <> l / PAGE_SIZE ->
        page_info_prev im' l = nil) /\
     (head <> nil ->
        page_info_prev im' (wrap64 (unfixnum head * PAGE_SIZE)) = fixnum (l / PAGE_SIZE)) /\
     first_page (bin_at bi' w k) = fixnum (l / PAGE_SIZE) /\
     count (bin_at bi' w k) = wrap64 (count (bin_at bi w k) + fixnum 1)) /\
  (forall bi0 im nil k x w m e,
     select_bins x = (w, m) -> select_bins (buddy k x) = (w, m) ->
     0 <= k < m -> x mod 2 ^ (k + 12) = 0 ->
     1024 * 1024 < x -> 1024 * 1024 < buddy k x ->
     In e (entries bi0) ->
     start e <= Z.min x (buddy k x) ->
     Z.min x (buddy k x) + 2 ^ (k + 13) <= end_ e ->
     end_ e <= 2 ^ 39 ->
     (forall page, page_info_type im page <> page_type_free) ->
     exists bi1 im1 bi2 im2,
       release_range (init_buddy_bins bi0 nil) im nil
         (MemoryRange x (2 ^ (k + 12)) MEMORY_TYPE_FREE) = Some (bi1, im1) /\
       release_range bi1 im1 nil
         (MemoryRange (buddy k x) (2 ^ (k + 12)) MEMORY_TYPE_FREE) = Some (bi2, im2) /\
       bin_at bi2 w (k + 1) =
         BuddyBin (fixnum (Z.min x (buddy k x) / PAGE_SIZE)) (fixnum 1) /\
       (forall w' i,
          0 <= i < (match w' with Bin32 => 20 | Bin64 => 27 end) ->
          (w', i) <> (w, k + 1) -> bin_at bi2 w' i = BuddyBin nil (fixnum 0)) /\
       page_info_type im2 (Z.min x (buddy k x)) = page_type_free /\
       page_info_bin im2 (Z.min x (buddy k x)) = k + 1 /\
       page_info_next im2 (Z.min x (buddy k x)) = nil /\
       page_info_prev im2 (Z.min x (buddy k x)) = nil).
Proof.
  split; [exact select_bins_spec|]. split; [exact loop_breaks_iff|].
  split; [|split; [|split; [exact link_free_page_spec|]]].
  - intros fuel bi im nil w m k l Hb Hk Hlen p bi' im'.
    split; [apply coalesce_step; exact Hb|].
    apply unlink_buddy_spec; assumption.
  - intros bi im nil l w m.
    assert (Hm : 0 <= m).
    { unfold m. rewrite select_bins_spec. destruct (l <? 2 ^ 32); simpl; lia. }
    destruct (coalesce_total nil w m (coalesce_fuel m) bi im 0 l ltac:(lia))
      as (bi1 & im1 & k & l1 & Hc & Hk & Hbr).
    { unfold coalesce_fuel. lia. }
    exists bi1, im1, k, l1. repeat split; try assumption; try lia.
    unfold buddy_free_page. rewrite (surjective_pairing (select_bins l)).
    fold w m. rewrite Hc. reflexivity.
  - intros bi0 im nil k x w m e Hsx Hsy Hk Hal Hmx Hmy Hin Hlo Hhi Hend Hnofree.
    set (a := Z.min x (buddy k x)) in *.
    set (bi := init_buddy_bins bi0 nil).
    assert (Hpos : 0 < 2 ^ (k + 13)) by (apply Z.pow_pos_nonneg; lia).
    assert (Hmr : 0 <= m <= 50 /\ Z.to_nat (m + 1) =
                  Z.to_nat (match w with Bin32 => 20 | Bin64 => 27 end)).
    { destruct (select_bins_cases _ _ _ Hsx) as [(-> & -> & _)|(-> & -> & _)]; lia. }
    destruct Hmr as [Hmr Hsize].
    destruct (buddy_of_aligned k x ltac:(lia) ltac:(lia) Hal)
      as (Hy0 & Haly & _ & Haal & Ha0 & Hcases). fold a in Haal, Ha0, Hcases.
    assert (Hpages : forall p, a <= p < a + 2 ^ (k + 13) ->
              page_exists bi p = true /\ select_bins p = (w, m)).
    { intros p Hp. split.
      - unfold page_exists. apply existsb_exists. exists e.
        split; [exact Hin|]. apply andb_true_iff. split; [apply Z.leb_le | apply Z.ltb_lt]; lia.
      - rewrite select_bins_spec.
        destruct (select_bins_cases _ _ _ Hsx) as [(-> & -> & Hx)|(-> & -> & Hx)];
          destruct (select_bins_cases _ _ _ Hsy) as [(Hw & _ & Hy)|(Hw & _ & Hy)];
          try discriminate Hw.
        + pose proof (aligned_block_below (k + 13) a ltac:(lia) Haal ltac:(lia)).
          destruct (Z.ltb_spec p (2 ^ 32)); [reflexivity | lia].
        + destruct (Z.ltb_spec p (2 ^ 32)); [lia | reflexivity]. }
    destruct (two_buddies_coalesce nil w m Hmr k x bi im Hk Hal Hmx Hmy)
      as (bi1 & im1 & im2 & Hr1 & Hr2 & Hfields); try assumption.
    + fold a. lia.
    + intros i Hi. apply bin_at_init.
      destruct (select_bins_cases _ _ _ Hsx) as [(-> & -> & _)|(-> & -> & _)]; lia.
    + unfold bi. rewrite length_bins_init. symmetry. exact Hsize.
    + fold a in Hr2, Hfields.
      exists bi1, im1, (set_bin bi w (k + 1) (BuddyBin (fixnum (a / PAGE_SIZE)) (fixnum 1))), im2.
      assert (Hlen : (Z.to_nat (k + 1) < length (bins bi w))%nat).
      { unfold bi. rewrite length_bins_init, <- Hsize. lia. }
      split; [exact Hr1|]. split; [exact Hr2|]. split; [|split; [|exact Hfields]].
      * rewrite bin_at_set_bin by (assumption || lia).
        destruct (decide (w = w /\ k + 1 = k + 1)) as [_|Hn]; [reflexivity|].
        exfalso; apply Hn; split; reflexivity.
      * intros w' i Hi Hne. rewrite bin_at_set_bin by (assumption || lia).
        destruct (decide (w = w' /\ k + 1 = i)) as [[<- <-]|_]; [congruence|].
        apply bin_at_init. exact Hi.
Qed.

(** A memory map with the single range [0, 0x10000000). *)
Definition example_boot_info : mezzano_boot_information :=
  mezzano_insert_into_memory_map zero_boot_info 0 0x10000000.

Lemma buddy_free_page_coalesces_witness :
  exists bi1 im1 bi2 im2,
    release_range (init_buddy_bins example_boot_info 9) ∅ 9
      (MemoryRange 0x202000 0x2000 MEMORY_TYPE_FREE) = Some (bi1, im1) /\
    release_range bi1 im1 9 (MemoryRange 0x200000 0x2000 MEMORY_TYPE_FREE) = Some (bi2, im2) /\
    bin_at bi2 Bin32 2 = BuddyBin (fixnum 0x200) (fixnum 1).
Proof.
  destruct buddy_free_page_coalesces as (_ & _ & _ & _ & _ & Hco).
  assert (Hnofree : forall page, page_info_type (∅ : info_array) page <> page_type_free).
  { intros page. unfold page_info_type, page_info_flags, info_at.
    rewrite lookup_empty. vm_compute. discriminate. }
  destruct (Hco example_boot_info ∅ 9 1 0x202000 Bin32 19 (MapEntry 0 0x10000000)
              eq_refl eq_refl ltac:(lia) eq_refl ltac:(reflexivity) ltac:(reflexivity)
              ltac:(left; reflexivity) ltac:(vm_compute; discriminate)
              ltac:(vm_compute; discriminate) ltac:(vm_compute; discriminate) Hnofree)
    as (bi1 & im1 & bi2 & im2 & H1 & H2 & Hbin & _).
  exists bi1, im1, bi2, im2. split; [exact H1|]. split; [exact H2 | exact Hbin].
Defined.

(** ** The arm64 paging writer: memory operations *)

Section PageWalk.

Import Arm64.

Variable ctx : mmu_context.

(** The walk [get_ttl2] makes when it does not allocate: the address of the
    level-2 table for [a], or 0. *)
Definition cold2 (m : memory) (a : Z) : Z :=
  let ttl0 := if has_flag a 0x8000000000000000 then ttbr1 ctx else ttbr0 ctx in
  let e0 := entry m ttl0 ((a / ARM64_TTL1_RANGE) mod 512) in
  if negb (has_flag e0 ARM64_TTE_PRESENT) then 0
  else
    let e1 := entry m (Z.land e0 ARM64_TTE_ADDR_MASK)
                ((a mod ARM64_TTL1_RANGE) / ARM64_TTL2_RANGE) in
    if negb (has_flag e1 ARM64_TTE_PRESENT) then 0 else Z.land e1 ARM64_TTE_ADDR_MASK.

(** The level-2 entry a walk for [a] reads. *)
Definition ttl2_entry (m : memory) (a : Z) : Z :=
  entry m (cold2 m a) ((a mod ARM64_TTL2_RANGE) / ARM64_TTL3_RANGE).

(** The rest of a walk below the level-2 entry [e2], with no cached level-3
    table: the physical address of [a], the bytes up to the end of its page,
    and the level-3 table (0 under a large page). *)
Definition leaf (m : memory) (a e2 : Z) : option (Z * Z * Z) :=
  if negb (has_flag e2 ARM64_TTE_PRESENT) then None
  else if has_flag e2 ARM64_TTE_TABLE then
    let t3 := Z.land e2 ARM64_TTE_ADDR_MASK in
    if t3 =? 0 then Some (0, 0, 0)
    else
      let e3 := entry m t3 ((a mod ARM64_TTL3_RANGE) / PAGE_SIZE) in
      if negb (has_flag e3 ARM64_TTE_PRESENT) then None
      else Some (Z.land e3 ARM64_TTE_ADDR_MASK + a mod PAGE_SIZE, PAGE_SIZE - a mod PAGE_SIZE, t3)
  else Some (Z.land e2 ARM64_TTE_ADDR_MASK + a mod LARGE_PAGE_SIZE,
             LARGE_PAGE_SIZE - a mod LARGE_PAGE_SIZE, 0).

(** The walk of [find_page] with no cached table. *)
Definition walk (m : memory) (a : Z) : option (Z * Z * Z * Z) :=
  find_page m ctx a 0 0.

Lemma get_ttl2_cold m p a :
  get_ttl2 (Machine m p) ctx a false = (cold2 m a, Machine m p).
Proof.
  unfold get_ttl2, cold2, next_table. cbn [mem negb]. rewrite !andb_true_r.
  destruct (has_flag (entry m _ ((a / ARM64_TTL1_RANGE) mod 512)) ARM64_TTE_PRESENT);
    cbn [negb mem]; [|reflexivity].
  rewrite !andb_true_r.
  destruct (has_flag (entry m _ ((a mod ARM64_TTL1_RANGE) / ARM64_TTL2_RANGE)) ARM64_TTE_PRESENT);
    cbn [negb]; reflexivity.
Qed.

Lemma walk_cold m a :
  walk m a =
  if cold2 m a =? 0 then None
  else match leaf m a (ttl2_entry m a) with
       | Some (pg, len, t3) => Some (pg, len, cold2 m a, t3)
       | None => None
       end.
Proof.
  unfold walk, find_page, leaf, ttl2_entry. rewrite get_ttl2_cold.
  change (0 =? 0) with true. cbn [fst orb].
  destruct (cold2 m a =? 0); [reflexivity|].
  set (e2 := entry m (cold2 m a) ((a mod ARM64_TTL2_RANGE) / ARM64_TTL3_RANGE)).
  destruct (has_flag e2 ARM64_TTE_PRESENT); cbn [negb]; [|reflexivity].
  destruct (has_flag e2 ARM64_TTE_TABLE); [|reflexivity].
  destruct (Z.eqb_spec (Z.land e2 ARM64_TTE_ADDR_MASK) 0) as [E|E]; cbn [negb];
    [rewrite E; reflexivity|].
  destruct (has_flag (entry m _ _) ARM64_TTE_PRESENT); reflexivity.
Qed.

(** The cached tables a call of [find_page] at [a] may be given: none, or
    those of the walk for [a]. *)
Definition cache_valid (m : memory) (a t2 t3 : Z) : Prop :=
  (t2 = 0 \/ a mod ARM64_TTL2_RANGE = 0 \/ t2 = cold2 m a) /\
  (t3 = 0 \/ a mod ARM64_TTL3_RANGE = 0 \/
   (cold2 m a <> 0 /\
    has_flag (ttl2_entry m a) ARM64_TTE_PRESENT = true /\
    has_flag (ttl2_entry m a) ARM64_TTE_TABLE = true /\
    t3 = Z.land (ttl2_entry m a) ARM64_TTE_ADDR_MASK)).

Lemma find_page_cached m a t2 t3 :
  cache_valid m a t2 t3 -> find_page m ctx a t2 t3 = walk m a.
Proof.
  intros [H2 H3]. rewrite walk_cold. unfold find_page. rewrite get_ttl2_cold. cbn [fst].
  assert (E2 : (if (t2 =? 0) || (a mod ARM64_TTL2_RANGE =? 0) then cold2 m a else t2)
               = cold2 m a).
  { destruct (Z.eqb_spec t2 0) as [->|Ht]; [reflexivity|].
    destruct (Z.eqb_spec (a mod ARM64_TTL2_RANGE) 0) as [E|E]; [reflexivity|].
    cbn [orb]. destruct H2 as [H|[H|H]]; congruence. }
  rewrite E2. clear E2 H2.
  destruct (cold2 m a =? 0); [reflexivity|].
  unfold leaf. fold (ttl2_entry m a).
  destruct (Z.eqb_spec t3 0) as [->|Ht].
  { cbn [orb].
    destruct (has_flag (ttl2_entry m a) ARM64_TTE_PRESENT); cbn [negb]; [|reflexivity].
    destruct (has_flag (ttl2_entry m a) ARM64_TTE_TABLE); [|reflexivity].
    destruct (Z.eqb_spec (Z.land (ttl2_entry m a) ARM64_TTE_ADDR_MASK) 0) as [E0|E0];
      cbn [negb]; [rewrite E0; reflexivity|].
    destruct (has_flag (entry m _ _) ARM64_TTE_PRESENT); reflexivity. }
  destruct (Z.eqb_spec (a mod ARM64_TTL3_RANGE) 0) as [E|E].
  { cbn [orb].
    destruct (has_flag (ttl2_entry m a) ARM64_TTE_PRESENT); cbn [negb]; [|reflexivity].
    destruct (has_flag (ttl2_entry m a) ARM64_TTE_TABLE); [|reflexivity].
    destruct (Z.eqb_spec (Z.land (ttl2_entry m a) ARM64_TTE_ADDR_MASK) 0) as [E0|E0];
      cbn [negb]; [rewrite E0; reflexivity|].
    destruct (has_flag (entry m _ _) ARM64_TTE_PRESENT); reflexivity. }
  cbn [orb]. destruct H3 as [H|[H|(_ & Hp & Htb & ->)]]; [congruence|congruence|].
  rewrite Hp, Htb. cbn [negb].
  apply Z.eqb_neq in Ht. rewrite Ht. cbn [negb].
  destruct (has_flag (entry m _ _) ARM64_TTE_PRESENT); reflexivity.
Qed.

(** *** Addresses of one page, one level-3 range, one level-2 range *)

Lemma split_ttl2_range a a' :
  a / ARM64_TTL2_RANGE = a' / ARM64_TTL2_RANGE ->
  (a / ARM64_TTL1_RANGE) mod 512 = (a' / ARM64_TTL1_RANGE) mod 512 /\
  (a mod ARM64_TTL1_RANGE) / ARM64_TTL2_RANGE = (a' mod ARM64_TTL1_RANGE) / ARM64_TTL2_RANGE /\
  Z.testbit a 63 = Z.testbit a' 63.
Proof.
  unfold ARM64_TTL1_RANGE, ARM64_TTL2_RANGE. intros H.
  split; [|split].
  - f_equal. Z.div_mod_to_equations. lia.
  - Z.div_mod_to_equations. lia.
  - change 63 with (33 + 30).
    rewrite <- !(Z.div_pow2_bits _ 30 33) by lia.
    change (2 ^ 30) with 1073741824. rewrite H. reflexivity.
Qed.

Lemma split_ttl3_range a a' :
  a / ARM64_TTL3_RANGE = a' / ARM64_TTL3_RANGE ->
  a / ARM64_TTL2_RANGE = a' / ARM64_TTL2_RANGE /\
  (a mod ARM64_TTL2_RANGE) / ARM64_TTL3_RANGE = (a' mod ARM64_TTL2_RANGE) / ARM64_TTL3_RANGE.
Proof.
  unfold ARM64_TTL2_RANGE, ARM64_TTL3_RANGE. intros H.
  split; Z.div_mod_to_equations; lia.
Qed.

Lemma split_page a a' :
  a / PAGE_SIZE = a' / PAGE_SIZE ->
  a / ARM64_TTL3_RANGE = a' / ARM64_TTL3_RANGE /\
  (a mod ARM64_TTL3_RANGE) / PAGE_SIZE = (a' mod ARM64_TTL3_RANGE) / PAGE_SIZE.
Proof.
  unfold ARM64_TTL3_RANGE, PAGE_SIZE. intros H.
  split; Z.div_mod_to_equations; lia.
Qed.

Lemma within_block k a d :
  0 < k -> 0 <= d < k - a mod k ->
  (a + d) / k = a / k /\ (a + d) mod k = a mod k + d.
Proof.
  intros Hk Hd. pose proof (Z.div_mod a k ltac:(lia)) as E.
  pose proof (Z.mod_pos_bound a k Hk) as B.
  assert (E' : a + d = k * (a / k) + (a mod k + d)) by lia.
  split.
  - symmetry. apply (Z.div_unique_pos _ _ _ (a mod k + d)); [lia | exact E'].
  - symmetry. apply (Z.mod_unique_pos _ _ (a / k)); [lia | exact E'].
Qed.

Lemma has_flag_top a : has_flag a 0x8000000000000000 = Z.testbit a 63.
Proof.
  unfold has_flag. change 0x8000000000000000 with (2 ^ 63).
  assert (E : Z.land a (2 ^ 63) = if Z.testbit a 63 then 2 ^ 63 else 0).
  { apply Z.bits_inj'. intros i Hi.
    rewrite Z.land_spec, Z.pow2_bits_eqb by lia.
    destruct (Z.eqb_spec 63 i) as [<-|Hne].
    - rewrite andb_true_r. destruct (Z.testbit a 63); [|reflexivity].
      rewrite Z.pow2_bits_true; [reflexivity | lia].
    - rewrite andb_false_r. destruct (Z.testbit a 63); [|symmetry; apply Z.bits_0].
      rewrite Z.pow2_bits_false; [reflexivity | lia]. }
  rewrite E. destruct (Z.testbit a 63); reflexivity.
Qed.

Lemma cold2_ttl2_range m a a' :
  a / ARM64_TTL2_RANGE = a' / ARM64_TTL2_RANGE -> cold2 m a = cold2 m a'.
Proof.
  intros H. destruct (split_ttl2_range a a' H) as (E0 & E1 & Et).
  unfold cold2. rewrite !has_flag_top, E0, E1, Et. reflexivity.
Qed.

Lemma ttl2_entry_ttl3_range m a a' :
  a / ARM64_TTL3_RANGE = a' / ARM64_TTL3_RANGE ->
  cold2 m a = cold2 m a' /\ ttl2_entry m a = ttl2_entry m a'.
Proof.
  intros H. destruct (split_ttl3_range a a' H) as (E & E2).
  pose proof (cold2_ttl2_range m a a' E) as Ec.
  split; [exact Ec|]. unfold ttl2_entry. rewrite Ec, E2. reflexivity.
Qed.

(** Within a page, the walk moves with the address. *)
Lemma walk_shift m a d pg len t2 t3 :
  walk m a = Some (pg, len, t2, t3) -> 0 <= d < len ->
  walk m (a + d) = Some (pg + d, len - d, t2, t3).
Proof.
  rewrite !walk_cold. intros H Hd.
  destruct (Z.eqb_spec (cold2 m a) 0) as [E|E]; [discriminate|].
  unfold leaf in H.
  destruct (has_flag (ttl2_entry m a) ARM64_TTE_PRESENT) eqn:Hp; cbn [negb] in H;
    [|discriminate].
  destruct (has_flag (ttl2_entry m a) ARM64_TTE_TABLE) eqn:Ht.
  - destruct (Z.eqb_spec (Z.land (ttl2_entry m a) ARM64_TTE_ADDR_MASK) 0) as [E3|E3].
    { inversion H; subst. lia. }
    destruct (has_flag (entry m _ _) ARM64_TTE_PRESENT) eqn:Hp3; cbn [negb] in H;
      [|discriminate].
    inversion H; subst pg len t2 t3. clear H.
    destruct (within_block PAGE_SIZE a d ltac:(reflexivity) Hd) as (Eq & Er).
    destruct (split_page _ _ Eq) as (Eq3 & Ei3).
    destruct (ttl2_entry_ttl3_range m _ _ Eq3) as (Ec & Ee).
    rewrite Ec, Ee. apply Z.eqb_neq in E. rewrite E.
    unfold leaf. rewrite Hp, Ht. cbn [negb]. apply Z.eqb_neq in E3. rewrite E3.
    rewrite Ei3, Hp3, Er. cbn [negb].
    rewrite Z.add_assoc, Z.sub_add_distr. reflexivity.
  - inversion H; subst pg len t2 t3. clear H.
    assert (Hd' : 0 <= d < ARM64_TTL3_RANGE - a mod ARM64_TTL3_RANGE) by exact Hd.
    destruct (within_block ARM64_TTL3_RANGE a d ltac:(reflexivity) Hd') as (Eq & Er).
    destruct (ttl2_entry_ttl3_range m _ _ Eq) as (Ec & Ee).
    rewrite Ec, Ee. apply Z.eqb_neq in E. rewrite E.
    unfold leaf. rewrite Hp, Ht. cbn [negb].
    change LARGE_PAGE_SIZE with ARM64_TTL3_RANGE. rewrite Er.
    rewrite Z.add_assoc, Z.sub_add_distr. reflexivity.
Qed.

Lemma next_small_page_ttl3 a :
  (a + (PAGE_SIZE - a mod PAGE_SIZE)) mod ARM64_TTL3_RANGE <> 0 ->
  (a + (PAGE_SIZE - a mod PAGE_SIZE)) / ARM64_TTL3_RANGE = a / ARM64_TTL3_RANGE.
Proof.
  unfold PAGE_SIZE, ARM64_TTL3_RANGE. intros H. Z.div_mod_to_equations. lia.
Qed.

Lemma next_small_page_ttl2 a :
  (a + (PAGE_SIZE - a mod PAGE_SIZE)) mod ARM64_TTL2_RANGE <> 0 ->
  (a + (PAGE_SIZE - a mod PAGE_SIZE)) / ARM64_TTL2_RANGE = a / ARM64_TTL2_RANGE.
Proof.
  unfold PAGE_SIZE, ARM64_TTL2_RANGE. intros H. Z.div_mod_to_equations. lia.
Qed.

Lemma next_large_page_ttl2 a :
  (a + (ARM64_TTL3_RANGE - a mod ARM64_TTL3_RANGE)) mod ARM64_TTL2_RANGE <> 0 ->
  (a + (ARM64_TTL3_RANGE - a mod ARM64_TTL3_RANGE)) / ARM64_TTL2_RANGE = a / ARM64_TTL2_RANGE.
Proof.
  unfold ARM64_TTL3_RANGE, ARM64_TTL2_RANGE. intros H. Z.div_mod_to_equations. lia.
Qed.

Lemma next_large_page_aligned a :
  (a + (ARM64_TTL3_RANGE - a mod ARM64_TTL3_RANGE)) mod ARM64_TTL3_RANGE = 0.
Proof.
  unfold ARM64_TTL3_RANGE. Z.div_mod_to_equations. lia.
Qed.

(** After a page, the tables the walk gave are valid cached tables for the
    next address. *)
Lemma next_cache_valid m a pg len t2 t3 :
  walk m a = Some (pg, len, t2, t3) -> 0 < len -> cache_valid m (a + len) t2 t3.
Proof.
  rewrite walk_cold. intros H Hlen.
  destruct (Z.eqb_spec (cold2 m a) 0) as [E|E]; [discriminate|].
  unfold leaf in H.
  destruct (has_flag (ttl2_entry m a) ARM64_TTE_PRESENT) eqn:Hp; cbn [negb] in H;
    [|discriminate].
  destruct (has_flag (ttl2_entry m a) ARM64_TTE_TABLE) eqn:Ht.
  - destruct (Z.eqb_spec (Z.land (ttl2_entry m a) ARM64_TTE_ADDR_MASK) 0) as [E3|E3].
    { inversion H; subst. lia. }
    destruct (has_flag (entry m _ _) ARM64_TTE_PRESENT); cbn [negb] in H; [|discriminate].
    inversion H; subst pg len t2 t3. clear H. split.
    + destruct (Z.eq_dec ((a + (PAGE_SIZE - a mod PAGE_SIZE)) mod ARM64_TTL2_RANGE) 0)
        as [Hb|Hb]; [right; left; exact Hb|].
      right; right. apply cold2_ttl2_range. symmetry. apply next_small_page_ttl2, Hb.
    + destruct (Z.eq_dec ((a + (PAGE_SIZE - a mod PAGE_SIZE)) mod ARM64_TTL3_RANGE) 0)
        as [Hb|Hb]; [right; left; exact Hb|].
      right; right.
      destruct (ttl2_entry_ttl3_range m _ _ (next_small_page_ttl3 a Hb)) as (Ec & Ee).
      rewrite Ec, Ee. repeat split; assumption.
  - inversion H; subst pg len t2 t3. clear H. split; [|left; reflexivity].
    change LARGE_PAGE_SIZE with ARM64_TTL3_RANGE.
    destruct (Z.eq_dec ((a + (ARM64_TTL3_RANGE - a mod ARM64_TTL3_RANGE)) mod ARM64_TTL2_RANGE) 0)
      as [Hb|Hb]; [right; left; exact Hb|].
    right; right. apply cold2_ttl2_range. symmetry. apply next_large_page_ttl2, Hb.
Qed.

(** *** The cells a walk reads *)

(** The addresses of the table entries the walk for [a] reads. *)
Definition footprint (m : memory) (a : Z) : list Z :=
  let ttl0 := if has_flag a 0x8000000000000000 then ttbr1 ctx else ttbr0 ctx in
  let c0 := ttl0 + 8 * ((a / ARM64_TTL1_RANGE) mod 512) in
  c0 ::
  if has_flag (read64 m c0) ARM64_TTE_PRESENT then
    let c1 := Z.land (read64 m c0) ARM64_TTE_ADDR_MASK
              + 8 * ((a mod ARM64_TTL1_RANGE) / ARM64_TTL2_RANGE) in
    c1 ::
    if has_flag (read64 m c1) ARM64_TTE_PRESENT then
      let c2 := Z.land (read64 m c1) ARM64_TTE_ADDR_MASK
                + 8 * ((a mod ARM64_TTL2_RANGE) / ARM64_TTL3_RANGE) in
      c2 ::
      if has_flag (read64 m c2) ARM64_TTE_PRESENT && has_flag (read64 m c2) ARM64_TTE_TABLE
      then [Z.land (read64 m c2) ARM64_TTE_ADDR_MASK
            + 8 * ((a mod ARM64_TTL3_RANGE) / PAGE_SIZE)]
      else []
    else []
  else [].

(** [m'] has the bytes of [m] in the 8-byte cells at [cells]. *)
Definition agree (m m' : memory) (cells : list Z) : Prop :=
  forall c, In c cells -> forall t, 0 <= t < 8 -> m' (c + t) = m (c + t).

Lemma load_le_agree m m' n : forall a,
  (forall t, 0 <= t < Z.of_nat n -> m' (a + t) = m (a + t)) ->
  load_le m' a n = load_le m a n.
Proof.
  induction n as [|n IH]; intros a H; [reflexivity|].
  cbn [load_le]. rewrite <- (Z.add_0_r a) at 1 3. rewrite (H 0) by lia.
  rewrite Z.add_0_r. f_equal. f_equal. apply IH. intros t Ht.
  rewrite <- Z.add_assoc. apply H. lia.
Qed.

Lemma read64_agree m m' c :
  (forall t, 0 <= t < 8 -> m' (c + t) = m (c + t)) -> read64 m' c = read64 m c.
Proof. intros H. apply load_le_agree. exact H. Qed.

Lemma footprint_page m a a' :
  a / PAGE_SIZE = a' / PAGE_SIZE -> footprint m a = footprint m a'.
Proof.
  intros H. destruct (split_page _ _ H) as (H3 & E3).
  destruct (split_ttl3_range _ _ H3) as (H2 & E2).
  destruct (split_ttl2_range _ _ H2) as (E0 & E1 & Et).
  unfold footprint. rewrite !has_flag_top, E0, E1, E2, E3, Et. reflexivity.
Qed.

Lemma footprint_ttl2 m a :
  cold2 m a <> 0 ->
  In (cold2 m a + 8 * ((a mod ARM64_TTL2_RANGE) / ARM64_TTL3_RANGE)) (footprint m a).
Proof.
  unfold cold2, footprint, entry. intros H.
  destruct (has_flag (read64 m _) ARM64_TTE_PRESENT); cbn [negb] in *; [|contradiction].
  destruct (has_flag (read64 m _) ARM64_TTE_PRESENT); cbn [negb] in *; [|contradiction].
  right; right; left; reflexivity.
Qed.

Lemma footprint_ttl3 m a :
  cold2 m a <> 0 ->
  has_flag (ttl2_entry m a) ARM64_TTE_PRESENT = true ->
  has_flag (ttl2_entry m a) ARM64_TTE_TABLE = true ->
  In (Z.land (ttl2_entry m a) ARM64_TTE_ADDR_MASK + 8 * ((a mod ARM64_TTL3_RANGE) / PAGE_SIZE))
     (footprint m a).
Proof.
  unfold ttl2_entry, cold2, footprint, entry. intros H.
  destruct (has_flag (read64 m _) ARM64_TTE_PRESENT); cbn [negb] in *; [|contradiction].
  destruct (has_flag (read64 m _) ARM64_TTE_PRESENT); cbn [negb] in *; [|contradiction].
  intros Hp Ht. rewrite Hp, Ht. right; right; right; left; reflexivity.
Qed.

Lemma cold2_agree m m' a : agree m m' (footprint m a) -> cold2 m' a = cold2 m a.
Proof.
  unfold agree, cold2, footprint, entry. intros H.
  rewrite (read64_agree m m' _ (H _ (or_introl eq_refl))).
  revert H.
  destruct (has_flag (read64 m _) ARM64_TTE_PRESENT); cbn [negb]; [|reflexivity].
  intros H. rewrite (read64_agree m m' _ (H _ (or_intror (or_introl eq_refl)))).
  reflexivity.
Qed.

Lemma ttl2_entry_agree m m' a :
  agree m m' (footprint m a) -> cold2 m a <> 0 -> ttl2_entry m' a = ttl2_entry m a.
Proof.
  intros H Hc. unfold ttl2_entry, entry. rewrite (cold2_agree m m' a H).
  apply read64_agree. apply H, footprint_ttl2, Hc.
Qed.

Lemma walk_agree m m' a : agree m m' (footprint m a) -> walk m' a = walk m a.
Proof.
  intros H. rewrite !walk_cold, (cold2_agree m m' a H).
  destruct (Z.eqb_spec (cold2 m a) 0) as [E|E]; [reflexivity|].
  rewrite (ttl2_entry_agree m m' a H E). unfold leaf.
  destruct (has_flag (ttl2_entry m a) ARM64_TTE_PRESENT) eqn:Hp; cbn [negb]; [|reflexivity].
  destruct (has_flag (ttl2_entry m a) ARM64_TTE_TABLE) eqn:Ht; [|reflexivity].
  destruct (Z.land (ttl2_entry m a) ARM64_TTE_ADDR_MASK =? 0); [reflexivity|].
  unfold entry. rewrite (read64_agree m m' _ (H _ (footprint_ttl3 m a E Hp Ht))).
  reflexivity.
Qed.

Lemma cache_valid_agree m m' a t2 t3 :
  agree m m' (footprint m a) -> cache_valid m a t2 t3 -> cache_valid m' a t2 t3.
Proof.
  intros H [H2 H3]. unfold cache_valid. rewrite (cold2_agree m m' a H). split; [exact H2|].
  destruct H3 as [H3|[H3|(Hc & H3)]]; [left; exact H3 | right; left; exact H3|].
  right; right. rewrite (ttl2_entry_agree m m' a H Hc). split; assumption.
Qed.

(** The physical address the context maps [a] to (0 when it maps none). *)
Definition phys_of (m : memory) (a : Z) : Z :=
  match walk m a with
  | Some (pg, _, _, _) => pg
  | None => 0
  end.

End PageWalk.

(** *** The loop of [mmu_mem_op] over a mapped prefix *)

Section MemOpLoop.

Import Arm64.

Variables (ctx : mmu_context) (m0 : memory) (addr size u : Z) (op : mem_op) (value : Z).


Hypothesis H_addr : 0 <= addr.
Hypothesis H_end : addr + size <= 2 ^ 64.
Hypothesis H_u : addr < u < addr + size.
Hypothesis H_mapped : forall b, addr <= b < u ->
  exists pg len t2 t3, walk ctx m0 b = Some (pg, len, t2, t3) /\ 0 < len.
Hypothesis H_hole : walk ctx m0 u = None.
Hypothesis H_safe : forall b a' c t,
  addr <= b < u -> addr <= a' <= u -> In c (footprint ctx m0 a') -> 0 <= t < 8 ->
  phys_of ctx m0 b <> c + t.
Hypothesis H_op : op <> MMU_MEM_COPY_FROM.
Hypothesis H_copy : op = MMU_MEM_COPY_TO ->
  0 <= value /\ value + size <= 2 ^ 64 /\
  (forall b b', addr <= b < u -> addr <= b' < u ->
                phys_of ctx m0 b = phys_of ctx m0 b' -> b = b') /\
  (forall b off, addr <= b < u -> 0 <= off < u - addr -> phys_of ctx m0 b <> value + off).





Lemma mem_op_loop_S fuel m a s v t2 t3 :
  mem_op_loop (S fuel) m ctx a s op v t2 t3 =
  if s =? 0 then Some (true, m)
  else match find_page m ctx a t2 t3 with
       | None => Some (false, m)
       | Some (page, page_size, ttl2', ttl3') =>
           let page_size := Z.min page_size s in
           let '(m', value') := do_mem_op m page page_size op v in
           mem_op_loop fuel m' ctx (wrap64 (a + page_size)) (wrap64 (s - page_size))
                       op value' ttl2' ttl3'
       end.
Proof. reflexivity. Qed.


(** The page of a mapped address ends before the first unmapped address, and
    the walk gives its bytes consecutive physical addresses. *)
Lemma chunk a pg len t2 t3 :
  addr <= a < u -> walk ctx m0 a = Some (pg, len, t2, t3) ->
  a + len <= u /\ forall b, a <= b < a + len -> phys_of ctx m0 b = pg + (b - a).
Proof.
  intros Ha Hw. split.
  - destruct (Z.le_gt_cases (a + len) u) as [Hle|Hgt]; [exact Hle|]. exfalso.
    pose proof (walk_shift ctx m0 a (u - a) pg len t2 t3 Hw ltac:(lia)) as Hs.
    replace (a + (u - a)) with u in Hs by lia. congruence.
  - intros b Hb.
    pose proof (walk_shift ctx m0 a (b - a) pg len t2 t3 Hw ltac:(lia)) as Hs.
    replace (a + (b - a)) with b in Hs by lia. unfold phys_of. rewrite Hs. reflexivity.
Qed.



End MemOpLoop.

(** *** Pages of a range *)

Section MappedPrefix.

Import Arm64.

Variable ctx : mmu_context.

(** The start of the page of [a]. *)
Definition page_base (a : Z) : Z := a - a mod PAGE_SIZE.

(** The starts of the [n] pages from the page start [p]. *)
Definition pages_from (p : Z) (n : nat) : list Z :=
  map (fun i => p + Z.of_nat i * PAGE_SIZE) (seq 0 n).

(** The address after [n] pages from the page of [addr]. *)
Definition prefix_end (addr : Z) (n : nat) : Z := page_base addr + Z.of_nat n * PAGE_SIZE.

(** The walk finds a page with bytes in it. *)
Definition page_mapped (m : memory) (p : Z) : bool :=
  match walk ctx m p with
  | Some (_, len, _, _) => 0 <? len
  | None => false
  end.

(** The frames the [n] pages from [p] are mapped to. *)
Definition frames (m : memory) (p : Z) (n : nat) : list Z :=
  map (phys_of ctx m) (pages_from p n).

(** The 8-byte cell at [c] lies outside the frame at [f]. *)
Definition clear_of (f c : Z) : bool := (c + 8 <=? f) || (f + PAGE_SIZE <=? c).

(** No frame of the [n] pages holds a table entry that a walk for one of them,
    or for the page after them, reads. *)
Definition tables_safe (m : memory) (p : Z) (n : nat) : bool :=
  forallb (fun f => forallb (clear_of f) (flat_map (footprint ctx m) (pages_from p (S n))))
          (frames m p n).

(** The frames are pairwise disjoint. *)
Fixpoint separated (fs : list Z) : bool :=
  match fs with
  | [] => true
  | f :: fs' =>
      forallb (fun g => (f + PAGE_SIZE <=? g) || (g + PAGE_SIZE <=? f)) fs' && separated fs'
  end.

(** The source buffer of a copy lies in the address space and outside the
    frames of the destination, which are pairwise disjoint. *)
Definition copy_safe (m : memory) (p : Z) (n : nat) (src len : Z) : bool :=
  (0 <=? src) && (src + len <=? 2 ^ 64) && separated (frames m p n)
  && forallb (fun f => (src + len <=? f) || (f + PAGE_SIZE <=? src)) (frames m p n).

Lemma page_base_spec b :
  page_base b mod PAGE_SIZE = 0 /\ page_base b <= b < page_base b + PAGE_SIZE /\
  page_base b / PAGE_SIZE = b / PAGE_SIZE.
Proof. unfold page_base, PAGE_SIZE. repeat split; Z.div_mod_to_equations; lia. Qed.

Lemma in_pages_from p n b :
  p mod PAGE_SIZE = 0 -> p <= b < p + Z.of_nat n * PAGE_SIZE ->
  In (page_base b) (pages_from p n).
Proof.
  intros Hp Hb. unfold pages_from. apply in_map_iff.
  exists (Z.to_nat ((b - p) / PAGE_SIZE)). split.
  - rewrite Z2Nat.id; unfold page_base, PAGE_SIZE in *; Z.div_mod_to_equations; lia.
  - apply in_seq. unfold PAGE_SIZE in *. split; [lia|].
    apply Nat2Z.inj_lt. rewrite Nat2Z.inj_add, Z2Nat.id; Z.div_mod_to_equations; lia.
Qed.

(** A mapped page holds all the addresses of its 4-KiB page, at consecutive
    physical addresses. *)
Lemma page_frame m p b :
  p mod PAGE_SIZE = 0 -> page_mapped m p = true -> p <= b < p + PAGE_SIZE ->
  (exists pg len t2 t3, walk ctx m b = Some (pg, len, t2, t3) /\ 0 < len) /\
  phys_of ctx m b = phys_of ctx m p + (b - p).
Proof.
  intros Hp Hm Hb. unfold page_mapped in Hm.
  destruct (walk ctx m p) as [[[[pg len] t2] t3]|] eqn:Hw; [|discriminate].
  apply Z.ltb_lt in Hm.
  assert (Hlen : PAGE_SIZE <= len).
  { rewrite walk_cold in Hw.
    destruct (cold2 ctx m p =? 0); [discriminate|]. unfold leaf in Hw.
    destruct (has_flag (ttl2_entry ctx m p) ARM64_TTE_PRESENT); cbn [negb] in Hw;
      [|discriminate].
    destruct (has_flag (ttl2_entry ctx m p) ARM64_TTE_TABLE).
    - destruct (Z.land (ttl2_entry ctx m p) ARM64_TTE_ADDR_MASK =? 0).
      { inversion Hw; subst. lia. }
      destruct (has_flag (entry m _ _) ARM64_TTE_PRESENT); cbn [negb] in Hw; [|discriminate].
      inversion Hw; subst. rewrite Hp. lia.
    - inversion Hw; subst. unfold LARGE_PAGE_SIZE, PAGE_SIZE in *.
      Z.div_mod_to_equations. lia. }
  pose proof (walk_shift ctx m p (b - p) pg len t2 t3 Hw ltac:(lia)) as Hs.
  replace (p + (b - p)) with b in Hs by lia.
  split.
  - exists (pg + (b - p)), (len - (b - p)), t2, t3. split; [exact Hs | lia].
  - unfold phys_of. rewrite Hs, Hw. reflexivity.
Qed.

Lemma separated_spec (f : Z -> Z) (l : list Z) :
  separated (map f l) = true ->
  forall x y, In x l -> In y l -> x <> y ->
  f x + PAGE_SIZE <= f y \/ f y + PAGE_SIZE <= f x.
Proof.
  induction l as [|z l IH]; intros H x y Hx Hy Hne; [contradiction|].
  cbn [map separated] in H. apply andb_true_iff in H. destruct H as [Hz Hl].
  rewrite forallb_forall in Hz.
  destruct Hx as [<-|Hx], Hy as [<-|Hy].
  - contradiction.
  - specialize (Hz (f y) (in_map f l y Hy)). apply orb_true_iff in Hz.
    destruct Hz as [Hz|Hz]; apply Z.leb_le in Hz; [left | right]; exact Hz.
  - specialize (Hz (f x) (in_map f l x Hx)). apply orb_true_iff in Hz.
    destruct Hz as [Hz|Hz]; apply Z.leb_le in Hz; [right | left]; exact Hz.
  - exact (IH Hl x y Hx Hy Hne).
Qed.

Section Range.

Variables (m : memory) (addr size : Z) (n : nat).

Hypothesis H_n : (0 < n)%nat.
Hypothesis H_pages : forallb (page_mapped m) (pages_from (page_base addr) n) = true.


(** The page of a byte of the prefix is one of the [n] pages. *)
Lemma prefix_page b :
  addr <= b < prefix_end addr n ->
  In (page_base b) (pages_from (page_base addr) n) /\
  (exists pg len t2 t3, walk ctx m b = Some (pg, len, t2, t3) /\ 0 < len) /\
  phys_of ctx m b = phys_of ctx m (page_base b) + (b - page_base b) /\
  0 <= b - page_base b < PAGE_SIZE.
Proof.
  intros Hb. destruct (page_base_spec addr) as (Hp & Hpa & _).
  destruct (page_base_spec b) as (Hpb & Hbb & _).
  assert (Hin : In (page_base b) (pages_from (page_base addr) n)).
  { apply in_pages_from; [exact Hp|]. unfold prefix_end in Hb. lia. }
  split; [exact Hin|].
  rewrite forallb_forall in H_pages.
  destruct (page_frame m (page_base b) b Hpb (H_pages _ Hin) Hbb) as (Hw & Hph).
  split; [exact Hw|]. split; [exact Hph | lia].
Qed.

Lemma prefix_safe :
  tables_safe m (page_base addr) n = true ->
  forall b a' c t,
    addr <= b < prefix_end addr n -> addr <= a' <= prefix_end addr n ->
    In c (footprint ctx m a') -> 0 <= t < 8 -> phys_of ctx m b <> c + t.
Proof.
  intros Hs b a' c t Hb Ha' Hc Ht.
  destruct (prefix_page b Hb) as (Hin & _ & Hph & Hoff).
  destruct (page_base_spec addr) as (Hp & Hpa & _).
  destruct (page_base_spec a') as (_ & Hba' & Hq).
  assert (Hin' : In (page_base a') (pages_from (page_base addr) (S n))).
  { apply in_pages_from; [exact Hp|]. unfold prefix_end in Ha'.
    rewrite Nat2Z.inj_succ. unfold PAGE_SIZE in *. lia. }
  rewrite <- (footprint_page ctx m _ _ Hq) in Hc.
  unfold tables_safe in Hs. rewrite forallb_forall in Hs.
  specialize (Hs _ (in_map (phys_of ctx m) _ _ Hin)). rewrite forallb_forall in Hs.
  specialize (Hs c). rewrite in_flat_map in Hs.
  specialize (Hs (ex_intro _ _ (conj Hin' Hc))).
  unfold clear_of in Hs. apply orb_true_iff in Hs.
  rewrite Hph. destruct Hs as [Hs|Hs]; apply Z.leb_le in Hs; lia.
Qed.

Lemma prefix_copy src :
  copy_safe m (page_base addr) n src size = true ->
  0 <= src /\ src + size <= 2 ^ 64 /\
  (forall b b', addr <= b < prefix_end addr n -> addr <= b' < prefix_end addr n ->
                phys_of ctx m b = phys_of ctx m b' -> b = b') /\
  (forall b off, addr <= b < prefix_end addr n -> 0 <= off < size ->
                 phys_of ctx m b <> src + off).
Proof.
  unfold copy_safe. rewrite !andb_true_iff. intros [[[H0 H1] Hsep] Hsrc].
  apply Z.leb_le in H0, H1. split; [exact H0|]. split; [exact H1|]. split.
  - intros b b' Hb Hb' E.
    destruct (prefix_page b Hb) as (Hin & _ & Hph & Hoff).
    destruct (prefix_page b' Hb') as (Hin' & _ & Hph' & Hoff').
    destruct (Z.eq_dec (page_base b) (page_base b')) as [Ep|Ep].
    + rewrite Hph, Hph', Ep in E. lia.
    + exfalso.
      destruct (separated_spec (phys_of ctx m) _ Hsep _ _ Hin Hin' Ep) as [Hd|Hd]; lia.
  - intros b off Hb Hoff.
    destruct (prefix_page b Hb) as (Hin & _ & Hph & Hob).
    rewrite forallb_forall in Hsrc.
    specialize (Hsrc _ (in_map (phys_of ctx m) _ _ Hin)). apply orb_true_iff in Hsrc.
    rewrite Hph. destruct Hsrc as [Hs|Hs]; apply Z.leb_le in Hs; lia.
Qed.

End Range.

End MappedPrefix.

(** One 4-KiB page mapped at 0x40000000, to the frame at 0x100000; the page
    after it is not mapped. *)
Definition one_page_mapped : Arm64.memory :=
  match Arm64.mmu_map example_tables example_context 0x40000000 0x100000 0x1000 with
  | Some (_, mc) => Arm64.mem mc
  | None => Arm64.mem example_tables
  end.




(** * Further properties of the loader *)

(** ** Fixnums beyond the round-trip range *)

(** X1: for every integer [v], decoding the fixnum of [v] gives [v] reduced
    to a signed 63-bit number, [(v + 2^62) mod 2^63 - 2^62]: the top bit of a
    value outside [-2^62, 2^62) is lost in the encoding. *)
Theorem unfixnum_fixnum_wraps (v : Z) :
  unfixnum (fixnum v) = (v + 2 ^ 62) mod 2 ^ 63 - 2 ^ 62.
Proof.
  rewrite unfixnum_half, fixnum_double. unfold to_int64.
  rewrite Z.mod_mod by lia.
  change (2 ^ 64) with 18446744073709551616. change (2 ^ 63) with 9223372036854775808.
  change (2 ^ 62) with 4611686018427387904.
  destruct (Z.ltb_spec ((2 * v) mod 18446744073709551616) 9223372036854775808);
    Z.div_mod_to_equations; lia.
Qed.

(** X2: for every 64-bit word [x], encoding what [unfixnum] decodes from [x]
    gives [x] with its tag bit (bit 0) cleared: [unfixnum] ignores the tag
    bit and loses nothing else. *)
Theorem fixnum_unfixnum_clears_tag (x : Z) :
  0 <= x < 2 ^ 64 -> fixnum (unfixnum x) = x - x mod 2.
Proof.
  intros Hx. rewrite unfixnum_half, fixnum_double. unfold to_int64.
  rewrite (Z.mod_small x) by lia.
  change (2 ^ 64) with 18446744073709551616 in *.
  change (2 ^ 63) with 9223372036854775808.
  destruct (Z.ltb_spec x 9223372036854775808); Z.div_mod_to_equations; lia.
Qed.

Lemma fixnum_unfixnum_clears_tag_witness :
  fixnum (unfixnum 0xFFFFFFFFFFFFFFFF) = 0xFFFFFFFFFFFFFFFF - 0xFFFFFFFFFFFFFFFF mod 2.
Proof. apply (fixnum_unfixnum_clears_tag 0xFFFFFFFFFFFFFFFF). lia. Defined.

(** ** What an insertion does to the entries of the memory map *)

Section MemoryMapEntries.

Lemma entry_at_entries bi j :
  map_ok bi -> 0 <= j < n_memory_map_entries bi ->
  entries bi !! Z.to_nat j = Some (entry_at bi j).
Proof.
  intros [Hlen Hn] Hj. unfold entries, entry_at.
  rewrite lookup_take_lt by lia.
  destruct (lookup_lt_is_Some_2 (memory_map bi) (Z.to_nat j) ltac:(lia)) as [x Hx].
  rewrite Hx. f_equal. symmetry. apply nth_lookup_Some. exact Hx.
Qed.

(** The merge branch replaces one entry. *)
Lemma entries_merge bi i x :
  map_ok bi -> 0 <= i < n_memory_map_entries bi ->
  entries (set_entry bi i x) = <[Z.to_nat i := x]> (entries bi).
Proof.
  intros [Hlen Hn] Hi. unfold entries, set_entry. cbn.
  apply take_insert_lt. lia.
Qed.

(** The insertion branch puts the new entry between the entries before [i]
    and the entries from [i] on. *)
Lemma entries_insert bi i x :
  map_ok bi -> n_memory_map_entries bi < 32 -> 0 <= i <= n_memory_map_entries bi ->
  take (Z.to_nat (wrap64 (n_memory_map_entries bi + 1)))
       (<[Z.to_nat i := x]>
          (memmove_entries (memory_map bi) (Z.to_nat (i + 1)) (Z.to_nat i)
                           (Z.to_nat (n_memory_map_entries bi - i))))
  = take (Z.to_nat i) (entries bi) ++ x :: drop (Z.to_nat i) (entries bi).
Proof.
  intros [Hlen Hn] Hfull Hi. unfold entries, memmove_entries.
  rewrite wrap64_small by (unfold is_uint64; lia).
  set (L := memory_map bi) in *.
  replace (Z.to_nat (n_memory_map_entries bi + 1))
    with (S (Z.to_nat (n_memory_map_entries bi))) by lia.
  replace (Z.to_nat (i + 1)) with (S (Z.to_nat i)) by lia.
  replace (Z.to_nat (n_memory_map_entries bi - i))
    with (Z.to_nat (n_memory_map_entries bi) - Z.to_nat i)%nat by lia.
  set (I := Z.to_nat i). set (N := Z.to_nat (n_memory_map_entries bi)).
  assert (HI : (I <= N)%nat) by lia. assert (HN : (N < 32)%nat) by lia.
  rewrite insert_app_l by (rewrite length_take; lia).
  rewrite (insert_take_drop (take (S I) L)) by (rewrite length_take; lia).
  rewrite take_take, (Nat.min_l I (S I)) by lia.
  rewrite (drop_ge (take (S I) L)) by (rewrite length_take; lia).
  rewrite take_app_ge by (rewrite length_app, length_take; cbn; lia).
  rewrite length_app, length_take. cbn [length].
  replace (S N - (I `min` length L + 1))%nat with (N - I)%nat by lia.
  rewrite take_app_le by (rewrite length_take, length_drop; lia).
  rewrite take_take, Nat.min_id.
  rewrite take_take, (Nat.min_l I N) by lia.
  rewrite skipn_firstn_comm. rewrite <- app_assoc. reflexivity.
Qed.

(** The test of the merge branch. *)
Definition merges (x : mezzano_memory_map_entry) (s e : Z) : bool :=
  in_range (start x) (end_ x) s || in_range (start x) (end_ x) e.

(** The entry the merge branch leaves in place of [x]. *)
Definition widened (x : mezzano_memory_map_entry) (s e : Z) : mezzano_memory_map_entry :=
  MapEntry (if start x >? s then s else start x) (if end_ x <? e then e else end_ x).

(** How the search is left: every entry passed over starts at or before [e]
    and does not merge; the loop breaks in front of an entry that starts
    after [e]. *)
Lemma search_spec bi s e todo : forall i,
  match search bi s e i todo with
  | MergeAt k =>
      i <= k < i + Z.of_nat todo /\ merges (entry_at bi k) s e = true /\
      forall j, i <= j < k -> start (entry_at bi j) <= e /\ merges (entry_at bi j) s e = false
  | InsertAt k =>
      i <= k <= i + Z.of_nat todo /\
      (k < i + Z.of_nat todo -> e < start (entry_at bi k)) /\
      forall j, i <= j < k -> start (entry_at bi j) <= e /\ merges (entry_at bi j) s e = false
  end.
Proof.
  induction todo as [|todo IH]; intros i; cbn [search].
  - split; [lia|]. split; intros; lia.
  - destruct (Z.gtb_spec (start (entry_at bi i)) e) as [Hgt|Hle].
    { split; [lia|]. split; [intros _; lia | intros; lia]. }
    fold (merges (entry_at bi i) s e).
    destruct (merges (entry_at bi i) s e) eqn:Hm.
    { split; [lia|]. split; [exact Hm | intros; lia]. }
    specialize (IH (i + 1)).
    destruct (search bi s e (i + 1) todo) as [k|k].
    + destruct IH as (Hk & Hmk & Hbefore). split; [lia|]. split; [exact Hmk|].
      intros j Hj. destruct (Z.eq_dec j i) as [->|Hne]; [split; [lia | exact Hm]|].
      apply Hbefore. lia.
    + destruct IH as (Hk & Hbreak & Hbefore). split; [lia|].
      split; [intros Hlt; apply Hbreak; lia|].
      intros j Hj. destruct (Z.eq_dec j i) as [->|Hne]; [split; [lia | exact Hm]|].
      apply Hbefore. lia.
Qed.

(** The entries after a call, by the way the search was left. *)
Lemma insert_entries bi s e :
  map_ok bi ->
  entries (mezzano_insert_into_memory_map bi s e) =
  match search bi s e 0 (Z.to_nat (n_memory_map_entries bi)) with
  | MergeAt k => <[Z.to_nat k := widened (entry_at bi k) s e]> (entries bi)
  | InsertAt k =>
      if n_memory_map_entries bi =? 32 then entries bi
      else take (Z.to_nat k) (entries bi) ++ MapEntry s e :: drop (Z.to_nat k) (entries bi)
  end.
Proof.
  intros Hok. pose proof Hok as [Hlen Hn]. unfold mezzano_insert_into_memory_map.
  pose proof (search_exit_bounds bi s e (Z.to_nat (n_memory_map_entries bi)) 0) as Hb.
  destruct (search bi s e 0 (Z.to_nat (n_memory_map_entries bi))) as [k|k].
  - unfold crunch_memory_map. apply entries_merge; [exact Hok | lia].
  - change mezzano_max_memory_map_size with 32.
    destruct (Z.eqb_spec (n_memory_map_entries bi) 32) as [E|E]; [reflexivity|].
    unfold crunch_memory_map. unfold entries at 1. cbn [n_memory_map_entries memory_map].
    apply entries_insert; [exact Hok | lia | lia].
Qed.

Lemma page_exists_iff bi p :
  page_exists bi p = true <->
  exists x, In x (entries bi) /\ start x <= p < end_ x.
Proof.
  unfold page_exists. rewrite existsb_exists. split; intros (x & Hin & Hx); exists x;
    (split; [exact Hin|]).
  - apply andb_true_iff in Hx. destruct Hx as [H1 H2].
    apply Z.leb_le in H1. apply Z.ltb_lt in H2. lia.
  - apply andb_true_iff. split; [apply Z.leb_le | apply Z.ltb_lt]; lia.
Qed.

Lemma widened_bounds x s e :
  start (widened x s e) <= start x /\ start (widened x s e) <= s /\
  end_ x <= end_ (widened x s e) /\ e <= end_ (widened x s e).
Proof.
  unfold widened. cbn [start end_].
  destruct (Z.gtb_spec (start x) s), (Z.ltb_spec (end_ x) e); lia.
Qed.

End MemoryMapEntries.

(** X3: when the memory map is not full, every address of an inserted range
    [start, end) is afterwards found by [page_exists], whether the range was
    merged into an entry or got an entry of its own. *)
Theorem insert_covers_range (bi : mezzano_boot_information) (s e p : Z) :
  map_ok bi -> n_memory_map_entries bi < mezzano_max_memory_map_size ->
  s <= p < e ->
  page_exists (mezzano_insert_into_memory_map bi s e) p = true.
Proof.
  intros Hok Hfull Hp. change mezzano_max_memory_map_size with 32 in Hfull.
  apply page_exists_iff. rewrite (insert_entries bi s e Hok).
  pose proof (search_exit_bounds bi s e (Z.to_nat (n_memory_map_entries bi)) 0) as Hb.
  pose proof Hok as [Hlen Hn].
  destruct (search bi s e 0 (Z.to_nat (n_memory_map_entries bi))) as [k|k].
  - exists (widened (entry_at bi k) s e). split.
    + apply list_elem_of_In, list_elem_of_lookup. exists (Z.to_nat k).
      apply list_lookup_insert_eq. unfold entries. rewrite length_take. lia.
    + pose proof (widened_bounds (entry_at bi k) s e). lia.
  - destruct (Z.eqb_spec (n_memory_map_entries bi) 32) as [E|_]; [lia|].
    exists (MapEntry s e). split; [|exact Hp].
    apply in_or_app. right. left. reflexivity.
Qed.

Lemma insert_covers_range_witness :
  page_exists (mezzano_insert_into_memory_map zero_boot_info 0x1000 0x3000) 0x2fff = true.
Proof.
  apply insert_covers_range; [exact zero_boot_info_ok | vm_compute; reflexivity | lia].
Defined.

(** X4: an insertion never takes an address out of the memory map: what
    [page_exists] found before a call of [mezzano_insert_into_memory_map] it
    finds after it, for every range inserted, merged or dropped. *)
Theorem insert_keeps_pages (bi : mezzano_boot_information) (s e p : Z) :
  map_ok bi -> page_exists bi p = true ->
  page_exists (mezzano_insert_into_memory_map bi s e) p = true.
Proof.
  intros Hok Hp. apply page_exists_iff. apply page_exists_iff in Hp.
  destruct Hp as (x & Hin & Hx). rewrite (insert_entries bi s e Hok).
  destruct (search bi s e 0 (Z.to_nat (n_memory_map_entries bi))) as [k|k].
  - apply list_elem_of_In, list_elem_of_lookup in Hin. destruct Hin as [j Hj].
    destruct (Nat.eq_dec j (Z.to_nat k)) as [->|Hne].
    + exists (widened (entry_at bi k) s e). split.
      * apply list_elem_of_In, list_elem_of_lookup. exists (Z.to_nat k).
        apply list_lookup_insert_eq. apply lookup_lt_Some in Hj. exact Hj.
      * assert (E : x = entry_at bi k).
        { unfold entries in Hj. apply lookup_take_Some in Hj. destruct Hj as [Hj _].
          unfold entry_at. symmetry. apply nth_lookup_Some. exact Hj. }
        subst x. pose proof (widened_bounds (entry_at bi k) s e). lia.
    + exists x. split; [|exact Hx].
      apply list_elem_of_In, list_elem_of_lookup. exists j.
      rewrite list_lookup_insert_ne by congruence. exact Hj.
  - destruct (n_memory_map_entries bi =? 32); [exists x; split; assumption|].
    exists x. split; [|exact Hx].
    rewrite <- (take_drop (Z.to_nat k) (entries bi)) in Hin.
    apply in_app_or in Hin. apply in_or_app.
    destruct Hin as [Hin|Hin]; [left; exact Hin | right; right; exact Hin].
Qed.

Lemma insert_keeps_pages_witness :
  page_exists (mezzano_insert_into_memory_map
                 (mezzano_insert_into_memory_map zero_boot_info 0x1000 0x2000)
                 0x8000 0x9000) 0x1800 = true.
Proof.
  apply insert_keeps_pages; [|vm_compute; reflexivity].
  apply insert_keeps_map_ok. exact zero_boot_info_ok.
Defined.

(** X5: when the memory map already holds 32 entries, a range that merges
    with none of them is ignored: the boot information is left as it
    was. *)
Theorem insert_into_full_map_ignored (bi : mezzano_boot_information) (s e : Z) :
  n_memory_map_entries bi = mezzano_max_memory_map_size ->
  (forall j, 0 <= j < mezzano_max_memory_map_size ->
     in_range (start (entry_at bi j)) (end_ (entry_at bi j)) s = false /\
     in_range (start (entry_at bi j)) (end_ (entry_at bi j)) e = false) ->
  mezzano_insert_into_memory_map bi s e = bi.
Proof.
  intros Hn Hno. unfold mezzano_insert_into_memory_map.
  pose proof (search_spec bi s e (Z.to_nat (n_memory_map_entries bi)) 0) as Hs.
  destruct (search bi s e 0 (Z.to_nat (n_memory_map_entries bi))) as [k|k].
  - exfalso. destruct Hs as (Hk & Hm & _). rewrite Hn in Hk.
    destruct (Hno k ltac:(lia)) as [H1 H2]. unfold merges in Hm. rewrite H1, H2 in Hm.
    discriminate.
  - rewrite Hn. reflexivity.
Qed.

(** A memory map with 32 entries, 64 KiB each and 64 KiB apart. *)
Definition full_memory_map : mezzano_boot_information :=
  insert_all zero_boot_info
    (map (fun i => (0x10000 * (2 * Z.of_nat i + 1), 0x10000 * (2 * Z.of_nat i + 2)))
         (seq 0 32)).

Lemma insert_into_full_map_ignored_witness :
  n_memory_map_entries full_memory_map = 32 /\
  mezzano_insert_into_memory_map full_memory_map 0x900000 0xA00000 = full_memory_map.
Proof.
  split; [vm_compute; reflexivity|].
  apply insert_into_full_map_ignored; [vm_compute; reflexivity|].
  intros j Hj. unfold mezzano_max_memory_map_size in Hj.
  replace j with (Z.of_nat (Z.to_nat j)) by lia.
  assert (Hlt : (Z.to_nat j < 32)%nat) by lia.
  generalize dependent (Z.to_nat j). intros k Hlt.
  do 32 (destruct k as [|k]; [vm_compute; split; reflexivity|]).
  lia.
Defined.

(** ** Insertions that keep the memory map sorted *)

Section SortedInsert.

(** Every entry is a non-empty range. *)
Definition proper (l : list mezzano_memory_map_entry) : Prop :=
  forall x, In x l -> start x < end_ x.

Lemma separated_lookup l :
  MemoryMap.separated l = true ->
  forall i j a b, l !! i = Some a -> l !! j = Some b -> (i < j)%nat -> end_ a < start b.
Proof.
  induction l as [|x l IH]; intros H i j a b Hi Hj Hij; [discriminate|].
  cbn [MemoryMap.separated] in H. apply andb_true_iff in H. destruct H as [Hx Hl].
  destruct j as [|j]; [lia|]. cbn in Hj.
  destruct i as [|i].
  - cbn in Hi. inversion Hi; subst a. rewrite forallb_forall in Hx.
    apply Z.ltb_lt, Hx, list_elem_of_In, list_elem_of_lookup. exists j. exact Hj.
  - cbn in Hi. apply (IH Hl i j a b Hi Hj). lia.
Qed.

Lemma separated_insert l1 l2 x :
  MemoryMap.separated (l1 ++ l2) = true ->
  (forall a, In a l1 -> end_ a < start x) ->
  (forall b, In b l2 -> end_ x < start b) ->
  MemoryMap.separated (l1 ++ x :: l2) = true.
Proof.
  induction l1 as [|a l1 IH]; cbn [app MemoryMap.separated]; intros H H1 H2.
  - apply andb_true_iff. split; [|exact H].
    apply forallb_forall. intros b Hb. apply Z.ltb_lt, H2, Hb.
  - apply andb_true_iff in H. destruct H as [Ha Hs]. apply andb_true_iff. split.
    + rewrite forallb_app in Ha. apply andb_true_iff in Ha. destruct Ha as [Ha1 Ha2].
      rewrite forallb_app. cbn [forallb]. rewrite Ha1, Ha2.
      assert (E : (end_ a <? start x) = true) by (apply Z.ltb_lt, H1; left; reflexivity).
      rewrite E. reflexivity.
    + apply IH; [exact Hs | intros a' Ha'; apply H1; right; exact Ha' | exact H2].
Qed.

End SortedInsert.

(** X6: if the entries of a memory map that is not full are non-empty ranges
    in strictly ascending order with a gap between any two, and a non-empty
    range [start, end) neither overlaps nor touches any of them, then after
    [mezzano_insert_into_memory_map] the entries are the old ones and the new
    range, again in strictly ascending order with gaps. *)
Theorem insert_apart_keeps_sorted (bi : mezzano_boot_information) (s e : Z) :
  map_ok bi -> n_memory_map_entries bi < mezzano_max_memory_map_size ->
  s < e ->
  proper (entries bi) -> MemoryMap.separated (entries bi) = true ->
  (forall x, In x (entries bi) -> end_ x < s \/ e < start x) ->
  MemoryMap.separated (entries (mezzano_insert_into_memory_map bi s e)) = true /\
  proper (entries (mezzano_insert_into_memory_map bi s e)) /\
  Permutation (entries (mezzano_insert_into_memory_map bi s e)) (MapEntry s e :: entries bi).
Proof.
  intros Hok Hfull Hse Hproper Hsep Hapart.
  change mezzano_max_memory_map_size with 32 in Hfull. pose proof Hok as [Hlen Hn].
  assert (Hlength : length (entries bi) = Z.to_nat (n_memory_map_entries bi)).
  { unfold entries. rewrite length_take. lia. }
  assert (Hat : forall j, 0 <= j < n_memory_map_entries bi -> In (entry_at bi j) (entries bi)).
  { intros j Hj. apply list_elem_of_In, list_elem_of_lookup. exists (Z.to_nat j).
    apply entry_at_entries; assumption. }
  rewrite (insert_entries bi s e Hok).
  pose proof (search_spec bi s e (Z.to_nat (n_memory_map_entries bi)) 0) as Hs.
  destruct (search bi s e 0 (Z.to_nat (n_memory_map_entries bi))) as [k|k].
  { exfalso. destruct Hs as (Hk & Hm & _).
    pose proof (Hat k ltac:(lia)) as Hin.
    pose proof (Hproper _ Hin) as Hp. pose proof (Hapart _ Hin) as Ha.
    unfold merges, in_range in Hm. apply orb_true_iff in Hm.
    destruct Hm as [Hm|Hm]; apply andb_true_iff in Hm; destruct Hm as [H1 H2];
      apply Z.leb_le in H1, H2; lia. }
  destruct Hs as (Hk & Hbreak & Hbefore).
  destruct (Z.eqb_spec (n_memory_map_entries bi) 32) as [E|_]; [lia|].
  assert (Hl1 : forall a, In a (take (Z.to_nat k) (entries bi)) -> end_ a < s).
  { intros a Ha. apply list_elem_of_In, elem_of_take in Ha. destruct Ha as (j & Hj & Hjk).
    assert (Ea : a = entry_at bi (Z.of_nat j)).
    { pose proof (entry_at_entries bi (Z.of_nat j) Hok ltac:(lia)) as Hj'.
      rewrite Nat2Z.id in Hj'. congruence. }
    destruct (Hbefore (Z.of_nat j) ltac:(lia)) as [Hst _]. rewrite <- Ea in Hst.
    assert (Hin : In a (entries bi)).
    { apply list_elem_of_In, list_elem_of_lookup. exists j. exact Hj. }
    destruct (Hapart a Hin); lia. }
  assert (Hl2 : forall b, In b (drop (Z.to_nat k) (entries bi)) -> e < start b).
  { intros b Hb. apply list_elem_of_In, list_elem_of_lookup in Hb. destruct Hb as (t & Ht).
    rewrite lookup_drop in Ht.
    assert (Hkn : k < n_memory_map_entries bi).
    { apply lookup_lt_Some in Ht. lia. }
    pose proof (entry_at_entries bi k Hok ltac:(lia)) as Hk0.
    specialize (Hbreak ltac:(lia)).
    destruct t as [|t].
    - rewrite Nat.add_0_r in Ht. congruence.
    - pose proof (separated_lookup _ Hsep _ _ _ _ Hk0 Ht ltac:(lia)) as Hlt.
      pose proof (Hproper _ (Hat k ltac:(lia))). lia. }
  split; [|split].
  - apply separated_insert; [rewrite take_drop; exact Hsep | exact Hl1 | exact Hl2].
  - intros x Hx. apply in_app_or in Hx. destruct Hx as [Hx|[<-|Hx]].
    + apply Hproper. rewrite <- (take_drop (Z.to_nat k) (entries bi)).
      apply in_or_app. left. exact Hx.
    + exact Hse.
    + apply Hproper. rewrite <- (take_drop (Z.to_nat k) (entries bi)).
      apply in_or_app. right. exact Hx.
  - symmetry. rewrite <- (take_drop (Z.to_nat k) (entries bi)) at 1.
    apply Permutation_middle.
Qed.

Lemma insert_apart_keeps_sorted_witness :
  MemoryMap.separated (entries (mezzano_insert_into_memory_map
                        (mezzano_insert_into_memory_map zero_boot_info 0x1000 0x2000)
                        0x4000 0x5000)) = true /\
  proper (entries (mezzano_insert_into_memory_map
                     (mezzano_insert_into_memory_map zero_boot_info 0x1000 0x2000)
                     0x4000 0x5000)) /\
  Permutation (entries (mezzano_insert_into_memory_map
                          (mezzano_insert_into_memory_map zero_boot_info 0x1000 0x2000)
                          0x4000 0x5000))
              (MapEntry 0x4000 0x5000
               :: entries (mezzano_insert_into_memory_map zero_boot_info 0x1000 0x2000)).
Proof.
  apply (insert_apart_keeps_sorted
           (mezzano_insert_into_memory_map zero_boot_info 0x1000 0x2000) 0x4000 0x5000).
  - apply insert_keeps_map_ok. exact zero_boot_info_ok.
  - vm_compute. reflexivity.
  - lia.
  - intros x Hx. vm_compute in Hx. destruct Hx as [<-|[]]. vm_compute. reflexivity.
  - vm_compute. reflexivity.
  - intros x Hx. vm_compute in Hx. destruct Hx as [<-|[]]. left. vm_compute. reflexivity.
Defined.

(** ** The type and bin fields of a page-info word *)

(** X7: the type and the bin of a page share the flags word and do not
    disturb each other. For a value below 256, [set_page_info_type] makes
    [page_info_type] of the page return the value and leaves the bin, the
    next link and the previous link of every page as they were; likewise
    [set_page_info_bin] makes [page_info_bin] return the value and leaves the
    type and the links. Pages in other frames keep their type and bin. *)
Theorem type_and_bin_independent (im : info_array) (p v q : Z) :
  0 <= v < 256 ->
  (page_info_type (set_page_info_type im p v) p = v /\
   page_info_bin (set_page_info_type im p v) q = page_info_bin im q /\
   page_info_next (set_page_info_type im p v) q = page_info_next im q /\
   page_info_prev (set_page_info_type im p v) q = page_info_prev im q /\
   (p / PAGE_SIZE <> q / PAGE_SIZE ->
    page_info_type (set_page_info_type im p v) q = page_info_type im q)) /\
  (page_info_bin (set_page_info_bin im p v) p = v /\
   page_info_type (set_page_info_bin im p v) q = page_info_type im q /\
   page_info_next (set_page_info_bin im p v) q = page_info_next im q /\
   page_info_prev (set_page_info_bin im p v) q = page_info_prev im q /\
   (p / PAGE_SIZE <> q / PAGE_SIZE ->
    page_info_bin (set_page_info_bin im p v) q = page_info_bin im q)).
Proof.
  intros Hv. split.
  - split; [rewrite type_set_type by exact Hv; destruct (decide _); congruence|].
    split; [apply bin_set_type, Hv|]. split; [apply next_set_type|].
    split; [apply prev_set_type|].
    intros Hne. rewrite type_set_type by exact Hv. destruct (decide _); congruence.
  - split; [rewrite bin_set_bin by exact Hv; destruct (decide _); congruence|].
    split; [apply type_set_bin, Hv|]. split; [apply next_set_bin|].
    split; [apply prev_set_bin|].
    intros Hne. rewrite bin_set_bin by exact Hv. destruct (decide _); congruence.
Qed.

Lemma type_and_bin_independent_witness :
  page_info_type (set_page_info_type (set_page_info_bin ∅ 0x5000 7) 0x5000 page_type_free)
                 0x5000 = page_type_free /\
  page_info_bin (set_page_info_type (set_page_info_bin ∅ 0x5000 7) 0x5000 page_type_free)
                0x5000 = page_info_bin (set_page_info_bin ∅ 0x5000 7) 0x5000.
Proof.
  destruct (type_and_bin_independent (set_page_info_bin ∅ 0x5000 7) 0x5000 page_type_free
              0x5000 ltac:(unfold page_type_free; lia)) as [(Ht & Hb & _) _].
  split; [exact Ht | exact Hb].
Defined.

(** ** Buddies *)

Section BuddyPairs.

Lemma testbit_half x e :
  0 <= e -> Z.testbit x e = Z.odd (x / 2 ^ e).
Proof.
  intros He. rewrite <- Z.shiftr_div_pow2, <- Z.bit0_odd, Z.shiftr_spec by lia.
  reflexivity.
Qed.

Lemma flip_bit x e :
  0 <= e ->
  let y := Z.lxor x (2 ^ e) in
  (y = x + 2 ^ e \/ y = x - 2 ^ e) /\
  y / 2 ^ (e + 1) = x / 2 ^ (e + 1) /\ y mod 2 ^ e = x mod 2 ^ e.
Proof.
  intros He y.
  assert (Hpos : 0 < 2 ^ e) by (apply Z.pow_pos_nonneg; lia).
  assert (Hdd : forall z, z / 2 ^ (e + 1) = z / 2 ^ e / 2).
  { intros z. rewrite Z.pow_add_r, Z.pow_1_r by lia. rewrite Z.div_div by lia.
    reflexivity. }
  pose proof (testbit_half x e He) as Hbit.
  destruct (Z.testbit x e) eqn:Hb.
  - assert (Ey : y = x - 2 ^ e) by (apply lxor_pow2_set; assumption).
    split; [right; exact Ey|]. rewrite Ey, !Hdd. split.
    + replace (x - 2 ^ e) with (x + (-1) * 2 ^ e) by lia. rewrite Z.div_add by lia.
      symmetry in Hbit. apply Z.odd_spec in Hbit. destruct Hbit as [t Ht].
      rewrite Ht. Z.div_mod_to_equations. lia.
    + replace (x - 2 ^ e) with (x + (-1) * 2 ^ e) by lia. apply Z.mod_add. lia.
  - assert (Ey : y = x + 2 ^ e) by (apply lxor_pow2_clear; assumption).
    split; [left; exact Ey|]. rewrite Ey, !Hdd. split.
    + replace (x + 2 ^ e) with (x + 1 * 2 ^ e) by lia. rewrite Z.div_add by lia.
      assert (Hev : Z.even (x / 2 ^ e) = true).
      { rewrite <- Z.negb_odd, <- Hbit. reflexivity. }
      apply Z.even_spec in Hev. destruct Hev as [t Ht].
      rewrite Ht. Z.div_mod_to_equations. lia.
    + replace (x + 2 ^ e) with (x + 1 * 2 ^ e) by lia. apply Z.mod_add. lia.
Qed.

End BuddyPairs.

(** X8: for an order [k] from 0 to 51, the buddy of the buddy of an address
    is the address itself; an address and its buddy lie [2^(k+12)] bytes
    apart, in the same block of the next order, at the same offset within
    their blocks of order [k]. *)
Theorem buddy_pairs (k x : Z) :
  0 <= k <= 51 ->
  buddy k (buddy k x) = x /\
  (buddy k x = x + 2 ^ (k + 12) \/ buddy k x = x - 2 ^ (k + 12)) /\
  buddy k x / 2 ^ (k + 13) = x / 2 ^ (k + 13) /\
  buddy k x mod 2 ^ (k + 12) = x mod 2 ^ (k + 12).
Proof.
  intros Hk. rewrite !buddy_pow2 by exact Hk.
  destruct (flip_bit x (k + 12) ltac:(lia)) as (Hd & Hq & Hr).
  replace (k + 12 + 1) with (k + 13) in Hq by lia.
  split; [|split; [exact Hd | split; [exact Hq | exact Hr]]].
  rewrite Z.lxor_assoc, Z.lxor_nilpotent, Z.lxor_0_r. reflexivity.
Qed.

Lemma buddy_pairs_witness :
  buddy 3 (buddy 3 0x12345000) = 0x12345000 /\
  (buddy 3 0x12345000 = 0x12345000 + 2 ^ (3 + 12) \/
   buddy 3 0x12345000 = 0x12345000 - 2 ^ (3 + 12)) /\
  buddy 3 0x12345000 / 2 ^ (3 + 13) = 0x12345000 / 2 ^ (3 + 13) /\
  buddy 3 0x12345000 mod 2 ^ (3 + 12) = 0x12345000 mod 2 ^ (3 + 12).
Proof. apply (buddy_pairs 3 0x12345000). lia. Defined.

(** ** What [buddy_free_page] keeps *)

Section BuddyAccounts.

(** The counts of the bins from order [k] on, each weighted by the pages of a
    block of its order. *)
Fixpoint weighted (k : Z) (l : list mezzano_buddy_bin) : Z :=
  match l with
  | [] => 0
  | b :: l' => count b * 2 ^ k + weighted (k + 1) l'
  end.

(** Twice the number of free pages the bins of an array account for: the
    count of a bin is a fixnum, and a block of order [k] holds [2^k] pages. *)
Definition accounted (bi : mezzano_boot_information) (w : bin_array) : Z :=
  weighted 0 (bins bi w).

Lemma weighted_insert l : forall k i b,
  0 <= k -> (i < length l)%nat ->
  weighted k (<[i := b]> l) =
  weighted k l + (count b - count (nth i l zero_bin)) * 2 ^ (k + Z.of_nat i).
Proof.
  induction l as [|a l IH]; intros k i b Hk Hi; [cbn in Hi; lia|].
  destruct i as [|i].
  - cbn [list_insert weighted nth]. change (Z.of_nat 0) with 0. rewrite Z.add_0_r.
    cbn. lia.
  - cbn [weighted nth]. change (<[S i := b]> (a :: l)) with (a :: <[i := b]> l).
    cbn [weighted]. rewrite IH by (cbn in Hi; lia).
    replace (k + 1 + Z.of_nat i) with (k + Z.of_nat (S i)) by lia. lia.
Qed.

(** The boot information but for the bins of the array [w]. *)
Definition same_but_bins (w : bin_array) (bi bi' : mezzano_boot_information) : Prop :=
  memory_map bi' = memory_map bi /\
  n_memory_map_entries bi' = n_memory_map_entries bi /\
  length (bins bi' w) = length (bins bi w) /\
  forall w', w' <> w -> bins bi' w' = bins bi w'.

Lemma same_but_bins_refl w bi : same_but_bins w bi bi.
Proof. repeat split; reflexivity. Qed.

Lemma same_but_bins_trans w a b c :
  same_but_bins w a b -> same_but_bins w b c -> same_but_bins w a c.
Proof.
  intros (M1 & N1 & L1 & O1) (M2 & N2 & L2 & O2). repeat split; try congruence.
  intros w' Hw. rewrite (O2 w' Hw). apply O1, Hw.
Qed.

Lemma same_but_bins_set_bin w bi k b : same_but_bins w bi (set_bin bi w k b).
Proof.
  split; [destruct w; reflexivity|]. split; [destruct w; reflexivity|].
  split; [apply length_bins_set_bin|].
  intros w' Hw. rewrite bins_set_bin. destruct (decide (w = w')); congruence.
Qed.

Lemma accounted_set_bin bi w k b :
  0 <= k -> (Z.to_nat k < length (bins bi w))%nat ->
  accounted (set_bin bi w k b) w =
  accounted bi w + (count b - count (bin_at bi w k)) * 2 ^ k.
Proof.
  intros Hk Hlen. unfold accounted. rewrite bins_set_bin.
  destruct (decide (w = w)) as [_|Hn]; [|contradiction].
  rewrite weighted_insert by (lia || exact Hlen).
  rewrite Z.add_0_l, Z2Nat.id by lia. reflexivity.
Qed.

(** The loop body changes one bin: one block less in bin [k]. *)
Lemma unlink_buddy_bins bi im nil w k p :
  0 <= k -> (Z.to_nat k < length (bins bi w))%nat ->
  exists fp,
    fst (unlink_buddy bi im nil w k p) =
    set_bin bi w k (BuddyBin fp (wrap64 (count (bin_at bi w k) - fixnum 1))).
Proof.
  intros Hk Hlen. unfold unlink_buddy. cbn [fst].
  destruct (first_page (bin_at bi w k) =? fixnum (to_int64 (p / PAGE_SIZE))).
  - exists (page_info_next im p). unfold set_count, set_first_page.
    rewrite set_bin_set_bin, bin_at_set_bin by (lia || exact Hlen).
    destruct (decide (w = w /\ k = k)) as [_|Hn]; [reflexivity|].
    exfalso. apply Hn. split; reflexivity.
  - exists (first_page (bin_at bi w k)). reflexivity.
Qed.

(** The statements after the loop change one bin: one block more in bin
    [k]. *)
Lemma link_free_page_bins bi im nil w k l :
  0 <= k -> (Z.to_nat k < length (bins bi w))%nat ->
  fst (link_free_page bi im nil w k l) =
  set_bin bi w k (BuddyBin (fixnum (to_int64 (l / PAGE_SIZE)))
                           (wrap64 (count (bin_at bi w k) + fixnum 1))).
Proof.
  intros Hk Hlen. unfold link_free_page. cbn [fst]. unfold set_count, set_first_page.
  rewrite set_bin_set_bin, bin_at_set_bin by (lia || exact Hlen).
  destruct (decide (w = w /\ k = k)) as [_|Hn]; [reflexivity|].
  exfalso. apply Hn. split; reflexivity.
Qed.

Lemma wrapped_step c d p :
  exists t, (wrap64 (c + d) - c) * p = d * p + t * 2 ^ 64.
Proof.
  unfold wrap64. exists (- ((c + d) / 2 ^ 64) * p).
  pose proof (Z.div_mod (c + d) (2 ^ 64) ltac:(lia)) as E.
  replace ((c + d) mod 2 ^ 64) with (c + d - 2 ^ 64 * ((c + d) / 2 ^ 64)) by lia.
  ring.
Qed.

Lemma coalesce_accounts nil w m fuel : forall bi im k l bi1 im1 k1 l1,
  0 <= k <= m -> (Z.to_nat m < length (bins bi w))%nat ->
  coalesce fuel bi im nil w m k l = Some (bi1, im1, k1, l1) ->
  k <= k1 <= m /\ same_but_bins w bi bi1 /\
  (accounted bi1 w + 2 * 2 ^ k1) mod 2 ^ 64 = (accounted bi w + 2 * 2 ^ k) mod 2 ^ 64.
Proof.
  induction fuel as [|fuel IH]; intros bi im k l bi1 im1 k1 l1 Hk Hlen Hc; [discriminate|].
  destruct (loop_breaks bi im m k l) eqn:Hb.
  - cbn [coalesce] in Hc. rewrite Hb in Hc. inversion Hc; subst.
    split; [lia|]. split; [apply same_but_bins_refl | reflexivity].
  - rewrite (coalesce_step fuel bi im nil w m k l Hb) in Hc.
    assert (Hne : k <> m).
    { intros ->. unfold loop_breaks in Hb. rewrite Z.eqb_refl in Hb. discriminate. }
    destruct (unlink_buddy_bins bi im nil w k (buddy k l) ltac:(lia) ltac:(lia)) as [fp Hu].
    pose proof (same_but_bins_set_bin w bi k
                  (BuddyBin fp (wrap64 (count (bin_at bi w k) - fixnum 1)))) as Hsame.
    rewrite <- Hu in Hsame.
    assert (Hlen' : (Z.to_nat m < length (bins (fst (unlink_buddy bi im nil w k (buddy k l))) w))%nat).
    { destruct Hsame as (_ & _ & Hl & _). lia. }
    destruct (IH (fst (unlink_buddy bi im nil w k (buddy k l)))
                 (snd (unlink_buddy bi im nil w k (buddy k l)))
                 (k + 1) (Z.min l (buddy k l)) bi1 im1 k1 l1 ltac:(lia) Hlen' Hc)
      as (Hk1 & Hs1 & Hacc).
    split; [lia|]. split; [exact (same_but_bins_trans w _ _ _ Hsame Hs1)|].
    rewrite Hacc, Hu, accounted_set_bin by lia. cbn [count].
    rewrite fixnum_1.
    destruct (wrapped_step (count (bin_at bi w k)) (-2) (2 ^ k)) as [t Ht].
    replace (count (bin_at bi w k) - 2) with (count (bin_at bi w k) + -2) by lia.
    rewrite Ht.
    replace (2 ^ (k + 1)) with (2 * 2 ^ k) by (rewrite Z.pow_add_r by lia; lia).
    replace (accounted bi w + (-2 * 2 ^ k + t * 2 ^ 64) + 2 * (2 * 2 ^ k))
      with (accounted bi w + 2 * 2 ^ k + t * 2 ^ 64) by lia.
    apply Z.mod_add. lia.
Qed.

End BuddyAccounts.

(** The bins have their declared sizes. *)
Definition bins_ok (bi : mezzano_boot_information) : Prop :=
  length (buddy_bin_32 bi) = 20%nat /\ length (buddy_bin_64 bi) = 27%nat.

(** X9: [buddy_free_page] always returns, and it touches the bins of one
    array only, [buddy_bin_32] for a page below 4 GiB and [buddy_bin_64]
    otherwise: the memory map, its count, and the bins of the other array
    are as before. *)
Theorem buddy_free_page_frame (bi : mezzano_boot_information) (im : info_array)
    (nil l : Z) :
  bins_ok bi ->
  exists bi' im',
    buddy_free_page bi im nil l = Some (bi', im') /\
    memory_map bi' = memory_map bi /\
    n_memory_map_entries bi' = n_memory_map_entries bi /\
    bins_ok bi' /\
    (if l <? 4294967296 then buddy_bin_64 bi' = buddy_bin_64 bi
     else buddy_bin_32 bi' = buddy_bin_32 bi).
Proof.
  intros [H32 H64]. unfold buddy_free_page.
  destruct (select_bins l) as [w m] eqn:Hsel.
  assert (Hm : 0 <= m /\ (Z.to_nat m < length (bins bi w))%nat /\
               w = (if l <? 4294967296 then Bin32 else Bin64)).
  { rewrite select_bins_spec in Hsel. change (2 ^ 32) with 4294967296 in Hsel.
    destruct (l <? 4294967296); inversion Hsel; subst m w;
      cbn [bins]; rewrite ?H32, ?H64; repeat split; lia. }
  destruct Hm as (Hm0 & Hmlen & Hw).
  destruct (coalesce_total nil w m (coalesce_fuel m) bi im 0 l ltac:(lia)
              ltac:(unfold coalesce_fuel; lia)) as (bi1 & im1 & k1 & l1 & Hc & Hk1 & _).
  rewrite Hc.
  destruct (coalesce_accounts nil w m (coalesce_fuel m) bi im 0 l bi1 im1 k1 l1
              ltac:(lia) Hmlen Hc) as (_ & Hs1 & _).
  assert (Hlen1 : (Z.to_nat k1 < length (bins bi1 w))%nat).
  { destruct Hs1 as (_ & _ & Hl & _). lia. }
  pose proof (link_free_page_bins bi1 im1 nil w k1 l1 ltac:(lia) Hlen1) as Hl.
  destruct (link_free_page bi1 im1 nil w k1 l1) as [bi2 im2] eqn:Hlink. cbn [fst] in Hl.
  exists bi2, im2. split; [reflexivity|].
  pose proof (same_but_bins_trans w _ _ _ Hs1
                (same_but_bins_set_bin w bi1 k1
                   (BuddyBin (fixnum (to_int64 (l1 / PAGE_SIZE)))
                             (wrap64 (count (bin_at bi1 w k1) + fixnum 1))))) as Hs2.
  rewrite <- Hl in Hs2. destruct Hs2 as (Hmm & Hn & Hlen2 & Hother).
  split; [exact Hmm|]. split; [exact Hn|].
  destruct (l <? 4294967296); subst w; cbn [bins] in *.
  - pose proof (Hother Bin64 ltac:(discriminate)) as H. cbn [bins] in H.
    split; [split; congruence | exact H].
  - pose proof (Hother Bin32 ltac:(discriminate)) as H. cbn [bins] in H.
    split; [split; congruence | exact H].
Qed.

Lemma buddy_free_page_frame_witness :
  exists bi' im',
    buddy_free_page (init_buddy_bins zero_boot_info 0) ∅ 0 0x200000 = Some (bi', im') /\
    memory_map bi' = memory_map (init_buddy_bins zero_boot_info 0) /\
    n_memory_map_entries bi' = n_memory_map_entries (init_buddy_bins zero_boot_info 0) /\
    bins_ok bi' /\
    (if 0x200000 <? 4294967296
     then buddy_bin_64 bi' = buddy_bin_64 (init_buddy_bins zero_boot_info 0)
     else buddy_bin_32 bi' = buddy_bin_32 (init_buddy_bins zero_boot_info 0)).
Proof.
  apply (buddy_free_page_frame (init_buddy_bins zero_boot_info 0) ∅ 0 0x200000).
  split; reflexivity.
Defined.

(** X10: [buddy_free_page] accounts for exactly one more free page. With the
    count of bin [k] weighted by the [2^k] pages of a block of order [k],
    the weighted sum of the counts of the array the page belongs to grows by
    [fixnum(1)], modulo [2^64], however many buddies the page was combined
    with. *)
Theorem buddy_free_page_accounts_one_page (bi : mezzano_boot_information)
    (im : info_array) (nil l : Z) (bi' : mezzano_boot_information) (im' : info_array) :
  bins_ok bi ->
  buddy_free_page bi im nil l = Some (bi', im') ->
  accounted bi' (fst (select_bins l)) mod 2 ^ 64 =
  (accounted bi (fst (select_bins l)) + fixnum 1) mod 2 ^ 64.
Proof.
  intros [H32 H64] Hfree. unfold buddy_free_page in Hfree.
  destruct (select_bins l) as [w m] eqn:Hsel. cbn [fst].
  assert (Hm : 0 <= m /\ (Z.to_nat m < length (bins bi w))%nat).
  { rewrite select_bins_spec in Hsel.
    destruct (l <? 2 ^ 32); inversion Hsel; subst m w;
      cbn [bins]; rewrite ?H32, ?H64; split; lia. }
  destruct Hm as (Hm0 & Hmlen).
  destruct (coalesce (coalesce_fuel m) bi im nil w m 0 l) as [[[[bi1 im1] k1] l1]|] eqn:Hc;
    [|discriminate].
  destruct (coalesce_accounts nil w m (coalesce_fuel m) bi im 0 l bi1 im1 k1 l1
              ltac:(lia) Hmlen Hc) as (Hk1 & Hs1 & Hacc).
  assert (Hlen1 : (Z.to_nat k1 < length (bins bi1 w))%nat).
  { destruct Hs1 as (_ & _ & Hl & _). lia. }
  pose proof (link_free_page_bins bi1 im1 nil w k1 l1 ltac:(lia) Hlen1) as Hl.
  destruct (link_free_page bi1 im1 nil w k1 l1) as [bi2 im2]. cbn [fst] in Hl.
  inversion Hfree; subst bi' im' bi2.
  rewrite accounted_set_bin by lia. cbn [count]. rewrite fixnum_1 in *.
  destruct (wrapped_step (count (bin_at bi1 w k1)) 2 (2 ^ k1)) as [t Ht].
  rewrite Ht. change (2 ^ 0) with 1 in Hacc. rewrite Z.mul_1_r in Hacc.
  rewrite <- Hacc.
  replace (accounted bi1 w + (2 * 2 ^ k1 + t * 2 ^ 64))
    with (accounted bi1 w + 2 * 2 ^ k1 + t * 2 ^ 64) by lia.
  apply Z.mod_add. lia.
Qed.

Lemma buddy_free_page_accounts_one_page_witness :
  exists bi' im',
    buddy_free_page (init_buddy_bins zero_boot_info 0) ∅ 0 0x200000 = Some (bi', im') /\
    accounted bi' (fst (select_bins 0x200000)) mod 2 ^ 64 =
    (accounted (init_buddy_bins zero_boot_info 0) (fst (select_bins 0x200000)) + fixnum 1)
      mod 2 ^ 64.
Proof.
  destruct (buddy_free_page (init_buddy_bins zero_boot_info 0) ∅ 0 0x200000)
    as [[bi' im']|] eqn:E; [|vm_compute in E; discriminate].
  exists bi', im'. split; [reflexivity|].
  apply (buddy_free_page_accounts_one_page (init_buddy_bins zero_boot_info 0) ∅ 0 0x200000
           bi' im'); [split; reflexivity | exact E].
Defined.

(** ** Releasing the ranges of the final memory map *)

Section ReleaseRanges.

Lemma release_pages_kept nil range todo : forall bi im i,
  (is_free (range_type range) = false \/
   (0 <= range_start range + i /\
    range_start range + i + (Z.of_nat todo - 1) * PAGE_SIZE <= 1024 * 1024)) ->
  is_pagetables (range_type range) = false ->
  release_pages todo bi im nil range i = Some (bi, im).
Proof.
  induction todo as [|todo IH]; intros bi im i Hfree Hpt; [reflexivity|].
  cbn [release_pages]. rewrite Hpt.
  assert (Hskip : is_free (range_type range)
                  && (wrap64 (range_start range + i) >? 1024 * 1024) = false).
  { destruct Hfree as [Hf|[H0 H1]]; [rewrite Hf; reflexivity|].
    apply andb_false_iff. right. unfold PAGE_SIZE in H1.
    rewrite wrap64_small by (unfold is_uint64; lia).
    destruct (Z.gtb_spec (range_start range + i) (1024 * 1024)); [lia | reflexivity]. }
  rewrite Hskip. apply IH; [|exact Hpt].
  destruct Hfree as [Hf|[H0 H1]]; [left; exact Hf|]. right. unfold PAGE_SIZE in *. lia.
Qed.

Lemma release_pages_tables nil range todo : forall bi im i,
  range_type range = MEMORY_TYPE_PAGETABLES ->
  0 <= range_start range + i ->
  range_start range + i + Z.of_nat todo * PAGE_SIZE <= 2 ^ 64 ->
  exists im',
    release_pages todo bi im nil range i = Some (bi, im') /\
    (forall j, 0 <= j < Z.of_nat todo ->
       page_info_type im' (range_start range + i + j * PAGE_SIZE) = page_type_page_table) /\
    (forall q, page_info_bin im' q = page_info_bin im q /\
               page_info_next im' q = page_info_next im q /\
               page_info_prev im' q = page_info_prev im q) /\
    (forall q, (forall j, 0 <= j < Z.of_nat todo ->
                  (range_start range + i + j * PAGE_SIZE) / PAGE_SIZE <> q / PAGE_SIZE) ->
               page_info_type im' q = page_info_type im q).
Proof.
  induction todo as [|todo IH]; intros bi im i Ht H0 Hend.
  - exists im. split; [reflexivity|]. split; [intros j Hj; lia|].
    split; [intros q; repeat split | intros q _; reflexivity].
  - cbn [release_pages]. rewrite Ht. cbn [is_free is_pagetables andb].
    unfold PAGE_SIZE in Hend.
    rewrite wrap64_small by (unfold is_uint64; lia).
    destruct (IH bi (set_page_info_type im (range_start range + i) page_type_page_table)
                 (i + PAGE_SIZE) Ht ltac:(unfold PAGE_SIZE; lia)
                 ltac:(unfold PAGE_SIZE; lia))
      as (im' & Hrel & Htype & Hrest & Hother).
    assert (Hframes : forall j, 0 <= j ->
              (range_start range + (i + PAGE_SIZE) + j * PAGE_SIZE) / PAGE_SIZE
              <> (range_start range + i) / PAGE_SIZE).
    { intros j Hj. unfold PAGE_SIZE. Z.div_mod_to_equations. lia. }
    exists im'. split; [exact Hrel|]. split; [|split].
    + intros j Hj. destruct (Z.eq_dec j 0) as [->|Hne].
      * rewrite Z.mul_0_l, Z.add_0_r.
        rewrite Hother by (intros t Ht0; apply Hframes; lia).
        rewrite type_set_type by (unfold page_type_page_table; lia).
        destruct (decide _); congruence.
      * replace (range_start range + i + j * PAGE_SIZE)
          with (range_start range + (i + PAGE_SIZE) + (j - 1) * PAGE_SIZE) by lia.
        apply Htype. lia.
    + intros q. destruct (Hrest q) as (Hb & Hn & Hp).
      rewrite Hb, Hn, Hp.
      rewrite bin_set_type by (unfold page_type_page_table; lia).
      rewrite next_set_type, prev_set_type. repeat split.
    + intros q Hq. rewrite Hother.
      * rewrite type_set_type by (unfold page_type_page_table; lia).
        destruct (decide _) as [E|_]; [|reflexivity].
        exfalso. apply (Hq 0 ltac:(lia)). rewrite Z.mul_0_l, Z.add_0_r. exact E.
      * intros j Hj.
        replace (range_start range + (i + PAGE_SIZE) + j * PAGE_SIZE)
          with (range_start range + i + (j + 1) * PAGE_SIZE) by lia.
        apply Hq. lia.
Qed.

End ReleaseRanges.

(** X11: the loop of [mezzano_loader_load] over the final memory map frees
    nothing from a range of allocated or internal memory, and nothing from a
    free range that ends at or below the first byte after 1 MiB: the boot
    information and the page-info array are as before. The page at exactly
    1 MiB is among those that are not freed. *)
Theorem release_range_keeps_low_memory (bi : mezzano_boot_information) (im : info_array)
    (nil : Z) (range : memory_range) :
  range_type range = MEMORY_TYPE_ALLOCATED \/ range_type range = MEMORY_TYPE_INTERNAL \/
  (range_type range = MEMORY_TYPE_FREE /\ 0 <= range_start range /\
   0 <= range_size range /\ range_start range + range_size range <= 1024 * 1024 + 1) ->
  release_range bi im nil range = Some (bi, im).
Proof.
  intros H. unfold release_range. apply release_pages_kept.
  - destruct H as [H|[H|(H & H0 & Hs & He)]]; [left; rewrite H; reflexivity
                                               | left; rewrite H; reflexivity |].
    right. split; [lia|]. unfold range_pages, PAGE_SIZE.
    destruct (Z.eq_dec (range_size range) 0) as [E|E].
    + rewrite E. change (Z.to_nat ((0 + 4096 - 1) / 4096)) with 0%nat. lia.
    + rewrite Z2Nat.id by (apply Z.div_pos; lia). Z.div_mod_to_equations. lia.
  - destruct H as [H|[H|(H & _)]]; rewrite H; reflexivity.
Qed.

Lemma release_range_keeps_low_memory_witness :
  release_range (init_buddy_bins zero_boot_info 0) ∅ 0
                (MemoryRange 0xff000 0x1001 MEMORY_TYPE_FREE)
  = Some (init_buddy_bins zero_boot_info 0, ∅).
Proof.
  apply release_range_keeps_low_memory. right; right.
  cbn [range_type range_start range_size]. split; [reflexivity | lia].
Defined.

(** X12: for a range of page-table memory that does not wrap, the loop of
    [mezzano_loader_load] gives every page of the range the type
    [page_type_page_table]; the boot information, the bin and the links of
    every page, and the type of every page outside the range, are as
    before. *)
Theorem release_range_marks_page_tables (bi : mezzano_boot_information) (im : info_array)
    (nil : Z) (range : memory_range) :
  range_type range = MEMORY_TYPE_PAGETABLES ->
  0 <= range_start range ->
  range_start range + Z.of_nat (range_pages range) * PAGE_SIZE <= 2 ^ 64 ->
  exists im',
    release_range bi im nil range = Some (bi, im') /\
    (forall j, 0 <= j < Z.of_nat (range_pages range) ->
       page_info_type im' (range_start range + j * PAGE_SIZE) = page_type_page_table) /\
    (forall q, page_info_bin im' q = page_info_bin im q /\
               page_info_next im' q = page_info_next im q /\
               page_info_prev im' q = page_info_prev im q) /\
    (forall q, (forall j, 0 <= j < Z.of_nat (range_pages range) ->
                  (range_start range + j * PAGE_SIZE) / PAGE_SIZE <> q / PAGE_SIZE) ->
               page_info_type im' q = page_info_type im q).
Proof.
  intros Ht H0 Hend. unfold release_range.
  destruct (release_pages_tables nil range (range_pages range) bi im 0 Ht
              ltac:(lia) ltac:(lia)) as (im' & Hrel & Htype & Hrest & Hother).
  exists im'. split; [exact Hrel|]. split; [|split; [exact Hrest|]].
  - intros j Hj. specialize (Htype j Hj). rewrite Z.add_0_r in Htype. exact Htype.
  - intros q Hq. apply Hother. intros j Hj. rewrite Z.add_0_r. apply Hq, Hj.
Qed.

Lemma release_range_marks_page_tables_witness :
  exists im',
    release_range zero_boot_info ∅ 0 (MemoryRange 0x7000 0x1800 MEMORY_TYPE_PAGETABLES)
      = Some (zero_boot_info, im') /\
    page_info_type im' 0x8000 = page_type_page_table.
Proof.
  destruct (release_range_marks_page_tables zero_boot_info ∅ 0
              (MemoryRange 0x7000 0x1800 MEMORY_TYPE_PAGETABLES)
              eq_refl ltac:(cbn; lia) ltac:(vm_compute; discriminate))
    as (im' & Hrel & Htype & _).
  exists im'. split; [exact Hrel|].
  apply (Htype 1). vm_compute. split; [discriminate | reflexivity].
Defined.

(** ** Loading the pages of a level-1 table *)

Section LoadPages.

(** An entry that [load_page] loads. *)
Definition loadable (info : Z) : bool :=
  negb ((Z.land info BLOCK_MAP_PRESENT =? 0) || has_flag info BLOCK_MAP_TRANSIENT).

(** The chunk a page is taken from: the chunk at hand, or a new one when
    nothing remains of it. *)
Definition chunk_in_use (st : load_state) (chunk : page_chunk) : page_chunk :=
  if remaining chunk =? 0 then
    let chunk_size :=
      Z.min PAGE_CHUNK_SIZE (wrap64 (wrap64 (page_count st - n_pages_loaded st) * PAGE_SIZE)) in
    PageChunk (next_alloc st) (next_alloc st) chunk_size
  else chunk.

Lemma load_page_skips img st info virtual chunk :
  loadable info = false -> load_page img st info virtual chunk = Some (st, chunk).
Proof.
  unfold loadable, load_page. intros H. apply negb_false_iff in H. rewrite H. reflexivity.
Qed.

Lemma load_page_loads img st info virtual chunk st' chunk' :
  loadable info = true ->
  load_page img st info virtual chunk = Some (st', chunk') ->
  freestanding st' = freestanding st /\ page_count st' = page_count st /\
  n_pages_loaded st' = wrap64 (n_pages_loaded st + 1) /\
  kernel_maps st' =
    kernel_maps st ++
    [Mapping virtual (phys_addr (chunk_in_use st chunk)) PAGE_SIZE
       (has_flag info BLOCK_MAP_WRITABLE && negb (has_flag info BLOCK_MAP_TRACK_DIRTY))] /\
  loader_pages st' !! bootloader_virt (chunk_in_use st chunk) =
    (if has_flag info BLOCK_MAP_ZERO_FILL then Some (replicate 512 0)
     else img (wrap64 (Z.shiftr info BLOCK_MAP_ID_SHIFT * 4096))) /\
  phys_addr chunk' = wrap64 (phys_addr (chunk_in_use st chunk) + PAGE_SIZE).
Proof.
  unfold loadable, load_page, chunk_in_use, memory_alloc. intros H.
  apply negb_true_iff in H. rewrite H.
  destruct (remaining chunk =? 0); cbv zeta; cbn [phys_addr bootloader_virt remaining];
    destruct (has_flag info BLOCK_MAP_ZERO_FILL);
    try (destruct (img _) eqn:Hread; [|discriminate]);
    intros E; inversion E; subst; cbn [freestanding page_count n_pages_loaded kernel_maps
                                      loader_pages phys_addr];
    rewrite lookup_insert_eq; repeat split; reflexivity.
Qed.

End LoadPages.

(** X13: the loop over a level-1 table only appends mappings, one of
    [PAGE_SIZE] bytes for each page it counts in [n_pages_loaded], each at the
    virtual address of an entry of the table; [page_count] and the
    freestanding flag are left alone. *)
Theorem load_level1_counts_mappings (img : image) (bml1 : list Z) :
  forall (st : load_state) (chunk : page_chunk) (address : Z)
         (st' : load_state) (chunk' : page_chunk),
  0 <= n_pages_loaded st < 2 ^ 64 ->
  load_level1 img st chunk bml1 address = Some (st', chunk') ->
  freestanding st' = freestanding st /\ page_count st' = page_count st /\
  exists new,
    kernel_maps st' = kernel_maps st ++ new /\
    n_pages_loaded st' = wrap64 (n_pages_loaded st + Z.of_nat (length new)) /\
    Forall (fun mp => map_size mp = PAGE_SIZE /\
                      exists j, 0 <= j < Z.of_nat (length bml1) /\
                                map_virt mp = address + 4096 * j) new.
Proof.
  induction bml1 as [|entry rest IH]; intros st chunk address st' chunk' Hn Hload.
  - cbn in Hload. inversion Hload; subst. split; [reflexivity|]. split; [reflexivity|].
    exists []. rewrite app_nil_r, Z.add_0_r. split; [reflexivity|].
    split; [symmetry; apply wrap64_small; exact Hn | constructor].
  - cbn [load_level1] in Hload.
    assert (Hshift : forall new,
              Forall (fun mp => map_size mp = PAGE_SIZE /\
                        exists j, 0 <= j < Z.of_nat (length rest) /\
                                  map_virt mp = address + 4096 + 4096 * j) new ->
              Forall (fun mp => map_size mp = PAGE_SIZE /\
                        exists j, 0 <= j < Z.of_nat (length (entry :: rest)) /\
                                  map_virt mp = address + 4096 * j) new).
    { intros new Hall. eapply Forall_impl; [exact Hall|].
      intros mp (Hs & j & Hj & Hv). split; [exact Hs|].
      exists (j + 1). cbn [length]. split; lia. }
    destruct (skipped st entry).
    { destruct (IH st chunk (address + 4096) st' chunk' Hn Hload) as (Hf & Hc & new & Hk & Hl & Hall).
      split; [exact Hf|]. split; [exact Hc|]. exists new. repeat split; try assumption.
      apply Hshift, Hall. }
    destruct (load_page img st entry address chunk) as [[st1 chunk1]|] eqn:Hpage;
      [|discriminate].
    destruct (loadable entry) eqn:Hl.
    + destruct (load_page_loads img st entry address chunk st1 chunk1 Hl Hpage)
        as (Hf1 & Hc1 & Hn1 & Hk1 & _).
      assert (Hr1 : 0 <= n_pages_loaded st1 < 2 ^ 64).
      { rewrite Hn1. apply wrap64_range. }
      destruct (IH st1 chunk1 (address + 4096) st' chunk' Hr1 Hload)
        as (Hf & Hc & new & Hk & Hln & Hall).
      split; [congruence|]. split; [congruence|].
      exists (Mapping address (phys_addr (chunk_in_use st chunk)) PAGE_SIZE
                (has_flag entry BLOCK_MAP_WRITABLE
                 && negb (has_flag entry BLOCK_MAP_TRACK_DIRTY)) :: new).
      split; [rewrite Hk, Hk1, <- app_assoc; reflexivity|]. split.
      * rewrite Hln, Hn1. cbn [length]. unfold wrap64.
        rewrite Zplus_mod_idemp_l. f_equal. lia.
      * constructor; [|apply Hshift, Hall]. cbn [map_size map_virt].
        split; [reflexivity|]. exists 0. cbn [length]. split; lia.
    + rewrite (load_page_skips img st entry address chunk Hl) in Hpage.
      inversion Hpage; subst st1 chunk1.
      destruct (IH st chunk (address + 4096) st' chunk' Hn Hload)
        as (Hf & Hc & new & Hk & Hln & Hall).
      split; [exact Hf|]. split; [exact Hc|]. exists new. repeat split; try assumption.
      apply Hshift, Hall.
Qed.

Lemma load_level1_counts_mappings_witness :
  exists st' chunk' new,
    load_level1 example_image (LoadState true 2 0 ∅ [] 0x200000 ∅) (PageChunk 0 0 0)
                [Z.lor (Z.shiftl 42 8) BLOCK_MAP_PRESENT; 0;
                 Z.lor BLOCK_MAP_ZERO_FILL BLOCK_MAP_PRESENT] 0x10000000000
      = Some (st', chunk') /\
    kernel_maps st' = [] ++ new /\
    n_pages_loaded st' = wrap64 (0 + Z.of_nat (length new)).
Proof.
  destruct (load_level1 example_image (LoadState true 2 0 ∅ [] 0x200000 ∅) (PageChunk 0 0 0)
              [Z.lor (Z.shiftl 42 8) BLOCK_MAP_PRESENT; 0;
               Z.lor BLOCK_MAP_ZERO_FILL BLOCK_MAP_PRESENT] 0x10000000000)
    as [[st' chunk']|] eqn:E; [|vm_compute in E; discriminate].
  destruct (load_level1_counts_mappings example_image
              [Z.lor (Z.shiftl 42 8) BLOCK_MAP_PRESENT; 0;
               Z.lor BLOCK_MAP_ZERO_FILL BLOCK_MAP_PRESENT]
              (LoadState true 2 0 ∅ [] 0x200000 ∅) (PageChunk 0 0 0) 0x10000000000
              st' chunk' ltac:(cbn; lia) E) as (_ & _ & new & Hk & Hn & _).
  exists st', chunk', new. split; [reflexivity|]. split; [exact Hk | exact Hn].
Defined.

(** X14: a page marked ZERO_FILL is never read from the image: whatever the
    image returns, even a failed read, [load_page] succeeds with the same
    state, and the page it maps holds 4096 zero bytes. A page without the
    mark holds what the image returns at [block id * 4096], and a failed read
    is a boot error. *)
Theorem load_page_contents (img : image) (st : load_state) (info virtual : Z)
    (chunk : page_chunk) :
  loadable info = true ->
  (has_flag info BLOCK_MAP_ZERO_FILL = true ->
   exists st' chunk',
     (forall img', load_page img' st info virtual chunk = Some (st', chunk')) /\
     loader_pages st' !! bootloader_virt (chunk_in_use st chunk) = Some (replicate 512 0)) /\
  (has_flag info BLOCK_MAP_ZERO_FILL = false ->
   match img (wrap64 (Z.shiftr info BLOCK_MAP_ID_SHIFT * 4096)) with
   | None => load_page img st info virtual chunk = None
   | Some block =>
       exists st' chunk',
         load_page img st info virtual chunk = Some (st', chunk') /\
         loader_pages st' !! bootloader_virt (chunk_in_use st chunk) = Some block
   end).
Proof.
  intros Hl. split; intros Hz.
  - assert (Hany : forall img', exists r, load_page img' st info virtual chunk = Some r /\
                     r = match load_page img st info virtual chunk with
                         | Some r0 => r0 | None => (st, chunk) end).
    { intros img'. unfold load_page. unfold loadable in Hl. apply negb_true_iff in Hl.
      rewrite Hl, Hz. destruct (remaining chunk =? 0); cbv zeta; unfold memory_alloc;
        eexists; split; reflexivity. }
    destruct (Hany img) as ([st' chunk'] & Hsome & _).
    exists st', chunk'. split.
    + intros img'. destruct (Hany img') as (r & Hr & Er). rewrite Hr, Er, Hsome. reflexivity.
    + destruct (load_page_loads img st info virtual chunk st' chunk' Hl Hsome)
        as (_ & _ & _ & _ & Hpg & _). rewrite Hz in Hpg. exact Hpg.
  - destruct (img (wrap64 (Z.shiftr info BLOCK_MAP_ID_SHIFT * 4096))) as [block|] eqn:Hread.
    + assert (Hsome : exists r, load_page img st info virtual chunk = Some r).
      { unfold load_page. unfold loadable in Hl. apply negb_true_iff in Hl.
        rewrite Hl, Hz, Hread. destruct (remaining chunk =? 0); cbv zeta;
          unfold memory_alloc; eexists; reflexivity. }
      destruct Hsome as ([st' chunk'] & Hsome). exists st', chunk'. split; [exact Hsome|].
      destruct (load_page_loads img st info virtual chunk st' chunk' Hl Hsome)
        as (_ & _ & _ & _ & Hpg & _). rewrite Hz, Hread in Hpg. exact Hpg.
    + unfold load_page. unfold loadable in Hl. apply negb_true_iff in Hl.
      rewrite Hl, Hz, Hread. destruct (remaining chunk =? 0); reflexivity.
Qed.

Lemma load_page_contents_witness :
  exists st' chunk',
    (forall img', load_page img' (LoadState true 1 0 ∅ [] 0x200000 ∅)
                    (Z.lor BLOCK_MAP_ZERO_FILL BLOCK_MAP_PRESENT) 0x10000000000
                    (PageChunk 0 0 0) = Some (st', chunk')) /\
    loader_pages st' !! bootloader_virt (chunk_in_use (LoadState true 1 0 ∅ [] 0x200000 ∅)
                                                      (PageChunk 0 0 0))
    = Some (replicate 512 0).
Proof.
  apply (proj1 (load_page_contents example_image (LoadState true 1 0 ∅ [] 0x200000 ∅)
                  (Z.lor BLOCK_MAP_ZERO_FILL BLOCK_MAP_PRESENT) 0x10000000000
                  (PageChunk 0 0 0) eq_refl)).
  reflexivity.
Defined.

(** ** The arguments of the [mezzano] command *)

Section CommandArguments.

Import Command.

(** The option strings the command knows. *)
Definition known_options : list string :=
  ["read-only"; "freestanding"; "video-console"; "no-detect"; "no-smp";
   "i-promise-i-have-enough-memory"; "verbose"]%string.

Definition known_option (v : value) : Prop :=
  exists s, v = VALUE_STRING s /\ In s known_options.

(** The sum of the sizes the memory snapshot lists, as the command adds them
    up in a [phys_size_t]. *)
Definition total_memory (env : environment) : Z :=
  fold_left (fun acc size => wrap64 (acc + size)) (memory_snapshot env) 0.

(** The argument is the option string [t]. *)
Definition is_option (t : string) (v : value) : bool :=
  match v with
  | VALUE_STRING s => String.eqb s t
  | VALUE_OTHER => false
  end.

Lemma is_option_In t opts :
  existsb (is_option t) opts = true <-> In (VALUE_STRING t) opts.
Proof.
  rewrite existsb_exists. split.
  - intros (v & Hin & Hv). destruct v as [s|]; [|discriminate].
    cbn in Hv. apply String.eqb_eq in Hv. subst s. exact Hin.
  - intros Hin. exists (VALUE_STRING t). split; [exact Hin|]. cbn. apply String.eqb_refl.
Qed.

(** What a run of the option loop that ends without an error has seen. *)
Lemma parse_options_spec opts : forall data skip data' skip',
  parse_options opts data skip = inr (data', skip') ->
  Forall known_option opts /\
  header data' = header data /\ disk data' = disk data /\
  image_file data' = image_file data /\ loader_device_name data' = loader_device_name data /\
  force_ro data' = force_ro data || existsb (is_option "read-only") opts /\
  is_freestanding data' = is_freestanding data || existsb (is_option "freestanding") opts /\
  video_console data' = video_console data || existsb (is_option "video-console") opts /\
  no_detect data' = no_detect data || existsb (is_option "no-detect") opts /\
  no_smp data' = no_smp data || existsb (is_option "no-smp") opts /\
  verbose data' = verbose data || existsb (is_option "verbose") opts /\
  skip' = skip || existsb (is_option "i-promise-i-have-enough-memory") opts.
Proof.
  induction opts as [|v rest IH]; intros data skip data' skip' H.
  - cbn in H. inversion H; subst. split; [constructor|].
    cbn [existsb]. rewrite !orb_false_r. repeat split.
  - destruct v as [s|]; [|discriminate]. cbn [parse_options] in H.
    repeat match type of H with
    | (if String.eqb s ?t then _ else _) = _ =>
        destruct (String.eqb_spec s t) as [?E|?E]
    end; try discriminate;
      apply IH in H;
      destruct H as (Hall & Hh & Hd & Hf & Hn & Hro & Hfs & Hvc & Hnd & Hns & Hvb & Hsk);
      cbn [header disk image_file loader_device_name force_ro is_freestanding video_console
           no_detect no_smp verbose] in *;
      subst s;
      (split; [constructor; [eexists; split; [reflexivity | cbn; tauto] | exact Hall]|]);
      rewrite Hro, Hfs, Hvc, Hnd, Hns, Hvb, Hsk;
      repeat split; try assumption;
      cbn [existsb is_option];
      match goal with
      | |- context [?b || (_ || _)] => destruct b; reflexivity
      | |- _ => reflexivity
      end.
Qed.

End CommandArguments.

(** X15: the [mezzano] command returns true only for an argument list that
    begins with a string, the path, followed by known option strings only;
    the header it read has the magic and the protocol version 0.26; the
    image is a device or an open file; and unless the option
    [i-promise-i-have-enough-memory] is among the arguments, the ranges of
    the memory snapshot sum to at least 500 MiB. *)
Theorem command_accepts_only (env : Command.environment) (args : list Command.value)
    (data : Command.mezzano_loader) :
  Command.config_cmd_mezzano env args = inr data ->
  exists path opts,
    args = Command.VALUE_STRING path :: opts /\
    Forall known_option opts /\
    Command.loader_device_name data = path /\
    Command.magic (Command.header data) = Command.mezzano_magic /\
    Command.protocol_major (Command.header data) = 0 /\
    Command.protocol_minor (Command.header data) = 26 /\
    (Command.disk data <> None \/ Command.image_file data <> None) /\
    (In (Command.VALUE_STRING "i-promise-i-have-enough-memory") opts \/
     500 * 1024 * 1024 <= total_memory env).
Proof.
  unfold Command.config_cmd_mezzano, Command.read_image_header. intros H.
  destruct args as [|[path|] opts]; try discriminate.
  destruct (Command.mezzano_locate_image env path) as [e|[dev file]]; [discriminate|].
  destruct (Command.parse_options opts _ false) as [e|[d skip]] eqn:Hparse; [discriminate|].
  apply parse_options_spec in Hparse.
  destruct Hparse as (Hall & _ & Hd & Hf & Hn & _ & _ & _ & _ & _ & _ & Hsk).
  cbn [Command.disk Command.image_file Command.loader_device_name] in Hd, Hf, Hn.
  fold (total_memory env) in H.
  destruct (negb skip && (total_memory env <? 500 * 1024 * 1024)) eqn:Hmem; [discriminate|].
  destruct (match Command.disk d with
            | Some d0 => Command.device_header d0
            | None => match Command.image_file d with
                      | Some f => Command.file_header f
                      | None => None
                      end
            end) as [h|] eqn:Hread; [|discriminate].
  cbn [Command.header] in H.
  destruct (Command.check_header h) as [e|] eqn:Hcheck; [discriminate|].
  inversion H; subst data. clear H.
  cbn [Command.header Command.disk Command.image_file Command.loader_device_name].
  exists path, opts. split; [reflexivity|]. split; [exact Hall|]. split; [exact Hn|].
  unfold Command.check_header in Hcheck.
  destruct (bool_decide (Command.magic h = Command.mezzano_magic)) eqn:Hmagic;
    [|discriminate]. cbn [negb] in Hcheck.
  apply bool_decide_eq_true in Hmagic.
  change Command.mezzano_protocol_major with 0 in Hcheck.
  change Command.mezzano_protocol_minor with 26 in Hcheck.
  destruct (Z.eqb_spec (Command.protocol_major h) 0) as [Hmaj|]; [|discriminate].
  cbn [negb andb orb] in Hcheck.
  destruct (Z.eqb_spec (Command.protocol_minor h) 26) as [Hmin|]; [|discriminate].
  split; [exact Hmagic|]. split; [exact Hmaj|]. split; [exact Hmin|]. split.
  - destruct (Command.disk d); [left; discriminate|].
    destruct (Command.image_file d); [right; discriminate | discriminate].
  - simpl in Hsk. destruct skip.
    + left. apply is_option_In. symmetry. exact Hsk.
    + right. cbn [negb andb] in Hmem. apply Z.ltb_ge in Hmem. exact Hmem.
Qed.

Lemma command_accepts_only_witness :
  exists data path opts,
    Command.config_cmd_mezzano (example_environment 0 26)
      [Command.VALUE_STRING "hd0"; Command.VALUE_STRING "verbose"] = inr data /\
    [Command.VALUE_STRING "hd0"; Command.VALUE_STRING "verbose"]
      = Command.VALUE_STRING path :: opts /\
    Forall known_option opts /\
    Command.protocol_minor (Command.header data) = 26.
Proof.
  destruct (Command.config_cmd_mezzano (example_environment 0 26)
              [Command.VALUE_STRING "hd0"; Command.VALUE_STRING "verbose"])
    as [e|data] eqn:E; [vm_compute in E; discriminate|].
  destruct (command_accepts_only (example_environment 0 26)
              [Command.VALUE_STRING "hd0"; Command.VALUE_STRING "verbose"] data E)
    as (path & opts & Hargs & Hall & _ & _ & _ & Hminor & _).
  exists data, path, opts. split; [reflexivity|]. split; [exact Hargs|].
  split; [exact Hall | exact Hminor].
Defined.

(** The flags of the loader data the command hands over, by the options. *)
Lemma command_flags (env : Command.environment) (path : string)
    (opts : list Command.value) (data : Command.mezzano_loader) :
  Command.config_cmd_mezzano env (Command.VALUE_STRING path :: opts) = inr data ->
  (Command.force_ro data = true <-> In (Command.VALUE_STRING "read-only") opts) /\
  (Command.is_freestanding data = true <-> In (Command.VALUE_STRING "freestanding") opts) /\
  (Command.video_console data = true <-> In (Command.VALUE_STRING "video-console") opts) /\
  (Command.no_detect data = true <-> In (Command.VALUE_STRING "no-detect") opts) /\
  (Command.no_smp data = true <-> In (Command.VALUE_STRING "no-smp") opts) /\
  (Command.verbose data = true <-> In (Command.VALUE_STRING "verbose") opts).
Proof.
  unfold Command.config_cmd_mezzano, Command.read_image_header. intros H.
  destruct (Command.mezzano_locate_image env path) as [e|[dev file]]; [discriminate|].
  destruct (Command.parse_options opts _ false) as [e|[d skip]] eqn:Hparse; [discriminate|].
  apply parse_options_spec in Hparse.
  destruct Hparse as (_ & _ & _ & _ & _ & Hro & Hfs & Hvc & Hnd & Hns & Hvb & _).
  cbn [Command.force_ro Command.is_freestanding Command.video_console Command.no_detect
       Command.no_smp Command.verbose orb] in Hro, Hfs, Hvc, Hnd, Hns, Hvb.
  destruct (negb skip && _); [discriminate|].
  destruct (match Command.disk d with
            | Some d0 => Command.device_header d0
            | None => match Command.image_file d with
                      | Some f => Command.file_header f
                      | None => None
                      end
            end) as [h|]; [|discriminate].
  cbn [Command.header] in H.
  destruct (Command.check_header h); [discriminate|].
  inversion H; subst data. clear H.
  cbn [Command.force_ro Command.is_freestanding Command.video_console Command.no_detect
       Command.no_smp Command.verbose].
  rewrite Hro, Hfs, Hvc, Hnd, Hns, Hvb.
  repeat split; apply is_option_In.
Qed.

(** X16: when the command returns true, each flag of the loader data is set
    exactly when its option string is among the arguments after the path, in
    any position and however often. *)
Theorem command_flags_follow_options (env : Command.environment) (path : string)
    (opts : list Command.value) (data : Command.mezzano_loader) :
  Command.config_cmd_mezzano env (Command.VALUE_STRING path :: opts) = inr data ->
  (Command.force_ro data = true <-> In (Command.VALUE_STRING "read-only") opts) /\
  (Command.is_freestanding data = true <-> In (Command.VALUE_STRING "freestanding") opts) /\
  (Command.video_console data = true <-> In (Command.VALUE_STRING "video-console") opts) /\
  (Command.no_detect data = true <-> In (Command.VALUE_STRING "no-detect") opts) /\
  (Command.no_smp data = true <-> In (Command.VALUE_STRING "no-smp") opts) /\
  (Command.verbose data = true <-> In (Command.VALUE_STRING "verbose") opts).
Proof. apply command_flags. Qed.

Lemma command_flags_follow_options_witness :
  exists data,
    Command.config_cmd_mezzano (example_environment 0 26)
      [Command.VALUE_STRING "hd0"; Command.VALUE_STRING "no-smp";
       Command.VALUE_STRING "read-only"; Command.VALUE_STRING "no-smp"] = inr data /\
    Command.force_ro data = true /\ Command.no_smp data = true.
Proof.
  destruct (Command.config_cmd_mezzano (example_environment 0 26)
              [Command.VALUE_STRING "hd0"; Command.VALUE_STRING "no-smp";
               Command.VALUE_STRING "read-only"; Command.VALUE_STRING "no-smp"])
    as [e|data] eqn:E; [vm_compute in E; discriminate|].
  exists data. split; [reflexivity|].
  destruct (command_flags_follow_options (example_environment 0 26) "hd0"
              [Command.VALUE_STRING "no-smp"; Command.VALUE_STRING "read-only";
               Command.VALUE_STRING "no-smp"] data E) as (Hro & _ & _ & _ & Hns & _).
  split; [apply Hro | apply Hns]; cbn; tauto.
Defined.

(** ** Locating the image by UUID *)

Section LocateImage.

Import Command.

(** The device can be read, holds an image, and its UUID prints as [u] up
    to case. *)
Definition uuid_matches (env : environment) (u : string) (d : device) : Prop :=
  exists h, device_header d = Some h /\ magic h = mezzano_magic /\
            strcasecmp_eq env (uuid_string env h) u = true.

Lemma find_uuid_spec env u devs d :
  find_uuid env u devs = Some d ->
  exists before after,
    devs = before ++ d :: after /\ uuid_matches env u d /\
    Forall (fun x => ~ uuid_matches env u x) before.
Proof.
  induction devs as [|x devs IH]; [discriminate|]. cbn [find_uuid]. intros H.
  assert (Hnext : find_uuid env u devs = Some d -> ~ uuid_matches env u x ->
            exists before after,
              x :: devs = before ++ d :: after /\ uuid_matches env u d /\
              Forall (fun x => ~ uuid_matches env u x) before).
  { intros Hf Hx. destruct (IH Hf) as (before & after & -> & Hd & Hall).
    exists (x :: before), after. split; [reflexivity|]. split; [exact Hd|].
    constructor; assumption. }
  destruct (device_header x) as [h|] eqn:Hh.
  - destruct (bool_decide (magic h = mezzano_magic)) eqn:Hm; cbn [negb] in H.
    + apply bool_decide_eq_true in Hm.
      destruct (strcasecmp_eq env (uuid_string env h) u) eqn:Hu.
      * inversion H; subst x. exists [], devs. split; [reflexivity|].
        split; [exists h; auto | constructor].
      * apply Hnext; [exact H|]. intros (h' & Hh' & _ & Hu'). congruence.
    + apply bool_decide_eq_false in Hm.
      apply Hnext; [exact H|]. intros (h' & Hh' & Hm' & _). congruence.
  - apply Hnext; [exact H|]. intros (h' & Hh' & _). congruence.
Qed.

Lemma substring_all s : String.substring 0 (String.length s) s = s.
Proof. induction s as [|c s IH]; [reflexivity|]. cbn. rewrite IH. reflexivity. Qed.

Lemma prefix_append s u : String.prefix s (String.append s u) = true.
Proof.
  induction s as [|c s IH].
  - destruct u; reflexivity.
  - change (String.append (String c s) u) with (String c (String.append s u)).
    cbn [String.prefix]. destruct (Ascii.ascii_dec c c); [exact IH | contradiction].
Qed.

Lemma substring_append s u :
  String.substring (String.length s) (String.length (String.append s u) - String.length s)
                   (String.append s u) = u.
Proof.
  induction s as [|c s IH].
  - change (String.append "" u) with u. cbn [String.length].
    rewrite Nat.sub_0_r. apply substring_all.
  - change (String.append (String c s) u) with (String c (String.append s u)).
    cbn [String.length String.substring Nat.sub]. exact IH.
Qed.

Lemma uuid_path u :
  String.prefix "uuid:" (String.append "uuid:" u) = true /\
  String.substring 5 (String.length (String.append "uuid:" u) - 5) (String.append "uuid:" u)
  = u.
Proof. split; [apply prefix_append | apply (substring_append "uuid:" u)]. Qed.

End LocateImage.

(** X17: for a path ["uuid:"] followed by [u], the first device of the
    device list that can be read, holds the image magic and whose UUID is
    [u] up to case, is the image; devices before it that fail to read or do
    not match are passed over. The device is taken whatever its type, and
    neither the device lookup nor the file system is consulted. *)
Theorem locate_image_by_uuid (env : Command.environment) (u : string)
    (d : Command.device) :
  Command.find_uuid env u (Command.device_list env) = Some d ->
  Command.mezzano_locate_image env (String.append "uuid:" u) = inr (Some d, None) /\
  exists before after,
    Command.device_list env = before ++ d :: after /\ uuid_matches env u d /\
    Forall (fun x => ~ uuid_matches env u x) before.
Proof.
  intros H. split; [|apply find_uuid_spec; exact H].
  unfold Command.mezzano_locate_image.
  destruct (uuid_path u) as [Hp Hs]. rewrite Hp, Hs, H. reflexivity.
Qed.

Lemma locate_image_by_uuid_witness :
  Command.mezzano_locate_image
    (Command.Environment
       [Command.Device "cd0" false None;
        Command.Device "usb0" false (Some (example_header 0 26))]
       (fun _ => None) (fun _ => None) (fun _ => "abcd"%string) String.eqb [])
    (String.append "uuid:" "abcd")
  = inr (Some (Command.Device "usb0" false (Some (example_header 0 26))), None).
Proof.
  apply (locate_image_by_uuid
           (Command.Environment
              [Command.Device "cd0" false None;
               Command.Device "usb0" false (Some (example_header 0 26))]
              (fun _ => None) (fun _ => None) (fun _ => "abcd"%string) String.eqb [])
           "abcd" (Command.Device "usb0" false (Some (example_header 0 26)))).
  vm_compute. reflexivity.
Defined.

(** ** The block cache *)

Section BlockCache.

Import BlockMap.

Lemma cache_find_moves id cache : forall e rest,
  cache_find id cache = Some (e, rest) ->
  block e = id /\ Permutation cache (e :: rest).
Proof.
  induction cache as [|c cache IH]; intros e rest H; [discriminate|].
  cbn [cache_find] in H. destruct (Z.eqb_spec (block c) id) as [Heq|Hne].
  - inversion H; subst. split; reflexivity.
  - destruct (cache_find id cache) as [[found rest']|]; [|discriminate].
    inversion H; subst. destruct (IH e rest' eq_refl) as [Hb Hp].
    split; [exact Hb|]. rewrite Hp. apply perm_swap.
Qed.

End BlockCache.

(** X18: a block that [read_cached_block] has returned is served from the
    cache from then on: another read of the same block gives the same data
    and leaves the cache as it is, whatever the image would return, even a
    failed read. A hit only moves an entry to the front of the cache, and a
    miss puts one new entry in front of it. *)
Theorem read_cached_block_caches (img : image) (cache : list BlockMap.block_cache_entry)
    (block_id : Z) (d : list Z) (cache' : list BlockMap.block_cache_entry) :
  BlockMap.read_cached_block img cache block_id = Some (d, cache') ->
  (forall img', BlockMap.read_cached_block img' cache' block_id = Some (d, cache')) /\
  (Permutation cache' cache \/ cache' = BlockMap.CacheEntry block_id d :: cache).
Proof.
  unfold BlockMap.read_cached_block. intros H.
  destruct (BlockMap.cache_find block_id cache) as [[e rest]|] eqn:Hf.
  - inversion H; subst d cache'. destruct (cache_find_moves _ _ _ _ Hf) as [Hb Hp].
    split; [|left; symmetry; exact Hp].
    intros img'. cbn [BlockMap.cache_find]. rewrite Hb, Z.eqb_refl. reflexivity.
  - destruct (img (wrap64 (block_id * 4096))) as [d0|]; [|discriminate].
    inversion H; subst d0 cache'. split; [|right; reflexivity].
    intros img'. cbn [BlockMap.cache_find BlockMap.block]. rewrite Z.eqb_refl. reflexivity.
Qed.

Lemma read_cached_block_caches_witness :
  BlockMap.read_cached_block (fun _ => None) [BlockMap.CacheEntry 42 (replicate 512 0)] 42
  = Some (replicate 512 0, [BlockMap.CacheEntry 42 (replicate 512 0)]).
Proof.
  apply (proj1 (read_cached_block_caches example_image [] 42 (replicate 512 0)
                  [BlockMap.CacheEntry 42 (replicate 512 0)] eq_refl)).
Defined.

(** ** From the arguments of the command to the boot options *)

(** X19: the boot options handed to the kernel are a well-formed fixnum
    below 64 whose decoded value has the bit of each option set exactly when
    the loader flag is set; so for a command that returned true, the bit of
    an option is set exactly when its string is among the arguments. *)
Theorem boot_options_follow_arguments (env : Command.environment) (path : string)
    (opts : list Command.value) (data : Command.mezzano_loader) :
  Command.config_cmd_mezzano env (Command.VALUE_STRING path :: opts) = inr data ->
  let o := BootOptions.boot_options data in
  0 <= o < 64 /\ fixnum (unfixnum o) = o /\
  (has_flag (unfixnum o) BootOptions.BOOT_OPTION_FORCE_READ_ONLY = true
     <-> In (Command.VALUE_STRING "read-only") opts) /\
  (has_flag (unfixnum o) BootOptions.BOOT_OPTION_FREESTANDING = true
     <-> In (Command.VALUE_STRING "freestanding") opts) /\
  (has_flag (unfixnum o) BootOptions.BOOT_OPTION_VIDEO_CONSOLE = true
     <-> In (Command.VALUE_STRING "video-console") opts) /\
  (has_flag (unfixnum o) BootOptions.BOOT_OPTION_NO_DETECT = true
     <-> In (Command.VALUE_STRING "no-detect") opts) /\
  (has_flag (unfixnum o) BootOptions.BOOT_OPTION_NO_SMP = true
     <-> In (Command.VALUE_STRING "no-smp") opts).
Proof.
  intros H o.
  assert (Hbits :
    0 <= o < 64 /\ fixnum (unfixnum o) = o /\
    has_flag (unfixnum o) BootOptions.BOOT_OPTION_FORCE_READ_ONLY = Command.force_ro data /\
    has_flag (unfixnum o) BootOptions.BOOT_OPTION_FREESTANDING
      = Command.is_freestanding data /\
    has_flag (unfixnum o) BootOptions.BOOT_OPTION_VIDEO_CONSOLE
      = Command.video_console data /\
    has_flag (unfixnum o) BootOptions.BOOT_OPTION_NO_DETECT = Command.no_detect data /\
    has_flag (unfixnum o) BootOptions.BOOT_OPTION_NO_SMP = Command.no_smp data).
  { unfold o, BootOptions.boot_options.
    destruct (Command.force_ro data), (Command.is_freestanding data),
      (Command.video_console data), (Command.no_detect data), (Command.no_smp data);
      vm_compute; repeat split; congruence. }
  destruct Hbits as (Hr & Hf & B1 & B2 & B3 & B4 & B5).
  destruct (command_flags env path opts data H) as (F1 & F2 & F3 & F4 & F5 & _).
  split; [exact Hr|]. split; [exact Hf|].
  rewrite B1, B2, B3, B4, B5. repeat split; tauto.
Qed.

Lemma boot_options_follow_arguments_witness :
  exists data,
    Command.config_cmd_mezzano (example_environment 0 26)
      [Command.VALUE_STRING "hd0"; Command.VALUE_STRING "no-smp"] = inr data /\
    has_flag (unfixnum (BootOptions.boot_options data)) BootOptions.BOOT_OPTION_NO_SMP = true.
Proof.
  destruct (Command.config_cmd_mezzano (example_environment 0 26)
              [Command.VALUE_STRING "hd0"; Command.VALUE_STRING "no-smp"])
    as [e|data] eqn:E; [vm_compute in E; discriminate|].
  exists data. split; [reflexivity|].
  destruct (boot_options_follow_arguments (example_environment 0 26) "hd0"
              [Command.VALUE_STRING "no-smp"] data E) as (_ & _ & _ & _ & _ & _ & Hns).
  apply Hns. cbn. tauto.
Defined.

(** ** Physical memory ranges *)

Section PhysicalRanges.

Import PhysicalMap.

Lemma round_down_spec v :
  round_down v PAGE_SIZE mod PAGE_SIZE = 0 /\
  round_down v PAGE_SIZE <= v < round_down v PAGE_SIZE + PAGE_SIZE.
Proof. unfold round_down, PAGE_SIZE. split; Z.div_mod_to_equations; lia. Qed.

Lemma round_up_spec v :
  0 <= v <= 2 ^ 64 - PAGE_SIZE ->
  round_up v PAGE_SIZE mod PAGE_SIZE = 0 /\
  v <= round_up v PAGE_SIZE < v + PAGE_SIZE.
Proof.
  unfold round_up, PAGE_SIZE. intros Hv.
  destruct (Z.eqb_spec (v mod 4096) 0) as [E|E]; [split; [exact E | lia]|].
  rewrite wrap64_small by (unfold is_uint64; Z.div_mod_to_equations; lia).
  split; Z.div_mod_to_equations; lia.
Qed.

Lemma round_up_aligned v : round_up v PAGE_SIZE mod PAGE_SIZE = 0.
Proof.
  unfold round_up. destruct (Z.eqb_spec (v mod PAGE_SIZE) 0) as [E|E]; [exact E|].
  rewrite wrap64_mod_divide by exact page_divides.
  unfold PAGE_SIZE. Z.div_mod_to_equations. lia.
Qed.

Lemma round_up_range v : 0 <= v < 2 ^ 64 -> 0 <= round_up v PAGE_SIZE < 2 ^ 64.
Proof.
  intros Hv. unfold round_up. destruct (v mod PAGE_SIZE =? 0); [exact Hv|].
  apply wrap64_range.
Qed.

(** The range the function records for [a, b): the start rounded down, the
    end rounded up and cut at the end of the window. *)
Definition recorded_start (a : Z) : Z := round_down a PAGE_SIZE.
Definition recorded_end (b : Z) : Z :=
  Z.min (round_up b PAGE_SIZE) mezzano_physical_map_size.

Lemma add_range_cases mc ctx bi a b :
  0 <= a < 2 ^ 64 -> 0 <= b < 2 ^ 64 ->
  if (mezzano_physical_map_size <=? recorded_start a) || (recorded_end b <=? recorded_start a)
  then mezzano_add_physical_memory_range mc ctx bi a b = Some (mc, bi)
  else exists mc',
         mezzano_add_physical_memory_range mc ctx bi a b =
         Some (mc', mezzano_insert_into_memory_map bi (recorded_start a) (recorded_end b)).
Proof.
  intros Ha Hb. unfold mezzano_add_physical_memory_range, recorded_start, recorded_end.
  pose proof (round_down_spec a) as (Hda & Hdr).
  pose proof (round_up_aligned b) as Hua. pose proof (round_up_range b Hb) as Hur.
  set (s := round_down a PAGE_SIZE) in *. set (e := round_up b PAGE_SIZE) in *.
  unfold mezzano_physical_map_size in *.
  destruct (Z.geb_spec s 549755813888) as [Hbig|Hsmall].
  { destruct (Z.leb_spec 549755813888 s); [reflexivity | lia]. }
  destruct (Z.leb_spec 549755813888 s) as [|_]; [lia|]. cbn [orb].
  assert (Emin : (if e >? 549755813888 then 549755813888 else e) = Z.min e 549755813888).
  { destruct (Z.gtb_spec e 549755813888); lia. }
  rewrite Emin. destruct (Z.leb_spec (Z.min e 549755813888) s) as [Hle|Hgt]; [reflexivity|].
  assert (Hs0 : 0 <= s). { unfold s, round_down, PAGE_SIZE. Z.div_mod_to_equations. lia. }
  assert (Hmin : Z.min e 549755813888 mod PAGE_SIZE = 0).
  { destruct (Z.min_spec e 549755813888) as [[_ ->]|[_ ->]]; [exact Hua | reflexivity]. }
  destruct (mmu_map_returns mc ctx (wrap64 (mezzano_physical_map_address + s)) s
              (wrap64 (Z.min e 549755813888 - s))) as (mc' & Hmap & _).
  - rewrite wrap64_mod_divide by exact page_divides.
    unfold mezzano_physical_map_address, PAGE_SIZE in *. Z.div_mod_to_equations. lia.
  - exact Hda.
  - rewrite wrap64_mod_divide by exact page_divides.
    unfold PAGE_SIZE in *. Z.div_mod_to_equations. lia.
  - apply wrap64_range.
  - rewrite Hmap. exists mc'. reflexivity.
Qed.

Lemma add_range_ignored mc ctx bi a b :
  0 <= a < 2 ^ 64 -> 0 <= b < 2 ^ 64 ->
  mezzano_physical_map_size <= recorded_start a \/ recorded_end b <= recorded_start a ->
  mezzano_add_physical_memory_range mc ctx bi a b = Some (mc, bi).
Proof.
  intros Ha Hb Hi. pose proof (add_range_cases mc ctx bi a b Ha Hb) as Hc.
  destruct ((mezzano_physical_map_size <=? recorded_start a)
            || (recorded_end b <=? recorded_start a)) eqn:E; [exact Hc|].
  exfalso. apply orb_false_iff in E. destruct E as [E1 E2].
  apply Z.leb_gt in E1, E2. lia.
Qed.

Lemma add_range_recorded mc ctx bi a b :
  0 <= a < 2 ^ 64 -> 0 <= b < 2 ^ 64 ->
  recorded_start a < mezzano_physical_map_size -> recorded_start a < recorded_end b ->
  exists mc',
    mezzano_add_physical_memory_range mc ctx bi a b =
    Some (mc', mezzano_insert_into_memory_map bi (recorded_start a) (recorded_end b)).
Proof.
  intros Ha Hb H1 H2. pose proof (add_range_cases mc ctx bi a b Ha Hb) as Hc.
  destruct ((mezzano_physical_map_size <=? recorded_start a)
            || (recorded_end b <=? recorded_start a)) eqn:E; [|exact Hc].
  exfalso. apply orb_true_iff in E. destruct E as [E|E]; apply Z.leb_le in E; lia.
Qed.


End PhysicalRanges.



(** X21: on the qemu-virt platform [mezzano_generate_memory_map], started
    with the empty memory map, leaves a single entry: the device range below
    1 GiB and the RAM above it touch and are merged, so the entry runs from 0
    to the end of RAM rounded up to a page, for every amount of RAM that fits
    below 512 GiB. *)
Theorem qemu_virt_memory_map_is_one_entry (mc : Arm64.machine) (ctx : Arm64.mmu_context)
    (total_memory : Z) :
  0 <= total_memory ->
  0x40000000 + total_memory <= PhysicalMap.mezzano_physical_map_size ->
  exists mc' bi',
    PhysicalMap.mezzano_generate_memory_map mc ctx zero_boot_info total_memory
      = Some (mc', bi') /\
    entries bi' =
      [MapEntry 0 (PhysicalMap.round_up (0x40000000 + total_memory) PAGE_SIZE)].
Proof.
  intros H0 Hfit. unfold PhysicalMap.mezzano_physical_map_size in Hfit.
  unfold PhysicalMap.mezzano_generate_memory_map.
  destruct (add_range_recorded mc ctx zero_boot_info 0 1073741824
              ltac:(lia) ltac:(lia) ltac:(vm_compute; reflexivity)
              ltac:(vm_compute; reflexivity)) as (mc1 & Hadd1).
  rewrite Hadd1.
  change (recorded_start 0) with 0. change (recorded_end 1073741824) with 1073741824.
  set (bi1 := mezzano_insert_into_memory_map zero_boot_info 0 1073741824).
  assert (Hok1 : map_ok bi1) by (apply insert_keeps_map_ok, zero_boot_info_ok).
  assert (He1 : entries bi1 = [MapEntry 0 1073741824]) by (vm_compute; reflexivity).
  assert (Hn1 : n_memory_map_entries bi1 = 1) by (vm_compute; reflexivity).
  assert (Hat : entry_at bi1 0 = MapEntry 0 1073741824) by (vm_compute; reflexivity).
  rewrite wrap64_small by (unfold is_uint64; lia).
  set (b := 1073741824 + total_memory).
  assert (Hb : 0 <= b <= 2 ^ 64 - PAGE_SIZE) by (unfold b, PAGE_SIZE; lia).
  destruct (round_up_spec b Hb) as (Hua & Hur).
  assert (Hs : recorded_start 1073741824 = 1073741824) by (vm_compute; reflexivity).
  assert (Hup : PhysicalMap.round_up b PAGE_SIZE <= 549755813888).
  { unfold PAGE_SIZE in *. Z.div_mod_to_equations. lia. }
  assert (He : recorded_end b = PhysicalMap.round_up b PAGE_SIZE).
  { unfold recorded_end, PhysicalMap.mezzano_physical_map_size. lia. }
  destruct (Z.eq_dec total_memory 0) as [E0|E0].
  - exists mc1, bi1. split.
    + apply add_range_ignored; [lia | unfold b; lia|]. right. rewrite Hs, He.
      unfold b. rewrite E0. vm_compute. discriminate.
    + rewrite He1. unfold b. rewrite E0. reflexivity.
  - destruct (add_range_recorded mc1 ctx bi1 1073741824 b ltac:(lia) ltac:(unfold b; lia))
      as (mc2 & Hadd2).
    + rewrite Hs. reflexivity.
    + rewrite Hs, He. unfold b in *. lia.
    + exists mc2. eexists. split; [exact Hadd2|].
      rewrite Hs, He, (insert_entries bi1 _ _ Hok1), Hn1.
      change (Z.to_nat 1) with 1%nat. cbn [search]. rewrite Hat. cbn [start end_].
      destruct (Z.gtb_spec 0 (PhysicalMap.round_up b PAGE_SIZE)) as [Hneg|_];
        [unfold b in *; lia|].
      change (in_range 0 1073741824 1073741824) with true. cbn [orb].
      rewrite He1, Hat. unfold widened. cbn [start end_].
      change (0 >? 1073741824) with false. cbv iota.
      change (Z.to_nat 0) with 0%nat.
      destruct (Z.ltb_spec 1073741824 (PhysicalMap.round_up b PAGE_SIZE)) as [_|Hge];
        [reflexivity | exfalso; unfold b in *; lia].
Qed.

Lemma qemu_virt_memory_map_is_one_entry_witness :
  exists mc' bi',
    PhysicalMap.mezzano_generate_memory_map example_tables example_context zero_boot_info
      0x20000000 = Some (mc', bi') /\
    entries bi' = [MapEntry 0 (PhysicalMap.round_up (0x40000000 + 0x20000000) PAGE_SIZE)].
Proof.
  apply (qemu_virt_memory_map_is_one_entry example_tables example_context 0x20000000);
    [lia | unfold PhysicalMap.mezzano_physical_map_size; lia].
Defined.

(** ** Empty ranges and fresh contexts of the arm64 paging writer *)

Section EmptyRanges.

Import Arm64.

Lemma top16_of a :
  0 <= a < 2 ^ 64 ->
  (top16_uniform a <-> a < 2 ^ 48 \/ 2 ^ 64 - 2 ^ 48 <= a) /\
  Z.testbit a 48 = Z.odd (a / 2 ^ 48).
Proof.
  intros Ha. split; [|apply testbit_half; lia].
  unfold top16_uniform.
  change (2 ^ 64) with 18446744073709551616 in *.
  change (2 ^ 48) with 281474976710656 in *. change (2 ^ 16) with 65536.
  split; [intros [H|H] | intros [H|H]]; Z.div_mod_to_equations; lia.
Qed.

Lemma empty_range_canonical a :
  0 <= a < 2 ^ 64 ->
  is_canonical_range a 0 = true <-> 0 < a < 2 ^ 48 \/ 2 ^ 64 - 2 ^ 48 < a.
Proof.
  intros Ha. rewrite (is_canonical_range_spec a 0 Ha).
  replace (a + 0 - 1) with (a - 1) by lia.
  pose proof (wrap64_range (a - 1)) as Hw. unfold is_uint64 in Hw.
  destruct (top16_of a Ha) as [Ua Ba].
  destruct (top16_of (wrap64 (a - 1)) Hw) as [Ue Be].
  rewrite Ua, Ue, Ba, Be. clear Ua Ue Ba Be.
  change (2 ^ 64) with 18446744073709551616 in *.
  change (2 ^ 48) with 281474976710656 in *.
  destruct (Z.eq_dec a 0) as [->|Hne].
  { split; [intros (_ & _ & H); vm_compute in H; discriminate | lia]. }
  rewrite wrap64_small by (unfold is_uint64; change (2 ^ 64) with 18446744073709551616; lia).
  clear Hw.
  destruct (Z.lt_ge_cases a 281474976710656) as [Hlow|Hhigh].
  { rewrite (Z.div_small a), (Z.div_small (a - 1)) by lia.
    split; [intros _; left; lia | intros _; repeat split; left; lia]. }
  destruct (Z.le_gt_cases a 18446462598732840960) as [Hmid|Htop].
  { split; [intros (H1 & H2 & _); lia | lia]. }
  assert (E1 : a / 281474976710656 = 65535) by (Z.div_mod_to_equations; lia).
  assert (E2 : (a - 1) / 281474976710656 = 65535) by (Z.div_mod_to_equations; lia).
  rewrite E1, E2.
  split; [intros _; right; lia | intros _; split; [right; lia|]; split; [right; lia|]].
  reflexivity.
Qed.

End EmptyRanges.

(** X22: a range of size 0 is canonical exactly when it starts strictly
    inside one of the two canonical halves of the address space: the empty
    range at address 0, or at the first address of the upper half, is not
    canonical. On an empty range [mmu_memset], [mmu_memcpy_to] and
    [mmu_memcpy_from] return that verdict and leave memory as it is, so at
    address 0 they return false though there is nothing to do. *)
Theorem empty_range_verdict (m : Arm64.memory) (ctx : Arm64.mmu_context) (a v : Z) :
  0 <= a < 2 ^ 64 ->
  (Arm64.is_canonical_range a 0 = true <-> 0 < a < 2 ^ 48 \/ 2 ^ 64 - 2 ^ 48 < a) /\
  Arm64.mmu_memset m ctx a v 0 = Some (Arm64.is_canonical_range a 0, m) /\
  Arm64.mmu_memcpy_to m ctx a v 0 = Some (Arm64.is_canonical_range a 0, m) /\
  Arm64.mmu_memcpy_from m ctx v a 0 = Some (Arm64.is_canonical_range a 0, m).
Proof.
  intros Ha. split; [apply empty_range_canonical, Ha|].
  unfold Arm64.mmu_memset, Arm64.mmu_memcpy_to, Arm64.mmu_memcpy_from, Arm64.mmu_mem_op.
  destruct (Arm64.is_canonical_range a 0); repeat split; reflexivity.
Qed.

Lemma empty_range_verdict_witness :
  Arm64.mmu_memset (fun _ => 0) example_context 0 0 0 = Some (false, fun _ => 0) /\
  Arm64.mmu_memset (fun _ => 0) example_context 0x1000 0 0 = Some (true, fun _ => 0).
Proof.
  split.
  - destruct (empty_range_verdict (fun _ => 0) example_context 0 0 ltac:(lia))
      as (_ & H & _). exact H.
  - destruct (empty_range_verdict (fun _ => 0) example_context 0x1000 0 ltac:(lia))
      as (_ & H & _). exact H.
Defined.

(** ** A context that maps nothing *)

Section FreshContext.

Import Arm64.

Lemma load_le_zero m n : forall a,
  (forall t, 0 <= t < Z.of_nat n -> m (a + t) = 0) -> load_le m a n = 0.
Proof.
  induction n as [|n IH]; intros a H; [reflexivity|].
  cbn [load_le]. rewrite <- (Z.add_0_r a) at 1. rewrite (H 0) by lia.
  rewrite IH; [reflexivity|]. intros t Ht. rewrite <- Z.add_assoc. apply H. lia.
Qed.

Lemma read64_zero m c : (forall t, 0 <= t < 8 -> m (c + t) = 0) -> read64 m c = 0.
Proof. intros H. apply load_le_zero. exact H. Qed.

Lemma memset_inside m d c n x : d <= x < d + n -> memset m d c n x = c.
Proof.
  intros H. unfold memset.
  destruct (Z.leb_spec d x); [|lia]. destruct (Z.ltb_spec x (d + n)); [reflexivity | lia].
Qed.

Lemma memset_outside m d c n x : ~ (d <= x < d + n) -> memset m d c n x = m x.
Proof.
  intros H. unfold memset.
  destruct (Z.leb_spec d x); [|reflexivity].
  destruct (Z.ltb_spec x (d + n)); [lia | reflexivity].
Qed.

(** The two root tables of a context made by [mmu_context_create] from a
    pool with room for them. *)
Lemma fresh_roots mc pt :
  2 * PAGE_SIZE <= pool mc <= 2 ^ 64 ->
  let ctx := fst (mmu_context_create mc pt) in
  let mc' := snd (mmu_context_create mc pt) in
  ttbr0 ctx = pool mc - PAGE_SIZE /\ ttbr1 ctx = pool mc - 2 * PAGE_SIZE /\
  pool mc' = pool mc - 2 * PAGE_SIZE /\
  (forall x, pool mc - 2 * PAGE_SIZE <= x < pool mc -> mem mc' x = 0) /\
  (forall x, ~ (pool mc - 2 * PAGE_SIZE <= x < pool mc) -> mem mc' x = mem mc x).
Proof.
  intros Hp. unfold mmu_context_create, allocate_structure. cbn [fst snd pool mem ttbr0 ttbr1].
  unfold PAGE_SIZE in *.
  rewrite (wrap64_small (pool mc - 4096)) by (unfold is_uint64; lia).
  rewrite (wrap64_small (pool mc - 4096 - 4096)) by (unfold is_uint64; lia).
  split; [reflexivity|]. split; [lia|]. split; [lia|]. split.
  - intros x Hx. destruct (Z.lt_ge_cases x (pool mc - 4096)).
    + apply memset_inside. lia.
    + rewrite memset_outside by lia. apply memset_inside. lia.
  - intros x Hx. rewrite !memset_outside by lia. reflexivity.
Qed.

Lemma walk_unmapped_root ctx m a :
  (forall i t, 0 <= i < 512 -> 0 <= t < 8 ->
     m ((if has_flag a 0x8000000000000000 then ttbr1 ctx else ttbr0 ctx) + 8 * i + t) = 0) ->
  walk ctx m a = None.
Proof.
  intros H. rewrite walk_cold. unfold cold2, entry.
  rewrite read64_zero.
  - reflexivity.
  - intros t Ht. apply H; [|exact Ht]. apply Z.mod_pos_bound. lia.
Qed.

End FreshContext.

(** X23: a context just made by [mmu_context_create] maps nothing. Its two
    root tables are the two frames below the pool, zeroed; the walk finds no
    page at any address, and [mmu_mem_op] on any non-empty range
    returns false and leaves memory as it is. *)
Theorem fresh_context_maps_nothing (mc : Arm64.machine) (pt : Z) :
  2 * PAGE_SIZE <= Arm64.pool mc <= 2 ^ 64 ->
  let ctx := fst (Arm64.mmu_context_create mc pt) in
  let m := Arm64.mem (snd (Arm64.mmu_context_create mc pt)) in
  Arm64.ttbr0 ctx = Arm64.pool mc - PAGE_SIZE /\
  Arm64.ttbr1 ctx = Arm64.pool mc - 2 * PAGE_SIZE /\
  (forall a, walk ctx m a = None) /\
  (forall a size op v,
     0 < size -> Arm64.mmu_mem_op m ctx a size op v = Some (false, m)).
Proof.
  intros Hp ctx m.
  destruct (fresh_roots mc pt Hp) as (H0 & H1 & _ & Hzero & _).
  fold ctx in H0, H1. fold m in Hzero.
  assert (Hwalk : forall a, walk ctx m a = None).
  { intros a. apply walk_unmapped_root. intros i t Hi Ht. apply Hzero.
    unfold PAGE_SIZE in *. destruct (has_flag a _); rewrite ?H0, ?H1; lia. }
  split; [exact H0|]. split; [exact H1|]. split; [exact Hwalk|].
  intros a size op v Hsize. unfold Arm64.mmu_mem_op.
  destruct (Arm64.is_canonical_range a size); [|reflexivity]. cbn [negb].
  unfold Arm64.mem_op_fuel.
  destruct (Z.to_nat size) as [|fuel] eqn:Hf; [lia|].
  rewrite mem_op_loop_S.
  destruct (Z.eqb_spec size 0) as [|_]; [lia|].
  change (Arm64.find_page m ctx a 0 0) with (walk ctx m a). rewrite Hwalk. reflexivity.
Qed.

Lemma fresh_context_maps_nothing_witness :
  walk example_context (Arm64.mem example_tables) 0x40000000 = None /\
  Arm64.mmu_mem_op (Arm64.mem example_tables) example_context 0x40000000 0x1000
    Arm64.MMU_MEM_SET 0xAB = Some (false, Arm64.mem example_tables).
Proof.
  destruct (fresh_context_maps_nothing example_machine 3
              ltac:(unfold PAGE_SIZE; cbn; lia)) as (_ & _ & Hw & Hop).
  split; [apply Hw | apply Hop; lia].
Defined.

(** ** Memory operations over a mapped range *)

Section MemOpRange.

Import Arm64.

Variables (ctx : mmu_context) (m0 : memory) (addr size : Z) (op : mem_op) (value : Z).

(** Where the operation writes the byte for the virtual address [b], and
    where it reads it from when it copies. *)
Definition target (b : Z) : Z :=
  match op with
  | MMU_MEM_COPY_FROM => value + (b - addr)
  | _ => phys_of ctx m0 b
  end.

Definition source (b : Z) : Z :=
  match op with
  | MMU_MEM_COPY_FROM => phys_of ctx m0 b
  | _ => value + (b - addr)
  end.

(** The byte the operation is to write for the virtual address [b]. *)
Definition data (b : Z) : Z :=
  match op with
  | MMU_MEM_SET => value mod 256
  | _ => m0 (source b)
  end.

Hypothesis R_addr : 0 <= addr.
Hypothesis R_size : 0 <= size.
Hypothesis R_end : addr + size <= 2 ^ 64.
Hypothesis R_mapped : forall b, addr <= b < addr + size ->
  exists pg len t2 t3, walk ctx m0 b = Some (pg, len, t2, t3) /\ 0 < len.
Hypothesis R_safe : forall b a' c t,
  addr <= b < addr + size -> addr <= a' < addr + size ->
  In c (footprint ctx m0 a') -> 0 <= t < 8 -> target b <> c + t.
Hypothesis R_copy : op <> MMU_MEM_SET ->
  0 <= value /\ value + size <= 2 ^ 64 /\
  (forall b b', addr <= b < addr + size -> addr <= b' < addr + size ->
                target b = target b' -> b = b') /\
  (forall b b', addr <= b < addr + size -> addr <= b' < addr + size ->
                target b <> source b').

Definition tables_intact (m : memory) : Prop :=
  forall a', addr <= a' < addr + size -> agree m0 m (footprint ctx m0 a').

Definition done_to (m : memory) (a : Z) : Prop :=
  forall b, addr <= b < a -> m (target b) = data b.

Definition rest_untouched (m : memory) : Prop :=
  forall x, (forall b, addr <= b < addr + size -> target b <> x) -> m x = m0 x.

Definition value_at (v a : Z) : Prop :=
  match op with
  | MMU_MEM_SET => v = value
  | _ => a < addr + size -> v = value + (a - addr)
  end.

Definition sources_intact (m : memory) : Prop :=
  op <> MMU_MEM_SET ->
  forall b, addr <= b < addr + size -> m (source b) = m0 (source b).

(** One call of [do_mem_op] on the bytes [a, a + n) of a page at [pg]: it
    writes the interval of their targets and nothing else. *)
Lemma do_mem_op_chunk m a pg n v m' v' :
  addr <= a -> 0 < n -> a + n <= addr + size ->
  (forall b, a <= b < a + n -> phys_of ctx m0 b = pg + (b - a)) ->
  value_at v a ->
  do_mem_op m pg n op v = (m', v') ->
  value_at v' (a + n) /\
  (forall b, a <= b < a + n -> target b = target a + (b - a)) /\
  (forall x, m' x = if (target a <=? x) && (x <? target a + n)
                    then match op with
                         | MMU_MEM_SET => value mod 256
                         | _ => m (source (a + (x - target a)))
                         end
                    else m x).
Proof.
  intros Ha Hn Hend Hphys Hv Hdo. unfold do_mem_op in Hdo. unfold value_at, target, source in *.
  assert (Hval : op <> MMU_MEM_SET -> a + n < addr + size ->
                 wrap64 (v + n) = value + (a + n - addr)).
  { intros Hop Hlt. destruct (R_copy Hop) as (Hv0 & Hv1 & _).
    destruct op; [contradiction | |]; rewrite Hv by lia; rewrite wrap64_small;
      unfold is_uint64; lia. }
  pose proof (Hphys a ltac:(lia)) as Hpa. rewrite Z.sub_diag, Z.add_0_r in Hpa.
  destruct op; inversion Hdo; subst m' v'; clear Hdo.
  - split; [exact Hv|]. split.
    + intros b Hb. rewrite Hpa. apply Hphys, Hb.
    + intros x. rewrite Hpa, Hv. reflexivity.
  - split; [intros Hlt; apply Hval; [discriminate | exact Hlt]|]. split.
    + intros b Hb. rewrite Hpa. apply Hphys, Hb.
    + intros x. rewrite Hpa. unfold memcpy.
      destruct ((pg <=? x) && (x <? pg + n)); [|reflexivity].
      f_equal. rewrite Hv by lia. lia.
  - split; [intros Hlt; apply Hval; [discriminate | exact Hlt]|]. split.
    + intros b Hb. lia.
    + intros x. unfold memcpy. rewrite Hv by lia.
      destruct ((value + (a - addr) <=? x) && (x <? value + (a - addr) + n)) eqn:E;
        [|reflexivity].
      apply andb_true_iff in E. destruct E as [E1 E2].
      apply Z.leb_le in E1. apply Z.ltb_lt in E2.
      rewrite Hphys by lia. f_equal. lia.
Qed.

(** The page of a mapped address of the range, cut at the end of the range,
    has consecutive physical addresses. *)
Lemma range_chunk a pg len t2 t3 :
  addr <= a < addr + size -> walk ctx m0 a = Some (pg, len, t2, t3) ->
  forall b, a <= b < a + len -> phys_of ctx m0 b = pg + (b - a).
Proof.
  intros Ha Hw b Hb.
  pose proof (walk_shift ctx m0 a (b - a) pg len t2 t3 Hw ltac:(lia)) as Hs.
  replace (a + (b - a)) with b in Hs by lia. unfold phys_of. rewrite Hs. reflexivity.
Qed.

Lemma loop_done fuel : forall m a v t2 t3,
  addr <= a < addr + size ->
  addr + size - a <= Z.of_nat fuel ->
  cache_valid ctx m0 a t2 t3 ->
  tables_intact m -> done_to m a -> value_at v a -> sources_intact m -> rest_untouched m ->
  exists m', mem_op_loop fuel m ctx a (addr + size - a) op v t2 t3 = Some (true, m')
             /\ done_to m' (addr + size) /\ rest_untouched m'.
Proof.
  induction fuel as [|fuel IH]; intros m a v t2 t3 Ha Hfuel Hcache Hint Hwr Hv Hsrc Hrest.
  { exfalso. change (Z.of_nat 0) with 0 in Hfuel. lia. }
  rewrite mem_op_loop_S.
  destruct (Z.eqb_spec (addr + size - a) 0) as [E|_]; [lia|].
  rewrite (find_page_cached ctx m a t2 t3
             (cache_valid_agree ctx m0 m a t2 t3 (Hint a Ha) Hcache)).
  rewrite (walk_agree ctx m0 m a (Hint a Ha)).
  destruct (R_mapped a Ha) as (pg & len & t2' & t3' & Hw & Hlen).
  rewrite Hw. cbv zeta.
  pose proof (range_chunk a pg len t2' t3' Ha Hw) as Hphys.
  set (n := Z.min len (addr + size - a)).
  assert (Hn : 0 < n /\ n <= len /\ a + n <= addr + size) by (unfold n; lia).
  destruct (do_mem_op m pg n op v) as [m' v'] eqn:Hdo.
  destruct (do_mem_op_chunk m a pg n v m' v' ltac:(lia) ltac:(lia) ltac:(lia)
              ltac:(intros b Hb; apply Hphys; lia) Hv Hdo) as (Hv' & Htg & Hm').
  assert (Hout : forall x, (forall b, a <= b < a + n -> target b <> x) -> m' x = m x).
  { intros x Hx. rewrite Hm'.
    destruct (Z.leb_spec (target a) x) as [H1|H1]; [|reflexivity].
    destruct (Z.ltb_spec x (target a + n)) as [H2|H2]; [|reflexivity].
    exfalso. apply (Hx (a + (x - target a)) ltac:(lia)). rewrite Htg by lia. lia. }
  assert (Hint' : tables_intact m').
  { intros a' Ha' c Hc t Ht. rewrite Hout; [exact (Hint a' Ha' c Hc t Ht)|].
    intros b Hb. apply (R_safe b a' c t ltac:(lia) Ha' Hc Ht). }
  assert (Hsrc' : sources_intact m').
  { intros Hop b Hb. rewrite Hout; [exact (Hsrc Hop b Hb)|].
    intros b' Hb'. destruct (R_copy Hop) as (_ & _ & _ & Hdis).
    apply Hdis; [lia | exact Hb]. }
  assert (Hrest' : rest_untouched m').
  { intros x Hx. rewrite Hout; [exact (Hrest x Hx)|].
    intros b Hb. apply Hx. lia. }
  assert (Hwr' : done_to m' (a + n)).
  { intros b Hb. rewrite Hm'.
    destruct (Z.leb_spec (target a) (target b)) as [H1|H1];
      [destruct (Z.ltb_spec (target b) (target a + n)) as [H2|H2]|]; cbn [andb].
    - assert (Hb' : a <= a + (target b - target a) < a + n) by lia.
      pose proof (Htg _ Hb') as Et. unfold data.
      assert (Hdec : op = MMU_MEM_SET \/ op <> MMU_MEM_SET).
      { destruct op; [left; reflexivity | right; discriminate | right; discriminate]. }
      destruct Hdec as [Eop|Eop].
      + rewrite Eop. reflexivity.
      + destruct (R_copy Eop) as (_ & _ & Hinj & _).
        assert (Eb : a + (target b - target a) = b).
        { apply Hinj; [lia | lia |]. rewrite Et. lia. }
        rewrite Eb. rewrite (Hsrc Eop b ltac:(lia)).
        destruct op; [contradiction | reflexivity | reflexivity].
    - apply Hwr. destruct (Z.lt_ge_cases b a) as [Hlt|Hge]; [lia|].
      exfalso. rewrite (Htg b ltac:(lia)) in H2. lia.
    - apply Hwr. destruct (Z.lt_ge_cases b a) as [Hlt|Hge]; [lia|].
      exfalso. rewrite (Htg b ltac:(lia)) in H1. lia. }
  destruct (Z.eq_dec (a + n) (addr + size)) as [Eend|Eend].
  - exists m'. replace (addr + size - a - n) with 0 by lia.
    change (wrap64 0) with 0.
    split; [destruct fuel; reflexivity|]. rewrite <- Eend. split; [exact Hwr' | exact Hrest'].
  - assert (En : n = len) by (unfold n in *; lia).
    rewrite (wrap64_small (a + n)), (wrap64_small (addr + size - a - n))
      by (unfold is_uint64; lia).
    replace (addr + size - a - n) with (addr + size - (a + n)) by lia.
    apply IH; try assumption; try lia.
    rewrite En. exact (next_cache_valid ctx m0 a pg len t2' t3' Hw Hlen).
Qed.

(** Over a canonical range that is mapped throughout, the operation returns
    true, has written every byte of the range, and has written nothing
    else. *)
Lemma mem_op_range :
  is_canonical_range addr size = true ->
  exists m', mmu_mem_op m0 ctx addr size op value = Some (true, m') /\
             done_to m' (addr + size) /\ rest_untouched m'.
Proof.
  intros Hcan. unfold mmu_mem_op. rewrite Hcan. cbn [negb].
  destruct (Z.eq_dec size 0) as [E0|E0].
  { exists m0. split; [rewrite E0; destruct (mem_op_fuel 0); reflexivity|].
    split; [intros b Hb; lia | intros x _; reflexivity]. }
  assert (H : exists m', mem_op_loop (mem_op_fuel size) m0 ctx addr (addr + size - addr)
                           op value 0 0 = Some (true, m') /\
                         done_to m' (addr + size) /\ rest_untouched m').
  { apply loop_done.
    - lia.
    - unfold mem_op_fuel. rewrite Z2Nat.id by lia. lia.
    - split; left; reflexivity.
    - intros a' _ c _ t _. reflexivity.
    - intros b Hb. lia.
    - unfold value_at. destruct op; [reflexivity | lia | lia].
    - intros _ b _. reflexivity.
    - intros x _. reflexivity. }
  replace (addr + size - addr) with size in H by lia. exact H.
Qed.

End MemOpRange.

(** The buffer a copy out of the context fills lies in the address space,
    outside the frames of the [n] pages from [p] and outside the table entries
    that the walks for them read. *)
Definition buffer_safe (ctx : Arm64.mmu_context) (m : Arm64.memory) (p : Z) (n : nat)
    (dest len : Z) : bool :=
  (0 <=? dest) && (dest + len <=? 2 ^ 64)
  && forallb (fun f => (dest + len <=? f) || (f + PAGE_SIZE <=? dest)) (frames ctx m p n)
  && forallb (fun c => (dest + len <=? c) || (c + 8 <=? dest))
             (flat_map (footprint ctx m) (pages_from p n)).

Lemma buffer_safe_spec ctx m addr size n dest :
  (0 < n)%nat ->
  forallb (page_mapped ctx m) (pages_from (page_base addr) n) = true ->
  buffer_safe ctx m (page_base addr) n dest size = true ->
  0 <= dest /\ dest + size <= 2 ^ 64 /\
  (forall b off, addr <= b < prefix_end addr n -> 0 <= off < size ->
                 dest + off <> phys_of ctx m b) /\
  (forall a' c t off, addr <= a' < prefix_end addr n -> In c (footprint ctx m a') ->
                      0 <= t < 8 -> 0 <= off < size -> dest + off <> c + t).
Proof.
  intros Hn Hpages. unfold buffer_safe. rewrite !andb_true_iff.
  intros [[[H0 H1] Hfr] Hcells]. apply Z.leb_le in H0, H1.
  split; [exact H0|]. split; [exact H1|]. split.
  - intros b off Hb Hoff.
    destruct (prefix_page ctx m addr n Hn Hpages b Hb) as (Hin & _ & Hph & Hob).
    rewrite forallb_forall in Hfr.
    specialize (Hfr _ (in_map (phys_of ctx m) _ _ Hin)). apply orb_true_iff in Hfr.
    rewrite Hph. destruct Hfr as [Hs|Hs]; apply Z.leb_le in Hs; lia.
  - intros a' c t off Ha' Hc Ht Hoff.
    destruct (prefix_page ctx m addr n Hn Hpages a' Ha') as (Hin & _).
    destruct (page_base_spec a') as (_ & _ & Hq).
    rewrite <- (footprint_page ctx m _ _ Hq) in Hc.
    rewrite forallb_forall in Hcells. specialize (Hcells c). rewrite in_flat_map in Hcells.
    specialize (Hcells (ex_intro _ _ (conj Hin Hc))). apply orb_true_iff in Hcells.
    destruct Hcells as [Hs|Hs]; apply Z.leb_le in Hs; lia.
Qed.

(** X24: over a canonical range whose pages are all mapped, [mmu_memset] and
    [mmu_memcpy_to] return true; afterwards every byte of the range holds the
    fill byte, or the byte of the source buffer at its offset, and the memory
    outside the physical bytes of the range is as before. The frames of the
    pages hold none of the table entries that the walks read; for the copy the
    source buffer lies outside these frames, which are pairwise disjoint. *)
Theorem mem_op_writes_mapped_range
    (ctx : Arm64.mmu_context) (m : Arm64.memory) (addr size : Z) (n : nat) (value src : Z) :
  0 <= addr -> 0 <= size -> addr + size <= 2 ^ 64 ->
  Arm64.is_canonical_range addr size = true ->
  (0 < n)%nat ->
  addr + size <= prefix_end addr n ->
  forallb (page_mapped ctx m) (pages_from (page_base addr) n) = true ->
  tables_safe ctx m (page_base addr) n = true ->
  (exists m',
     Arm64.mmu_memset m ctx addr value size = Some (true, m') /\
     (forall b, addr <= b < addr + size -> m' (phys_of ctx m b) = value mod 256) /\
     (forall x, (forall b, addr <= b < addr + size -> phys_of ctx m b <> x) -> m' x = m x)) /\
  (copy_safe ctx m (page_base addr) n src size = true ->
   exists m',
     Arm64.mmu_memcpy_to m ctx addr src size = Some (true, m') /\
     (forall b, addr <= b < addr + size -> m' (phys_of ctx m b) = m (src + (b - addr))) /\
     (forall x, (forall b, addr <= b < addr + size -> phys_of ctx m b <> x) -> m' x = m x)).
Proof.
  intros H_addr H_size H_end H_can H_n H_cover H_pages H_safe.
  assert (H_mapped : forall b, addr <= b < addr + size ->
            exists pg len t2 t3, walk ctx m b = Some (pg, len, t2, t3) /\ 0 < len).
  { intros b Hb. exact (proj1 (proj2 (prefix_page ctx m addr n H_n H_pages b ltac:(lia)))). }
  pose proof (prefix_safe ctx m addr n H_n H_pages H_safe) as H_cells.
  split.
  - apply (mem_op_range ctx m addr size Arm64.MMU_MEM_SET value H_addr H_size H_end H_mapped).
    + intros b a' c t Hb Ha' Hc Ht. apply (H_cells b a' c t); [lia | lia | exact Hc | exact Ht].
    + intros Hop. contradiction.
    + exact H_can.
  - intros H_src.
    destruct (prefix_copy ctx m addr size n H_n H_pages src H_src) as (Hs0 & Hs1 & Hinj & Hdis).
    apply (mem_op_range ctx m addr size Arm64.MMU_MEM_COPY_TO src H_addr H_size H_end H_mapped).
    + intros b a' c t Hb Ha' Hc Ht. apply (H_cells b a' c t); [lia | lia | exact Hc | exact Ht].
    + intros _. split; [exact Hs0|]. split; [exact Hs1|]. split.
      * intros b b' Hb Hb'. apply Hinj; lia.
      * intros b b' Hb Hb'. apply Hdis; lia.
    + exact H_can.
Qed.

Lemma mem_op_writes_mapped_range_witness :
  (exists m',
     Arm64.mmu_memset one_page_mapped example_context 0x40000f00 0xAB 0x100
       = Some (true, m') /\
     (forall b, 0x40000f00 <= b < 0x40000f00 + 0x100 ->
                m' (phys_of example_context one_page_mapped b) = 0xAB mod 256) /\
     (forall x, (forall b, 0x40000f00 <= b < 0x40000f00 + 0x100 ->
                           phys_of example_context one_page_mapped b <> x) ->
                m' x = one_page_mapped x)) /\
  (exists m',
     Arm64.mmu_memcpy_to one_page_mapped example_context 0x40000f00 0x200000 0x100
       = Some (true, m') /\
     (forall b, 0x40000f00 <= b < 0x40000f00 + 0x100 ->
                m' (phys_of example_context one_page_mapped b)
                = one_page_mapped (0x200000 + (b - 0x40000f00))) /\
     (forall x, (forall b, 0x40000f00 <= b < 0x40000f00 + 0x100 ->
                           phys_of example_context one_page_mapped b <> x) ->
                m' x = one_page_mapped x)).
Proof.
  destruct (mem_op_writes_mapped_range example_context one_page_mapped
              0x40000f00 0x100 1 0xAB 0x200000
              ltac:(lia) ltac:(lia) ltac:(lia) ltac:(vm_compute; reflexivity) ltac:(lia)
              ltac:(vm_compute; intros H; discriminate H) ltac:(vm_compute; reflexivity)
              ltac:(vm_compute; reflexivity))
    as [Hset Hcopy].
  split; [exact Hset | apply Hcopy; vm_compute; reflexivity].
Defined.

(** X25: over a canonical range whose pages are all mapped, [mmu_memcpy_from]
    returns true; afterwards the buffer holds, at each offset, the byte the
    context maps that offset of the range to, and the memory outside the buffer
    is as before. The buffer lies outside the frames of the pages and outside
    the table entries that the walks read. *)
Theorem memcpy_from_reads_mapped_range
    (ctx : Arm64.mmu_context) (m : Arm64.memory) (addr size : Z) (n : nat) (dest : Z) :
  0 <= addr -> 0 <= size -> addr + size <= 2 ^ 64 ->
  Arm64.is_canonical_range addr size = true ->
  (0 < n)%nat ->
  addr + size <= prefix_end addr n ->
  forallb (page_mapped ctx m) (pages_from (page_base addr) n) = true ->
  buffer_safe ctx m (page_base addr) n dest size = true ->
  exists m',
    Arm64.mmu_memcpy_from m ctx dest addr size = Some (true, m') /\
    (forall off, 0 <= off < size -> m' (dest + off) = m (phys_of ctx m (addr + off))) /\
    (forall x, ~ (dest <= x < dest + size) -> m' x = m x).
Proof.
  intros H_addr H_size H_end H_can H_n H_cover H_pages H_buf.
  assert (H_mapped : forall b, addr <= b < addr + size ->
            exists pg len t2 t3, walk ctx m b = Some (pg, len, t2, t3) /\ 0 < len).
  { intros b Hb. exact (proj1 (proj2 (prefix_page ctx m addr n H_n H_pages b ltac:(lia)))). }
  destruct (buffer_safe_spec ctx m addr size n dest H_n H_pages H_buf)
    as (Hd0 & Hd1 & Hfr & Hcells).
  destruct (mem_op_range ctx m addr size Arm64.MMU_MEM_COPY_FROM dest
              H_addr H_size H_end H_mapped) as (m' & Hrun & Hdone & Hrest).
  - intros b a' c t Hb Ha' Hc Ht. cbn [target].
    apply (Hcells a' c t (b - addr)); [lia | exact Hc | exact Ht | lia].
  - intros _. split; [exact Hd0|]. split; [exact Hd1|]. cbn [target source]. split.
    + intros b b' _ _ E. lia.
    + intros b b' Hb Hb'. apply Hfr; lia.
  - exact H_can.
  - exists m'. split; [exact Hrun|]. split.
    + intros off Hoff. specialize (Hdone (addr + off) ltac:(lia)).
      cbn [target data source] in Hdone.
      replace (addr + off - addr) with off in Hdone by lia. exact Hdone.
    + intros x Hx. apply Hrest. intros b Hb. cbn [target]. lia.
Qed.

Lemma memcpy_from_reads_mapped_range_witness :
  exists m',
    Arm64.mmu_memcpy_from one_page_mapped example_context 0x200000 0x40000f00 0x100
      = Some (true, m') /\
    (forall off, 0 <= off < 0x100 ->
       m' (0x200000 + off)
       = one_page_mapped (phys_of example_context one_page_mapped (0x40000f00 + off))) /\
    (forall x, ~ (0x200000 <= x < 0x200000 + 0x100) -> m' x = one_page_mapped x).
Proof.
  apply (memcpy_from_reads_mapped_range example_context one_page_mapped
           0x40000f00 0x100 1 0x200000
           ltac:(lia) ltac:(lia) ltac:(lia) ltac:(vm_compute; reflexivity) ltac:(lia)
           ltac:(vm_compute; intros H; discriminate H) ltac:(vm_compute; reflexivity)
           ltac:(vm_compute; reflexivity)).
Defined.




(** ** The first mapping of a context *)

Section TableCells.

Import Arm64.

Lemma land_field x k n :
  0 <= k -> 0 <= n -> Z.land x (Z.shiftl (Z.ones n) k) = (x / 2 ^ k) mod 2 ^ n * 2 ^ k.
Proof.
  intros Hk Hn.
  rewrite <- Z.shiftl_mul_pow2, <- Z.land_ones, <- Z.shiftr_div_pow2 by lia.
  apply Z.bits_inj'. intros i Hi. rewrite Z.land_spec.
  destruct (Z.lt_ge_cases i k).
  - rewrite !Z.shiftl_spec_low by lia. apply andb_false_r.
  - rewrite !Z.shiftl_spec by lia. rewrite Z.land_spec, Z.shiftr_spec by lia.
    f_equal. f_equal. lia.
Qed.

Lemma lor_flags f c : 0 <= f -> f mod 4096 = 0 -> 0 <= c < 4096 -> Z.lor f c = f + c.
Proof.
  intros Hf Ha Hc.
  assert (E : Z.land f c = 0).
  { apply Z.bits_inj'. intros i Hi. rewrite Z.land_spec, Z.bits_0.
    destruct (Z.lt_ge_cases i 12).
    - replace f with (Z.shiftl (f / 4096) 12)
        by (rewrite Z.shiftl_mul_pow2 by lia; change (2 ^ 12) with 4096;
            Z.div_mod_to_equations; lia).
      rewrite Z.shiftl_spec_low by lia. reflexivity.
    - replace (Z.testbit c i) with false; [apply andb_false_r|].
      symmetry. apply Z.testbit_false; [exact Hi|].
      assert (Hp : 2 ^ 12 <= 2 ^ i) by (apply Z.pow_le_mono_r; lia).
      change (2 ^ 12) with 4096 in Hp. rewrite Z.div_small by lia. reflexivity. }
  rewrite <- Z.lxor_lor by exact E. symmetry. apply Z.add_nocarry_lxor. exact E.
Qed.

(** A table entry that holds the aligned address [f], below 2^47, and the
    flags [c]. *)
Lemma entry_fields f c :
  0 <= f < 2 ^ 47 -> f mod 4096 = 0 -> 0 <= c < 4096 ->
  Z.land (f + c) ARM64_TTE_ADDR_MASK = f /\
  has_flag (f + c) ARM64_TTE_PRESENT = negb (c mod 2 =? 0) /\
  has_flag (f + c) ARM64_TTE_TABLE = negb ((c / 2) mod 2 =? 0).
Proof.
  intros Hf Ha Hc. unfold has_flag.
  change ARM64_TTE_ADDR_MASK with (Z.shiftl (Z.ones 35) 12).
  change ARM64_TTE_PRESENT with (Z.shiftl (Z.ones 1) 0).
  change ARM64_TTE_TABLE with (Z.shiftl (Z.ones 1) 1).
  rewrite !land_field by lia.
  change (2 ^ 47) with 140737488355328 in *. change (2 ^ 35) with 34359738368.
  change (2 ^ 12) with 4096. change (2 ^ 1) with 2. change (2 ^ 0) with 1.
  split; [Z.div_mod_to_equations; lia|]. split.
  - replace (((f + c) / 1) mod 2 * 1) with (c mod 2) by (Z.div_mod_to_equations; lia).
    reflexivity.
  - replace (((f + c) / 2) mod 2 * 2) with ((c / 2) mod 2 * 2) by (Z.div_mod_to_equations; lia).
    destruct (Z.eqb_spec ((c / 2) mod 2 * 2) 0), (Z.eqb_spec ((c / 2) mod 2) 0);
      try reflexivity; lia.
Qed.

Lemma load_le_write64 m a v n : forall k,
  0 <= k -> k + Z.of_nat n <= 8 ->
  load_le (write64 m a v) (a + k) n = (v / 2 ^ (8 * k)) mod 2 ^ (8 * Z.of_nat n).
Proof.
  induction n as [|n IH]; intros k Hk Hn.
  { change (8 * Z.of_nat 0) with 0. rewrite Z.pow_0_r, Z.mod_1_r. reflexivity. }
  cbn [load_le]. rewrite <- Z.add_assoc, IH by lia.
  unfold write64 at 1.
  destruct (Z.leb_spec a (a + k)); [|lia]. destruct (Z.ltb_spec (a + k) (a + 8)); [|lia].
  cbn [andb]. replace (a + k - a) with k by lia.
  rewrite Z.shiftr_div_pow2 by lia. rewrite Z.mod_mod by lia.
  replace (8 * (k + 1)) with (8 * k + 8) by lia.
  rewrite Z.pow_add_r, <- Z.div_div by lia.
  replace (8 * Z.of_nat (S n)) with (8 + 8 * Z.of_nat n) by lia.
  rewrite Z.pow_add_r by lia. change (2 ^ 8) with 256.
  symmetry. apply Z.rem_mul_r; lia.
Qed.

Lemma entry_set_same m table i v :
  0 <= v < 2 ^ 64 -> entry (set_entry m table i v) table i = v.
Proof.
  intros Hv. unfold entry, set_entry, read64.
  rewrite <- (Z.add_0_r (table + 8 * i)) at 2.
  rewrite (load_le_write64 m (table + 8 * i) v 8 0) by lia.
  change (2 ^ (8 * 0)) with 1. rewrite Z.div_1_r. apply Z.mod_small. exact Hv.
Qed.

Lemma entry_set_other m table i v table' j :
  table' + 8 * j + 8 <= table + 8 * i \/ table + 8 * i + 8 <= table' + 8 * j ->
  entry (set_entry m table i v) table' j = entry m table' j.
Proof.
  intros H. unfold entry, set_entry. apply read64_agree. intros t Ht. unfold write64.
  destruct (Z.leb_spec (table + 8 * i) (table' + 8 * j + t)); [|reflexivity].
  destruct (Z.ltb_spec (table' + 8 * j + t) (table + 8 * i + 8)); [lia | reflexivity].
Qed.

Lemma entry_memset_other m d n table j :
  table + 8 * j + 8 <= d \/ d + n <= table + 8 * j ->
  entry (memset m d 0 n) table j = entry m table j.
Proof.
  intros H. unfold entry. apply read64_agree. intros t Ht. apply memset_outside. lia.
Qed.

Lemma entry_memset_zero m d n table j :
  d <= table + 8 * j -> table + 8 * j + 8 <= d + n -> entry (memset m d 0 n) table j = 0.
Proof.
  intros H1 H2. unfold entry. apply read64_zero. intros t Ht. apply memset_inside. lia.
Qed.

(** [next_table] when the entry is not present and it allocates: the new
    table is the frame below the pool. *)
Lemma next_table_alloc mc ctx table i :
  has_flag (entry (mem mc) table i) ARM64_TTE_PRESENT = false ->
  pool mc mod 4096 = 0 -> 4096 <= pool mc <= 2 ^ 47 ->
  next_table mc ctx table i true
  = (pool mc - 4096,
     Machine (set_entry (memset (mem mc) (pool mc - 4096) 0 PAGE_SIZE) table i
                        (pool mc - 4096 + 3))
             (pool mc - 4096)).
Proof.
  intros Hnp Ha Hp. unfold next_table. rewrite Hnp. cbn [negb].
  unfold allocate_structure. cbn [mem pool]. unfold PAGE_SIZE.
  change (2 ^ 47) with 140737488355328 in Hp.
  rewrite (wrap64_small (pool mc - 4096))
    by (unfold is_uint64; change (2 ^ 64) with 18446744073709551616; lia).
  assert (Hf : (pool mc - 4096) mod 4096 = 0) by (Z.div_mod_to_equations; lia).
  assert (E : Z.lor (Z.lor (pool mc - 4096) ARM64_TTE_PRESENT) ARM64_TTE_TABLE
              = pool mc - 4096 + 3).
  { rewrite <- Z.lor_assoc. change (Z.lor ARM64_TTE_PRESENT ARM64_TTE_TABLE) with 3.
    apply lor_flags; lia. }
  rewrite E, entry_set_same by (change (2 ^ 64) with 18446744073709551616; lia).
  destruct (entry_fields (pool mc - 4096) 3) as (Hm & _);
    [change (2 ^ 47) with 140737488355328; lia | exact Hf | lia|].
  rewrite Hm. reflexivity.
Qed.

(** Mapping one page is one call of [map_small]. *)
Lemma mmu_map_one_page mc ctx virt phys :
  virt mod PAGE_SIZE = 0 -> phys mod PAGE_SIZE = 0 ->
  is_canonical_range virt PAGE_SIZE = true ->
  mmu_map mc ctx virt phys PAGE_SIZE
  = match map_small mc ctx virt phys with
    | Some mc' => Some (true, mc')
    | None => None
    end.
Proof.
  intros Hv Hp Hc. unfold mmu_map. rewrite Hv, Hp, Hc.
  change (PAGE_SIZE mod PAGE_SIZE =? 0) with true. change (0 =? 0) with true.
  cbn [negb orb]. change (map_fuel PAGE_SIZE) with 1%nat.
  assert (Hstep : map_step false ctx (Cursor mc virt phys PAGE_SIZE)
                  = match map_small mc ctx virt phys with
                    | Some mc' => Some (Cursor mc' (wrap64 (virt + PAGE_SIZE))
                                               (wrap64 (phys + PAGE_SIZE)) 0)
                    | None => None
                    end).
  { unfold map_step. cbn [cur_machine cur_virt cur_phys cur_size].
    destruct (map_small mc ctx virt phys); reflexivity. }
  assert (Hsmall : small_loop 1 ctx (Cursor mc virt phys PAGE_SIZE)
                   = match map_small mc ctx virt phys with
                     | Some mc' => Some (Cursor mc' (wrap64 (virt + PAGE_SIZE))
                                                (wrap64 (phys + PAGE_SIZE)) 0)
                     | None => None
                     end).
  { cbn [small_loop cur_size]. change (negb (PAGE_SIZE =? 0)) with true. cbv iota.
    rewrite Hstep. destruct (map_small mc ctx virt phys); reflexivity. }
  destruct (virt mod LARGE_PAGE_SIZE =? phys mod LARGE_PAGE_SIZE).
  - cbn [align_loop cur_virt cur_size]. change (negb (PAGE_SIZE =? 0)) with true.
    rewrite andb_true_r.
    destruct (virt mod LARGE_PAGE_SIZE =? 0); cbn [negb]; cbv iota.
    + cbn [large_loop cur_size]. change (negb (PAGE_SIZE / LARGE_PAGE_SIZE =? 0)) with false.
      cbv iota. rewrite Hsmall. destruct (map_small mc ctx virt phys); reflexivity.
    + rewrite Hstep. destruct (map_small mc ctx virt phys) as [mc'|]; [|reflexivity].
      cbn [align_loop cur_virt cur_size]. change (0 =? 0) with true. cbn [negb].
      rewrite andb_false_r. cbn [large_loop small_loop cur_size cur_machine].
      change (0 / LARGE_PAGE_SIZE =? 0) with true. change (0 =? 0) with true. reflexivity.
  - rewrite Hsmall. destruct (map_small mc ctx virt phys); reflexivity.
Qed.

End TableCells.

Section FirstMapping.

Import Arm64.

Variables (mc : machine) (pt virt phys : Z).

Hypothesis M_pool : pool mc mod PAGE_SIZE = 0.
Hypothesis M_room : 5 * PAGE_SIZE < pool mc <= 2 ^ 47.
Hypothesis M_virt : 0 <= virt < 2 ^ 64.
Hypothesis M_valign : virt mod PAGE_SIZE = 0.
Hypothesis M_phys : 0 <= phys < 2 ^ 47.
Hypothesis M_palign : phys mod PAGE_SIZE = 0.

(** The [k]-th frame below the pool: the allocator hands them out in this
    order. *)
Definition table_of (k : Z) : Z := pool mc - k * PAGE_SIZE.

(** The root table of the walk for [a]. *)
Definition root_of (a : Z) : Z := if Z.testbit a 63 then table_of 2 else table_of 1.

(** The indices of the walk for [a] in the tables of the four levels. *)
Definition index0 (a : Z) : Z := (a / ARM64_TTL1_RANGE) mod 512.
Definition index1 (a : Z) : Z := (a mod ARM64_TTL1_RANGE) / ARM64_TTL2_RANGE.
Definition index2 (a : Z) : Z := (a mod ARM64_TTL2_RANGE) / ARM64_TTL3_RANGE.
Definition index3 (a : Z) : Z := (a mod ARM64_TTL3_RANGE) / PAGE_SIZE.

(** Memory after [mmu_context_create], and after each table that the first
    mapping adds. *)
Definition memory1 : memory :=
  memset (memset (mem mc) (table_of 1) 0 PAGE_SIZE) (table_of 2) 0 PAGE_SIZE.

Definition memory2 : memory :=
  set_entry (memset memory1 (table_of 3) 0 PAGE_SIZE) (root_of virt) (index0 virt)
            (table_of 3 + 3).

Definition memory3 : memory :=
  set_entry (memset memory2 (table_of 4) 0 PAGE_SIZE) (table_of 3) (index1 virt)
            (table_of 4 + 3).

Definition memory4 : memory :=
  set_entry (memset memory3 (table_of 5) 0 PAGE_SIZE) (table_of 4) (index2 virt)
            (table_of 5 + 3).

Definition memory5 : memory :=
  set_entry memory4 (table_of 5) (index3 virt) (phys + 1795).

Lemma index_bounds a :
  0 <= index0 a < 512 /\ 0 <= index1 a < 512 /\ 0 <= index2 a < 512 /\ 0 <= index3 a < 512.
Proof.
  unfold index0, index1, index2, index3, ARM64_TTL1_RANGE, ARM64_TTL2_RANGE,
    ARM64_TTL3_RANGE, PAGE_SIZE.
  repeat split; Z.div_mod_to_equations; lia.
Qed.

Lemma context_created :
  mmu_context_create mc pt
  = (Context (table_of 1) (table_of 2) pt, Machine memory1 (table_of 2)).
Proof.
  unfold mmu_context_create, allocate_structure, memory1, table_of. cbn [mem pool].
  unfold PAGE_SIZE in *. change (2 ^ 47) with 140737488355328 in M_room.
  rewrite (wrap64_small (pool mc - 4096))
    by (unfold is_uint64; change (2 ^ 64) with 18446744073709551616; lia).
  rewrite (wrap64_small (pool mc - 4096 - 4096))
    by (unfold is_uint64; change (2 ^ 64) with 18446744073709551616; lia).
  replace (pool mc - 1 * 4096) with (pool mc - 4096) by lia.
  replace (pool mc - 2 * 4096) with (pool mc - 4096 - 4096) by lia.
  reflexivity.
Qed.

(** [next_table] on an entry that is not present takes the next frame. *)
Lemma next_table_frame m ctx table i k :
  1 <= k <= 4 ->
  has_flag (entry m table i) ARM64_TTE_PRESENT = false ->
  next_table (Machine m (table_of k)) ctx table i true
  = (table_of (k + 1),
     Machine (set_entry (memset m (table_of (k + 1)) 0 PAGE_SIZE) table i
                        (table_of (k + 1) + 3))
             (table_of (k + 1))).
Proof.
  intros Hk Hnp. unfold table_of in *. unfold PAGE_SIZE in *.
  change (2 ^ 47) with 140737488355328 in M_room.
  rewrite next_table_alloc; cbn [mem pool].
  - replace (pool mc - k * 4096 - 4096) with (pool mc - (k + 1) * 4096) by lia. reflexivity.
  - exact Hnp.
  - Z.div_mod_to_equations. lia.
  - change (2 ^ 47) with 140737488355328. nia.
Qed.

Ltac frame_arith :=
  unfold root_of, table_of, PAGE_SIZE in *;
  repeat match goal with
         | |- context [Z.testbit ?a 63] => destruct (Z.testbit a 63)
         end;
  lia.

Lemma root_empty a j : 0 <= j < 512 -> entry memory1 (root_of a) j = 0.
Proof.
  intros Hj. unfold memory1, root_of. destruct (Z.testbit a 63).
  - apply entry_memset_zero; frame_arith.
  - rewrite entry_memset_other by frame_arith. apply entry_memset_zero; frame_arith.
Qed.

Lemma no_flag_0 mask : has_flag 0 mask = false.
Proof. reflexivity. Qed.

Lemma get_ttl2_first :
  get_ttl2 (Machine memory1 (table_of 2)) (Context (table_of 1) (table_of 2) pt) virt true
  = (table_of 4, Machine memory3 (table_of 4)).
Proof.
  pose proof (index_bounds virt) as (Hi0 & Hi1 & Hi2 & Hi3).
  unfold get_ttl2. cbn [negb ttbr0 ttbr1 mem]. rewrite !andb_false_r, has_flag_top.
  fold (root_of virt). fold (index0 virt). fold (index1 virt).
  rewrite (next_table_frame memory1 _ (root_of virt) (index0 virt) 2 ltac:(lia))
    by (rewrite root_empty by lia; reflexivity).
  change (2 + 1) with 3. fold memory2. cbn [mem].
  rewrite andb_false_r.
  assert (E : entry memory2 (table_of 3) (index1 virt) = 0).
  { unfold memory2. rewrite entry_set_other by frame_arith. apply entry_memset_zero; frame_arith. }
  rewrite (next_table_frame memory2 _ (table_of 3) (index1 virt) 3 ltac:(lia))
    by (rewrite E; reflexivity).
  reflexivity.
Qed.

Lemma map_small_first :
  map_small (Machine memory1 (table_of 2)) (Context (table_of 1) (table_of 2) pt) virt phys
  = Some (Machine memory5 (table_of 5)).
Proof.
  pose proof (index_bounds virt) as (Hi0 & Hi1 & Hi2 & Hi3).
  unfold map_small. rewrite M_valign, M_palign. change (0 =? 0) with true. cbn [negb orb].
  rewrite get_ttl2_first. fold (index2 virt). fold (index3 virt).
  assert (E : entry memory3 (table_of 4) (index2 virt) = 0).
  { unfold memory3. rewrite entry_set_other by frame_arith. apply entry_memset_zero; frame_arith. }
  rewrite (next_table_frame memory3 _ (table_of 4) (index2 virt) 4 ltac:(lia))
    by (rewrite E; reflexivity).
  change (4 + 1) with 5. fold memory4. cbn [mem pool].
  assert (Ev : Z.lor (Z.lor (Z.lor (Z.lor (Z.lor phys ARM64_TTE_PRESENT) ARM64_TTE_PAGE)
                                   ARM64_TTE_AF) ARM64_TTE_SH_INNER_SHAREABLE)
                     ARM64_TTE_AP_P_RW_U_NA = phys + 1795).
  { rewrite <- !Z.lor_assoc.
    change (Z.lor ARM64_TTE_PRESENT
              (Z.lor ARM64_TTE_PAGE
                 (Z.lor ARM64_TTE_AF
                    (Z.lor ARM64_TTE_SH_INNER_SHAREABLE ARM64_TTE_AP_P_RW_U_NA)))) with 1795.
    apply lor_flags; unfold PAGE_SIZE in *; lia. }
  rewrite Ev. reflexivity.
Qed.

(** What the tables hold after the first mapping: one entry each. *)
Lemma read_root a j :
  0 <= j < 512 ->
  entry memory5 (root_of a) j
  = if Bool.eqb (Z.testbit a 63) (Z.testbit virt 63) && (j =? index0 virt)
    then table_of 3 + 3 else 0.
Proof.
  intros Hj. pose proof (index_bounds virt) as (Hi0 & Hi1 & Hi2 & Hi3).
  unfold memory5. rewrite entry_set_other by frame_arith.
  unfold memory4. rewrite entry_set_other, entry_memset_other by frame_arith.
  unfold memory3. rewrite entry_set_other, entry_memset_other by frame_arith.
  unfold memory2.
  destruct (Bool.eqb (Z.testbit a 63) (Z.testbit virt 63)) eqn:Eb.
  - apply Bool.eqb_prop in Eb. unfold root_of. rewrite Eb. fold (root_of virt).
    destruct (Z.eqb_spec j (index0 virt)) as [->|Hne]; cbn [andb].
    + apply entry_set_same. unfold table_of, PAGE_SIZE in *.
      change (2 ^ 47) with 140737488355328 in *. change (2 ^ 64) with 18446744073709551616.
      lia.
    + rewrite entry_set_other by frame_arith. rewrite entry_memset_other by frame_arith.
      apply root_empty, Hj.
  - cbn [andb]. rewrite entry_set_other.
    + rewrite entry_memset_other by frame_arith. apply root_empty, Hj.
    + unfold root_of, table_of, PAGE_SIZE in *.
      destruct (Z.testbit a 63), (Z.testbit virt 63); try discriminate Eb; lia.
Qed.

Lemma read_table3 j :
  0 <= j < 512 ->
  entry memory5 (table_of 3) j = if j =? index1 virt then table_of 4 + 3 else 0.
Proof.
  intros Hj. pose proof (index_bounds virt) as (Hi0 & Hi1 & Hi2 & Hi3).
  unfold memory5. rewrite entry_set_other by frame_arith.
  unfold memory4. rewrite entry_set_other, entry_memset_other by frame_arith.
  unfold memory3.
  destruct (Z.eqb_spec j (index1 virt)) as [->|Hne].
  - apply entry_set_same. unfold table_of, PAGE_SIZE in *.
    change (2 ^ 47) with 140737488355328 in *. change (2 ^ 64) with 18446744073709551616.
    lia.
  - rewrite entry_set_other, entry_memset_other by frame_arith.
    unfold memory2. rewrite entry_set_other by frame_arith.
    apply entry_memset_zero; frame_arith.
Qed.

Lemma read_table4 j :
  0 <= j < 512 ->
  entry memory5 (table_of 4) j = if j =? index2 virt then table_of 5 + 3 else 0.
Proof.
  intros Hj. pose proof (index_bounds virt) as (Hi0 & Hi1 & Hi2 & Hi3).
  unfold memory5. rewrite entry_set_other by frame_arith.
  unfold memory4.
  destruct (Z.eqb_spec j (index2 virt)) as [->|Hne].
  - apply entry_set_same. unfold table_of, PAGE_SIZE in *.
    change (2 ^ 47) with 140737488355328 in *. change (2 ^ 64) with 18446744073709551616.
    lia.
  - rewrite entry_set_other, entry_memset_other by frame_arith.
    unfold memory3. rewrite entry_set_other by frame_arith.
    apply entry_memset_zero; frame_arith.
Qed.

Lemma read_table5 j :
  0 <= j < 512 ->
  entry memory5 (table_of 5) j = if j =? index3 virt then phys + 1795 else 0.
Proof.
  intros Hj. pose proof (index_bounds virt) as (Hi0 & Hi1 & Hi2 & Hi3).
  unfold memory5.
  destruct (Z.eqb_spec j (index3 virt)) as [->|Hne].
  - apply entry_set_same. change (2 ^ 47) with 140737488355328 in *.
    change (2 ^ 64) with 18446744073709551616. lia.
  - rewrite entry_set_other by frame_arith.
    unfold memory4. rewrite entry_set_other by frame_arith.
    apply entry_memset_zero; frame_arith.
Qed.

Lemma table_entry k :
  3 <= k <= 5 ->
  Z.land (table_of k + 3) ARM64_TTE_ADDR_MASK = table_of k /\
  has_flag (table_of k + 3) ARM64_TTE_PRESENT = true /\
  has_flag (table_of k + 3) ARM64_TTE_TABLE = true /\
  table_of k <> 0.
Proof.
  intros Hk.
  assert (Hr : 0 < table_of k < 2 ^ 47 /\ table_of k mod 4096 = 0).
  { unfold table_of, PAGE_SIZE in *. change (2 ^ 47) with 140737488355328 in *.
    split; [nia | Z.div_mod_to_equations; nia]. }
  destruct Hr as [Hr Ha].
  destruct (entry_fields (table_of k) 3 ltac:(lia) Ha ltac:(lia)) as (H1 & H2 & H3).
  split; [exact H1|]. split; [exact H2|]. split; [exact H3 | lia].
Qed.

(** The addresses whose walk takes the path of [virt]. *)
Definition same_path (a : Z) : bool :=
  Bool.eqb (Z.testbit a 63) (Z.testbit virt 63)
  && (index0 a =? index0 virt) && (index1 a =? index1 virt)
  && (index2 a =? index2 virt) && (index3 a =? index3 virt).

Lemma walk_first a :
  walk (Context (table_of 1) (table_of 2) pt) memory5 a
  = if same_path a
    then Some (phys + a mod PAGE_SIZE, PAGE_SIZE - a mod PAGE_SIZE, table_of 4, table_of 5)
    else None.
Proof.
  pose proof (index_bounds a) as (Hi0 & Hi1 & Hi2 & Hi3).
  destruct (table_entry 3 ltac:(lia)) as (M3 & P3 & T3 & N3).
  destruct (table_entry 4 ltac:(lia)) as (M4 & P4 & T4 & N4).
  destruct (table_entry 5 ltac:(lia)) as (M5 & P5 & T5 & N5).
  assert (Hc : cold2 (Context (table_of 1) (table_of 2) pt) memory5 a
               = if Bool.eqb (Z.testbit a 63) (Z.testbit virt 63)
                    && (index0 a =? index0 virt) && (index1 a =? index1 virt)
                 then table_of 4 else 0).
  { unfold cold2. cbn [ttbr0 ttbr1]. rewrite has_flag_top.
    fold (root_of a). fold (index0 a). fold (index1 a).
    rewrite read_root by lia.
    destruct (Bool.eqb (Z.testbit a 63) (Z.testbit virt 63) && (index0 a =? index0 virt));
      [|reflexivity].
    rewrite P3, M3. cbn [negb andb]. rewrite read_table3 by lia.
    destruct (index1 a =? index1 virt); [|reflexivity].
    rewrite P4, M4. reflexivity. }
  rewrite walk_cold, Hc. unfold same_path.
  destruct (Bool.eqb (Z.testbit a 63) (Z.testbit virt 63)
            && (index0 a =? index0 virt) && (index1 a =? index1 virt)); [|reflexivity].
  destruct (Z.eqb_spec (table_of 4) 0) as [E|_]; [contradiction|].
  unfold ttl2_entry. rewrite Hc. fold (index2 a). rewrite read_table4 by lia.
  cbn [andb]. unfold leaf.
  destruct (index2 a =? index2 virt); [|reflexivity].
  rewrite P5, T5, M5. cbn [negb].
  destruct (Z.eqb_spec (table_of 5) 0) as [E|_]; [contradiction|].
  fold (index3 a). rewrite read_table5 by lia.
  destruct (index3 a =? index3 virt); [|reflexivity].
  destruct (entry_fields phys 1795 M_phys ltac:(exact M_palign) ltac:(lia)) as (Hm & Hp & _).
  rewrite Hp, Hm. reflexivity.
Qed.

(** Two canonical addresses take the same path only in the same page. *)
Lemma same_path_page a :
  0 <= a < 2 ^ 64 -> top16_uniform a -> top16_uniform virt ->
  same_path a = true <-> a / PAGE_SIZE = virt / PAGE_SIZE.
Proof.
  clear M_pool M_room M_phys M_palign M_valign.
  intros Ha Ua Uv. unfold same_path.
  rewrite !andb_true_iff, !Z.eqb_eq, Bool.eqb_true_iff, !testbit_half by lia.
  unfold index0, index1, index2, index3, ARM64_TTL1_RANGE, ARM64_TTL2_RANGE,
    ARM64_TTL3_RANGE, PAGE_SIZE, top16_uniform in *.
  change (2 ^ 64) with 18446744073709551616 in *. change (2 ^ 48) with 281474976710656 in *.
  change (2 ^ 63) with 9223372036854775808. change (2 ^ 16 - 1) with 65535 in *.
  assert (Ho : forall x, 0 <= x < 18446744073709551616 ->
                 Z.odd (x / 9223372036854775808) = (9223372036854775808 <=? x)).
  { intros x Hx. destruct (Z.leb_spec 9223372036854775808 x).
    - replace (x / 9223372036854775808) with 1 by (Z.div_mod_to_equations; lia). reflexivity.
    - rewrite Z.div_small by lia. reflexivity. }
  rewrite !Ho by lia.
  split.
  - intros ((((Hb & H0) & H1) & H2) & H3).
    assert (Ht : a / 281474976710656 = virt / 281474976710656).
    { destruct (Z.leb_spec 9223372036854775808 a), (Z.leb_spec 9223372036854775808 virt);
        try discriminate Hb; Z.div_mod_to_equations; lia. }
    Z.div_mod_to_equations. lia.
  - intros E.
    assert (Ht : a / 281474976710656 = virt / 281474976710656)
      by (Z.div_mod_to_equations; lia).
    repeat split.
    + destruct (Z.leb_spec 9223372036854775808 a), (Z.leb_spec 9223372036854775808 virt);
        try reflexivity; exfalso; Z.div_mod_to_equations; lia.
    + f_equal. Z.div_mod_to_equations. lia.
    + Z.div_mod_to_equations. lia.
    + Z.div_mod_to_equations. lia.
    + Z.div_mod_to_equations. lia.
Qed.

Lemma write64_outside m c v x : ~ (c <= x < c + 8) -> write64 m c v x = m x.
Proof.
  intros H. unfold write64.
  destruct (Z.leb_spec c x); [|reflexivity].
  destruct (Z.ltb_spec x (c + 8)); [lia | reflexivity].
Qed.

(** The first mapping writes only the five frames of its tables. *)
Lemma memory5_outside x :
  ~ (table_of 5 <= x < pool mc) -> memory5 x = mem mc x.
Proof.
  intros Hx. pose proof (index_bounds virt) as (Hi0 & Hi1 & Hi2 & Hi3).
  unfold memory5, memory4, memory3, memory2, memory1, set_entry.
  rewrite write64_outside by frame_arith. rewrite write64_outside by frame_arith.
  rewrite memset_outside by frame_arith. rewrite write64_outside by frame_arith.
  rewrite memset_outside by frame_arith. rewrite write64_outside by frame_arith.
  rewrite !memset_outside by frame_arith. reflexivity.
Qed.

(** Every table entry that a walk reads after the first mapping lies in one
    of the five table frames. *)
Lemma footprint_first a c :
  In c (footprint (Context (table_of 1) (table_of 2) pt) memory5 a) ->
  table_of 5 <= c /\ c + 8 <= pool mc.
Proof.
  pose proof (index_bounds a) as (Hi0 & Hi1 & Hi2 & Hi3).
  destruct (table_entry 3 ltac:(lia)) as (M3 & P3 & T3 & N3).
  destruct (table_entry 4 ltac:(lia)) as (M4 & P4 & T4 & N4).
  destruct (table_entry 5 ltac:(lia)) as (M5 & P5 & T5 & N5).
  unfold footprint. cbn [ttbr0 ttbr1]. rewrite has_flag_top.
  fold (root_of a). fold (index0 a). fold (index1 a). fold (index2 a). fold (index3 a).
  change (read64 memory5 (root_of a + 8 * index0 a))
    with (entry memory5 (root_of a) (index0 a)).
  rewrite read_root by lia.
  intros [<-|Hc]; [frame_arith|]. revert Hc.
  destruct (Bool.eqb (Z.testbit a 63) (Z.testbit virt 63) && (index0 a =? index0 virt));
    [|intros []].
  rewrite P3, M3.
  change (read64 memory5 (table_of 3 + 8 * index1 a))
    with (entry memory5 (table_of 3) (index1 a)).
  rewrite read_table3 by lia.
  intros [<-|Hc]; [frame_arith|]. revert Hc.
  destruct (index1 a =? index1 virt); [|intros []].
  rewrite P4, M4.
  change (read64 memory5 (table_of 4 + 8 * index2 a))
    with (entry memory5 (table_of 4) (index2 a)).
  rewrite read_table4 by lia.
  intros [<-|Hc]; [frame_arith|]. revert Hc.
  destruct (index2 a =? index2 virt); [|intros []].
  rewrite P5, T5, M5. cbn [andb].
  intros [<-|[]]. frame_arith.
Qed.

End FirstMapping.

(** X27: the first page mapped into a context made by [mmu_context_create]
    resolves, and nothing else does. [mmu_map] of one 4-KiB page returns true
    and takes three more frames below the pool for tables; afterwards the walk
    for each address of the page finds its byte of the frame [phys], the walk
    for a canonical address of any other page finds nothing, and memory outside
    the five table frames is as before. The pool is page-aligned, lies above
    the sixth frame of memory and, like [phys], below 2^47. *)
Theorem first_mapping_resolves (mc : Arm64.machine) (pt virt phys : Z) :
  Arm64.pool mc mod PAGE_SIZE = 0 ->
  5 * PAGE_SIZE < Arm64.pool mc <= 2 ^ 47 ->
  0 <= virt < 2 ^ 64 -> virt mod PAGE_SIZE = 0 ->
  Arm64.is_canonical_range virt PAGE_SIZE = true ->
  0 <= phys < 2 ^ 47 -> phys mod PAGE_SIZE = 0 ->
  let ctx := fst (Arm64.mmu_context_create mc pt) in
  let mc1 := snd (Arm64.mmu_context_create mc pt) in
  exists mc2,
    Arm64.mmu_map mc1 ctx virt phys PAGE_SIZE = Some (true, mc2) /\
    Arm64.pool mc2 = Arm64.pool mc - 5 * PAGE_SIZE /\
    (forall off, 0 <= off < PAGE_SIZE ->
       exists t2 t3,
         walk ctx (Arm64.mem mc2) (virt + off) = Some (phys + off, PAGE_SIZE - off, t2, t3)) /\
    (forall a, 0 <= a < 2 ^ 64 -> Arm64.is_canonical_addr a = true ->
       a / PAGE_SIZE <> virt / PAGE_SIZE -> walk ctx (Arm64.mem mc2) a = None) /\
    (forall x, ~ (Arm64.pool mc - 5 * PAGE_SIZE <= x < Arm64.pool mc) ->
       Arm64.mem mc2 x = Arm64.mem mc x).
Proof.
  intros M_pool M_room M_virt M_valign M_can M_phys M_palign ctx mc1.
  unfold ctx, mc1. rewrite context_created by assumption. cbn [fst snd].
  exists (Arm64.Machine (memory5 mc virt phys) (table_of mc 5)).
  assert (Uv : top16_uniform virt).
  { apply (is_canonical_range_spec virt PAGE_SIZE M_virt) in M_can. apply M_can. }
  split.
  - rewrite mmu_map_one_page by assumption.
    rewrite map_small_first by assumption.
    reflexivity.
  - split; [reflexivity|]. cbn [Arm64.mem]. split; [|split].
    + intros off Hoff. exists (table_of mc 4), (table_of mc 5).
      rewrite walk_first by assumption.
      replace (same_path virt (virt + off)) with true.
      * assert (Em : (virt + off) mod PAGE_SIZE = off)
          by (unfold PAGE_SIZE in *; Z.div_mod_to_equations; lia).
        rewrite Em. reflexivity.
      * symmetry. apply <- same_path_page; try assumption;
          unfold top16_uniform, PAGE_SIZE in *;
          change (2 ^ 64) with 18446744073709551616 in *;
          change (2 ^ 48) with 281474976710656 in *; change (2 ^ 16 - 1) with 65535 in *;
          Z.div_mod_to_equations; lia.
    + intros a Ha Hca Hne.
      rewrite walk_first by assumption.
      destruct (same_path virt a) eqn:E; [|reflexivity].
      exfalso. apply Hne. apply -> same_path_page; try eassumption.
      apply is_canonical_addr_spec; assumption.
    + intros x Hx. apply memory5_outside; assumption.
Qed.

Lemma first_mapping_resolves_witness :
  exists mc2,
    Arm64.mmu_map example_tables example_context 0x40000000 0x100000 PAGE_SIZE
      = Some (true, mc2) /\
    Arm64.pool mc2 = 0x80000000 - 5 * PAGE_SIZE /\
    (forall off, 0 <= off < PAGE_SIZE ->
       exists t2 t3,
         walk example_context (Arm64.mem mc2) (0x40000000 + off)
         = Some (0x100000 + off, PAGE_SIZE - off, t2, t3)) /\
    (forall a, 0 <= a < 2 ^ 64 -> Arm64.is_canonical_addr a = true ->
       a / PAGE_SIZE <> 0x40000000 / PAGE_SIZE ->
       walk example_context (Arm64.mem mc2) a = None) /\
    (forall x, ~ (0x80000000 - 5 * PAGE_SIZE <= x < 0x80000000) ->
       Arm64.mem mc2 x = 0).
Proof.
  apply (first_mapping_resolves example_machine 3 0x40000000 0x100000
           ltac:(reflexivity) ltac:(unfold PAGE_SIZE; cbn; lia) ltac:(lia) ltac:(reflexivity)
           ltac:(vm_compute; reflexivity) ltac:(lia) ltac:(reflexivity)).
Defined.

(** A range inside a page of a canonical one-page range is canonical. *)
Lemma canonical_within_page virt o n :
  0 <= virt < 2 ^ 64 -> virt mod PAGE_SIZE = 0 ->
  Arm64.is_canonical_range virt PAGE_SIZE = true ->
  0 <= o -> 0 < n -> o + n <= PAGE_SIZE ->
  Arm64.is_canonical_range (virt + o) n = true.
Proof.
  intros Hv Ha Hc Ho Hn Hon.
  apply (is_canonical_range_spec virt PAGE_SIZE Hv) in Hc. destruct Hc as (Uv & _ & _).
  unfold PAGE_SIZE in *. change (2 ^ 64) with 18446744073709551616 in *.
  assert (Hin : forall d, 0 <= d < 4096 ->
            (virt + d) / 2 ^ 48 = virt / 2 ^ 48 /\ 0 <= virt + d < 18446744073709551616).
  { intros d Hd. change (2 ^ 48) with 281474976710656. Z.div_mod_to_equations. lia. }
  destruct (Hin o ltac:(lia)) as (E1 & R1).
  destruct (Hin (o + n - 1) ltac:(lia)) as (E2 & R2).
  apply is_canonical_range_spec; [change (2 ^ 64) with 18446744073709551616; lia|].
  replace (virt + o + n - 1) with (virt + (o + n - 1)) by lia.
  rewrite wrap64_small by (unfold is_uint64; change (2 ^ 64) with 18446744073709551616; lia).
  rewrite !testbit_half by lia. unfold top16_uniform in *. rewrite E1, E2.
  split; [exact Uv|]. split; [exact Uv | reflexivity].
Qed.

(** X28: a page mapped into a fresh context can be filled through it: after
    [mmu_context_create] and [mmu_map] of one page to the frame [phys], which
    lies outside the five table frames, [mmu_memset] over a non-empty range
    inside the page returns true and has filled exactly the bytes of the frame
    at the offsets of the range; every other byte of memory is as [mmu_map]
    left it. *)
Theorem mapped_page_is_filled (mc : Arm64.machine) (pt virt phys o n v : Z) :
  Arm64.pool mc mod PAGE_SIZE = 0 ->
  5 * PAGE_SIZE < Arm64.pool mc <= 2 ^ 47 ->
  0 <= virt < 2 ^ 64 -> virt mod PAGE_SIZE = 0 ->
  Arm64.is_canonical_range virt PAGE_SIZE = true ->
  0 <= phys < 2 ^ 47 -> phys mod PAGE_SIZE = 0 ->
  phys + PAGE_SIZE <= Arm64.pool mc - 5 * PAGE_SIZE \/ Arm64.pool mc <= phys ->
  0 <= o -> 0 < n -> o + n <= PAGE_SIZE ->
  let ctx := fst (Arm64.mmu_context_create mc pt) in
  let mc1 := snd (Arm64.mmu_context_create mc pt) in
  exists mc2 m',
    Arm64.mmu_map mc1 ctx virt phys PAGE_SIZE = Some (true, mc2) /\
    Arm64.mmu_memset (Arm64.mem mc2) ctx (virt + o) v n = Some (true, m') /\
    forall x, m' x = if (phys + o <=? x) && (x <? phys + o + n)
                     then v mod 256 else Arm64.mem mc2 x.
Proof.
  intros M_pool M_room M_virt M_valign M_can M_phys M_palign M_frame Ho Hn Hon ctx mc1.
  unfold ctx, mc1. rewrite context_created by assumption. cbn [fst snd].
  exists (Arm64.Machine (memory5 mc virt phys) (table_of mc 5)).
  assert (Uv : top16_uniform virt).
  { apply (is_canonical_range_spec virt PAGE_SIZE M_virt) in M_can. apply M_can. }
  assert (Hpath : forall b, virt <= b < virt + PAGE_SIZE -> same_path virt b = true).
  { intros b Hb. apply <- same_path_page; try assumption;
      unfold top16_uniform, PAGE_SIZE in *;
      change (2 ^ 64) with 18446744073709551616 in *;
      change (2 ^ 48) with 281474976710656 in *; change (2 ^ 16 - 1) with 65535 in *;
      Z.div_mod_to_equations; lia. }
  assert (Hwalk : forall b, virt <= b < virt + PAGE_SIZE ->
            walk (Arm64.Context (table_of mc 1) (table_of mc 2) pt) (memory5 mc virt phys) b
            = Some (phys + (b - virt), PAGE_SIZE - (b - virt), table_of mc 4, table_of mc 5)).
  { intros b Hb. rewrite walk_first by assumption. rewrite (Hpath b Hb).
    assert (Em : b mod PAGE_SIZE = b - virt)
      by (unfold PAGE_SIZE in *; Z.div_mod_to_equations; lia).
    rewrite Em. reflexivity. }
  assert (Hphys : forall b, virt <= b < virt + PAGE_SIZE ->
            phys_of (Arm64.Context (table_of mc 1) (table_of mc 2) pt)
                    (memory5 mc virt phys) b = phys + (b - virt)).
  { intros b Hb. unfold phys_of. rewrite (Hwalk b Hb). reflexivity. }
  destruct (mem_op_range (Arm64.Context (table_of mc 1) (table_of mc 2) pt)
              (memory5 mc virt phys) (virt + o) n Arm64.MMU_MEM_SET v)
    as (m' & Hrun & Hdone & Hrest).
  - lia.
  - lia.
  - unfold PAGE_SIZE in *. change (2 ^ 64) with 18446744073709551616 in *.
    Z.div_mod_to_equations. lia.
  - intros b Hb. rewrite Hwalk by lia. do 4 eexists. split; [reflexivity | lia].
  - intros b a' c t Hb Ha' Hc Ht. cbn [target]. rewrite Hphys by lia.
    apply footprint_first in Hc; try assumption.
    unfold table_of, PAGE_SIZE in *. lia.
  - intros Hop. contradiction.
  - apply canonical_within_page; assumption.
  - exists m'. split.
    + rewrite mmu_map_one_page by assumption. rewrite map_small_first by assumption.
      reflexivity.
    + cbn [Arm64.mem]. split; [exact Hrun|]. intros x.
      destruct (Z.leb_spec (phys + o) x) as [H1|H1];
        [destruct (Z.ltb_spec x (phys + o + n)) as [H2|H2]|]; cbn [andb].
      * specialize (Hdone (virt + (x - phys)) ltac:(lia)). cbn [target data] in Hdone.
        rewrite Hphys in Hdone by lia.
        replace (phys + (virt + (x - phys) - virt)) with x in Hdone by lia. exact Hdone.
      * apply Hrest. intros b Hb. cbn [target]. rewrite Hphys by lia. lia.
      * apply Hrest. intros b Hb. cbn [target]. rewrite Hphys by lia. lia.
Qed.

Lemma mapped_page_is_filled_witness :
  exists mc2 m',
    Arm64.mmu_map example_tables example_context 0x40000000 0x100000 PAGE_SIZE
      = Some (true, mc2) /\
    Arm64.mmu_memset (Arm64.mem mc2) example_context (0x40000000 + 0xf00) 0xAB 0x100
      = Some (true, m') /\
    forall x, m' x = if (0x100000 + 0xf00 <=? x) && (x <? 0x100000 + 0xf00 + 0x100)
                     then 0xAB mod 256 else Arm64.mem mc2 x.
Proof.
  apply (mapped_page_is_filled example_machine 3 0x40000000 0x100000 0xf00 0x100 0xAB
           ltac:(reflexivity) ltac:(unfold PAGE_SIZE; cbn; lia) ltac:(lia) ltac:(reflexivity)
           ltac:(vm_compute; reflexivity) ltac:(lia) ltac:(reflexivity)
           ltac:(left; unfold PAGE_SIZE; cbn; lia) ltac:(lia) ltac:(lia)
           ltac:(unfold PAGE_SIZE; lia)).
Defined.
